(** * Giles: a production-rule compiler -- verification of the front end

    A shallow embedding of the parts of the Giles compiler that the
    specification makes claims about, and of the code around them:

    - [CaselessString] : equality and [partition] of
                         [giles/caseless_string.py];
    - [Validate]       : the validators of [giles/validate.py];
    - [Expression]     : values, AST nodes, [type_check] and the operator
                         and function methods of [giles/expression.py],
                         together with [Parser.parse] and [Parser.evaluate]
                         of [giles/pyre.py];
    - [Giles]          : the constant, parameter and rule loops, the
                         marking of the output facts and the cycle checker
                         of [giles/giles.py];
    - [SqliteBackend]  : [find_locals], [add_index], [generate_join],
                         [generate_predicate], [only_once], the
                         synthetic-assignment pass and the index emission
                         of [giles/sqlite_backend.py].

    Python values are modelled as the code has them: [int] is [Z], [float]
    is an IEEE 754 binary64 number ([PrimFloat.float]), [str] is [string],
    a [dict] is an association list in insertion order (the order Python
    iterates it in), a raised exception is the [Raise] case of [result]. *)

From Stdlib Require Import List ZArith String Ascii Bool Lia Arith DecimalString.
From Stdlib Require Import Floats.
Import ListNotations.
Open Scope string_scope.
Open Scope list_scope.

Set Implicit Arguments.
Set Warnings "-register-all".

(** String concatenation, kept apart from list concatenation. *)
Infix "+++" := String.append (at level 60, right associativity).

(* ================================================================== *)
(** * Python exceptions and results *)
(* ================================================================== *)

(** The exceptions the modelled code raises or lets escape.  [Exception]
    carries the message of a plain [raise Exception("...")]; the
    exceptions of the interpreter whose text depends on where they were
    raised carry that text.  The key of a [KeyError] is a caseless string,
    [KeyErrorNone] is [KeyError(None)]; [ExtraInputException] carries the
    text that its [__init__] formats into the message. *)
Inductive exn : Type :=
| Exception (message : string)
| ValidationException (message location : string)
| MissingOperandException (operator : string) (line : nat)
| UnknownOperatorException (operator : string) (line : nat)
| UnknownFunctionException (name : string) (line : nat)
| MismatchedParenthesesException (line : nat)
| KeyError (key : string)
| KeyErrorNone
| IndexError
| ZeroDivisionError (message : string)
| ValueError (message : string)
| OverflowError (message : string)
| AttributeError
| TypeError (message : string)
| RecursionError
| ExtraInputException (extra : string)
| ReError (message : string).

(** The [TypeError] of an operator applied to operands it has no
    method for.  Where the model raises it, a type check has already
    refused such operands: the text is never seen. *)
Definition bad_operands : exn := TypeError "unsupported operand type(s)".

(** [CaselessString.__init__] on what is neither a [str] nor a
    [CaselessString]. *)
Definition not_a_string : exn := TypeError "string must be a str or CaselessString".

Inductive result (A : Type) : Type :=
| Ok (a : A)
| Raise (e : exn).

Arguments Ok {A} a.
Arguments Raise {A} e.

Definition bind {A B : Type} (m : result A) (k : A -> result B) : result B :=
  match m with
  | Ok a => k a
  | Raise e => Raise e
  end.

Declare Scope py_scope.
Delimit Scope py_scope with py.
Notation "x <- m ;; k" := (bind m (fun x => k))
  (at level 61, m at next level, right associativity) : py_scope.
Notation "m ;;; k" := (bind m (fun _ => k))
  (at level 61, right associativity) : py_scope.
Open Scope py_scope.

Definition is_ok {A : Type} (r : result A) : bool :=
  match r with Ok _ => true | Raise _ => false end.

(* ================================================================== *)
(** * Strings *)
(* ================================================================== *)

(** [str(n)] for a non-negative and for an arbitrary Python int. *)
Definition str_of_nat (n : nat) : string := NilZero.string_of_uint (Nat.to_uint n).
Definition str_of_Z (z : Z) : string := NilZero.string_of_int (Z.to_int z).

(** [sep.join(l)] *)
Fixpoint join (sep : string) (l : list string) : string :=
  match l with
  | [] => ""
  | [x] => x
  | x :: rest => x +++ sep +++ join sep rest
  end.

(** [s.lower()] on the ASCII range; identifiers of the rule language are
    restricted to [[A-Za-z][A-Za-z0-9_]*]. *)
Definition lower_ascii (c : ascii) : ascii :=
  let n := nat_of_ascii c in
  if (65 <=? n)%nat && (n <=? 90)%nat then ascii_of_nat (n + 32) else c.

Fixpoint str_lower (s : string) : string :=
  match s with
  | EmptyString => EmptyString
  | String c rest => String (lower_ascii c) (str_lower rest)
  end.

(** The strings on which the model of [casefold] and [len] is exact:
    those of ASCII characters only, where [casefold] lowers the letters
    and changes nothing else, and where the characters counted are the
    code points. *)
Fixpoint is_ascii (s : string) : bool :=
  match s with
  | EmptyString => true
  | String c rest => (nat_of_ascii c <? 128)%nat && is_ascii rest
  end.

(** Whitespace as [str.strip()] understands it, on the ASCII range. *)
Definition is_space (c : ascii) : bool :=
  let n := nat_of_ascii c in
  ((9 <=? n)%nat && (n <=? 13)%nat) || ((28 <=? n)%nat && (n <=? 32)%nat).

Fixpoint lstrip (s : string) : string :=
  match s with
  | EmptyString => EmptyString
  | String c rest => if is_space c then lstrip rest else s
  end.

Fixpoint rstrip (s : string) : string :=
  match s with
  | EmptyString => EmptyString
  | String c rest =>
      match rstrip rest with
      | EmptyString => if is_space c then EmptyString else String c EmptyString
      | r => String c r
      end
  end.

Definition strip (s : string) : string := rstrip (lstrip s).

(** [s.replace(old, new)] where [old] is a single character. *)
Fixpoint replace_char (old : ascii) (new : string) (s : string) : string :=
  match s with
  | EmptyString => EmptyString
  | String c rest =>
      if Ascii.eqb c old then new +++ replace_char old new rest
      else String c (replace_char old new rest)
  end.

(* ================================================================== *)
(** * giles/caseless_string.py *)
(* ================================================================== *)

Module CaselessString.

(** A [CaselessString] keeps the display form; [__eq__] and [__hash__]
    go through the folded form, [string.casefold()].  The model folds by
    lowering the letters A-Z, which is what [casefold] does on a string
    of ASCII characters ([is_ascii]); on such strings folding keeps the
    length, and the branch of [partition] for a folding that changes it
    is not taken. *)
Definition CS := string.

Definition folded (s : CS) : string := str_lower s.

Definition eqb (a b : CS) : bool := String.eqb (folded a) (folded b).

(** [key in d] for a list of caseless keys. *)
Definition mem (k : CS) (l : list CS) : bool := existsb (eqb k) l.

(** [s.find(sub)] of [str]: the lowest index at which [sub] occurs, or -1. *)
Definition find (s sub : string) : Z :=
  match String.index 0 sub s with
  | Some m => Z.of_nat m
  | None => (-1)%Z
  end.

(** [s[i:j]] of [str]: a negative bound counts from the end, and both
    bounds are brought into the string; [j = None] is the open end. *)
Definition slice_bound (len i : Z) : Z :=
  Z.max 0 (Z.min len (if (i <? 0)%Z then (len + i)%Z else i)).

Definition slice (s : string) (i : Z) (j : option Z) : string :=
  let len := Z.of_nat (String.length s) in
  let lo := slice_bound len i in
  let hi := match j with Some j => slice_bound len j | None => len end in
  substring (Z.to_nat lo) (Z.to_nat (hi - lo)) s.

(** [partition(self, sep)] for a [str] [sep]; an empty separator goes to
    [str.partition], which raises [ValueError]. *)
Definition partition (self : CS) (sep : string) : result (CS * CS * CS) :=
  if (String.length sep =? 0)%nat then Raise (ValueError "empty separator")
  else
    let index := find (folded self) (folded sep) in
    if negb (String.length self =? String.length (folded self))%nat
       || negb (String.length sep =? String.length (folded sep))%nat
    then Ok (slice (folded self) 0 (Some index), folded sep,
             slice (folded self) (index + Z.of_nat (String.length (folded sep))) None)
    else Ok (slice self 0 (Some index), sep,
             slice self (index + Z.of_nat (String.length sep)) None).

(** [rpartition(self, sep)]: the source searches with [find] here too. *)
Definition rpartition (self : CS) (sep : string) : result (CS * CS * CS) :=
  if (String.length sep =? 0)%nat then Raise (ValueError "empty separator")
  else
    let index := find (folded self) (folded sep) in
    if negb (String.length self =? String.length (folded self))%nat
       || negb (String.length sep =? String.length (folded sep))%nat
    then Ok (slice (folded self) 0 (Some index), folded sep,
             slice (folded self) (index + Z.of_nat (String.length (folded sep))) None)
    else Ok (slice self 0 (Some index), sep,
             slice self (index + Z.of_nat (String.length sep)) None).

End CaselessString.

Abbreviation CS := CaselessString.CS.

(* ================================================================== *)
(** * Dictionaries in insertion order *)
(* ================================================================== *)

Section Dict.
Variable V : Type.

Definition dict := list (CS * V).

(** [d[k]] / [d.get(k)] *)
Fixpoint dict_get (d : dict) (k : CS) : option V :=
  match d with
  | [] => None
  | (k', v) :: rest => if CaselessString.eqb k' k then Some v else dict_get rest k
  end.

(** [k in d] *)
Definition dict_mem (d : dict) (k : CS) : bool :=
  match dict_get d k with Some _ => true | None => false end.

(** [d[k] = v]: an existing key keeps its place (and its first spelling),
    a new key goes last. *)
Fixpoint dict_set (d : dict) (k : CS) (v : V) : dict :=
  match d with
  | [] => [(k, v)]
  | (k', v') :: rest =>
      if CaselessString.eqb k' k then (k', v) :: rest
      else (k', v') :: dict_set rest k v
  end.

(** [del d[k]]: raises [KeyError] when the key is absent. *)
Fixpoint dict_remove (d : dict) (k : CS) : dict :=
  match d with
  | [] => []
  | (k', v') :: rest =>
      if CaselessString.eqb k' k then rest else (k', v') :: dict_remove rest k
  end.

Definition dict_del (d : dict) (k : CS) : result dict :=
  if dict_mem d k then Ok (dict_remove d k) else Raise (KeyError k).

Definition dict_keys (d : dict) : list CS := map fst d.

End Dict.

(* ================================================================== *)
(** * giles/validate.py *)
(* ================================================================== *)

Module Validate.

(** A decoded document value, as the YAML loader hands it over. *)
Inductive pyobj : Type :=
| PyNone
| PyBool (b : bool)
| PyInt (z : Z)
| PyFloat (f : float)
| PyStr (s : string)
| PyExpr (source : string)                 (* a DelayedExpression *)
| PyList (items : list pyobj)
| PyDict (items : list (pyobj * pyobj)).

(** A validator is called with the object and its location; it returns
    the normalised object or raises.  (The [expected] and [actual]
    fields of [ValidationException] only feed its [__str__] and are not
    carried.) *)
Definition validator := pyobj -> string -> result pyobj.

(** [class List]: the constructor arguments. *)
Record List : Type := mkList {
  members : validator;
  min_length : option Z;
  max_length : option Z
}.

(** The loop of [List.__call__]: [result.append(self.members(obj[i],
    "%s[%s]" % (location, i)))] for [i] from [i0]. *)
Fixpoint List_members (m : validator) (location : string) (i : nat)
         (obj : list pyobj) : result (list pyobj) :=
  match obj with
  | [] => Ok []
  | x :: rest =>
      r <- m x (location +++ "[" +++ str_of_nat i +++ "]") ;;
      rs <- List_members m location (S i) rest ;;
      Ok (r :: rs)
  end.

(** [List.__call__(self, obj, location)] *)
Definition List_call (self : List) (obj : pyobj) (location : string)
  : result pyobj :=
  match obj with
  | PyList items =>
      let len := Z.of_nat (List.length items) in
      match min_length self with
      | Some mn =>
          if (len <? mn)%Z then
            Raise (ValidationException
                     ("Expected a list of at least length " +++ str_of_Z mn) location)
          else Ok tt
      | None => Ok tt
      end ;;;
      match max_length self with
      | Some mx =>
          (* the source compares with [<] here as well *)
          if (len <? mx)%Z then
            Raise (ValidationException
                     ("Expected a list of at most length " +++ str_of_Z mx) location)
          else Ok tt
      | None => Ok tt
      end ;;;
      rs <- List_members (members self) location 0 items ;;
      Ok (PyList rs)
  | _ => Raise (ValidationException "Expected a list" location)
  end.

(** [Validator.__call__(self, obj)] returns [obj], but it takes no
    location: called as a validator, with the object and its location, an
    instance of the base class raises the [TypeError] of a call with one
    argument too many. *)
Definition Validator_call : validator :=
  fun _ _ =>
    Raise (TypeError
             "Validator.__call__() takes 2 positional arguments but 3 were given").

(** ** All, Any, Not *)

(** [All.__call__]: every validator is called on [obj], in order; their
    results are dropped and [obj] itself is returned. *)
Fixpoint All_each (validators : list validator) (obj : pyobj) (location : string)
  : result unit :=
  match validators with
  | [] => Ok tt
  | v :: rest => v obj location ;;; All_each rest obj location
  end.

Definition All_call (validators : list validator) : validator :=
  fun obj location => All_each validators obj location ;;; Ok obj.

(** [[x.message for x in exceptions]]: only a [ValidationException] has the
    attribute. *)
Fixpoint messages_of (exceptions : list exn) : result (list string) :=
  match exceptions with
  | [] => Ok []
  | ValidationException message _ :: rest =>
      ms <- messages_of rest ;; Ok (message :: ms)
  | _ :: _ => Raise AttributeError
  end.

(** The loop of [Any.__call__] with the exceptions caught so far. *)
Fixpoint Any_try (validators : list validator) (obj : pyobj) (location : string)
         (exceptions : list exn) : result pyobj :=
  match validators with
  | [] =>
      ms <- messages_of exceptions ;;
      Raise (ValidationException (join " and " ms) location)
  | v :: rest =>
      match v obj location with
      | Ok r => Ok r
      | Raise e => Any_try rest obj location (exceptions ++ [e])
      end
  end.

Definition Any_call (validators : list validator) : validator :=
  fun obj location => Any_try validators obj location [].

(** [Not.__call__]: the bare [except] catches whatever [other] raises. *)
Definition Not_call (other : validator) (message : string) : validator :=
  fun obj location =>
    match other obj location with
    | Raise _ => Ok obj
    | Ok _ => Raise (ValidationException message location)
    end.

(** ** Boolean *)

Definition Boolean_call (value : option bool) : validator :=
  fun obj location =>
    match obj with
    | PyBool b =>
        match value with
        | Some v =>
            if negb (Bool.eqb v b)
            then Raise (ValidationException "Expected a specific boolean value" location)
            else Ok obj
        | None => Ok obj
        end
    | _ => Raise (ValidationException "Expected a boolean value" location)
    end.

(** ** InstanceOf

    A class is the text that [str] gives for it and its [isinstance]
    test. *)
Definition InstanceOf_call (kind : string) (isinstance : pyobj -> bool) : validator :=
  fun obj location =>
    if negb (isinstance obj)
    then Raise (ValidationException ("Expected an object of type '" +++ kind +++ "'")
                                    location)
    else Ok obj.

(** [InstanceOf(DelayedExpression)] *)
Definition InstanceOf_DelayedExpression : validator :=
  InstanceOf_call "<class 'giles.expression.DelayedExpression'>"
                  (fun obj => match obj with PyExpr _ => true | _ => false end).

(** ** Integer *)

Record Integer : Type := mkInteger {
  int_value : option Z;
  int_minimum : option Z;
  int_maximum : option Z;
  allow_bool : bool
}.

(** The tests of [Integer.__call__] on the value, once [obj] is known to
    be an [int]; a [bool] compares as 0 or 1. *)
Definition Integer_checks (self : Integer) (obj : pyobj) (n : Z) (location : string)
  : result pyobj :=
  match int_value self with
  | Some v =>
      if negb (n =? v)%Z
      then Raise (ValidationException ("Expected " +++ str_of_Z v) location)
      else Ok tt
  | None => Ok tt
  end ;;;
  match int_minimum self with
  | Some m =>
      if (n <? m)%Z
      then Raise (ValidationException
                    ("Expected an integer greater than " +++ str_of_Z m) location)
      else Ok tt
  | None => Ok tt
  end ;;;
  match int_maximum self with
  | Some m =>
      if (n >? m)%Z
      then Raise (ValidationException
                    ("Expected an integer less than " +++ str_of_Z m) location)
      else Ok tt
  | None => Ok tt
  end ;;;
  Ok obj.

Definition Integer_call (self : Integer) : validator :=
  fun obj location =>
    match obj with
    | PyInt n => Integer_checks self obj n location
    | PyBool b =>
        if negb (allow_bool self)
        then Raise (ValidationException "Expected an integer" location)
        else Integer_checks self obj (Z.b2z b) location
    | _ => Raise (ValidationException "Expected an integer" location)
    end.

(** ** Float

    [value], [minimum] and [maximum] are floats when they are given. *)

Record Float : Type := mkFloat {
  float_value : option float;
  float_minimum : option float;
  float_maximum : option float;
  allow_integer : bool
}.

Section FloatCall.

(** ["%g" % x] and ["%d" % x] for a float; the second raises for an
    infinity or a NaN. *)
Variable format_g : float -> string.
Variable format_d : float -> result string.

(** [isinstance(obj, int)] *)
Definition is_int (obj : pyobj) : bool :=
  match obj with
  | PyInt _ | PyBool _ => true
  | _ => false
  end.

Definition Float_call (self : Float) : validator :=
  fun obj location =>
    match obj with
    | PyFloat x =>
        (if is_int obj && negb (allow_integer self)
         then Raise (ValidationException "Expceted a float" location)
         else Ok tt) ;;;
        match float_value self with
        | Some v =>
            if negb (PrimFloat.eqb x v)
            then Raise (ValidationException ("Expected " +++ format_g v) location)
            else Ok tt
        | None => Ok tt
        end ;;;
        match float_minimum self with
        | Some m =>
            if PrimFloat.ltb x m
            then text <- format_d m ;;
                 Raise (ValidationException
                          ("Expected a float greater than " +++ text) location)
            else Ok tt
        | None => Ok tt
        end ;;;
        match float_maximum self with
        | Some m =>
            if PrimFloat.ltb m x
            then text <- format_d m ;;
                 Raise (ValidationException
                          ("Expected a float less than " +++ text) location)
            else Ok tt
        | None => Ok tt
        end ;;;
        Ok obj
    | _ => Raise (ValidationException "Expected a float" location)
    end.

End FloatCall.

(** ** String *)

(** A pattern is a [str] or a compiled regular expression, which is its
    source text and its [match] method. *)
Inductive string_pattern : Type :=
| Literal (pattern : string)
| Compiled (pattern : string) (matches : string -> bool).

Record String_ : Type := mkString {
  str_pattern : option string_pattern;
  str_min_length : option Z;
  str_max_length : option Z;
  str_case_sensitive : bool
}.

Definition pretty_pattern (self : String_) : string :=
  match str_pattern self with
  | Some (Literal p) => p
  | Some (Compiled p _) => p
  | None => ""
  end.

(** [String.__call__].  [casefold] is [str_lower] and [len] is
    [String.length], which is exact on ASCII strings ([is_ascii]).  The
    document values have no constructor for a [CaselessString]: the
    [CS(obj)] that is returned without [case_sensitive] is represented by
    [PyStr obj], like the keys of a validated dictionary. *)
Definition String_call (self : String_) : validator :=
  fun obj location =>
    match obj with
    | PyStr s =>
        let expected :=
          Raise (ValidationException ("Expected '" +++ pretty_pattern self +++ "'")
                                     location) in
        match str_pattern self with
        | Some (Literal p) =>
            if str_case_sensitive self
            then if negb (String.eqb (str_lower p) (str_lower s)) then expected else Ok tt
            else if negb (String.eqb p s) then expected else Ok tt
        | Some (Compiled _ matches) =>
            if negb (matches s) then expected else Ok tt
        | None => Ok tt
        end ;;;
        let len := Z.of_nat (String.length s) in
        match str_min_length self with
        | Some m =>
            if (len <? m)%Z
            then Raise (ValidationException
                          "Expected a string of at least '%d' characters" location)
            else Ok tt
        | None => Ok tt
        end ;;;
        match str_max_length self with
        | Some m =>
            if (len >? m)%Z
            then Raise (ValidationException
                          "Expected a string of at most '%d' characters" location)
            else Ok tt
        | None => Ok tt
        end ;;;
        Ok obj
    | _ => Raise (ValidationException "Expected a string" location)
    end.

(** ** Dictionary

    [key_type] is left at its default, [str], and [ordered] at [False]
    (a [dict] keeps the insertion order as well). *)
Record Dictionary : Type := mkDictionary {
  required : list (string * validator);   (* self.required, keys folded *)
  optional : list (string * validator);   (* self.optional, keys folded *)
  extra : option validator;
  extra_keys : option validator;
  min_extra : option Z;
  max_extra : option Z;
  dict_case_sensitive : bool;
  allow_duplicates : bool
}.

(** [a == b] for [a = self.casefold(s)] and a [str] [b] folded likewise. *)
Definition folded_eqb (case_sensitive : bool) (a b : string) : bool :=
  if case_sensitive then String.eqb a b else CaselessString.eqb a b.

(** [self.casefold(s) == k] for any key [k]: a [str] equals no other
    kind of object. *)
Definition key_eqb (case_sensitive : bool) (s : string) (k : pyobj) : bool :=
  match k with
  | PyStr t => folded_eqb case_sensitive s t
  | _ => false
  end.

(** [d[key]] and [key in d.keys()] for [self.required] and
    [self.optional]. *)
Fixpoint validator_of (case_sensitive : bool) (d : list (string * validator))
         (key : string) : option validator :=
  match d with
  | [] => None
  | (k, v) :: rest =>
      if folded_eqb case_sensitive k key then Some v
      else validator_of case_sensitive rest key
  end.

(** [dummy[key]] for [dummy = {self.casefold(k): v for k, v in
    obj.items()}]: of the items with an equal key, the last one gave the
    value. *)
Fixpoint dummy_get (case_sensitive : bool) (items : list (pyobj * pyobj))
         (key : string) : option pyobj :=
  match items with
  | [] => None
  | (k, v) :: rest =>
      match dummy_get case_sensitive rest key with
      | Some w => Some w
      | None => if key_eqb case_sensitive key k then Some v else None
      end
  end.

(** [result[stringify(key)] = v] *)
Fixpoint result_set (case_sensitive : bool) (result : list (pyobj * pyobj))
         (key : string) (v : pyobj) : list (pyobj * pyobj) :=
  match result with
  | [] => [(PyStr key, v)]
  | (k, w) :: rest =>
      if key_eqb case_sensitive key k then (k, v) :: rest
      else (k, w) :: result_set case_sensitive rest key v
  end.

(** [keys.count(key)] *)
Definition count_key (case_sensitive : bool) (keys : list pyobj) (key : string) : nat :=
  List.length (filter (key_eqb case_sensitive key) keys).

(** [for key in self.required.keys(): if key not in keys: raise ...] *)
Fixpoint Dictionary_required (case_sensitive : bool) (required : list string)
         (keys : list pyobj) (location : string) : result unit :=
  match required with
  | [] => Ok tt
  | key :: rest =>
      if negb (existsb (key_eqb case_sensitive key) keys)
      then Raise (ValidationException ("Missing required key '" +++ key +++ "'") location)
      else Dictionary_required case_sensitive rest keys location
  end.

Definition dummy_value (case_sensitive : bool) (items : list (pyobj * pyobj))
           (key : string) : result pyobj :=
  match dummy_get case_sensitive items key with
  | Some v => Ok v
  | None => Raise (KeyError key)
  end.

(** One round of [for key in keys] for a [str] key. *)
Definition Dictionary_key (self : Dictionary) (items : list (pyobj * pyobj))
           (location : string) (key : string)
           (state : list (pyobj * pyobj) * Z) : result (list (pyobj * pyobj) * Z) :=
  let '(result, extra_count) := state in
  let cs := dict_case_sensitive self in
  let keys := map fst items in
  let here := location +++ "[" +++ key +++ "]" in
  if negb (allow_duplicates self) && (1 <? count_key cs keys key)%nat
  then Raise (ValidationException ("Duplicate keys '" +++ key +++ "'") location)
  else
    match extra self, validator_of cs (required self) key,
          validator_of cs (optional self) key with
    | None, None, None =>
        Raise (ValidationException ("Disallowed key '" +++ key +++ "'") location)
    | _, Some v, _ =>
        x <- dummy_value cs items key ;;
        r <- v x here ;;
        Ok (result_set cs result key r, extra_count)
    | _, None, Some v =>
        x <- dummy_value cs items key ;;
        r <- v x here ;;
        Ok (result_set cs result key r, extra_count)
    | Some v, None, None =>
        let extra_count := (extra_count + 1)%Z in
        match extra_keys self with
        | Some check => check (PyStr key) here ;;; Ok tt
        | None => Ok tt
        end ;;;
        x <- dummy_value cs items key ;;
        r <- v x here ;;
        Ok (result_set cs result key r, extra_count)
    end.

(** [for key in keys: ...] *)
Fixpoint Dictionary_keys (self : Dictionary) (items : list (pyobj * pyobj))
         (location : string) (keys : list pyobj)
         (state : list (pyobj * pyobj) * Z) : result (list (pyobj * pyobj) * Z) :=
  match keys with
  | [] => Ok state
  | PyStr key :: rest =>
      state <- Dictionary_key self items location key state ;;
      Dictionary_keys self items location rest state
  | _ :: _ => Raise (ValidationException "Invalid key type" location)
  end.

(** [Dictionary.__call__(self, obj, location)] *)
Definition Dictionary_call (self : Dictionary) : validator :=
  fun obj location =>
    match obj with
    | PyDict items =>
        let cs := dict_case_sensitive self in
        let keys := map fst items in
        Dictionary_required cs (map fst (required self)) keys location ;;;
        state <- Dictionary_keys self items location keys ([], 0%Z) ;;
        let '(result, extra_count) := state in
        match min_extra self with
        | Some m =>
            if (extra_count <? m)%Z
            then Raise (ValidationException
                          ("Expected at least " +++ str_of_Z m +++ " extra keys") location)
            else Ok tt
        | None => Ok tt
        end ;;;
        match max_extra self with
        | Some m =>
            if (extra_count >? m)%Z
            then Raise (ValidationException
                          ("Expected at most " +++ str_of_Z m +++ " extra keys") location)
            else Ok tt
        | None => Ok tt
        end ;;;
        Ok (PyDict result)
    | _ => Raise (ValidationException "Expected a dictionary" location)
    end.


End Validate.

(* ================================================================== *)
(** * The Python runtime *)
(* ================================================================== *)

(** Library functions of the Python runtime that the compiler calls and
    that are not part of its sources.  The conversions return the
    exception they raise ([ValueError], [OverflowError]); [re_compile]
    returns the text of the [re.error] it raises, [re_match] either that
    text or whether [re.match(p, s)] found a match. *)
Record PyRuntime : Type := mkPyRuntime {
  str_of_float : float -> string;              (* str(x) for a float *)
  float_of_int : Z -> result float;            (* float(n) *)
  int_of_float : float -> result Z;            (* int(x) *)
  int_of_str : string -> result Z;             (* int(s) *)
  int_truediv : Z -> Z -> result float;        (* n / m for m <> 0 *)
  re_compile : string -> option string;        (* re.compile(p) *)
  re_match : string -> string -> string + bool;(* re.match(p, s) is not None *)
  re_escape : string -> string;                (* re.escape(p) *)
  repr_of_str : string -> string;              (* repr(s) for a str *)
  repr_of_object : string -> string            (* repr(x), x of the named class
                                                  without __repr__ or __str__ *)
}.

(** [s.replace(old, new)] for a non-empty [old]: occurrences are replaced
    from left to right without overlap.  [skip] counts the characters of a
    match that are still to be dropped. *)
Fixpoint replace_from (old new : string) (skip : nat) (s : string) : string :=
  match s with
  | EmptyString => EmptyString
  | String c rest =>
      match skip with
      | S k => replace_from old new k rest
      | O =>
          if String.prefix old s
          then new +++ replace_from old new (String.length old - 1) rest
          else String c (replace_from old new 0 rest)
      end
  end.

Definition replace (old new s : string) : string := replace_from old new 0 s.

(* ================================================================== *)
(** * giles/expression.py *)
(* ================================================================== *)

Module Expression.

(** The four Python classes that serve as type tags. *)
Inductive type_tag : Type := bool_ | float_ | int_ | str_.

Definition type_tag_eqb (a b : type_tag) : bool :=
  match a, b with
  | bool_, bool_ | float_, float_ | int_, int_ | str_, str_ => true
  | _, _ => false
  end.

(** [str(cls)] *)
Definition str_of_type (t : type_tag) : string :=
  match t with
  | bool_ => "<class 'bool'>"
  | float_ => "<class 'float'>"
  | int_ => "<class 'int'>"
  | str_ => "<class 'str'>"
  end.

(** What an expression evaluates to: a Python constant or a [Node].  Every
    node constructor carries the [type] attribute its [__init__] sets. *)
Inductive value : Type :=
| VBool (b : bool)
| VFloat (f : float)
| VInt (z : Z)
| VStr (s : string)
| LocalReferenceNode (variable : CS) (type : type_tag)
| ThisReferenceNode (variable : CS) (type : type_tag)
| BinaryOpNode (operation name : string) (arg1 arg2 : value) (type : type_tag)
| UnaryOpNode (operation name : string) (arg1 : value) (type : type_tag)
| IfNode (predicate if_true if_false : value) (type : type_tag)
| CastNode (expression : value) (type : type_tag)
| JoinNode (left right : value)
| FunctionNode (name : CS) (external : string) (type : type_tag) (args : list value).

(** [type(x) in (bool, float, int, str)] *)
Definition is_constant (v : value) : bool :=
  match v with
  | VBool _ | VFloat _ | VInt _ | VStr _ => true
  | _ => false
  end.

(** [isinstance(x, Node)] *)
Definition is_Node (v : value) : bool := negb (is_constant v).

(** [arg.type if isinstance(arg, Node) else type(arg)] *)
Definition type_of (v : value) : type_tag :=
  match v with
  | VBool _ => bool_
  | VFloat _ => float_
  | VInt _ => int_
  | VStr _ => str_
  | LocalReferenceNode _ t => t
  | ThisReferenceNode _ t => t
  | BinaryOpNode _ _ _ _ t => t
  | UnaryOpNode _ _ _ t => t
  | IfNode _ _ _ t => t
  | CastNode _ t => t
  | JoinNode _ _ => bool_
  | FunctionNode _ _ t _ => t
  end.

(** [BinaryOpNode.__init__(operation, arg1, arg2, kind=None, readable_name=None)] *)
Definition new_BinaryOpNode (operation : string) (arg1 arg2 : value)
           (kind : option type_tag) (readable_name : option string) : value :=
  BinaryOpNode operation
               (match readable_name with Some n => n | None => operation end)
               arg1 arg2
               (match kind with Some k => k | None => type_of arg1 end).

(** [UnaryOpNode.__init__(operation, arg1, readable_name=None)] *)
Definition new_UnaryOpNode (operation : string) (arg1 : value)
           (readable_name : option string) : value :=
  UnaryOpNode operation
              (match readable_name with Some n => n | None => operation end)
              arg1 (type_of arg1).

(** [IfNode.__init__(predicate, if_true, if_false)] *)
Definition new_IfNode (predicate if_true if_false : value) : value :=
  IfNode predicate if_true if_false (type_of if_true).

(** ** DefaultOperationsMixin

    [a <op> b] in Python: two constants are combined by the interpreter; a
    [Node] on the left answers through its own method; a constant on the
    left of a [Node] declines ([NotImplemented]) and the node's reflected
    method answers.  For the comparisons the reflected method is the
    mirrored comparison with the operands swapped. *)

Definition mixin_arith (operation : string) (a b : value) : value :=
  new_BinaryOpNode operation a b None None.

Definition mirrored (operation : string) : string :=
  if String.eqb operation "<" then ">"
  else if String.eqb operation "<=" then ">="
  else if String.eqb operation ">" then "<"
  else if String.eqb operation ">=" then "<="
  else operation.

Definition mixin_compare (operation : string) (a b : value) : value :=
  if is_Node a then new_BinaryOpNode operation a b (Some bool_) None
  else new_BinaryOpNode (mirrored operation) b a (Some bool_) None.


(** ** Python's operators on expression values

    Each function below is what [arg1 <op> arg2] computes for the operand
    types the operator's [type_check] lets through.  Two constants of other
    types never reach it; that case is closed with a [TypeError].  The
    texts of [ZeroDivisionError] are those of CPython 3.11. *)

Definition py_add (a b : value) : result value :=
  match a, b with
  | VInt x, VInt y => Ok (VInt (x + y))
  | VFloat x, VFloat y => Ok (VFloat (PrimFloat.add x y))
  | _, _ => if is_Node a || is_Node b then Ok (mixin_arith "+" a b) else Raise bad_operands
  end.

Definition py_sub (a b : value) : result value :=
  match a, b with
  | VInt x, VInt y => Ok (VInt (x - y))
  | VFloat x, VFloat y => Ok (VFloat (PrimFloat.sub x y))
  | _, _ => if is_Node a || is_Node b then Ok (mixin_arith "-" a b) else Raise bad_operands
  end.

Definition py_mul (a b : value) : result value :=
  match a, b with
  | VInt x, VInt y => Ok (VInt (x * y))
  | VFloat x, VFloat y => Ok (VFloat (PrimFloat.mul x y))
  | _, _ => if is_Node a || is_Node b then Ok (mixin_arith "*" a b) else Raise bad_operands
  end.

(** [/] is Python 3's true division: two [int] constants give a [float]. *)
Definition py_truediv (rt : PyRuntime) (a b : value) : result value :=
  match a, b with
  | VInt x, VInt y =>
      if (y =? 0)%Z then Raise (ZeroDivisionError "division by zero")
      else f <- int_truediv rt x y ;; Ok (VFloat f)
  | VFloat x, VFloat y =>
      if PrimFloat.eqb y PrimFloat.zero
      then Raise (ZeroDivisionError "float division by zero")
      else Ok (VFloat (PrimFloat.div x y))
  | _, _ => if is_Node a || is_Node b then Ok (mixin_arith "/" a b) else Raise bad_operands
  end.

(** [%] on [int] is the floored remainder, which is [Z.modulo]. *)
Definition py_mod (a b : value) : result value :=
  match a, b with
  | VInt x, VInt y =>
      if (y =? 0)%Z then Raise (ZeroDivisionError "integer modulo by zero")
      else Ok (VInt (x mod y))
  | _, _ => if is_Node a || is_Node b then Ok (mixin_arith "%" a b) else Raise bad_operands
  end.

(** The six comparisons.  [bool] compares as [int] ([False < True]),
    [str] by code points. *)
Inductive comparison_op : Type := CmpLt | CmpLe | CmpEq | CmpNe | CmpGt | CmpGe.

Definition comparison_operation (c : comparison_op) : string :=
  match c with
  | CmpLt => "<" | CmpLe => "<=" | CmpEq => "=" | CmpNe => "!="
  | CmpGt => ">" | CmpGe => ">="
  end.

Definition compare_with {A : Type} (eqb ltb leb : A -> A -> bool)
           (c : comparison_op) (x y : A) : bool :=
  match c with
  | CmpLt => ltb x y
  | CmpLe => leb x y
  | CmpEq => eqb x y
  | CmpNe => negb (eqb x y)
  | CmpGt => ltb y x
  | CmpGe => leb y x
  end.

Definition bool_ltb (x y : bool) : bool := negb x && y.
Definition bool_leb (x y : bool) : bool := negb x || y.

Definition py_compare (c : comparison_op) (a b : value) : result value :=
  match a, b with
  | VBool x, VBool y => Ok (VBool (compare_with Bool.eqb bool_ltb bool_leb c x y))
  | VFloat x, VFloat y =>
      Ok (VBool (compare_with PrimFloat.eqb PrimFloat.ltb PrimFloat.leb c x y))
  | VInt x, VInt y => Ok (VBool (compare_with Z.eqb Z.ltb Z.leb c x y))
  | VStr x, VStr y => Ok (VBool (compare_with String.eqb String.ltb String.leb c x y))
  | _, _ =>
      if is_Node a || is_Node b
      then Ok (mixin_compare (comparison_operation c) a b)
      else Raise bad_operands
  end.

(** ** type_check *)

Fixpoint types_eqb (a b : list type_tag) : bool :=
  match a, b with
  | [], [] => true
  | x :: a', y :: b' => type_tag_eqb x y && types_eqb a' b'
  | _, _ => false
  end.

(** [str(types)]: a single argument leaves the bare class, otherwise the
    tuple of classes is printed. *)
Definition str_of_types (types : list type_tag) : string :=
  match types with
  | [t] => str_of_type t
  | _ => "(" +++ join ", " (map str_of_type types) +++ ")"
  end.

Definition invalid_types_message (name : string) (types : list type_tag) : string :=
  "Invalid types for function/operator '" +++ name +++ "': " +++ str_of_types types.

(** The check that the [type_check] decorator puts in front of a method.
    A combination for a one-argument method is a bare class, here a list
    of one. *)
Definition type_check (combinations : list (list type_tag)) (name : string)
           (args : list value) : result unit :=
  let types := map type_of args in
  if existsb (types_eqb types) combinations then Ok tt
  else Raise (Exception (invalid_types_message name types)).

Definition operator_name (symbol : string) : string := "operator '" +++ symbol +++ "'".
Definition function_name (symbol : string) : string := "function '" +++ symbol +++ "'".

(** ** class Parser *)

(** A declared external function ([Functions:] in the document, after the
    type names are resolved). *)
Record function_clause : Type := mkFunction {
  External : string;
  Parameters : list type_tag;
  Returns : type_tag
}.

(** The callbacks that a parser knows as functions: the methods
    decorated with [pyre.defined_function], and the closure that
    [build_function_node(name, clause)] of [giles.py] returns. *)
Inductive defined_function : Type :=
| StringOfBool | StringOfReal | StringOfInt
| RealOfInt | IntOfReal | IntOfString
| If
| ExternalFunction (name : CS) (clause : function_clause).

Record Parser : Type := mkParser {
  functions : dict defined_function;
  constants : dict value;
  variables : dict type_tag;
  this : option (dict type_tag);
  allow_regexp : bool
}.

(** [pyre.Parser.__init__] walks [dir(self)] and registers every method
    that carries a [defined_function_name] under that name. *)
Definition decorated_functions : dict defined_function :=
  [("if", If); ("int_of_real", IntOfReal); ("int_of_string", IntOfString);
   ("real_of_int", RealOfInt); ("string_of_bool", StringOfBool);
   ("string_of_int", StringOfInt); ("string_of_real", StringOfReal)].

(** [Parser.__init__(constants=None, variables=None, this=None,
    allow_regexp=False)]: an argument left at [None] becomes the empty
    dictionary. *)
Definition Parser_init (constants : option (dict value))
           (variables this : option (dict type_tag)) (allow_regexp : bool) : Parser :=
  {| functions := decorated_functions;
     constants := match constants with Some c => c | None => [] end;
     variables := match variables with Some v => v | None => [] end;
     this := Some (match this with Some t => t | None => [] end);
     allow_regexp := allow_regexp |}.

(** [add_function(name, callback)]: [self.functions[name] = Function(...)] *)
Definition add_function (self : Parser) (name : string) (callback : defined_function)
  : Parser :=
  {| functions := dict_set (functions self) name callback;
     constants := constants self;
     variables := variables self;
     this := this self;
     allow_regexp := allow_regexp self |}.

Definition arith_types : list (list type_tag) := [[float_; float_]; [int_; int_]].
Definition relational_types : list (list type_tag) :=
  [[bool_; bool_]; [float_; float_]; [int_; int_]; [str_; str_]].

Definition operator_add (parser : Parser) (arg1 arg2 : value) : result value :=
  type_check arith_types (operator_name "+") [arg1; arg2] ;;; py_add arg1 arg2.

Definition operator_sub (parser : Parser) (arg1 arg2 : value) : result value :=
  type_check arith_types (operator_name "-") [arg1; arg2] ;;; py_sub arg1 arg2.

Definition operator_mul (parser : Parser) (arg1 arg2 : value) : result value :=
  type_check arith_types (operator_name "*") [arg1; arg2] ;;; py_mul arg1 arg2.

Definition operator_div (rt : PyRuntime) (parser : Parser) (arg1 arg2 : value)
  : result value :=
  type_check arith_types (operator_name "/") [arg1; arg2] ;;; py_truediv rt arg1 arg2.

Definition operator_mod (parser : Parser) (arg1 arg2 : value) : result value :=
  type_check [[int_; int_]] (operator_name "%") [arg1; arg2] ;;; py_mod arg1 arg2.

Definition operator_equ (parser : Parser) (arg1 arg2 : value) : result value :=
  type_check relational_types (operator_name "==") [arg1; arg2] ;;;
  py_compare CmpEq arg1 arg2.

Definition operator_lte (parser : Parser) (arg1 arg2 : value) : result value :=
  type_check relational_types (operator_name "<=") [arg1; arg2] ;;;
  py_compare CmpLe arg1 arg2.

Definition operator_gte (parser : Parser) (arg1 arg2 : value) : result value :=
  type_check relational_types (operator_name ">=") [arg1; arg2] ;;;
  py_compare CmpGe arg1 arg2.

Definition operator_neq (parser : Parser) (arg1 arg2 : value) : result value :=
  type_check relational_types (operator_name "!=") [arg1; arg2] ;;;
  py_compare CmpNe arg1 arg2.

Definition operator_lt (parser : Parser) (arg1 arg2 : value) : result value :=
  type_check relational_types (operator_name "<") [arg1; arg2] ;;;
  py_compare CmpLt arg1 arg2.

Definition operator_gt (parser : Parser) (arg1 arg2 : value) : result value :=
  type_check relational_types (operator_name ">") [arg1; arg2] ;;;
  py_compare CmpGt arg1 arg2.

Definition operator_or (parser : Parser) (arg1 arg2 : value) : result value :=
  type_check [[bool_; bool_]] (operator_name "||") [arg1; arg2] ;;;
  match arg1, arg2 with
  | VBool x, VBool y => Ok (VBool (x || y))
  | _, _ => Ok (new_BinaryOpNode "OR" arg1 arg2 None None)
  end.

Definition operator_and (parser : Parser) (arg1 arg2 : value) : result value :=
  type_check [[bool_; bool_]] (operator_name "&&") [arg1; arg2] ;;;
  match arg1, arg2 with
  | VBool x, VBool y => Ok (VBool (x && y))
  | _, _ => Ok (new_BinaryOpNode "AND" arg1 arg2 None None)
  end.

(** The body shared by [operator_regexp] and [operator_notregexp]:
    [found] is the answer for a match ([is not None] / [is None]). *)
Definition regexp_body (rt : PyRuntime) (parser : Parser) (operation : string)
           (found : bool -> bool) (arg1 arg2 : value) : result value :=
  if negb (allow_regexp parser)
  then Raise (Exception "regular expressions in expressions are disabled")
  else
    match arg2 with
    | VStr p =>
        match re_compile rt p with
        | Some e => Raise (Exception ("Invalid regular expression: '" +++ e +++ "'"))
        | None => Ok tt
        end
    | _ => Ok tt
    end ;;;
    match arg1, arg2 with
    | VStr s, VStr p =>
        match re_match rt p s with
        | inr m => Ok (VBool (found m))
        | inl e => Raise (Exception ("Invalid regular expression: '" +++ e +++ "'"))
        end
    | _, _ => Ok (new_BinaryOpNode operation arg1 arg2 (Some bool_) None)
    end.

Definition operator_regexp (rt : PyRuntime) (parser : Parser) (arg1 arg2 : value)
  : result value :=
  type_check [[str_; str_]] (operator_name "~") [arg1; arg2] ;;;
  regexp_body rt parser "REGEXP" (fun m => m) arg1 arg2.

Definition operator_notregexp (rt : PyRuntime) (parser : Parser) (arg1 arg2 : value)
  : result value :=
  type_check [[str_; str_]] (operator_name "!~") [arg1; arg2] ;;;
  regexp_body rt parser "NOT REGEXP" negb arg1 arg2.

(** The pattern that [like] and [unlike] build from their right operand. *)
Definition like_pattern (rt : PyRuntime) (arg2 : string) : string :=
  let pattern := re_escape rt arg2 in
  let pattern := replace "\%" "%" pattern in
  let pattern := replace "\_" "_" pattern in
  let pattern := replace "%" ".*" pattern in
  let pattern := replace "_" "." pattern in
  "^" +++ pattern +++ "$".

Definition like_body (rt : PyRuntime) (operation : string) (found : bool -> bool)
           (arg1 arg2 : value) : result value :=
  match arg1, arg2 with
  | VStr s, VStr p =>
      match re_match rt (like_pattern rt p) s with
      | inr m => Ok (VBool (found m))
      | inl e => Raise (ReError e)
      end
  | _, _ => Ok (new_BinaryOpNode operation arg1 arg2 (Some bool_) None)
  end.

Definition operator_like (rt : PyRuntime) (parser : Parser) (arg1 arg2 : value)
  : result value :=
  type_check [[str_; str_]] (operator_name "like") [arg1; arg2] ;;;
  like_body rt "LIKE" (fun m => m) arg1 arg2.

Definition operator_unlike (rt : PyRuntime) (parser : Parser) (arg1 arg2 : value)
  : result value :=
  type_check [[str_; str_]] (operator_name "unlike") [arg1; arg2] ;;;
  like_body rt "NOT LIKE" negb arg1 arg2.

Definition operator_join (parser : Parser) (arg1 arg2 : value) : result value :=
  type_check [[bool_; bool_]] (operator_name "and") [arg1; arg2] ;;;
  match this parser with
  | None =>
      Raise (Exception
               "Logical conjunctions of conditions are valid only in match predicates")
  | Some _ => Ok (JoinNode arg1 arg2)
  end.

Definition operator_concat (parser : Parser) (arg1 arg2 : value) : result value :=
  type_check [[str_; str_]] (operator_name ".") [arg1; arg2] ;;;
  match arg1, arg2 with
  | VStr x, VStr y => Ok (VStr (x +++ y))
  | _, _ => Ok (new_BinaryOpNode "||" arg1 arg2 None (Some "."))
  end.

(** [+arg1]: [Node.__pos__] returns the node itself. *)
Definition operator_pos (parser : Parser) (arg1 : value) : result value :=
  type_check [[float_]; [int_]] (operator_name "+") [arg1] ;;;
  Ok arg1.

(** [-arg1]: [Node.__neg__] builds [UnaryOpNode("neg", self)]. *)
Definition operator_neg (parser : Parser) (arg1 : value) : result value :=
  type_check [[float_]; [int_]] (operator_name "-") [arg1] ;;;
  match arg1 with
  | VInt z => Ok (VInt (- z))
  | VFloat f => Ok (VFloat (PrimFloat.opp f))
  | _ => if is_Node arg1 then Ok (new_UnaryOpNode "neg" arg1 None) else Raise bad_operands
  end.

Definition operator_not (parser : Parser) (arg1 : value) : result value :=
  type_check [[bool_]] (operator_name "not") [arg1] ;;;
  match arg1 with
  | VBool b => Ok (VBool (negb b))
  | _ => Ok (new_UnaryOpNode "NOT" arg1 None)
  end.

(** [str(b)] for a bool *)
Definition str_of_bool (b : bool) : string := if b then "True" else "False".

Definition function_string_of_bool (parser : Parser) (args : list value) : result value :=
  type_check [[bool_]] (function_name "string_of_bool") args ;;;
  match args with
  | [VBool b] => Ok (VStr (str_of_bool b))
  | [arg1] => Ok (CastNode arg1 str_)
  | _ => Raise bad_operands
  end.

Definition function_string_of_real (rt : PyRuntime) (parser : Parser) (args : list value)
  : result value :=
  type_check [[float_]] (function_name "string_of_real") args ;;;
  match args with
  | [VFloat f] => Ok (VStr (str_of_float rt f))
  | [arg1] => Ok (CastNode arg1 str_)
  | _ => Raise bad_operands
  end.

Definition function_string_of_int (parser : Parser) (args : list value) : result value :=
  type_check [[int_]] (function_name "string_of_int") args ;;;
  match args with
  | [VInt z] => Ok (VStr (str_of_Z z))
  | [arg1] => Ok (CastNode arg1 str_)
  | _ => Raise bad_operands
  end.

Definition function_real_of_int (rt : PyRuntime) (parser : Parser) (args : list value)
  : result value :=
  type_check [[int_]] (function_name "real_of_int") args ;;;
  match args with
  | [VInt z] => f <- float_of_int rt z ;; Ok (VFloat f)
  | [arg1] => Ok (CastNode arg1 float_)
  | _ => Raise bad_operands
  end.

Definition function_int_of_real (rt : PyRuntime) (parser : Parser) (args : list value)
  : result value :=
  type_check [[float_]] (function_name "int_of_real") args ;;;
  match args with
  | [VFloat f] => z <- int_of_float rt f ;; Ok (VInt z)
  | [arg1] => Ok (CastNode arg1 int_)
  | _ => Raise bad_operands
  end.

Definition function_int_of_string (rt : PyRuntime) (parser : Parser) (args : list value)
  : result value :=
  type_check [[str_]] (function_name "int_of_string") args ;;;
  match args with
  | [VStr s] => z <- int_of_str rt s ;; Ok (VInt z)
  | [arg1] => Ok (CastNode arg1 int_)
  | _ => Raise bad_operands
  end.

Definition function_if (parser : Parser) (args : list value) : result value :=
  type_check [[bool_; bool_; bool_]; [bool_; float_; float_];
              [bool_; int_; int_]; [bool_; str_; str_]]
             (function_name "if") args ;;;
  match args with
  | [predicate; if_true; if_false] =>
      match predicate with
      | VBool b => Ok (if b then if_true else if_false)
      | _ => Ok (new_IfNode predicate if_true if_false)
      end
  | _ => Raise bad_operands
  end.

(** [build_function_node(name, clause)] of [giles.py]: the callback that
    [evaluate] registers with [parser.add_function] for every declared
    external function.  [args] are the arguments after the parser. *)
Definition build_function_node (name : CS) (clause : function_clause)
           (parser : Parser) (args : list value) : result value :=
  if negb (List.length args =? List.length (Parameters clause))%nat
  then Raise (Exception ("Invalid number of arguments to function '" +++ name +++ "'"))
  else if negb (types_eqb (map type_of args) (Parameters clause))
  then Raise (Exception ("Invalid type(s) for argument(s) to function '" +++ name +++ "'"))
  else Ok (FunctionNode name (External clause) (Returns clause) args).

(** ** The operator and function tables

    [pyre.Parser.__init__] collects the decorated methods into
    [binary_operators], [unary_operators] and [functions], keyed by the
    name given to the decorator. *)

Inductive binary_operator : Type :=
| Add | Sub | Mul | Div | Mod
| Equ | Lte | Gte | Neq | Lt | Gt
| Or | And
| Regexp | NotRegexp | Like | Unlike
| Join | Concat.

Inductive unary_operator : Type := Pos | Neg | Not.

Definition binary_operator_name (op : binary_operator) : string :=
  match op with
  | Add => "+" | Sub => "-" | Mul => "*" | Div => "/" | Mod => "%"
  | Equ => "==" | Lte => "<=" | Gte => ">=" | Neq => "!=" | Lt => "<" | Gt => ">"
  | Or => "||" | And => "&&"
  | Regexp => "~" | NotRegexp => "!~" | Like => "like" | Unlike => "unlike"
  | Join => "and" | Concat => "."
  end.

Definition binary_operator_precedence (op : binary_operator) : nat :=
  match op with
  | Add | Sub => 10
  | Mul | Div | Mod | Concat => 20
  | Equ | Lte | Gte | Neq | Lt | Gt | Regexp | NotRegexp | Like | Unlike => 5
  | Or => 30
  | And => 40
  | Join => 0
  end.

Definition unary_operator_name (op : unary_operator) : string :=
  match op with Pos => "+" | Neg => "-" | Not => "not" end.

Definition binary_callback (rt : PyRuntime) (op : binary_operator)
  : Parser -> value -> value -> result value :=
  match op with
  | Add => operator_add
  | Sub => operator_sub
  | Mul => operator_mul
  | Div => operator_div rt
  | Mod => operator_mod
  | Equ => operator_equ
  | Lte => operator_lte
  | Gte => operator_gte
  | Neq => operator_neq
  | Lt => operator_lt
  | Gt => operator_gt
  | Or => operator_or
  | And => operator_and
  | Regexp => operator_regexp rt
  | NotRegexp => operator_notregexp rt
  | Like => operator_like rt
  | Unlike => operator_unlike rt
  | Join => operator_join
  | Concat => operator_concat
  end.

Definition unary_callback (op : unary_operator) : Parser -> value -> result value :=
  match op with
  | Pos => operator_pos
  | Neg => operator_neg
  | Not => operator_not
  end.

Definition function_callback (rt : PyRuntime) (f : defined_function)
  : Parser -> list value -> result value :=
  match f with
  | StringOfBool => function_string_of_bool
  | StringOfReal => function_string_of_real rt
  | StringOfInt => function_string_of_int
  | RealOfInt => function_real_of_int rt
  | IntOfReal => function_int_of_real rt
  | IntOfString => function_int_of_string rt
  | If => function_if
  | ExternalFunction name clause => build_function_node name clause
  end.

(** ** pyre.Parser.evaluate

    What [parse] leaves on its output list: operands (constants and
    reference nodes, passed through untouched), operators and function
    invocations with their argument count and the line of their name. *)
Inductive output_item : Type :=
| Operand (v : value)
| UnaryOperator (op : unary_operator)
| BinaryOperator (op : binary_operator)
| FunctionInvocation (f : defined_function) (argcount : nat) (line : nat).

(** [[self.parser.evaluate(stack, self.line) for i in range(0, argcount)]] in
    [FunctionInvocation.__call__]: [n] evaluations in a row, each on what
    the one before left of the stack. *)
Fixpoint evaluate_args (evaluate : list output_item -> result (value * list output_item))
         (n : nat) (stack : list output_item) : result (list value * list output_item) :=
  match n with
  | O => Ok ([], stack)
  | S n' =>
      r <- evaluate stack ;;
      let '(a, stack) := r in
      rest <- evaluate_args evaluate n' stack ;;
      let '(args, stack) := rest in
      Ok (a :: args, stack)
  end.

(** [evaluate(self, stack, line)].  The Python list is used as a stack
    whose top is its last element; here the top is the head of the list,
    so the output [1 2 3 * +] is the stack [[+; *; 3; 2; 1]].  The function
    returns the value together with what is left of the stack.

    [evaluate] recurses once per popped item; [fuel] bounds the depth and
    [RecursionError] is returned when it runs out. *)
Fixpoint evaluate_fuel (fuel : nat) (rt : PyRuntime) (self : Parser)
         (stack : list output_item) (line : nat) {struct fuel}
  : result (value * list output_item) :=
  match fuel with
  | O => Raise RecursionError
  | S fuel' =>
      match stack with
      | [] => Raise IndexError                       (* pop from empty list *)
      | operator :: stack =>
          match operator with
          | UnaryOperator op =>
              if (List.length stack <? 1)%nat
              then Raise (MissingOperandException (unary_operator_name op) line)
              else
                r1 <- evaluate_fuel fuel' rt self stack line ;;
                let '(arg1, stack) := r1 in
                v <- unary_callback op self arg1 ;;
                Ok (v, stack)
          | BinaryOperator op =>
              if (List.length stack <? 2)%nat
              then Raise (MissingOperandException (binary_operator_name op) line)
              else
                r2 <- evaluate_fuel fuel' rt self stack line ;;
                let '(arg2, stack) := r2 in
                r1 <- evaluate_fuel fuel' rt self stack line ;;
                let '(arg1, stack) := r1 in
                v <- binary_callback rt op self arg1 arg2 ;;
                Ok (v, stack)
          | FunctionInvocation f argcount function_line =>
              (* operator(stack): the arguments are evaluated with self.line *)
              rs <- evaluate_args
                      (fun stack => evaluate_fuel fuel' rt self stack function_line)
                      argcount stack ;;
              let '(args, stack) := rs in
              (* args.reverse(); self.callback(self.parser, *args) *)
              v <- function_callback rt f self (rev args) ;;
              Ok (v, stack)
          | Operand v => Ok (v, stack)
          end
      end
  end.

Definition evaluate (rt : PyRuntime) (self : Parser) (stack : list output_item)
           (line : nat) : result (value * list output_item) :=
  evaluate_fuel (S (List.length stack)) rt self stack line.

(** ** __str__ and __repr__ of values

    Three conversions are in play.  [format_value] is the [%s] of a format
    string, which takes the [__str__] of the object as it is.  [str_call]
    is the call [str(x)]: when [__str__] returns an instance of a subclass
    of [str], that class initialises the object again with the argument of
    the call.  The [__str__] of a reference node returns a
    [CaselessString] (["This.%s" % self.variable] is the [__rmod__] of the
    variable), and [CaselessString.__init__] refuses the node.
    [repr_value] is [repr(x)]; for a node it is [Node.__repr__], which
    calls [str(self)].  The arguments of a [FunctionNode] are formatted as
    a list, that is with [repr]. *)

Definition quote_sql (s : string) : string := "'" +++ replace "'" "''" s +++ "'".

(** The conversions of the elements of a sequence, from left to right. *)
Definition sequence {A : Type} (l : list (result A)) : result (list A) :=
  fold_right (fun m acc => x <- m ;; xs <- acc ;; Ok (x :: xs)) (Ok []) l.

(** [repr] of a list. *)
Definition repr_of_list (items : list (result string)) : result string :=
  l <- sequence items ;;
  Ok ("[" +++ join ", " l +++ "]").

Fixpoint format_value (rt : PyRuntime) (v : value) : result string :=
  let str (a : value) : result string :=
    match a with
    | LocalReferenceNode _ _ | ThisReferenceNode _ _ => Raise not_a_string
    | _ => format_value rt a
    end in
  let repr (a : value) : result string :=
    match a with
    | VStr s => Ok (repr_of_str rt s)
    | _ => str a
    end in
  let operand (a : value) : result string :=
    match a with
    | VStr s => Ok (quote_sql s)
    | _ => format_value rt a
    end in
  match v with
  | VBool b => Ok (str_of_bool b)
  | VFloat f => Ok (str_of_float rt f)
  | VInt z => Ok (str_of_Z z)
  | VStr s => Ok s
  | LocalReferenceNode variable _ => Ok ("Locals." +++ variable)
  | ThisReferenceNode variable _ => Ok ("This." +++ variable)
  | BinaryOpNode _ name arg1 arg2 _ =>
      a <- operand arg1 ;;
      b <- operand arg2 ;;
      Ok ("(" +++ a +++ " " +++ name +++ " " +++ b +++ ")")
  | UnaryOpNode _ name arg1 _ =>
      a <- operand arg1 ;;
      Ok ("(" +++ name +++ " " +++ a +++ ")")
  | IfNode predicate if_true if_false _ =>
      p <- format_value rt predicate ;;
      a <- format_value rt if_true ;;
      b <- format_value rt if_false ;;
      Ok ("if(" +++ p +++ ", " +++ a +++ ", " +++ b +++ ")")
  | CastNode expression type =>
      e <- format_value rt expression ;;
      Ok ("cast(" +++ e +++ " -> " +++ str_of_type type +++ ")")
  | JoinNode l r =>
      a <- format_value rt l ;;
      b <- format_value rt r ;;
      Ok (a +++ " AND " +++ b)
  | FunctionNode name _ _ args =>
      l <- repr_of_list (map repr args) ;;
      Ok (name +++ l)
  end.

(** [str(x)] *)
Definition str_call (rt : PyRuntime) (v : value) : result string :=
  match v with
  | LocalReferenceNode _ _ | ThisReferenceNode _ _ => Raise not_a_string
  | _ => format_value rt v
  end.

(** [repr(x)] *)
Definition repr_value (rt : PyRuntime) (v : value) : result string :=
  match v with
  | VStr s => Ok (repr_of_str rt s)
  | _ => str_call rt v
  end.

(** [repr] of what [parse] keeps on its output: an operand, an operator
    ([Operator.__repr__] is [str(self)]) or a [FunctionInvocation], which
    has the [repr] of [object]. *)
Definition repr_of_item (rt : PyRuntime) (item : output_item) : result string :=
  match item with
  | Operand v => repr_value rt v
  | UnaryOperator op => Ok ("UnaryOperator(" +++ unary_operator_name op +++ ")")
  | BinaryOperator op => Ok ("BinaryOperator(" +++ binary_operator_name op +++ ")")
  | FunctionInvocation _ _ _ => Ok (repr_of_object rt "giles.pyre.FunctionInvocation")
  end.

(** The end of [parse]: [result = self.evaluate(output, line)], and what is
    left on [output] is extra input: [ExtraInputException(output)] formats
    the list that is left, the bottom of the stack first. *)
Definition parse_output (rt : PyRuntime) (self : Parser) (output : list output_item)
           (line : nat) : result value :=
  r <- evaluate rt self output line ;;
  let '(v, rest) := r in
  match rest with
  | [] => Ok v
  | _ =>
      extra <- repr_of_list (map (repr_of_item rt) (rev rest)) ;;
      Raise (ExtraInputException extra)
  end.

(** ** pyre.Parser.parse

    The parser reads a stream of [Token] objects and of "other" objects,
    the operands, which it hands to the callbacks untouched. *)
Inductive token : Type :=
| OpenParenToken
| CloseParenToken
| ArgumentSeparatorToken
| FunctionToken (name : CS)
| OperatorToken (name : CS)
| NewlineToken
| Other (v : value).

(** What [tokenizer.tokenize(...)] yields when it is iterated: the tokens,
    and the exception that ends the iteration if a rule raises or no rule
    matches. *)
Definition token_stream : Type := list token * option exn.

(** The operator stack holds open parentheses and, waiting to be moved
    to the output, operators and function invocations. *)
Inductive stack_item : Type :=
| OpenParen
| Pending (item : output_item).

(** [binary_operators] and [unary_operators] as [__init__] fills them
    from the decorated methods; [giles] never adds to them. *)
Definition binary_operators : dict binary_operator :=
  map (fun op => (binary_operator_name op, op))
      [Add; Sub; Mul; Div; Mod; Equ; Lte; Gte; Neq; Lt; Gt; Or; And;
       Regexp; NotRegexp; Like; Unlike; Join; Concat].

Definition unary_operators : dict unary_operator :=
  map (fun op => (unary_operator_name op, op)) [Pos; Neg; Not].

(** [precedence=98] on the three unary operators. *)
Definition unary_operator_precedence (op : unary_operator) : nat := 98.

(** [isinstance(x, Operator)] with [x.precedence] *)
Definition precedence (item : output_item) : option nat :=
  match item with
  | UnaryOperator op => Some (unary_operator_precedence op)
  | BinaryOperator op => Some (binary_operator_precedence op)
  | _ => None
  end.

(** The decorators' defaults: ["left"] for binary, ["right"] for unary
    operators; no method of [expression.Parser] overrides them. *)
Definition associativity (item : output_item) : string :=
  match item with
  | BinaryOperator _ => "left"
  | _ => "right"
  end.

(** [while len(stack) > 0 and isinstance(stack[-1], Operator) and
    ((o1.associativity == "left" and o1.precedence == stack[-1].precedence)
     or (o1.precedence < stack[-1].precedence)): output.append(stack.pop())] *)
Fixpoint pop_operators (o1 : output_item) (output : list output_item)
         (stack : list stack_item) : list output_item * list stack_item :=
  match stack with
  | Pending top :: rest =>
      match precedence o1, precedence top with
      | Some p1, Some p2 =>
          if (String.eqb (associativity o1) "left" && (p1 =? p2)%nat) || (p1 <? p2)%nat
          then pop_operators o1 (top :: output) rest
          else (output, stack)
      | _, _ => (output, stack)
      end
  | _ => (output, stack)
  end.

(** [while len(stack) > 0 and not isinstance(stack[-1], OpenParenToken):
    output.append(stack.pop())] *)
Fixpoint pop_to_paren (output : list output_item) (stack : list stack_item)
  : list output_item * list stack_item :=
  match stack with
  | Pending item :: rest => pop_to_paren (item :: output) rest
  | _ => (output, stack)
  end.

(** The tests on [last_token]. *)
Definition starts_operand (last_token : option token) : bool :=
  match last_token with
  | None | Some (OperatorToken _) | Some OpenParenToken => true
  | _ => false
  end.

(** [isinstance(last_token, Operator)] never holds for a token or a
    value, which leaves [last_token is None or isinstance(last_token,
    OpenParenToken)] of the separator's test. *)
Definition nothing_before_separator (last_token : option token) : bool :=
  match last_token with
  | None | Some OpenParenToken => true
  | _ => false
  end.

(** The [for token in iter(tokenizer)] loop.  [output] and [stack] are
    Python lists used as stacks: their last element is the head here. *)
Fixpoint parse_tokens (rt : PyRuntime) (self : Parser) (tokens : list token) (line : nat)
         (last_token : option token) (output : list output_item)
         (stack : list stack_item) {struct tokens}
  : result (nat * list output_item * list stack_item) :=
  match tokens with
  | [] => Ok (line, output, stack)
  | token :: tokens =>
      match token with
      | NewlineToken =>
          parse_tokens rt self tokens (line + 1) (Some token) output stack
      | FunctionToken name =>
          match dict_get (functions self) name with
          | None => Raise (UnknownFunctionException name line)
          | Some f =>
              parse_tokens rt self tokens line (Some token) output
                           (Pending (FunctionInvocation f 0 line) :: stack)
          end
      | ArgumentSeparatorToken =>
          if nothing_before_separator last_token
          then Raise (MismatchedParenthesesException line)
          else
            let '(output, stack) := pop_to_paren output stack in
            match stack with
            | top :: Pending (FunctionInvocation f argcount function_line) :: rest =>
                let argcount := if (argcount =? 0)%nat then argcount + 1 else argcount in
                let argcount := argcount + 1 in
                parse_tokens rt self tokens line (Some token) output
                             (top :: Pending (FunctionInvocation f argcount function_line)
                                  :: rest)
            | _ => Raise (MismatchedParenthesesException line)
            end
      | OperatorToken name =>
          found <- (if starts_operand last_token
                    then match dict_get unary_operators name with
                         | Some op => Ok (UnaryOperator op)
                         | None => Raise (UnknownOperatorException name line)
                         end
                    else match dict_get binary_operators name with
                         | Some op => Ok (BinaryOperator op)
                         | None => Raise (UnknownOperatorException name line)
                         end) ;;
          let o1 := found in
          let '(output, stack) := pop_operators o1 output stack in
          parse_tokens rt self tokens line (Some token) output (Pending o1 :: stack)
      | OpenParenToken =>
          parse_tokens rt self tokens line (Some token) output (OpenParen :: stack)
      | CloseParenToken =>
          match last_token with
          | Some ArgumentSeparatorToken => Raise (MismatchedParenthesesException line)
          | _ =>
              let '(output, stack) := pop_to_paren output stack in
              match stack with
              | [] => Raise (MismatchedParenthesesException line)
              | _ :: stack =>
                  match stack with
                  | Pending (FunctionInvocation f argcount function_line) :: rest =>
                      let argcount :=
                        match last_token with
                        | Some OpenParenToken => argcount
                        | _ => if (argcount =? 0)%nat then 1 else argcount
                        end in
                      parse_tokens rt self tokens line (Some token)
                                   (FunctionInvocation f argcount function_line :: output)
                                   rest
                  | _ => parse_tokens rt self tokens line (Some token) output stack
                  end
              end
          end
      | Other v =>
          (* last_token is not None and is neither an Operator nor a Token:
             raise ExtraInputException(str(token)) *)
          match last_token with
          | Some (Other _) => extra <- str_call rt v ;; Raise (ExtraInputException extra)
          | _ => parse_tokens rt self tokens line (Some token) (Operand v :: output) stack
          end
      end
  end.

(** [while len(stack) > 0: ...] after the loop: a parenthesis left on the
    stack is mismatched, everything else goes to the output. *)
Fixpoint pop_all (line : nat) (output : list output_item) (stack : list stack_item)
  : result (list output_item) :=
  match stack with
  | [] => Ok output
  | OpenParen :: _ => Raise (MismatchedParenthesesException line)
  | Pending item :: rest => pop_all line (item :: output) rest
  end.

(** [parse(self, tokenizer)].  The tokens are taken from the iterator one
    by one, so an exception of the loop comes before one of the
    tokenizer further on in the input. *)
Definition parse (rt : PyRuntime) (self : Parser) (tokenizer : token_stream)
  : result value :=
  r <- parse_tokens rt self (fst tokenizer) 1 None [] [] ;;
  let '(line, output, stack) := r in
  match snd tokenizer with
  | Some e => Raise e
  | None =>
      output <- pop_all line output stack ;;
      parse_output rt self output line
  end.

End Expression.

(* ================================================================== *)
(** * A runtime for closed examples *)
(* ================================================================== *)

(** The theorems below hold for every [PyRuntime].  To run the model on
    concrete inputs one runtime is fixed here.  Its numeric conversions
    follow IEEE 754 binary64 with round-to-nearest-even; its [str] of a
    float, its [int] and [repr] of a string, its [repr] of an object
    without [__repr__] and its regular expressions are stand-ins (plain
    decimal numerals, no escapes, no address, literal patterns), which no
    example relies on.  The texts of its exceptions are CPython's. *)

Definition float_of_Z (z : Z) : result float :=
  let f := SF2Prim (binary_normalize 53 1024 z 0 false) in
  if PrimFloat.is_infinity f
  then Raise (OverflowError "int too large to convert to float") else Ok f.

Definition Z_of_float (f : float) : result Z :=
  match Prim2SF f with
  | S754_zero _ => Ok 0%Z
  | S754_infinity _ => Raise (OverflowError "cannot convert float infinity to integer")
  | S754_nan => Raise (ValueError "cannot convert float NaN to integer")
  | S754_finite s m e =>
      let a := if (0 <=? e)%Z then (Z.pos m * 2 ^ e)%Z else (Z.pos m / 2 ^ (- e))%Z in
      Ok (if s then (- a)%Z else a)
  end.

(** The correctly rounded quotient of two integers: a quotient of 66 bits
    and a sticky bit are rounded once. *)
Definition Z_truediv (x y : Z) : result float :=
  let ax := Z.abs x in
  let ay := Z.abs y in
  let s := (66 + Z.log2 ay - Z.log2 ax)%Z in
  let '(q, r) := if (0 <=? s)%Z then Z.div_eucl (ax * 2 ^ s) ay
                 else Z.div_eucl ax (ay * 2 ^ (- s)) in
  let m := (2 * q + (if (r =? 0)%Z then 0 else 1))%Z in
  let f := SF2Prim (binary_normalize 53 1024 (Z.sgn x * Z.sgn y * m) (- s - 1) false) in
  if PrimFloat.is_infinity f
  then Raise (OverflowError "integer division result too large for a float") else Ok f.

Fixpoint digits_value (acc : Z) (s : string) : option Z :=
  match s with
  | EmptyString => Some acc
  | String c rest =>
      let n := nat_of_ascii c in
      if (48 <=? n)%nat && (n <=? 57)%nat
      then digits_value (10 * acc + Z.of_nat (n - 48)) rest
      else None
  end.

Definition Z_of_numeral (s : string) : result Z :=
  let numeral :=
    match s with
    | EmptyString => None
    | String "-"%char EmptyString => None
    | String "-"%char rest => option_map Z.opp (digits_value 0 rest)
    | _ => digits_value 0 s
    end in
  match numeral with
  | Some z => Ok z
  | None => Raise (ValueError ("invalid literal for int() with base 10: '" +++ s +++ "'"))
  end.

Definition example_runtime : PyRuntime :=
  {| str_of_float := fun _ => "<float>";
     float_of_int := float_of_Z;
     int_of_float := Z_of_float;
     int_of_str := Z_of_numeral;
     int_truediv := Z_truediv;
     re_compile := fun _ => None;
     re_match := fun p s => inr (String.prefix p s);
     re_escape := fun p => p;
     repr_of_str := fun s => "'" +++ s +++ "'";
     repr_of_object := fun class => "<" +++ class +++ " object>" |}.

(* ================================================================== *)
(** * giles/giles.py *)
(* ================================================================== *)

Module Giles.
Import Expression.

(** ** The validated document *)

(** A value admitted by [AnyExpression]: a constant of the document or a
    [DelayedExpression] ([!expr]). *)
Inductive any_expression : Type :=
| ABool (b : bool)
| AInt (z : Z)
| AFloat (f : float)
| AStr (s : string)
| ADelayed (expression : string).

(** An entry of [Parameters:] ([ValidParameter]). *)
Record parameter_clause : Type := mkParameterClause {
  Default : any_expression;
  Dictionary : option bool;
  Lower : option any_expression;
  Upper : option any_expression
}.

(** An entry of [MatchAll:] or [MatchNone:] ([ValidMatch], [ValidInverted]). *)
Record match_document : Type := mkMatchDocument {
  Fact : CS;
  Meaning : string;
  When : option string;                      (* a DelayedExpression *)
  Assign : option (dict any_expression)
}.

Record suppress_document : Type := mkSuppressDocument {
  SuppressFact : CS;
  SuppressWhen : option string               (* a DelayedExpression *)
}.

(** [Assert:] holds one fact with its field expressions and may carry the
    [!distinct] tag; a rule has either [Assert:] or [Suppress:]. *)
Inductive production_document : Type :=
| Assert (distinct : bool) (produced : dict (dict any_expression))
| Suppress (clause : suppress_document).

(** An entry of [Rules:] ([ValidRule]). *)
Record rule_document : Type := mkRuleDocument {
  Enabled : option bool;
  Description : string;
  Metadata : dict (list any_expression);
  MatchAll : list match_document;
  MatchNone : option (list match_document);
  RuleWhen : option any_expression;
  Production : production_document
}.

(** ** The rule IR that the analysis builds *)

(** A fact: its fields and whether it is an [OutputFact]. *)
Record fact : Type := mkFact {
  fields : dict type_tag;
  is_output : bool
}.

(** [parameters[name]], a dictionary filled key by key; a key not yet set
    is [None] here, and [lower]/[upper] set to Python's [None] are
    [Some None]. *)
Record parameter : Type := mkParameter {
  default : option value;
  lower : option (option value);
  upper : option (option value);
  dictionary : option bool
}.

Definition empty_parameter : parameter :=
  {| default := None; lower := None; upper := None; dictionary := None |}.

(** A match of a rule; an inverted match has no ["assignments"] key. *)
Record match_clause : Type := mkMatch {
  fact_name : CS;
  meaning : option string;
  when : option value;
  assignments : option (dict value)
}.

Inductive production : Type :=
| Produces (distinct : bool) (produced_fact : option CS) (produced_fields : dict (option value))
| Suppresses (suppressed_fact : CS) (suppressed_when : value).

Record rule : Type := mkRule {
  locals : dict type_tag;
  matches : list match_clause;
  inverted_matches : list match_clause;
  description : string;
  final_predicate : value;
  produces : production;
  metadata : dict (list any_expression)
}.

(** ** The state of [main] *)

Record state : Type := mkState {
  constants : dict value;
  distincts : list CS;
  functions : dict function_clause;
  parameters : dict parameter;
  rules : dict rule;
  facts : dict fact;
  errors : nat;
  log : list string
}.

(** [main] at its start: only [InitialFact] is known. *)
Definition initial_state : state :=
  {| constants := []; distincts := []; functions := []; parameters := [];
     rules := [];
     facts := [("InitialFact", {| fields := [("InitializationTime", int_)];
                                  is_output := false |})];
     errors := 0; log := [] |}.

(** Statements run on the state and may raise; the state reached when an
    exception is raised is the one its handler sees. *)
Definition M (A : Type) : Type := state -> result A * state.

Definition ret {A : Type} (a : A) : M A := fun s => (Ok a, s).

Definition raise {A : Type} (e : exn) : M A := fun s => (Raise e, s).

Definition bindM {A B : Type} (m : M A) (k : A -> M B) : M B :=
  fun s =>
    match m s with
    | (Ok a, s') => k a s'
    | (Raise e, s') => (Raise e, s')
    end.

Definition gets {A : Type} (f : state -> A) : M A := fun s => (Ok (f s), s).

Definition modify (f : state -> state) : M unit := fun s => (Ok tt, f s).

Definition lift {A : Type} (r : result A) : M A := fun s => (r, s).

(** [try: body except Exception as e: handler(e)] *)
Definition try_except (body : M unit) (handler : exn -> M unit) : M unit :=
  fun s =>
    match body s with
    | (Ok tt, s') => (Ok tt, s')
    | (Raise e, s') => handler e s'
    end.

Declare Scope main_scope.
Delimit Scope main_scope with main.
Notation "x <~ m ;; k" := (bindM m (fun x => k))
  (at level 61, m at next level, right associativity) : main_scope.
Notation "m ;;~ k" := (bindM m (fun _ => k))
  (at level 61, right associativity) : main_scope.
Open Scope main_scope.

(** [if c: raise e] *)
Definition raise_if (c : bool) (e : exn) : M unit :=
  if c then raise e else ret tt.

(** [for x in l: body(x)] *)
Fixpoint for_each {A : Type} (l : list A) (body : A -> M unit) : M unit :=
  match l with
  | [] => ret tt
  | x :: rest => body x ;;~ for_each rest body
  end.

Definition set_constants (c : dict value) (s : state) : state :=
  {| constants := c; distincts := distincts s; functions := functions s;
     parameters := parameters s; rules := rules s; facts := facts s;
     errors := errors s; log := log s |}.

Definition set_distincts (d : list CS) (s : state) : state :=
  {| constants := constants s; distincts := d; functions := functions s;
     parameters := parameters s; rules := rules s; facts := facts s;
     errors := errors s; log := log s |}.

Definition set_parameters (p : dict parameter) (s : state) : state :=
  {| constants := constants s; distincts := distincts s; functions := functions s;
     parameters := p; rules := rules s; facts := facts s;
     errors := errors s; log := log s |}.

Definition set_rules (r : dict rule) (s : state) : state :=
  {| constants := constants s; distincts := distincts s; functions := functions s;
     parameters := parameters s; rules := r; facts := facts s;
     errors := errors s; log := log s |}.

Definition set_facts (f : dict fact) (s : state) : state :=
  {| constants := constants s; distincts := distincts s; functions := functions s;
     parameters := parameters s; rules := rules s; facts := f;
     errors := errors s; log := log s |}.

(** [error]: count the error and log the message. *)
Definition error (message : string) : M unit :=
  modify (fun s =>
    {| constants := constants s; distincts := distincts s; functions := functions s;
       parameters := parameters s; rules := rules s; facts := facts s;
       errors := S (errors s); log := log s ++ [message] |}).

(** [str(e)] for the exceptions that reach a handler of [main].  A
    [KeyError] shows the [repr] of its key, which for a caseless string is
    [CaselessString.__repr__]; the exceptions of the interpreter show the
    text they were raised with.  (A [ValidationException] is raised by the
    validators, before [main] enters its handlers, [AttributeError] by the
    backend after them, and [RecursionError] never.) *)
Definition str_of_exn (e : exn) : string :=
  match e with
  | Exception m => m
  | ValidationException m _ => m
  | MissingOperandException op line =>
      "Missing operand for '" +++ op +++ "' operator on line " +++ str_of_nat line
  | UnknownOperatorException op line =>
      "Unknown operator '" +++ op +++ "' on " +++ str_of_nat line
  | UnknownFunctionException name line =>
      "Unknown function '" +++ name +++ "' on line " +++ str_of_nat line
  | MismatchedParenthesesException line =>
      "Mismatched parentheses on line " +++ str_of_nat line
  | KeyError k => "CaselessString('" +++ replace "'" "\'" k +++ "')"
  | KeyErrorNone => "None"
  | IndexError => "pop from empty list"
  | ZeroDivisionError m => m
  | ValueError m => m
  | OverflowError m => m
  | AttributeError => "'NoneType' object has no attribute 'lower'"
  | TypeError m => m
  | RecursionError => "maximum recursion depth exceeded"
  | ExtraInputException extra => "Extra input after end of expression: '" +++ extra +++ "'"
  | ReError m => m
  end.

(** ** Expression evaluation and the analysis passes of [main] *)

Section Analysis.

Variable rt : PyRuntime.

(** [arguments.allow_regexp] *)
Variable allow_regexp : bool.

(** [Tokenizer(constants, variables, this).tokenize(expression)]: the
    tokens that the syntax rules of [expression.Tokenizer] cut the source
    into, references already resolved to values and nodes. *)
Variable tokenize : dict value -> dict type_tag -> dict type_tag -> string
                    -> token_stream.

(** [for name, clause in functions.items():
      parser.add_function(str(name.lower()), build_function_node(name, clause))] *)
Definition with_functions (parser : Parser) (fs : dict function_clause) : Parser :=
  fold_left (fun parser entry =>
               let '(name, clause) := entry in
               add_function parser (str_lower name) (ExternalFunction name clause))
            fs parser.

(** [evaluate(value, variables=None, this=None)] *)
Definition evaluate (val : any_expression) (variables this : option (dict type_tag))
  : M value :=
  match val with
  | ADelayed expression =>
      cs <~ gets constants ;;
      fs <~ gets functions ;;
      let variables := match variables with None => [] | Some v => v end in
      let tokenizer :=
        tokenize cs variables (match this with None => [] | Some t => t end) in
      let parser := Parser_init (Some cs) (Some variables) this allow_regexp in
      let parser := with_functions parser fs in
      lift (parse rt parser (tokenizer expression))
  | ABool b => ret (VBool b)
  | AInt z => ret (VInt z)
  | AFloat f => ret (VFloat f)
  | AStr s => ret (VStr s)
  end.

(** *** Evaluate Constants *)

Definition process_constant (entry : CS * any_expression) : M unit :=
  let '(name, val) := entry in
  try_except
    (v <~ evaluate val None None ;;
     modify (fun s => set_constants (dict_set (constants s) name v) s) ;;~
     raise_if (negb (is_constant v))
       (Exception ("Invalid constant '" +++ name +++ "': not a constant initializer")))
    (fun e =>
       cs <~ gets constants ;;
       cs' <~ lift (dict_del cs name) ;;
       modify (set_constants cs') ;;~
       error ("Error processing constants: " +++ str_of_exn e)).

(** *** Load Facts *)

Definition as_output (f : fact) : fact := {| fields := fields f; is_output := true |}.

(** [facts[name] = {...}], wrapped in [OutputFact] when the declaration
    carries [!output]. *)
Definition load_fact (entry : CS * fact) : M unit :=
  let '(name, f) := entry in
  modify (fun s => set_facts (dict_set (facts s) name f) s).

Definition load_facts (declared : dict fact) : M unit :=
  fs <~ gets facts ;;
  match dict_get fs "InitialFact" with
  | Some f => modify (fun s => set_facts (dict_set (facts s) "InitialFact" (as_output f)) s)
  | None => raise (KeyError "InitialFact")
  end ;;~
  for_each declared load_fact.

(** *** Evaluate Parameters *)

(** [isinstance(x, type(y))] for two values of the document: a [bool] is
    an [int]. *)
Definition isinstance_type_of (x y : any_expression) : bool :=
  match x, y with
  | ABool _, ABool _ | ABool _, AInt _ | AInt _, AInt _
  | AFloat _, AFloat _ | AStr _, AStr _ | ADelayed _, ADelayed _ => true
  | _, _ => false
  end.

(** [isinstance(x, t)] for the class [t] of an evaluated constant. *)
Definition isinstance_tag (x : any_expression) (t : type_tag) : bool :=
  match x, t with
  | ABool _, bool_ | ABool _, int_ | AInt _, int_ | AFloat _, float_ | AStr _, str_ => true
  | _, _ => false
  end.

Definition Z_of_bool (b : bool) : Z := if b then 1%Z else 0%Z.

(** [a < b] between numbers of one kind, a [bool] counting as 0 or 1. *)
Definition number_lt (a b : value) : result bool :=
  match a, b with
  | VBool x, VBool y => Ok (Z_of_bool x <? Z_of_bool y)%Z
  | VBool x, VInt y => Ok (Z_of_bool x <? y)%Z
  | VInt x, VBool y => Ok (x <? Z_of_bool y)%Z
  | VInt x, VInt y => Ok (x <? y)%Z
  | VFloat x, VFloat y => Ok (PrimFloat.ltb x y)
  | _, _ => Raise bad_operands
  end.

(** The document constant as the value [evaluate] returns for it. *)
Definition constant_value (a : any_expression) : option value :=
  match a with
  | ABool b => Some (VBool b)
  | AInt z => Some (VInt z)
  | AFloat f => Some (VFloat f)
  | AStr s => Some (VStr s)
  | ADelayed _ => None
  end.

Definition raw_lt (a b : any_expression) : result bool :=
  match constant_value a, constant_value b with
  | Some x, Some y => number_lt x y
  | _, _ => Raise bad_operands
  end.

Definition update_parameter (name : CS) (f : parameter -> parameter) : M unit :=
  ps <~ gets parameters ;;
  match dict_get ps name with
  | Some p => modify (set_parameters (dict_set ps name (f p)))
  | None => raise (KeyError name)
  end.

Definition with_default (v : value) (p : parameter) : parameter :=
  {| default := Some v; lower := lower p; upper := upper p; dictionary := dictionary p |}.
Definition with_lower (v : option value) (p : parameter) : parameter :=
  {| default := default p; lower := Some v; upper := upper p; dictionary := dictionary p |}.
Definition with_upper (v : option value) (p : parameter) : parameter :=
  {| default := default p; lower := lower p; upper := Some v; dictionary := dictionary p |}.
Definition with_dictionary (b : bool) (p : parameter) : parameter :=
  {| default := default p; lower := lower p; upper := upper p; dictionary := Some b |}.

Definition add_field (name field : CS) (t : type_tag) : M unit :=
  fs <~ gets facts ;;
  match dict_get fs name with
  | Some f =>
      modify (set_facts (dict_set fs name
                {| fields := dict_set (fields f) field t; is_output := is_output f |}))
  | None => raise (KeyError name)
  end.

(** The [try] block of the parameter loop. *)
Definition parameter_body (name : CS) (clause : parameter_clause) : M unit :=
  fs <~ gets facts ;;
  raise_if (dict_mem fs name)
    (Exception ("Collision between parameter '" +++ name
                +++ "' and an identically-named fact")) ;;~
  modify (fun s => set_parameters (dict_set (parameters s) name empty_parameter) s) ;;~
  d <~ evaluate (Default clause) None None ;;
  update_parameter name (with_default d) ;;~
  raise_if (negb (is_constant d))
    (Exception ("Invalid parameter '" +++ name +++ "': not a constant initializer")) ;;~
  match type_of d with
  | float_ | int_ =>
      match Lower clause with
      | None =>
          raise (Exception ("Invalid parameter '" +++ name
                            +++ "': no lower limit specified"))
      | Some lo =>
          match Upper clause with
          | None =>
              raise (Exception ("Invalid parameter '" +++ name
                                +++ "': no upper limit specified"))
          | Some up =>
              raise_if (negb (isinstance_type_of up lo) || negb (isinstance_tag up (type_of d)))
                (Exception ("Invalid parameter '" +++ name
                            +++ "': types of default and limits do not agree")) ;;~
              out_of_order <~ lift (raw_lt up lo) ;;
              raise_if out_of_order
                (Exception ("Invalid parameter '" +++ name +++ "': limits out of order")) ;;~
              l <~ evaluate lo None None ;;
              update_parameter name (with_lower (Some l)) ;;~
              u <~ evaluate up None None ;;
              update_parameter name (with_upper (Some u)) ;;~
              below <~ lift (number_lt d l) ;;
              above <~ (if below then ret true else lift (number_lt u d)) ;;
              raise_if above
                (Exception ("Invalid parameter '" +++ name
                            +++ "': default value is outside of specified limits"))
          end
      end
  | _ =>
      raise_if (match Lower clause, Upper clause with None, None => false | _, _ => true end)
        (Exception ("Invalid parameter '" +++ name
                    +++ "': cannot specify limits on non-numeric types")) ;;~
      update_parameter name (with_lower None) ;;~
      update_parameter name (with_upper None)
  end ;;~
  modify (fun s => set_facts (dict_set (facts s) name {| fields := []; is_output := false |}) s) ;;~
  add_field name "Value" (type_of d) ;;~
  match Dictionary clause with
  | Some true =>
      update_parameter name (with_dictionary true) ;;~
      add_field name "Key" str_
  | _ => update_parameter name (with_dictionary false)
  end.

(** The [except Exception] block of the parameter loop. *)
Definition parameter_handler (name : CS) (e : exn) : M unit :=
  ps <~ gets parameters ;;
  ps' <~ lift (dict_del ps name) ;;
  modify (set_parameters ps') ;;~
  fs <~ gets facts ;;
  (if dict_mem fs name
   then fs' <~ lift (dict_del fs name) ;; modify (set_facts fs')
   else ret tt) ;;~
  error ("Error processing parameters: " +++ str_of_exn e).

Definition process_parameter (entry : CS * parameter_clause) : M unit :=
  let '(name, clause) := entry in
  try_except (parameter_body name clause) (parameter_handler name).

(** [for name, value in document[CS("Parameters")].items(): ...] *)
Definition process_parameters (document : dict parameter_clause) : M unit :=
  for_each document process_parameter.

(** *** Load Rules *)

(** The shape test on a match's [when]: a [JoinNode], or a [BinaryOpNode]
    whose [arg1] is a [ThisReferenceNode]. *)
Definition joinable (w : value) : bool :=
  match w with
  | JoinNode _ _ => true
  | BinaryOpNode _ _ (ThisReferenceNode _ _) _ _ => true
  | _ => false
  end.

(** [if fact not in facts: raise Exception("Unknown fact ...")], giving
    the fields of the fact otherwise. *)
Definition known_fact (name : CS) : M (dict type_tag) :=
  fs <~ gets facts ;;
  match dict_get fs name with
  | Some f => ret (fields f)
  | None => raise (Exception ("Unknown fact '" +++ name +++ "'"))
  end.

(** [evaluate(match_clause[CS("when")], local_vars, facts[fact])
    if CS("when") in match_clause else None] *)
Definition evaluate_when (clause : match_document) (local_vars this : dict type_tag)
  : M (option value) :=
  match When clause with
  | Some expression =>
      w <~ evaluate (ADelayed expression) (Some local_vars) (Some this) ;;
      ret (Some w)
  | None => ret None
  end.

(** The loop over [match_clause[CS("Assign")].items()]; it extends the
    rule's [local_vars] and the match's ["assignments"]. *)
Fixpoint assign_all (items : dict any_expression) (this local_vars : dict type_tag)
         (assigned : dict value) : M (dict type_tag * dict value) :=
  match items with
  | [] => ret (local_vars, assigned)
  | (assignment, val) :: rest =>
      raise_if (dict_mem local_vars assignment)
        (Exception ("Duplicate assignment to '" +++ assignment +++ "'")) ;;~
      v <~ evaluate val (Some local_vars) (Some this) ;;
      assign_all rest this
                 (dict_set local_vars assignment (type_of v))
                 (dict_set assigned assignment v)
  end.

(** One turn of the loop over [rule_clause[CS("MatchAll")]]. *)
Definition positive_match (clause : match_document) (local_vars : dict type_tag)
  : M (dict type_tag * match_clause) :=
  this <~ known_fact (Fact clause) ;;
  w <~ evaluate_when clause local_vars this ;;
  match w with
  | Some p =>
      if joinable p then ret tt
      else
        (* "... (%s)" % match["when"]: a predicate that cannot be
           formatted raises in place of the exception being built *)
        text <~ lift (format_value rt p) ;;
        raise (Exception ("Predicate of match is not a joinable predicate ("
                          +++ text +++ ")"))
  | None => ret tt
  end ;;~
  r <~ match Assign clause with
       | Some items => assign_all items this local_vars []
       | None => ret (local_vars, [])
       end ;;
  let '(local_vars, assigned) := r in
  ret (local_vars,
       {| fact_name := Fact clause; meaning := Some (Meaning clause);
          when := w; assignments := Some assigned |}).

Fixpoint positive_matches (clauses : list match_document) (local_vars : dict type_tag)
         (matches : list match_clause) : M (dict type_tag * list match_clause) :=
  match clauses with
  | [] => ret (local_vars, matches)
  | clause :: rest =>
      r <~ positive_match clause local_vars ;;
      let '(local_vars, m) := r in
      positive_matches rest local_vars (matches ++ [m])
  end.

(** One turn of the loop over [rule_clause[CS("MatchNone")]]. *)
Definition inverted_match (clause : match_document) (local_vars : dict type_tag)
  : M match_clause :=
  this <~ known_fact (Fact clause) ;;
  w <~ evaluate_when clause local_vars this ;;
  match w with
  | Some p =>
      raise_if (negb (joinable p))
        (Exception "Predicate of match is not a joinable predicate")
  | None => ret tt
  end ;;~
  ret {| fact_name := Fact clause; meaning := Some (Meaning clause);
         when := w; assignments := None |}.

Fixpoint inverted_match_list (clauses : list match_document) (local_vars : dict type_tag)
         (inverted : list match_clause) : M (list match_clause) :=
  match clauses with
  | [] => ret inverted
  | clause :: rest =>
      m <~ inverted_match clause local_vars ;;
      inverted_match_list rest local_vars (inverted ++ [m])
  end.

(** The loop over the field expressions of an [Assert:] entry. *)
Fixpoint produce_fields (items : dict any_expression) (declared local_vars : dict type_tag)
         (produced_fields : dict (option value)) : M (dict (option value)) :=
  match items with
  | [] => ret produced_fields
  | (assignment, val) :: rest =>
      match dict_get declared assignment with
      | None =>
          raise (Exception ("Unknown field '" +++ assignment +++ "' in production clause"))
      | Some declared_type =>
          v <~ evaluate val (Some local_vars) None ;;
          let produced_fields := dict_set produced_fields assignment (Some v) in
          raise_if (negb (type_tag_eqb (type_of v) declared_type))
            (Exception ("Result of expression and field type do not agree in production of '"
                        +++ assignment +++ "'")) ;;~
          produce_fields rest declared local_vars produced_fields
      end
  end.

Fixpoint all_assigned (produced_fields : dict (option value)) : M unit :=
  match produced_fields with
  | [] => ret tt
  | (k, None) :: _ => raise (Exception ("Field '" +++ k +++ "' unassigned in production"))
  | (_, Some _) :: rest => all_assigned rest
  end.

(** The loop over [rule_clause[CS("Assert")].items()] (the validator lets
    exactly one entry through); it leaves the last fact and its fields. *)
Fixpoint produce_all (entries : dict (dict any_expression)) (local_vars : dict type_tag)
         (produced_fact : option CS) (produced_fields : dict (option value))
  : M (option CS * dict (option value)) :=
  match entries with
  | [] => ret (produced_fact, produced_fields)
  | (name, items) :: rest =>
      declared <~ known_fact name ;;
      ps <~ gets parameters ;;
      raise_if (dict_mem ps name) (Exception "Parameter facts cannot be produced") ;;~
      filled <~ produce_fields items declared local_vars
                  (map (fun kv => (fst kv, @None value)) declared) ;;
      all_assigned filled ;;~
      produce_all rest local_vars (Some name) filled
  end.

(** [distincts.add(fact)] *)
Definition set_add (x : CS) (s : list CS) : list CS :=
  if CaselessString.mem x s then s else s ++ [x].

(** The [try] block of the rule loop, after the [Enabled] test. *)
Definition rule_body (rule_name : CS) (rule_clause : rule_document) : M unit :=
  r <~ positive_matches (MatchAll rule_clause) [] [] ;;
  let '(local_vars, matches) := r in
  inverted <~ match MatchNone rule_clause with
              | Some clauses => inverted_match_list clauses local_vars []
              | None => ret []
              end ;;
  final <~ match RuleWhen rule_clause with
           | Some w =>
               p <~ evaluate w (Some local_vars) None ;;
               raise_if (negb (type_tag_eqb (type_of p) bool_))
                 (Exception "Rule final predicates must be of boolean type.") ;;~
               ret p
           | None => ret (VBool true)
           end ;;
  match Production rule_clause with
  | Assert distinct entries =>
      r <~ produce_all entries local_vars None [] ;;
      let '(produced_fact, produced_fields) := r in
      (if distinct then
         match produced_fact with
         | Some name =>
             declared <~ known_fact name ;;
             raise_if (List.length declared <=? 0)%nat
               (Exception "Only facts with fields may be distinctly produced") ;;~
             modify (fun s => set_distincts (set_add name (distincts s)) s)
         | None => raise KeyErrorNone
         end
       else ret tt) ;;~
      modify (fun s => set_rules (dict_set (rules s) rule_name
                {| locals := local_vars; matches := matches;
                   inverted_matches := inverted;
                   description := Description rule_clause;
                   final_predicate := final;
                   produces := Produces distinct produced_fact produced_fields;
                   metadata := Metadata rule_clause |}) s)
  | Suppress clause =>
      let suppressed_fact := SuppressFact clause in
      this <~ known_fact suppressed_fact ;;
      ps <~ gets parameters ;;
      raise_if (dict_mem ps suppressed_fact)
        (Exception "Parameter facts cannot be suppressed") ;;~
      match SuppressWhen clause with
      | None => raise (KeyError "When")
      | Some expression =>
          w <~ evaluate (ADelayed expression) (Some local_vars) (Some this) ;;
          modify (fun s => set_rules (dict_set (rules s) rule_name
                    {| locals := local_vars; matches := matches;
                       inverted_matches := inverted;
                       description := Description rule_clause;
                       final_predicate := final;
                       produces := Suppresses suppressed_fact w;
                       metadata := Metadata rule_clause |}) s)
      end
  end.

Definition rule_handler (rule_name : CS) (e : exn) : M unit :=
  error ("Error processing rule '" +++ rule_name +++ "': " +++ str_of_exn e).

Definition process_rule (entry : CS * rule_document) : M unit :=
  let '(rule_name, rule_clause) := entry in
  match Enabled rule_clause with
  | Some false => ret tt                                 (* continue *)
  | _ => try_except (rule_body rule_name rule_clause) (rule_handler rule_name)
  end.

(** [for rule_name, rule_clause in document[CS("Rules")].items(): ...] *)
Definition process_rules (document : dict rule_document) : M unit :=
  for_each document process_rule.

End Analysis.

(** ** Check for cycles *)

Section FindCycle.

Variable node : Type.
Variable node_eq_dec : forall x y : node, {x = y} + {x <> y}.

(** Which element [todo.pop()] takes out of a set is the interpreter's
    choice: [pick] gives its position among the elements left. *)
Variable pick : list node -> nat.

(** [edges(top)], in the order the loop iterates it. *)
Variable edges : node -> list node.

(** [x in l] *)
Definition member (x : node) (l : list node) : bool :=
  if in_dec node_eq_dec x l then true else false.

(** [set(nodes)] *)
Definition set_of (nodes : list node) : list node := nodup node_eq_dec nodes.

(** [todo.pop()] on a non-empty set: the element taken and the set left. *)
Definition set_pop (todo : list node) : option (node * list node) :=
  match todo with
  | [] => None
  | d :: _ =>
      let x := nth (pick todo mod List.length todo) todo d in
      Some (x, remove node_eq_dec x todo)
  end.

(** [stack[stack.index(node):]] for a node that is in the stack. *)
Fixpoint from_index (n : node) (stack : list node) : list node :=
  match stack with
  | [] => []
  | x :: rest => if node_eq_dec x n then stack else from_index n rest
  end.

(** How the [for node in edges(top)] loop ends: [return] a cycle, [break]
    after pushing a node, or run into its [else]. *)
Inductive scan_result : Type :=
| Found (cycle : list node)
| Pushed (n : node)
| Exhausted.

Fixpoint scan (stack todo successors : list node) : scan_result :=
  match successors with
  | [] => Exhausted
  | n :: rest =>
      if member n stack then Found (from_index n stack)
      else if member n todo then Pushed n
      else scan stack todo rest
  end.

(** [while len(stack) > 0: ...]: [inl] is the cycle returned from inside
    the loop, [inr] the [todo] set when the loop ends; [None] when the
    fuel runs out.  The stack is the Python list, its top is the last
    element. *)
Fixpoint inner_loop (fuel : nat) (stack todo : list node)
  : option (list node + list node) :=
  match fuel with
  | O => None
  | S fuel' =>
      match stack with
      | [] => Some (inr todo)
      | d :: _ =>
          let top := last stack d in
          match scan stack todo (edges top) with
          | Found cycle => Some (inl cycle)
          | Pushed n => inner_loop fuel' (stack ++ [n]) (remove node_eq_dec n todo)
          | Exhausted => inner_loop fuel' (removelast stack) todo
          end
      end
  end.

(** [while len(todo) > 0: ...] followed by [return None]. *)
Fixpoint outer_loop (fuel : nat) (todo : list node) : option (option (list node)) :=
  match fuel with
  | O => None
  | S fuel' =>
      match set_pop todo with
      | None => Some None
      | Some (n, todo) =>
          match inner_loop (2 * List.length todo + 2) [n] todo with
          | None => None
          | Some (inl cycle) => Some (Some cycle)
          | Some (inr todo) => outer_loop fuel' todo
          end
      end
  end.

(** [find_cycle(nodes, edges)]: [Some r] is the value returned ([r] is a
    cycle or Python's [None]); the fuel given is always enough, see
    [find_cycle_returns]. *)
Definition find_cycle (nodes : list node) : option (option (list node)) :=
  outer_loop (S (List.length (set_of nodes))) (set_of nodes).

End FindCycle.

Arguments Exhausted {node}.

(** [find_reachable(rule)]: the rules that match, positively or
    negatively, the fact that [rule] produces or suppresses.  The source
    returns them as a set, iterated in an order of its own; here they are
    listed in the order of the document, one of the orders the set can
    have. *)
Definition produced_or_suppressed (r : rule) : option CS :=
  match produces r with
  | Produces _ produced_fact _ => produced_fact
  | Suppresses suppressed_fact _ => Some suppressed_fact
  end.

Definition matches_fact (produced : option CS) (r : rule) : bool :=
  match produced with
  | Some f =>
      CaselessString.mem f (map fact_name (matches r ++ inverted_matches r))
  | None => false
  end.

Definition find_reachable (rules : dict rule) (name : CS) : list CS :=
  match dict_get rules name with
  | Some r =>
      map fst (filter (fun entry => matches_fact (produced_or_suppressed r) (snd entry)) rules)
  | None => []
  end.

(** ** Facts that are produced but not matched *)

(** An element of [only_produced]: the name of a fact, or the [None] that
    [produced_fact] keeps when [Assert:] has no entry. *)
Definition name_eqb (a b : option CS) : bool :=
  match a, b with
  | Some x, Some y => CaselessString.eqb x y
  | None, None => true
  | _, _ => false
  end.

(** [only_produced.add(x)] and [only_produced.discard(x)] *)
Definition names_add (x : option CS) (s : list (option CS)) : list (option CS) :=
  if existsb (name_eqb x) s then s else s ++ [x].

Definition names_discard (x : option CS) (s : list (option CS)) : list (option CS) :=
  filter (fun y => negb (name_eqb y x)) s.

(** The first loop over [rules.items()]: a rule has either the key
    ["produced_fact"] or the key ["suppressed_fact"]. *)
Definition add_produced (rules : dict rule) (s : list (option CS)) : list (option CS) :=
  fold_left (fun s entry =>
               match produces (snd entry) with
               | Produces _ produced_fact _ => names_add produced_fact s
               | Suppresses suppressed_fact _ => names_add (Some suppressed_fact) s
               end)
            rules s.

Definition discard_all (clauses : list match_clause) (s : list (option CS))
  : list (option CS) :=
  fold_left (fun s m => names_discard (Some (fact_name m)) s) clauses s.

(** The second loop over [rules.items()]. *)
Definition discard_matched (rules : dict rule) (s : list (option CS)) : list (option CS) :=
  fold_left (fun s entry =>
               discard_all (inverted_matches (snd entry))
                           (discard_all (matches (snd entry)) s))
            rules s.

Definition only_produced (rules : dict rule) : list (option CS) :=
  discard_matched rules (add_produced rules []).

(** [facts[CS(fact)] = OutputFact(facts[CS(fact)])]; [CS(None)] raises
    [TypeError]. *)
Definition mark_output (name : option CS) : M unit :=
  match name with
  | None => raise not_a_string
  | Some n =>
      fs <~ gets facts ;;
      match dict_get fs n with
      | Some f => modify (set_facts (dict_set fs n (as_output f)))
      | None => raise (KeyError n)
      end
  end.

(** [for fact in only_produced: ...], the set being iterated in the
    order [order]. *)
Definition mark_outputs (order : list (option CS)) : M unit :=
  for_each order mark_output.

End Giles.

(* ================================================================== *)
(** * giles/sqlite_backend.py *)
(* ================================================================== *)

Module SqliteBackend.
Import Expression.
Import Giles.

(** ** find_locals *)

Fixpoint find_locals (v : value) : list CS :=
  match v with
  | LocalReferenceNode variable _ => [variable]
  | BinaryOpNode _ _ arg1 arg2 _ => find_locals arg1 ++ find_locals arg2
  | UnaryOpNode _ _ arg1 _ => find_locals arg1
  | IfNode predicate if_true if_false _ =>
      find_locals predicate ++ find_locals if_true ++ find_locals if_false
  | FunctionNode _ _ _ args => flat_map find_locals args
  | CastNode expression _ => find_locals expression
  | JoinNode l r => find_locals l ++ find_locals r
  | _ => []
  end.

(** ** The index demands

    [indexes] maps a table name to a tree of nested dictionaries; a path
    from the root is a field sequence.  The tree is generic in its keys:
    the compiler keys it with caseless field names. *)

Section IndexTree.

Variable K : Type.
Variable eqb : K -> K -> bool.

Inductive tree : Type :=
| Tree (children : list (K * tree)).

(** One turn of the loop of [add_index] on the dictionary [current]:
    [if field not in current: current[field] = {}], and the rest of the
    loop ([descend]) goes on in [current[field]]. *)
Fixpoint enter (field : K) (descend : tree -> tree) (current : list (K * tree))
  : list (K * tree) :=
  match current with
  | [] => [(field, descend (Tree []))]
  | (k, sub) :: rest =>
      if eqb k field then (k, descend sub) :: rest
      else (k, sub) :: enter field descend rest
  end.

(** The loop of [add_index] over [fields], from the dictionary [current]. *)
Fixpoint tree_add (fields : list K) (current : tree) : tree :=
  match fields with
  | [] => current
  | field :: rest =>
      match current with
      | Tree children => Tree (enter field (tree_add rest) children)
      end
  end.

(** [dft(tree, leaf_callback, path)]: the paths handed to the callback, in
    the order of the calls. *)
Fixpoint dft (t : tree) (path : list K) : list (list K) :=
  match t with
  | Tree [] => [path]
  | Tree children => flat_map (fun kv => dft (snd kv) (path ++ [fst kv])) children
  end.

End IndexTree.

Arguments Tree {K} children.

Definition index_tree := tree CS.

(** The global [indexes]. *)
Definition index_map := list (string * index_tree).

Fixpoint indexes_get (indexes : index_map) (table : string) : option index_tree :=
  match indexes with
  | [] => None
  | (t, tr) :: rest => if String.eqb t table then Some tr else indexes_get rest table
  end.

Fixpoint indexes_set (indexes : index_map) (table : string) (tr : index_tree) : index_map :=
  match indexes with
  | [] => [(table, tr)]
  | (t, old) :: rest =>
      if String.eqb t table then (t, tr) :: rest
      else (t, old) :: indexes_set rest table tr
  end.

(** [add_index(table, fields)]; [table.lower()] fails on [None]. *)
Definition add_index (table : option string) (fields : list CS) (indexes : index_map)
  : result index_map :=
  match table with
  | None => Raise AttributeError
  | Some table =>
      let table := str_lower table in
      if (List.length fields =? 0)%nat then Ok indexes
      else
        let current :=
          match indexes_get indexes table with
          | Some tr => tr
          | None => Tree []
          end in
        Ok (indexes_set indexes table (tree_add CaselessString.eqb fields current))
  end.

(** ** generate_expression *)

(** [(prefix + '.') if prefix else ''] *)
Definition dotted (prefix : option string) : string :=
  match prefix with
  | None => ""
  | Some "" => ""
  | Some p => p +++ "."
  end.

(** [flatten] inside [generate_expression]: the leaves of a [JoinNode]. *)
Fixpoint flatten_tests (node : value) : list value :=
  match node with
  | JoinNode l r => flatten_tests l ++ flatten_tests r
  | _ => [node]
  end.

Definition is_equality_test (test : value) : bool :=
  match test with
  | BinaryOpNode operation _ _ _ _ => String.eqb operation "="
  | _ => false
  end.

Definition sql_kind (t : type_tag) : string :=
  match t with
  | bool_ => "integer"
  | int_ => "integer"
  | float_ => "real"
  | str_ => "text"
  end.

Fixpoint generate_expression (rt : PyRuntime) (v : value)
         (frame_prefix fact_prefix : option string) : string :=
  match v with
  | VFloat f => str_of_float rt f
  | VInt z => str_of_Z z
  | VBool b => if b then "1" else "0"
  | VStr s => quote_sql s
  | ThisReferenceNode variable _ => dotted fact_prefix +++ variable
  | LocalReferenceNode variable _ => dotted frame_prefix +++ variable
  | BinaryOpNode operation _ arg1 arg2 _ =>
      "(" +++ generate_expression rt arg1 frame_prefix fact_prefix +++ ") "
      +++ operation
      +++ " (" +++ generate_expression rt arg2 frame_prefix fact_prefix +++ ")"
  | UnaryOpNode operation _ arg1 _ =>
      "(" +++ operation +++ "("
      +++ generate_expression rt arg1 frame_prefix fact_prefix +++ "))"
  | IfNode predicate if_true if_false _ =>
      "(CASE WHEN (" +++ generate_expression rt predicate frame_prefix fact_prefix
      +++ ") THEN (" +++ generate_expression rt if_true frame_prefix fact_prefix
      +++ ") ELSE (" +++ generate_expression rt if_false frame_prefix fact_prefix
      +++ ") END)"
  | FunctionNode _ external _ args =>
      external +++ "("
      +++ join "," (map (fun x => generate_expression rt x frame_prefix fact_prefix) args)
      +++ ")"
  | CastNode expression type =>
      "CAST((" +++ generate_expression rt expression frame_prefix fact_prefix
      +++ ") AS " +++ sql_kind type +++ ")"
  | JoinNode l r =>
      (* the leaves of the join, equalities first *)
      let render :=
        (fix render (n : value) : list (bool * string) :=
           match n with
           | JoinNode a b => render a ++ render b
           | _ => [(is_equality_test n, generate_expression rt n frame_prefix fact_prefix)]
           end) in
      let tests := render l ++ render r in
      join " AND " (map snd (filter fst tests)
                    ++ map snd (filter (fun t => negb (fst t)) tests))
  end.

(** ** generate_join *)

(** [flatten] inside [generate_join]: the predicates kept, in order, each
    marked as an equality or not. *)
Fixpoint flatten_join (include_constants : bool) (n : value) : list (bool * value) :=
  match n with
  | JoinNode l r => flatten_join include_constants l ++ flatten_join include_constants r
  | BinaryOpNode operation _ (ThisReferenceNode _ _) arg2 type =>
      if type_tag_eqb type bool_ then
        if negb (is_constant arg2) || include_constants
        then [(String.eqb operation "=", n)]
        else []
      else []
  | _ => []
  end.

(** [predicate.arg1.variable] of a kept predicate. *)
Definition arg1_variable (predicate : value) : CS :=
  match predicate with
  | BinaryOpNode _ _ (ThisReferenceNode variable _) _ _ => variable
  | _ => ""
  end.

(** [l.sort(key=...)]: a stable sort on the key [str(x.arg1.variable).lower()]. *)
Fixpoint insert_sorted (x : value) (l : list value) : list value :=
  match l with
  | [] => [x]
  | y :: rest =>
      if String.leb (str_lower (arg1_variable x)) (str_lower (arg1_variable y))
      then x :: l
      else y :: insert_sorted x rest
  end.

Fixpoint sort_by_variable (l : list value) : list value :=
  match l with
  | [] => []
  | x :: rest => insert_sorted x (sort_by_variable rest)
  end.

(** [prefix not in ('new', 'old')] *)
Definition materialised (prefix : option string) : bool :=
  match prefix with
  | None => true
  | Some p => negb (String.eqb p "new" || String.eqb p "old")
  end.

(** [generate_join(when, fact, frame_prefix, fact_prefix, include_constants)]
    run on the global [indexes]: the value returned (or the exception
    raised) and the [indexes] left behind. *)
Definition generate_join (rt : PyRuntime) (when : option value) (fact : CS)
           (frame_prefix fact_prefix : option string) (include_constants : bool)
           (indexes : index_map) : result (option string) * index_map :=
  let fact_prefix := option_map str_lower fact_prefix in
  let frame_prefix := option_map str_lower frame_prefix in
  let kept :=
    match when with
    | Some w => flatten_join include_constants w
    | None => []
    end in
  let equalities := sort_by_variable (map snd (filter fst kept)) in
  let inequalities := sort_by_variable (map snd (filter (fun p => negb (fst p)) kept)) in
  let render (predicate : value) : string :=
    strip (generate_expression rt predicate frame_prefix fact_prefix) in
  let equality_predicate := join " AND " (map render equalities) in
  let inequality_predicate := join " AND " (map render inequalities) in
  let result_ :=
    equality_predicate
    +++ (if negb (String.length (strip equality_predicate) =? 0)%nat
            && negb (String.length (strip inequality_predicate) =? 0)%nat
         then " AND " else "")
    +++ inequality_predicate in
  if (String.length (strip result_) =? 0)%nat then (Ok None, indexes)
  else
    let after_frame :=
      if materialised frame_prefix then
        let equality_variables := flat_map find_locals equalities in
        match inequalities with
        | first :: _ => add_index frame_prefix (equality_variables ++ find_locals first) indexes
        | [] =>
            if (0 <? List.length equality_variables)%nat
            then add_index frame_prefix equality_variables indexes
            else Ok indexes
        end
      else Ok indexes in
    match after_frame with
    | Raise e => (Raise e, indexes)
    | Ok indexes =>
        let after_fact :=
          if materialised fact_prefix then
            let equality_variables := map arg1_variable equalities in
            match inequalities with
            | first :: _ =>
                add_index fact_prefix (equality_variables ++ [arg1_variable first]) indexes
            | [] =>
                if (0 <? List.length equality_variables)%nat
                then add_index fact_prefix equality_variables indexes
                else Ok indexes
            end
          else Ok indexes in
        match after_fact with
        | Raise e => (Raise e, indexes)
        | Ok indexes => (Ok (Some result_), indexes)
        end
    end.

(** ** The emission of the indexes at the end of [generate] *)

(** [callback(table, path)] for the paths of one table, numbering on. *)
Fixpoint emit_paths (prefix table : string) (index_number : nat) (paths : list (list CS))
  : list string :=
  match paths with
  | [] => []
  | path :: rest =>
      let n := S index_number in
      (String "010"%char "CREATE INDEX " +++ prefix +++ "_auto_index_" +++ str_of_nat n
       +++ " ON " +++ table +++ "(" +++ join "," path +++ ");")
      :: emit_paths prefix table n rest
  end.

(** [for table, tree in indexes.items(): dft(tree, ...)]: the statements
    appended to the schema, in order. *)
Fixpoint emit_indexes (prefix : string) (index_number : nat) (indexes : index_map)
  : list string :=
  match indexes with
  | [] => []
  | (table, tr) :: rest =>
      let paths := dft tr [] in
      emit_paths prefix table index_number paths
      ++ emit_indexes prefix (index_number + List.length paths) rest
  end.

(** The demands [add_index] is called with, for one table after another,
    starting from [indexes = {}]. *)
Fixpoint add_indexes (demands : list (option string * list CS)) (indexes : index_map)
  : result index_map :=
  match demands with
  | [] => Ok indexes
  | (table, fields_) :: rest =>
      indexes <- add_index table fields_ indexes ;;
      add_indexes rest indexes
  end.

(** ** Synthetic assignments

    The AST is a tree here and the in-place updates of the source are
    rebuilt: [immediate_substitute] returns the rewritten predicate.  (In
    Python the expression substituted for a local is the very object held
    in the earlier clause's ["assignments"]; the model substitutes a copy,
    so a later rewrite inside the substituted expression shows in the
    predicate only.) *)

(** [flatten_local_predicates]'s test on a leaf. *)
Definition is_local_predicate (w : value) : bool :=
  match w with
  | BinaryOpNode _ _ (ThisReferenceNode _ _) arg2 type =>
      type_tag_eqb type bool_ && (0 <? List.length (find_locals arg2))%nat
  | _ => false
  end.

Fixpoint flatten_local_predicates (w : value) : list value :=
  match w with
  | JoinNode l r => flatten_local_predicates l ++ flatten_local_predicates r
  | _ => if is_local_predicate w then [w] else []
  end.

Fixpoint immediate_substitute (predicate : value) (used_var : CS) (actual : value) : value :=
  let child (a : value) : value :=
    match a with
    | LocalReferenceNode variable t =>
        if CaselessString.eqb variable used_var then actual
        else immediate_substitute a used_var actual
    | _ => immediate_substitute a used_var actual
    end in
  match predicate with
  | BinaryOpNode operation name arg1 arg2 t =>
      BinaryOpNode operation name (child arg1) (child arg2) t
  | UnaryOpNode operation name arg1 t => UnaryOpNode operation name (child arg1) t
  | IfNode p if_true if_false t => IfNode (child p) (child if_true) (child if_false) t
  | FunctionNode name external t args => FunctionNode name external t (map child args)
  | CastNode expression t => CastNode (child expression) t
  | _ => predicate
  end.

(** [l[i]] with Python's indexing: a negative index counts from the end. *)
Definition py_index {A : Type} (l : list A) (i : Z) : result (nat * A) :=
  let len := Z.of_nat (List.length l) in
  let k := if (i <? 0)%Z then (len + i)%Z else i in
  if (k <? 0)%Z || (len <=? k)%Z then Raise IndexError
  else
    match nth_error l (Z.to_nat k) with
    | Some x => Ok (Z.to_nat k, x)
    | None => Raise IndexError
    end.

(** [l[i] = x] *)
Fixpoint list_set {A : Type} (l : list A) (i : nat) (x : A) : list A :=
  match l, i with
  | [], _ => []
  | _ :: rest, O => x :: rest
  | y :: rest, S i' => y :: list_set rest i' x
  end.

(** [set(l)], in the order of first occurrence. *)
Fixpoint distinct_names (l : list CS) : list CS :=
  match l with
  | [] => []
  | x :: rest => x :: filter (fun y => negb (CaselessString.eqb x y)) (distinct_names rest)
  end.

Definition with_assignments (m : match_clause) (a : dict value) : match_clause :=
  {| fact_name := fact_name m; meaning := meaning m; when := when m;
     assignments := Some a |}.

Definition with_when (m : match_clause) (w : value) : match_clause :=
  {| fact_name := fact_name m; meaning := meaning m; when := Some w;
     assignments := assignments m |}.

Definition with_locals_matches (r : rule) (l : dict type_tag) (ms : list match_clause)
  : rule :=
  {| locals := l; matches := ms; inverted_matches := inverted_matches r;
     description := description r; final_predicate := final_predicate r;
     produces := produces r; metadata := metadata r |}.

Definition with_inverted_matches (r : rule) (ms : list match_clause) : rule :=
  {| locals := locals r; matches := matches r; inverted_matches := ms;
     description := description r; final_predicate := final_predicate r;
     produces := produces r; metadata := metadata r |}.

(** [generate_synthetic_assignment(predicate, rule, prev_clause,
    synthetic_name)], where [prev_clause] is [rule["matches"][prev]].  The
    locals of the predicate that the earlier clause assigns are replaced by
    their definitions; Python iterates them as a set, the model in the
    order of their first occurrence. *)
Definition generate_synthetic_assignment (predicate : value) (r : rule) (prev : nat)
           (prev_clause : match_clause) (synthetic_name : CS) : rule :=
  let assigned := match assignments prev_clause with Some a => a | None => [] end in
  let locals' := dict_set (locals r) synthetic_name (type_of predicate) in
  let used_vars := distinct_names (find_locals predicate) in
  let predicate' :=
    fold_left (fun p used_var =>
                 match dict_get assigned used_var with
                 | Some actual => immediate_substitute p used_var actual
                 | None => p
                 end) used_vars predicate in
  with_locals_matches r locals'
    (list_set (matches r) prev
       (with_assignments prev_clause (dict_set assigned synthetic_name predicate'))).

(** [used_vars.intersection(assignments)] is not empty *)
Definition intersects (used_vars assigned : list CS) : bool :=
  existsb (fun v => CaselessString.mem v assigned) used_vars.

(** The body of [for clause in clauses] for the [j]-th subsequent clause:
    the rewritten leaf with the counter and the rule. *)
Definition rewrite_clause (assigned : list CS) (j : nat) (clause : value)
           (st : nat * rule) : result (value * (nat * rule)) :=
  let '(synthetic_assignment_count, r) := st in
  match clause with
  | BinaryOpNode operation name arg1 arg2 t =>
      if intersects (find_locals clause) assigned then
        match arg2 with
        | LocalReferenceNode _ _ => Ok (clause, st)
        | _ =>
            let synthetic_assignment_count := S synthetic_assignment_count in
            let synthetic_name :=
              "synthetic_assignment_" +++ str_of_nat synthetic_assignment_count in
            p <- py_index (matches r) (Z.of_nat j - 2) ;;
            let '(prev, prev_clause) := p in
            let r := generate_synthetic_assignment arg2 r prev prev_clause synthetic_name in
            Ok (BinaryOpNode operation name arg1
                             (LocalReferenceNode synthetic_name (type_of arg2)) t,
                (synthetic_assignment_count, r))
        end
      else Ok (clause, st)
  | _ => Ok (clause, st)
  end.

(** The loop over [flatten_local_predicates(subsequent_clause["when"])],
    written as a walk over the [when] tree that rewrites its leaves in the
    order in which [flatten_local_predicates] lists them. *)
Fixpoint rewrite_when (assigned : list CS) (j : nat) (w : value) (st : nat * rule)
  : result (value * (nat * rule)) :=
  match w with
  | JoinNode l r =>
      a <- rewrite_when assigned j l st ;;
      let '(l', st) := a in
      b <- rewrite_when assigned j r st ;;
      let '(r', st) := b in
      Ok (JoinNode l' r', st)
  | _ => if is_local_predicate w then rewrite_clause assigned j w st else Ok (w, st)
  end.

(** The [j]-th element of [chain(rule["matches"][i + 1:],
    rule["inverted_matches"])]: a positive match by its index, or an
    inverted one. *)
Definition subsequent (r : rule) (i j : nat) : option (bool * nat * match_clause) :=
  let later := List.length (matches r) - (i + 1) in
  if (j <? later)%nat then
    option_map (fun m => (true, i + 1 + j, m)) (nth_error (matches r) (i + 1 + j))
  else
    option_map (fun m => (false, j - later, m)) (nth_error (inverted_matches r) (j - later)).

(** The loop over the subsequent clauses of the [i]-th match, from the
    [j]-th on; [n] bounds the number of clauses left. *)
Fixpoint subsequent_clauses (n : nat) (assigned : list CS) (i j : nat) (st : nat * rule)
  : result (nat * rule) :=
  match n with
  | O => Ok st
  | S n' =>
      match subsequent (snd st) i j with
      | None => Ok st
      | Some (positive, k, subsequent_clause) =>
          st <- match when subsequent_clause with
                | None => Ok st
                | Some w =>
                    a <- rewrite_when assigned j w st ;;
                    let '(w', (count, r)) := a in
                    (* the clause is read again: its assignments may have grown *)
                    if positive then
                      match nth_error (matches r) k with
                      | Some m =>
                          Ok (count, with_locals_matches r (locals r)
                                       (list_set (matches r) k (with_when m w')))
                      | None => Ok (count, r)
                      end
                    else
                      match nth_error (inverted_matches r) k with
                      | Some m =>
                          Ok (count, with_inverted_matches r
                                       (list_set (inverted_matches r) k (with_when m w')))
                      | None => Ok (count, r)
                      end
                end ;;
          subsequent_clauses n' assigned i (S j) st
      end
  end.

(** The loop [for i, match_clause in enumerate(rule["matches"])], from the
    [i]-th match on; [n] bounds the number of matches left. *)
Fixpoint match_clauses (n i : nat) (st : nat * rule) : result (nat * rule) :=
  match n with
  | O => Ok st
  | S n' =>
      match nth_error (matches (snd st)) i with
      | None => Ok st
      | Some match_clause =>
          st <- match assignments match_clause with
                | Some a =>
                    let r := snd st in
                    subsequent_clauses
                      (List.length (matches r) + List.length (inverted_matches r))
                      (dict_keys a) i 0 st
                | None => Ok st
                end ;;
          match_clauses n' (S i) st
      end
  end.

(** The pass over all rules at the start of [generate]. *)
Fixpoint synthetic_assignments (synthetic_assignment_count : nat) (rules : dict rule)
  : result (nat * dict rule) :=
  match rules with
  | [] => Ok (synthetic_assignment_count, [])
  | (rule_name, r) :: rest =>
      a <- match_clauses (List.length (matches r)) 0 (synthetic_assignment_count, r) ;;
      let '(count, r') := a in
      b <- synthetic_assignments count rest ;;
      let '(count, rest') := b in
      Ok (count, (rule_name, r') :: rest')
  end.

(** ** generate_predicate *)

(** [flatten_predicate]'s test on a leaf. *)
Definition is_constant_predicate (w : value) : bool :=
  match w with
  | BinaryOpNode _ _ (ThisReferenceNode _ _) arg2 type =>
      type_tag_eqb type bool_ && (List.length (find_locals arg2) =? 0)%nat
  | _ => false
  end.

Fixpoint flatten_predicate (w : value) : list value :=
  match w with
  | JoinNode l r => flatten_predicate l ++ flatten_predicate r
  | _ => if is_constant_predicate w then [w] else []
  end.

(** [generate_predicate(fact, when)]; a match without [when] has [None]
    there, which is no node. *)
Definition generate_predicate (rt : PyRuntime) (when : option value) : list string :=
  let tests := match when with Some w => flatten_predicate w | None => [] end in
  map (fun x => generate_expression rt x None (Some "new")) (sort_by_variable tests).

Definition generate_predicate_wrapper (rt : PyRuntime) (when : option value) : string :=
  let results := generate_predicate rt when in
  if (List.length results =? 0)%nat then "1" else join " AND " results.

(** ** only_once *)

(** The global [domains]: for each domain the values printed so far. *)
Definition domain_map := list (string * list string).

Fixpoint domains_get (domains : domain_map) (domain : string) : option (list string) :=
  match domains with
  | [] => None
  | (d, seen) :: rest => if String.eqb d domain then Some seen else domains_get rest domain
  end.

Fixpoint domains_set (domains : domain_map) (domain : string) (seen : list string)
  : domain_map :=
  match domains with
  | [] => [(domain, seen)]
  | (d, old) :: rest =>
      if String.eqb d domain then (d, seen) :: rest
      else (d, old) :: domains_set rest domain seen
  end.

(** [only_once(domain, value)]: the value returned and [domains] after
    the call. *)
Definition only_once (domain value : string) (domains : domain_map)
  : string * domain_map :=
  let domain := str_lower domain in
  let domains :=
    match domains_get domains domain with
    | None => domains_set domains domain []
    | Some _ => domains
    end in
  let seen := match domains_get domains domain with Some l => l | None => [] end in
  if negb (existsb (String.eqb value) seen)
  then (value, domains_set domains domain (seen ++ [value]))
  else ("", domains).

(** ** The first pass of [generate]: facts matched without a constant test *)

(** [predicate = generate_predicate(match["fact"], match["when"]);
    if len(predicate) == 0: facts[CS(fact)] = OutputFact(facts[CS(fact)])] *)
Definition mark_unfiltered_match (rt : PyRuntime) (facts : dict fact) (m : match_clause)
  : result (dict fact) :=
  if (List.length (generate_predicate rt (when m)) =? 0)%nat
  then match dict_get facts (fact_name m) with
       | Some f => Ok (dict_set facts (fact_name m) (as_output f))
       | None => Raise (KeyError (fact_name m))
       end
  else Ok facts.

Fixpoint mark_unfiltered_matches (rt : PyRuntime) (ms : list match_clause)
         (facts : dict fact) : result (dict fact) :=
  match ms with
  | [] => Ok facts
  | m :: rest =>
      facts <- mark_unfiltered_match rt facts m ;;
      mark_unfiltered_matches rt rest facts
  end.

(** [for rule_clause in rules.values():
      for match in rule_clause["matches"] + rule_clause["inverted_matches"]: ...] *)
Fixpoint mark_unfiltered (rt : PyRuntime) (rules : dict rule) (facts : dict fact)
  : result (dict fact) :=
  match rules with
  | [] => Ok facts
  | (_, r) :: rest =>
      facts <- mark_unfiltered_matches rt (matches r ++ inverted_matches r) facts ;;
      mark_unfiltered rt rest facts
  end.

End SqliteBackend.

Unset Implicit Arguments.

(* ================================================================== *)
(** * The List validator *)
(* ================================================================== *)

Section ListValidator.
Import Validate.

(** The upper bound is tested with the comparison of the lower bound: a
    list is refused when it is shorter than [max_length]. *)
Lemma List_call_bounds (m : validator) (mn mx : option Z) (items : list pyobj)
      (location : string) :
  List_call (mkList m mn mx) (PyList items) location =
  let len := Z.of_nat (List.length items) in
  match mn with
  | Some n =>
      if (len <? n)%Z
      then Raise (ValidationException
                    ("Expected a list of at least length " +++ str_of_Z n) location)
      else
        match mx with
        | Some x =>
            if (len <? x)%Z
            then Raise (ValidationException
                          ("Expected a list of at most length " +++ str_of_Z x) location)
            else rs <- List_members m location 0 items ;; Ok (PyList rs)
        | None => rs <- List_members m location 0 items ;; Ok (PyList rs)
        end
  | None =>
      match mx with
      | Some x =>
          if (len <? x)%Z
          then Raise (ValidationException
                        ("Expected a list of at most length " +++ str_of_Z x) location)
          else rs <- List_members m location 0 items ;; Ok (PyList rs)
      | None => rs <- List_members m location 0 items ;; Ok (PyList rs)
      end
  end.
Proof.
  unfold List_call; simpl.
  destruct mn as [n|], mx as [x|]; simpl;
    repeat match goal with |- context [(?a <? ?b)%Z] => destruct (a <? b)%Z; simpl end;
    reflexivity.
Qed.

(** C9 -- for a list that is not shorter than [min_length]: if its length
    is [max_length] or more, however much more, the validator goes on to
    the members and returns them validated in order; if its length is
    below [max_length], the validator refuses it as too long. *)
Theorem List_call_max_length_reversed (m : validator) (mn : option Z) (x : Z)
        (items : list pyobj) (location : string) :
  (forall n, mn = Some n -> (n <= Z.of_nat (List.length items))%Z) ->
  ((x <= Z.of_nat (List.length items))%Z ->
   List_call (mkList m mn (Some x)) (PyList items) location
   = (rs <- List_members m location 0 items ;; Ok (PyList rs)))
  /\ ((Z.of_nat (List.length items) < x)%Z ->
      List_call (mkList m mn (Some x)) (PyList items) location
      = Raise (ValidationException
                 ("Expected a list of at most length " +++ str_of_Z x) location)).
Proof.
  intros Hmin. rewrite List_call_bounds. cbv zeta.
  assert (Hn : match mn with
               | Some n => (Z.of_nat (List.length items) <? n)%Z = false
               | None => True
               end).
  { destruct mn as [n|]; [|exact I]. apply Z.ltb_ge. apply Hmin. reflexivity. }
  split; intros Hx.
  - apply Z.ltb_ge in Hx. destruct mn as [n|]; [rewrite Hn|]; rewrite Hx; reflexivity.
  - apply Z.ltb_lt in Hx. destruct mn as [n|]; [rewrite Hn|]; rewrite Hx; reflexivity.
Qed.

(** [List(Integer(), max_length=2)] lets a list of three elements
    through and refuses a list of one element as too long. *)
Lemma List_call_max_length_reversed_witness :
  List_call (mkList (Integer_call (mkInteger None None None false)) None (Some 2%Z))
            (PyList [PyInt 1; PyInt 2; PyInt 3]) "/"
  = Ok (PyList [PyInt 1; PyInt 2; PyInt 3])
  /\ List_call (mkList (Integer_call (mkInteger None None None false)) None (Some 2%Z))
               (PyList [PyInt 1]) "/"
     = Raise (ValidationException "Expected a list of at most length 2" "/").
Proof.
  split.
  - apply (proj1 (List_call_max_length_reversed
                    (Integer_call (mkInteger None None None false)) None 2%Z
                    [PyInt 1; PyInt 2; PyInt 3] "/" ltac:(discriminate))).
    simpl. lia.
  - apply (proj2 (List_call_max_length_reversed
                    (Integer_call (mkInteger None None None false)) None 2%Z
                    [PyInt 1] "/" ltac:(discriminate))).
    simpl. lia.
Defined.

End ListValidator.

(* ================================================================== *)
(** * The [and] operator outside a match *)
(* ================================================================== *)

Section JoinOutsideMatch.
Import Expression.

(** The constructor never leaves [this] at [None]. *)
Lemma Parser_init_this (constants : option (dict value))
      (variables this_ : option (dict type_tag)) (allow_regexp : bool) :
  this (Parser_init constants variables this_ allow_regexp)
  = Some (match this_ with Some t => t | None => [] end).
Proof. reflexivity. Qed.

(** Registering the declared functions does not touch [this]. *)
Lemma with_functions_this (fs : dict function_clause) (parser : Parser) :
  this (Giles.with_functions parser fs) = this parser.
Proof.
  unfold Giles.with_functions. revert parser.
  induction fs as [|[name clause] fs IH]; intros parser; simpl; [reflexivity|].
  rewrite IH. reflexivity.
Qed.

(** C3 -- for the parser that [evaluate] makes when it is called without
    a current fact ([this=None]), whatever constants, variables and
    declared functions it is given: [operator_join] on two boolean
    operands returns the [JoinNode], whose type is [bool]; with other
    operand types it fails in [type_check].  The error for a conjunction
    outside a match is never raised. *)
Theorem operator_join_without_this (constants : option (dict value))
        (variables : option (dict type_tag)) (allow_regexp : bool)
        (fs : dict function_clause) (arg1 arg2 : value) :
  operator_join (Giles.with_functions
                   (Parser_init constants variables None allow_regexp) fs)
                arg1 arg2
  = (type_check [[bool_; bool_]] (operator_name "and") [arg1; arg2] ;;;
     Ok (JoinNode arg1 arg2))
  /\ type_of (JoinNode arg1 arg2) = bool_.
Proof.
  split; [|reflexivity].
  unfold operator_join. rewrite with_functions_this, Parser_init_this. reflexivity.
Qed.

(** The same on the tokens of [true and false] and of
    [Locals.a == 1 and Locals.b == 2], for a parser made as
    [evaluate(value, variables)] makes it, without [this]: the value is a
    [JoinNode], whose type is [bool]. *)
Example parse_and_outside_match :
  parse example_runtime (Parser_init (Some []) (Some []) None false)
        ([Other (VBool true); OperatorToken "and"; Other (VBool false)], None)
  = Ok (JoinNode (VBool true) (VBool false))
  /\ parse example_runtime
           (Parser_init (Some []) (Some [("a", int_); ("b", int_)]) None false)
           ([Other (LocalReferenceNode "a" int_); OperatorToken "=="; Other (VInt 1);
             OperatorToken "and";
             Other (LocalReferenceNode "b" int_); OperatorToken "=="; Other (VInt 2)], None)
     = Ok (JoinNode
             (BinaryOpNode "=" "=" (LocalReferenceNode "a" int_) (VInt 1) bool_)
             (BinaryOpNode "=" "=" (LocalReferenceNode "b" int_) (VInt 2) bool_))
  /\ type_of (JoinNode (VBool true) (VBool false)) = bool_.
Proof. repeat split; reflexivity. Qed.

End JoinOutsideMatch.

(* ================================================================== *)
(** * A parameter named like a fact *)
(* ================================================================== *)

Section ParameterCollision.
Import Expression Giles.

Variable rt : PyRuntime.
Variable allow_regexp : bool.
Variable tokenize : dict value -> dict type_tag -> dict type_tag -> string
                    -> token_stream.

(** The [try] block stops at its first statement, before
    [parameters[name]] exists. *)
Lemma parameter_body_collision (name : CS) (clause : parameter_clause) (s : state) :
  dict_mem (facts s) name = true ->
  parameter_body rt allow_regexp tokenize name clause s
  = (Raise (Exception ("Collision between parameter '" +++ name
                       +++ "' and an identically-named fact")), s).
Proof.
  intros H. unfold parameter_body, bindM, gets, raise_if. simpl. rewrite H. reflexivity.
Qed.

(** C8 -- when the first parameter of the loop is named like a fact and
    is not yet in [parameters], the handler fails on
    [del parameters[name]]: the [KeyError] leaves the loop, with the state
    as it was: no error is counted or logged, and the parameters after it
    are not looked at. *)
Theorem parameter_collision_aborts (name : CS) (clause : parameter_clause)
      (rest : dict parameter_clause) (s : state) :
  dict_mem (facts s) name = true ->
  dict_mem (parameters s) name = false ->
  process_parameters rt allow_regexp tokenize ((name, clause) :: rest) s
  = (Raise (KeyError name), s).
Proof.
  intros Hf Hp.
  unfold process_parameters; simpl.
  unfold bindM at 1. unfold process_parameter, try_except.
  rewrite (parameter_body_collision name clause s Hf).
  unfold parameter_handler, bindM, gets, lift, dict_del. simpl.
  rewrite Hp. reflexivity.
Qed.

End ParameterCollision.

Section ParameterCollisionExample.
Import Expression Giles.

(** A document with the fact [Foo] and two parameters, the first of them
    named [Foo]. *)
Definition collision_state : state :=
  set_facts (facts initial_state
             ++ [("Foo", {| fields := [("X", int_)]; is_output := false |})])
            initial_state.

Definition collision_parameters : dict parameter_clause :=
  [("Foo", {| Default := AInt 1; Dictionary := None;
              Lower := Some (AInt 0); Upper := Some (AInt 2) |});
   ("Bar", {| Default := AInt 1; Dictionary := None;
              Lower := Some (AInt 0); Upper := Some (AInt 2) |})].

(** On that document the parameter loop ends with an unhandled
    [KeyError]: no error is counted or logged, and the parameter [Bar] is
    never analysed. *)
Lemma parameter_collision_aborts_witness :
  process_parameters example_runtime false (fun _ _ _ _ => ([], None))
                     collision_parameters collision_state
  = (Raise (KeyError "Foo"), collision_state)
  /\ errors collision_state = 0
  /\ dict_mem (parameters collision_state) "Bar" = false.
Proof.
  split; [|split; reflexivity].
  apply (parameter_collision_aborts example_runtime false (fun _ _ _ _ => ([], None))
           "Foo" _ _ collision_state); reflexivity.
Defined.

(** Without the collision the same loop recovers entry by entry. *)
Example parameter_error_is_counted :
  let '(r, s) :=
    process_parameters example_runtime false (fun _ _ _ _ => ([], None))
      [("Baz", {| Default := AInt 5; Dictionary := None;
                  Lower := Some (AInt 0); Upper := Some (AInt 2) |});
       ("Bar", {| Default := AInt 1; Dictionary := None;
                  Lower := Some (AInt 0); Upper := Some (AInt 2) |})]
      collision_state in
  r = Ok tt /\ errors s = 1
  /\ dict_mem (parameters s) "Baz" = false /\ dict_mem (parameters s) "Bar" = true.
Proof. vm_compute. repeat split; reflexivity. Qed.

End ParameterCollisionExample.

(* ================================================================== *)
(** * Where the synthetic assignment goes *)
(* ================================================================== *)

Section SyntheticAssignmentExample.
Import Expression Giles SqliteBackend.

(** [This.b == Locals.x + 1] *)
Definition uses_x : value :=
  BinaryOpNode "=" "=" (ThisReferenceNode "b" int_)
               (BinaryOpNode "+" "+" (LocalReferenceNode "x" int_) (VInt 1) int_) bool_.

Definition clause_F : match_clause :=
  {| fact_name := "F"; meaning := None; when := None;
     assignments := Some [("x", ThisReferenceNode "a" int_)] |}.

Definition clause_G : match_clause :=
  {| fact_name := "G"; meaning := None; when := Some uses_x; assignments := Some [] |}.

Definition clause_H : match_clause :=
  {| fact_name := "H"; meaning := None; when := None; assignments := Some [] |}.

Definition rule_with (ms inv : list match_clause) : rule :=
  {| locals := [("x", int_)]; matches := ms; inverted_matches := inv;
     description := ""; final_predicate := VBool true;
     produces := Suppresses "F" (VBool true); metadata := [] |}.

(** C6 -- a rule with the matches [F] (assigning [x]), [G] (whose [when]
    uses [Locals.x + 1]) and [H]: the predicate of [G] is rewritten to the
    synthetic local, but its definition is attached to [G] itself,
    [rule["matches"][-2]], and [F], which introduced [x], is left as it
    was.  With the single match [F] and the inverted match [G] the pass
    ends in [IndexError]. *)
Theorem synthetic_assignment_misplaced :
  (exists r,
      synthetic_assignments 0 [("R", rule_with [clause_F; clause_G; clause_H] [])]
      = Ok (1, [("R", r)])
      /\ nth_error (matches r) 0 = Some clause_F
      /\ option_map assignments (nth_error (matches r) 1)
         = Some (Some [("synthetic_assignment_1",
                        BinaryOpNode "+" "+" (LocalReferenceNode "x" int_) (VInt 1) int_)])
      /\ option_map when (nth_error (matches r) 1)
         = Some (Some (BinaryOpNode "=" "=" (ThisReferenceNode "b" int_)
                         (LocalReferenceNode "synthetic_assignment_1" int_) bool_)))
  /\ synthetic_assignments 0
       [("R", rule_with [clause_F]
                        [{| fact_name := "G"; meaning := None; when := Some uses_x;
                            assignments := None |}])]
     = Raise IndexError.
Proof.
  split.
  - eexists. split; [vm_compute; reflexivity|]. repeat split; reflexivity.
  - vm_compute. reflexivity.
Qed.

(** With exactly two matches [rule["matches"][-2]] happens to be the
    first one, and the definition of [x] is substituted. *)
Example synthetic_assignment_two_matches :
  exists r,
    synthetic_assignments 0 [("R", rule_with [clause_F; clause_G] [])] = Ok (1, [("R", r)])
    /\ option_map assignments (nth_error (matches r) 0)
       = Some (Some [("x", ThisReferenceNode "a" int_);
                     ("synthetic_assignment_1",
                      BinaryOpNode "+" "+" (ThisReferenceNode "a" int_) (VInt 1) int_)]).
Proof. eexists. split; [vm_compute; reflexivity|]. reflexivity. Qed.

End SyntheticAssignmentExample.

(* ================================================================== *)
(** * generate_join with nothing to join *)
(* ================================================================== *)

Section GenerateJoinNone.
Import Expression Giles SqliteBackend.

(** C10 -- when no predicate of the flattened [when] is kept (none is a
    boolean binary operation on a [This] field, or all that are compare
    with a constant and [include_constants] is off), [generate_join]
    returns [None] and leaves [indexes] as it found it, whatever the two
    prefixes are. *)
Theorem generate_join_nothing_kept (rt : PyRuntime) (when : option value) (fact : CS)
        (frame_prefix fact_prefix : option string) (include_constants : bool)
        (indexes : index_map) :
  match when with
  | Some w => flatten_join include_constants w
  | None => []
  end = [] ->
  generate_join rt when fact frame_prefix fact_prefix include_constants indexes
  = (Ok None, indexes).
Proof.
  intros H. unfold generate_join. rewrite H. reflexivity.
Qed.

Lemma generate_join_nothing_kept_witness :
  generate_join example_runtime
    (Some (JoinNode (BinaryOpNode "=" "=" (ThisReferenceNode "a" int_) (VInt 5) bool_)
                    (BinaryOpNode "+" "+" (ThisReferenceNode "b" int_)
                                  (LocalReferenceNode "x" int_) int_)))
    "T" (Some "frame") (Some "T") false
    [("t", Tree [("a", Tree [])])]
  = (Ok None, [("t", Tree [("a", Tree [])])]).
Proof.
  apply (generate_join_nothing_kept example_runtime
           (Some (JoinNode (BinaryOpNode "=" "=" (ThisReferenceNode "a" int_) (VInt 5) bool_)
                           (BinaryOpNode "+" "+" (ThisReferenceNode "b" int_)
                                         (LocalReferenceNode "x" int_) int_)))
           "T" (Some "frame") (Some "T") false [("t", Tree [("a", Tree [])])]).
  reflexivity.
Defined.

End GenerateJoinNone.

(* ================================================================== *)
(** * The shape of a match's [when] *)
(* ================================================================== *)

Section JoinShape.
Import Expression Giles.

Variable rt : PyRuntime.
Variable allow_regexp : bool.
Variable tokenize : dict value -> dict type_tag -> dict type_tag -> string
                    -> token_stream.

(** The statements that only read the state. *)
Definition reads_only {A : Type} (m : M A) : Prop := forall s, snd (m s) = s.

Lemma reads_only_bind {A B : Type} (m : M A) (k : A -> M B) :
  reads_only m -> (forall a, reads_only (k a)) -> reads_only (bindM m k).
Proof.
  intros Hm Hk s. unfold bindM. specialize (Hm s).
  destruct (m s) as [[a|e] s']; simpl in *; subst; [apply Hk | reflexivity].
Qed.

Lemma reads_only_ret {A : Type} (a : A) : reads_only (ret a).
Proof. intros s; reflexivity. Qed.

Lemma reads_only_raise {A : Type} (e : exn) : reads_only (@raise A e).
Proof. intros s; reflexivity. Qed.

Lemma reads_only_gets {A : Type} (f : state -> A) : reads_only (gets f).
Proof. intros s; reflexivity. Qed.

Lemma reads_only_lift {A : Type} (r : result A) : reads_only (lift r).
Proof. intros s; reflexivity. Qed.

Lemma reads_only_raise_if (c : bool) (e : exn) : reads_only (raise_if c e).
Proof. destruct c; intros s; reflexivity. Qed.

Create HintDb reads.

Local Hint Resolve reads_only_ret reads_only_raise reads_only_gets reads_only_lift
  reads_only_raise_if : reads.

Lemma reads_only_evaluate (val : any_expression) (variables this_ : option (dict type_tag)) :
  reads_only (evaluate rt allow_regexp tokenize val variables this_).
Proof.
  destruct val; simpl; auto with reads.
  apply reads_only_bind; auto with reads; intros cs.
  apply reads_only_bind; auto with reads.
Qed.

Lemma reads_only_known_fact (name : CS) : reads_only (known_fact name).
Proof.
  unfold known_fact. apply reads_only_bind; auto with reads.
  intros fs. destruct (dict_get fs name); auto with reads.
Qed.

Lemma reads_only_evaluate_when (clause : match_document) (local_vars this_ : dict type_tag) :
  reads_only (evaluate_when rt allow_regexp tokenize clause local_vars this_).
Proof.
  unfold evaluate_when. destruct (When clause); auto with reads.
  apply reads_only_bind; [apply reads_only_evaluate | auto with reads].
Qed.

Lemma reads_only_assign_all (items : dict any_expression) (this_ local_vars : dict type_tag)
      (assigned : dict value) :
  reads_only (assign_all rt allow_regexp tokenize items this_ local_vars assigned).
Proof.
  revert local_vars assigned.
  induction items as [|[assignment val] rest IH]; intros; simpl; auto with reads.
  apply reads_only_bind; auto with reads; intros _.
  apply reads_only_bind; [apply reads_only_evaluate | auto].
Qed.

Lemma reads_only_positive_match (clause : match_document) (local_vars : dict type_tag) :
  reads_only (positive_match rt allow_regexp tokenize clause local_vars).
Proof.
  unfold positive_match.
  apply reads_only_bind; [apply reads_only_known_fact | intros this_].
  apply reads_only_bind; [apply reads_only_evaluate_when | intros w].
  apply reads_only_bind.
  { destruct w as [p|]; auto with reads.
    destruct (joinable p); auto with reads.
    apply reads_only_bind; auto with reads. }
  intros _.
  apply reads_only_bind.
  - destruct (Assign clause); [apply reads_only_assign_all | auto with reads].
  - intros [lv a]; auto with reads.
Qed.

Lemma reads_only_positive_matches (clauses : list match_document)
      (local_vars : dict type_tag) (ms : list match_clause) :
  reads_only (positive_matches rt allow_regexp tokenize clauses local_vars ms).
Proof.
  revert local_vars ms.
  induction clauses as [|c rest IH]; intros; simpl; auto with reads.
  apply reads_only_bind; [apply reads_only_positive_match | intros [lv m]; auto].
Qed.

Lemma reads_only_inverted_match (clause : match_document) (local_vars : dict type_tag) :
  reads_only (inverted_match rt allow_regexp tokenize clause local_vars).
Proof.
  unfold inverted_match.
  apply reads_only_bind; [apply reads_only_known_fact | intros this_].
  apply reads_only_bind; [apply reads_only_evaluate_when | intros w].
  apply reads_only_bind; [destruct w; auto with reads | intros _; auto with reads].
Qed.

Lemma reads_only_inverted_match_list (clauses : list match_document)
      (local_vars : dict type_tag) (inv : list match_clause) :
  reads_only (inverted_match_list rt allow_regexp tokenize clauses local_vars inv).
Proof.
  revert inv.
  induction clauses as [|c rest IH]; intros; simpl; auto with reads.
  apply reads_only_bind; [apply reads_only_inverted_match | auto].
Qed.

(** A statement that only reads is determined by its result. *)
Lemma reads_only_run {A : Type} (m : M A) (s : state) (r : result A) :
  reads_only m -> fst (m s) = r -> m s = (r, s).
Proof.
  intros Hm Hr. specialize (Hm s). destruct (m s); simpl in *; subst; reflexivity.
Qed.

(** The match loops stop at the first clause that raises. *)
Lemma positive_matches_app (pre post : list match_document) (local_vars : dict type_tag)
      (ms : list match_clause) (s : state) :
  positive_matches rt allow_regexp tokenize (pre ++ post) local_vars ms s
  = match positive_matches rt allow_regexp tokenize pre local_vars ms s with
    | (Ok (lv, ms'), s') => positive_matches rt allow_regexp tokenize post lv ms' s'
    | (Raise e, s') => (Raise e, s')
    end.
Proof.
  revert local_vars ms s.
  induction pre as [|c rest IH]; intros; simpl; [reflexivity|].
  unfold bindM.
  destruct (positive_match rt allow_regexp tokenize c local_vars s) as [[[lv m]|e] s'];
    [apply IH | reflexivity].
Qed.

Lemma inverted_match_list_app (pre post : list match_document) (local_vars : dict type_tag)
      (inv : list match_clause) (s : state) :
  inverted_match_list rt allow_regexp tokenize (pre ++ post) local_vars inv s
  = match inverted_match_list rt allow_regexp tokenize pre local_vars inv s with
    | (Ok inv', s') => inverted_match_list rt allow_regexp tokenize post local_vars inv' s'
    | (Raise e, s') => (Raise e, s')
    end.
Proof.
  revert inv s.
  induction pre as [|c rest IH]; intros; simpl; [reflexivity|].
  unfold bindM.
  destruct (inverted_match rt allow_regexp tokenize c local_vars s) as [[m|e] s'];
    [apply IH | reflexivity].
Qed.

(** Induction on a value, the arguments of a function node included. *)
Section ValueInduction.

Variable P : value -> Prop.
Hypothesis on_bool : forall b, P (VBool b).
Hypothesis on_float : forall f, P (VFloat f).
Hypothesis on_int : forall z, P (VInt z).
Hypothesis on_str : forall s, P (VStr s).
Hypothesis on_local : forall variable type, P (LocalReferenceNode variable type).
Hypothesis on_this : forall variable type, P (ThisReferenceNode variable type).
Hypothesis on_binary :
  forall operation name arg1 arg2 type,
    P arg1 -> P arg2 -> P (BinaryOpNode operation name arg1 arg2 type).
Hypothesis on_unary :
  forall operation name arg1 type, P arg1 -> P (UnaryOpNode operation name arg1 type).
Hypothesis on_if :
  forall predicate if_true if_false type,
    P predicate -> P if_true -> P if_false -> P (IfNode predicate if_true if_false type).
Hypothesis on_cast : forall expression type, P expression -> P (CastNode expression type).
Hypothesis on_join : forall l r, P l -> P r -> P (JoinNode l r).
Hypothesis on_function :
  forall name external type args,
    Forall P args -> P (FunctionNode name external type args).

Fixpoint value_induction (v : value) : P v :=
  match v with
  | VBool b => on_bool b
  | VFloat f => on_float f
  | VInt z => on_int z
  | VStr s => on_str s
  | LocalReferenceNode variable type => on_local variable type
  | ThisReferenceNode variable type => on_this variable type
  | BinaryOpNode operation name arg1 arg2 type =>
      on_binary operation name arg1 arg2 type (value_induction arg1) (value_induction arg2)
  | UnaryOpNode operation name arg1 type =>
      on_unary operation name arg1 type (value_induction arg1)
  | IfNode predicate if_true if_false type =>
      on_if predicate if_true if_false type (value_induction predicate)
            (value_induction if_true) (value_induction if_false)
  | CastNode expression type => on_cast expression type (value_induction expression)
  | JoinNode l r => on_join l r (value_induction l) (value_induction r)
  | FunctionNode name external type args =>
      on_function name external type args
        ((fix all (l : list value) : Forall P l :=
            match l with
            | [] => Forall_nil P
            | x :: rest => Forall_cons x (value_induction x) (all rest)
            end) args)
  end.

End ValueInduction.

(** The one exception that formatting a value raises is the [TypeError]
    of [CaselessString.__init__]. *)
Lemma sequence_raises {A : Type} (l : list (result A)) (e : exn) :
  sequence l = Raise e -> In (Raise e) l.
Proof.
  induction l as [|m rest IH]; simpl; [discriminate|].
  destruct m as [x|e']; simpl.
  - destruct (sequence rest) as [xs|e'']; simpl; [discriminate|].
    intros H. right. apply IH. exact H.
  - intros H. left. inversion H. reflexivity.
Qed.

Lemma format_value_raises (v : value) :
  forall e, format_value rt v = Raise e -> e = not_a_string.
Proof.
  assert (Hoperand :
    forall a, (forall e, format_value rt a = Raise e -> e = not_a_string) ->
              forall e, match a with
                        | VStr s => Ok (quote_sql s)
                        | _ => format_value rt a
                        end = Raise e -> e = not_a_string).
  { intros a IH e H. destruct a; try discriminate H; apply IH; exact H. }
  induction v using value_induction; intros e Hr; try discriminate Hr.
  - change (format_value rt (BinaryOpNode operation name v1 v2 type))
      with (a <- match v1 with VStr s => Ok (quote_sql s) | _ => format_value rt v1 end ;;
            b <- match v2 with VStr s => Ok (quote_sql s) | _ => format_value rt v2 end ;;
            Ok ("(" +++ a +++ " " +++ name +++ " " +++ b +++ ")")) in Hr.
    destruct (match v1 with VStr s => Ok (quote_sql s) | _ => format_value rt v1 end)
      as [a|e1] eqn:E1; simpl in Hr.
    + destruct (match v2 with VStr s => Ok (quote_sql s) | _ => format_value rt v2 end)
        as [b|e2] eqn:E2; simpl in Hr; [discriminate Hr|].
      inversion Hr; subst. exact (Hoperand v2 IHv2 e E2).
    + inversion Hr; subst. exact (Hoperand v1 IHv1 e E1).
  - change (format_value rt (UnaryOpNode operation name v type))
      with (a <- match v with VStr s => Ok (quote_sql s) | _ => format_value rt v end ;;
            Ok ("(" +++ name +++ " " +++ a +++ ")")) in Hr.
    destruct (match v with VStr s => Ok (quote_sql s) | _ => format_value rt v end)
      as [a|e1] eqn:E1; simpl in Hr; [discriminate Hr|].
    inversion Hr; subst. exact (Hoperand v IHv e E1).
  - change (format_value rt (IfNode v1 v2 v3 type))
      with (p <- format_value rt v1 ;; a <- format_value rt v2 ;;
            b <- format_value rt v3 ;;
            Ok ("if(" +++ p +++ ", " +++ a +++ ", " +++ b +++ ")")) in Hr.
    destruct (format_value rt v1) as [p|e1]; simpl in Hr;
      [|inversion Hr; subst; apply IHv1; reflexivity].
    destruct (format_value rt v2) as [a|e2]; simpl in Hr;
      [|inversion Hr; subst; apply IHv2; reflexivity].
    destruct (format_value rt v3) as [b|e3]; simpl in Hr;
      [discriminate Hr | inversion Hr; subst; apply IHv3; reflexivity].
  - change (format_value rt (CastNode v type))
      with (x <- format_value rt v ;;
            Ok ("cast(" +++ x +++ " -> " +++ str_of_type type +++ ")")) in Hr.
    destruct (format_value rt v) as [x|e1]; simpl in Hr;
      [discriminate Hr | inversion Hr; subst; apply IHv; reflexivity].
  - change (format_value rt (JoinNode v1 v2))
      with (a <- format_value rt v1 ;; b <- format_value rt v2 ;;
            Ok (a +++ " AND " +++ b)) in Hr.
    destruct (format_value rt v1) as [a|e1]; simpl in Hr;
      [|inversion Hr; subst; apply IHv1; reflexivity].
    destruct (format_value rt v2) as [b|e2]; simpl in Hr;
      [discriminate Hr | inversion Hr; subst; apply IHv2; reflexivity].
  - change (format_value rt (FunctionNode name external type args))
      with (l <- repr_of_list (map (repr_value rt) args) ;; Ok (name +++ l)) in Hr.
    unfold repr_of_list in Hr.
    destruct (sequence (map (repr_value rt) args)) as [l|e1] eqn:E1; simpl in Hr;
      [discriminate Hr|].
    inversion Hr; subst. apply sequence_raises in E1.
    apply in_map_iff in E1. destruct E1 as (a & Ha & Hin).
    rewrite Forall_forall in H. specialize (H a Hin).
    destruct a; cbv beta iota delta [repr_value str_call] in Ha;
      try discriminate Ha; try (inversion Ha; reflexivity); apply H; exact Ha.
Qed.

Lemma repr_value_raises (v : value) (e : exn) :
  repr_value rt v = Raise e -> e = not_a_string.
Proof.
  intros H. destruct v; cbv beta iota delta [repr_value str_call] in H;
    try discriminate H; try (inversion H; reflexivity);
    exact (format_value_raises _ e H).
Qed.

(** The text of the exception that a positive match raises for a
    predicate that is not joinable: the message with the predicate, or,
    when the predicate cannot be formatted, the [TypeError] raised
    instead. *)
Definition not_joinable_text (w : value) : string :=
  match format_value rt w with
  | Ok text => "Predicate of match is not a joinable predicate (" +++ text +++ ")"
  | Raise _ => "string must be a str or CaselessString"
  end.

(** A positive match whose [when] is not joinable raises. *)
Lemma positive_match_not_joinable (clause : match_document)
      (local_vars this_ : dict type_tag) (w : value) (s : state) :
  fst (known_fact (Fact clause) s) = Ok this_ ->
  fst (evaluate_when rt allow_regexp tokenize clause local_vars this_ s) = Ok (Some w) ->
  joinable w = false ->
  exists e,
    positive_match rt allow_regexp tokenize clause local_vars s = (Raise e, s)
    /\ str_of_exn e = not_joinable_text w.
Proof.
  intros Hk He Hj. unfold positive_match.
  unfold bindM at 1. rewrite (reads_only_run _ s _ (reads_only_known_fact _) Hk).
  unfold bindM at 1. rewrite (reads_only_run _ s _ (reads_only_evaluate_when _ _ _) He).
  unfold bindM at 1. rewrite Hj. unfold not_joinable_text, bindM, lift.
  destruct (format_value rt w) as [text|e] eqn:E.
  - eexists. split; reflexivity.
  - exists e. split; [reflexivity|].
    rewrite (format_value_raises w e E). reflexivity.
Qed.

Lemma inverted_match_not_joinable (clause : match_document)
      (local_vars this_ : dict type_tag) (w : value) (s : state) :
  fst (known_fact (Fact clause) s) = Ok this_ ->
  fst (evaluate_when rt allow_regexp tokenize clause local_vars this_ s) = Ok (Some w) ->
  joinable w = false ->
  inverted_match rt allow_regexp tokenize clause local_vars s
  = (Raise (Exception "Predicate of match is not a joinable predicate"), s).
Proof.
  intros Hk He Hj. unfold inverted_match.
  unfold bindM at 1. rewrite (reads_only_run _ s _ (reads_only_known_fact _) Hk).
  unfold bindM at 1. rewrite (reads_only_run _ s _ (reads_only_evaluate_when _ _ _) He).
  unfold bindM at 1. rewrite Hj. reflexivity.
Qed.

(** What [error] leaves behind. *)
Lemma error_effect (message : string) (s : state) :
  exists s', error message s = (Ok tt, s')
             /\ rules s' = rules s /\ facts s' = facts s
             /\ errors s' = S (errors s) /\ log s' = log s ++ [message].
Proof. eexists. split; [reflexivity|]. repeat split. Qed.

(** C7 -- a rule that is not disabled, with a match whose [when] evaluates
    to a value that is neither a [JoinNode] nor a [BinaryOpNode] on a
    [ThisReferenceNode], the matches before it being accepted: the rule
    loop catches the exception, counts and logs one error, and [rules]
    stays as it was, so the rule is dropped.  For a positive match the
    exception is the "not a joinable predicate" one, with the predicate in
    its message, as long as the predicate can be formatted; a predicate
    that cannot (a function call with a reference among its arguments)
    makes the formatting raise, and the text logged is that of the
    [TypeError].  For an inverted match the message has no predicate and
    the exception is always the "not a joinable predicate" one. *)
Theorem non_joinable_match_drops_rule (rule_name : CS) (rule_clause : rule_document)
        (s : state) :
  Enabled rule_clause <> Some false ->
  (forall pre clause post local_vars ms this_ w,
      MatchAll rule_clause = pre ++ clause :: post ->
      fst (positive_matches rt allow_regexp tokenize pre [] [] s) = Ok (local_vars, ms) ->
      fst (known_fact (Fact clause) s) = Ok this_ ->
      fst (evaluate_when rt allow_regexp tokenize clause local_vars this_ s) = Ok (Some w) ->
      joinable w = false ->
      exists s',
        process_rule rt allow_regexp tokenize (rule_name, rule_clause) s = (Ok tt, s')
        /\ rules s' = rules s
        /\ errors s' = S (errors s)
        /\ log s' = log s
                    ++ ["Error processing rule '" +++ rule_name +++ "': "
                        +++ match format_value rt w with
                            | Ok text =>
                                "Predicate of match is not a joinable predicate ("
                                +++ text +++ ")"
                            | Raise _ => "string must be a str or CaselessString"
                            end])
  /\
  (forall pre clause post local_vars ms inv this_ w,
      MatchNone rule_clause = Some (pre ++ clause :: post) ->
      fst (positive_matches rt allow_regexp tokenize (MatchAll rule_clause) [] [] s)
      = Ok (local_vars, ms) ->
      fst (inverted_match_list rt allow_regexp tokenize pre local_vars [] s) = Ok inv ->
      fst (known_fact (Fact clause) s) = Ok this_ ->
      fst (evaluate_when rt allow_regexp tokenize clause local_vars this_ s) = Ok (Some w) ->
      joinable w = false ->
      exists s',
        process_rule rt allow_regexp tokenize (rule_name, rule_clause) s = (Ok tt, s')
        /\ rules s' = rules s
        /\ errors s' = S (errors s)
        /\ log s' = log s ++ ["Error processing rule '" +++ rule_name
                              +++ "': Predicate of match is not a joinable predicate"])
  /\
  (forall name external type args,
      (exists variable t,
          In (ThisReferenceNode variable t) args \/ In (LocalReferenceNode variable t) args) ->
      joinable (FunctionNode name external type args) = false
      /\ format_value rt (FunctionNode name external type args)
         = Raise (TypeError "string must be a str or CaselessString")).
Proof.
  intros Henabled.
  assert (Hrun : forall e,
             fst (rule_body rt allow_regexp tokenize rule_name rule_clause s) = Raise e ->
             snd (rule_body rt allow_regexp tokenize rule_name rule_clause s) = s ->
             exists s',
               process_rule rt allow_regexp tokenize (rule_name, rule_clause) s = (Ok tt, s')
               /\ rules s' = rules s /\ errors s' = S (errors s)
               /\ log s' = log s ++ ["Error processing rule '" +++ rule_name +++ "': "
                                     +++ str_of_exn e]).
  { intros e He Hs. unfold process_rule.
    assert (Htry : try_except (rule_body rt allow_regexp tokenize rule_name rule_clause)
                              (rule_handler rule_name) s
                   = rule_handler rule_name e s).
    { unfold try_except.
      destruct (rule_body rt allow_regexp tokenize rule_name rule_clause s) as [r s0].
      simpl in *. subst. reflexivity. }
    destruct (error_effect ("Error processing rule '" +++ rule_name +++ "': "
                            +++ str_of_exn e) s) as (s' & Herr & Hr & _ & Hn & Hl).
    exists s'. split; [|auto].
    destruct (Enabled rule_clause) as [[|]|]; try (rewrite Htry; exact Herr).
    exfalso; apply Henabled; reflexivity. }
  split; [|split].
  - intros pre clause post local_vars ms this_ w HM Hpre Hk He Hj.
    destruct (positive_match_not_joinable clause local_vars this_ w s Hk He Hj)
      as (e & Hraise & Htext).
    assert (Hbody : rule_body rt allow_regexp tokenize rule_name rule_clause s
                    = (Raise e, s)).
    { unfold rule_body. unfold bindM at 1. rewrite HM, positive_matches_app.
      rewrite (reads_only_run _ s _ (reads_only_positive_matches _ _ _) Hpre).
      simpl. unfold bindM at 1. rewrite Hraise. reflexivity. }
    destruct (Hrun _ (f_equal fst Hbody) (f_equal snd Hbody)) as (s' & H1 & H2 & H3 & H4).
    exists s'. rewrite Htext in H4. repeat split; assumption.
  - intros pre clause post local_vars ms inv this_ w HM Hpos Hpre Hk He Hj.
    assert (Hbody : rule_body rt allow_regexp tokenize rule_name rule_clause s
                    = (Raise (Exception "Predicate of match is not a joinable predicate"), s)).
    { unfold rule_body. unfold bindM at 1.
      rewrite (reads_only_run _ s _ (reads_only_positive_matches _ _ _) Hpos).
      unfold bindM at 1. rewrite HM, inverted_match_list_app.
      rewrite (reads_only_run _ s _ (reads_only_inverted_match_list _ _ _) Hpre).
      simpl. unfold bindM at 1.
      rewrite (inverted_match_not_joinable clause local_vars this_ w s Hk He Hj). reflexivity. }
    destruct (Hrun _ (f_equal fst Hbody) (f_equal snd Hbody)) as (s' & H1 & H2 & H3 & H4).
    exists s'. repeat split; assumption.
  - intros name external type args (variable & t & Hin).
    split; [reflexivity|].
    change (format_value rt (FunctionNode name external type args))
      with (l <- repr_of_list (map (repr_value rt) args) ;; Ok (name +++ l)).
    assert (Hseq : sequence (map (repr_value rt) args) = Raise not_a_string).
    { clear - Hin. induction args as [|a rest IH]; [destruct Hin as [[]|[]]|].
      simpl. destruct (repr_value rt a) as [x|e] eqn:E; simpl.
      - rewrite IH; [reflexivity|].
        destruct Hin as [[Ha|Hin]|[Ha|Hin]]; auto; subst; discriminate E.
      - rewrite (repr_value_raises a e E). reflexivity. }
    unfold repr_of_list. rewrite Hseq. reflexivity.
Qed.

End JoinShape.

Section JoinShapeExample.
Import Expression Giles.

(** The tokens of three expressions, as the syntax rules of the
    tokenizer cut them. *)
Definition this_reference (this_ : dict type_tag) (field : CS) : token_stream :=
  match dict_get this_ field with
  | Some t => ([Other (ThisReferenceNode field t)], None)
  | None => ([], Some (Exception ("Unknown field: 'This." +++ field +++ "'")))
  end.

Definition then_tokens (first : token_stream) (more : list token) : token_stream :=
  match snd first with
  | None => (fst first ++ more, None)
  | Some e => first
  end.

Definition example_tokenize (constants : dict value) (variables this_ : dict type_tag)
           (source : string) : token_stream :=
  if String.eqb source "This.InitializationTime > 0" then
    then_tokens (this_reference this_ "InitializationTime")
                [OperatorToken ">"; Other (VInt 0)]
  else if String.eqb source "true" then ([Other (VBool true)], None)
  else if String.eqb source "(0 < This.InitializationTime) || true" then
    then_tokens
      (then_tokens ([OpenParenToken; Other (VInt 0); OperatorToken "<"], None)
                   (fst (this_reference this_ "InitializationTime")))
      [CloseParenToken; OperatorToken "||"; Other (VBool true)]
  else if String.eqb source "isbad(This.InitializationTime)" then
    then_tokens
      (then_tokens ([FunctionToken "isbad"; OpenParenToken], None)
                   (fst (this_reference this_ "InitializationTime")))
      [CloseParenToken]
  else ([], Some (Exception ("Unknown input: '" +++ source +++ "'"))).

Definition accepted_match : match_document :=
  {| Fact := "InitialFact"; Meaning := "started";
     When := Some "This.InitializationTime > 0"; Assign := None |}.

Definition refused_match (source : string) : match_document :=
  {| Fact := "InitialFact"; Meaning := "always"; When := Some source; Assign := None |}.

Definition rule_of (all : list match_document) (none : option (list match_document))
  : rule_document :=
  {| Enabled := Some true; Description := "example"; Metadata := [];
     MatchAll := all; MatchNone := none; RuleWhen := None;
     Production := Suppress {| SuppressFact := "InitialFact";
                               SuppressWhen := Some "true" |} |}.

(** The state after the declaration of the external function [isbad]. *)
Definition declared_state : state :=
  {| constants := []; distincts := [];
     functions := [("isbad", {| External := "is_bad"; Parameters := [int_];
                                Returns := bool_ |})];
     parameters := []; rules := []; facts := facts initial_state;
     errors := 0; log := [] |}.

Lemma non_joinable_match_drops_rule_witness :
  (exists s',
      process_rule example_runtime false example_tokenize
                   ("R", rule_of [accepted_match; refused_match "true"] None) initial_state
      = (Ok tt, s')
      /\ rules s' = rules initial_state
      /\ errors s' = S (errors initial_state)
      /\ log s' = log initial_state
                  ++ ["Error processing rule 'R': Predicate of match is not a joinable predicate (True)"])
  /\
  (exists s',
      process_rule example_runtime false example_tokenize
                   ("R", rule_of [accepted_match;
                                  refused_match "isbad(This.InitializationTime)"] None)
                   declared_state
      = (Ok tt, s')
      /\ rules s' = rules declared_state
      /\ errors s' = S (errors declared_state)
      /\ log s' = log declared_state
                  ++ ["Error processing rule 'R': string must be a str or CaselessString"])
  /\
  (exists s',
      process_rule example_runtime false example_tokenize
                   ("R", rule_of [accepted_match]
                                 (Some [refused_match "(0 < This.InitializationTime) || true"]))
                   initial_state
      = (Ok tt, s')
      /\ rules s' = rules initial_state
      /\ errors s' = S (errors initial_state)
      /\ log s' = log initial_state
                  ++ ["Error processing rule '" +++ "R"
                      +++ "': Predicate of match is not a joinable predicate"]).
Proof.
  split; [|split].
  - apply (proj1 (non_joinable_match_drops_rule example_runtime false example_tokenize "R"
                    (rule_of [accepted_match; refused_match "true"] None) initial_state
                    ltac:(discriminate))
                 [accepted_match] (refused_match "true") []
                 [] [{| fact_name := "InitialFact"; meaning := Some "started";
                        when := Some (BinaryOpNode ">" ">"
                                        (ThisReferenceNode "InitializationTime" int_)
                                        (VInt 0) bool_);
                        assignments := Some [] |}]
                 [("InitializationTime", int_)] (VBool true));
      reflexivity.
  - apply (proj1 (non_joinable_match_drops_rule example_runtime false example_tokenize "R"
                    (rule_of [accepted_match;
                              refused_match "isbad(This.InitializationTime)"] None)
                    declared_state ltac:(discriminate))
                 [accepted_match] (refused_match "isbad(This.InitializationTime)") []
                 [] [{| fact_name := "InitialFact"; meaning := Some "started";
                        when := Some (BinaryOpNode ">" ">"
                                        (ThisReferenceNode "InitializationTime" int_)
                                        (VInt 0) bool_);
                        assignments := Some [] |}]
                 [("InitializationTime", int_)]
                 (FunctionNode "isbad" "is_bad" bool_
                               [ThisReferenceNode "InitializationTime" int_]));
      reflexivity.
  - apply (proj1 (proj2 (non_joinable_match_drops_rule example_runtime false
                    example_tokenize "R"
                    (rule_of [accepted_match]
                             (Some [refused_match "(0 < This.InitializationTime) || true"]))
                    initial_state ltac:(discriminate)))
                 [] (refused_match "(0 < This.InitializationTime) || true") []
                 [] [{| fact_name := "InitialFact"; meaning := Some "started";
                        when := Some (BinaryOpNode ">" ">"
                                        (ThisReferenceNode "InitializationTime" int_)
                                        (VInt 0) bool_);
                        assignments := Some [] |}]
                 [] [("InitializationTime", int_)]
                 (BinaryOpNode "OR" "OR"
                    (BinaryOpNode ">" ">" (ThisReferenceNode "InitializationTime" int_)
                       (VInt 0) bool_)
                    (VBool true) bool_));
      reflexivity.
Defined.

End JoinShapeExample.

(* ================================================================== *)
(** * The cycle checker *)
(* ================================================================== *)

Section CycleChecker.
Import Giles.

Variable node : Type.
Variable node_eq_dec : forall x y : node, {x = y} + {x <> y}.
Variable pick : list node -> nat.
Variable edges : node -> list node.

(** The graph has the nodes of [nodes] and an edge from [x] to every
    element of [edges x]. *)
Definition edge (x y : node) : Prop := In y (edges x).

(** Consecutive elements are joined by edges. *)
Fixpoint chain (l : list node) : Prop :=
  match l with
  | x :: (y :: _) as rest => edge x y /\ chain rest
  | _ => True
  end.

(** A cycle of the graph, listed from some node on: a chain over nodes of
    the graph whose last element has an edge back to the first. *)
Definition is_cycle (nodes c : list node) : Prop :=
  match c with
  | [] => False
  | x :: _ => chain c /\ edge (last c x) x /\ incl c nodes
  end.

Definition acyclic (nodes : list node) : Prop := forall c, ~ is_cycle nodes c.

(** Finished nodes, the latest first: the successors of each one that
    belong to the graph were finished before it. *)
Fixpoint finished_in_order (nodes done : list node) : Prop :=
  match done with
  | [] => True
  | x :: l => (forall y, edge x y -> In y nodes -> In y l) /\ finished_in_order nodes l
  end.

Lemma chain_tail (x : node) (l : list node) : chain (x :: l) -> chain l.
Proof. destruct l; simpl; tauto. Qed.

Lemma chain_app_last (l : list node) (x d : node) :
  chain l -> (l = [] \/ edge (last l d) x) -> chain (l ++ [x]).
Proof.
  induction l as [|a l IH]; intros Hc Hl; simpl; [exact I|].
  destruct l as [|b l].
  - simpl. destruct Hl as [Hl|Hl]; [discriminate|]. simpl in Hl. tauto.
  - simpl in Hc. destruct Hc as [Hab Hc]. split; [exact Hab|].
    apply IH; [exact Hc|]. right. destruct Hl as [Hl|Hl]; [discriminate|exact Hl].
Qed.

Lemma chain_app_left (l1 l2 : list node) : chain (l1 ++ l2) -> chain l1.
Proof.
  induction l1 as [|a l1 IH]; intros H; [exact I|].
  destruct l1 as [|b l1]; [exact I|].
  simpl in *. destruct H as [Hab H]. split; [exact Hab | apply IH; exact H].
Qed.

Lemma chain_app_right (l1 l2 : list node) : chain (l1 ++ l2) -> chain l2.
Proof.
  induction l1 as [|a l1 IH]; intros H; [exact H|].
  apply IH. simpl app in H. apply chain_tail in H. exact H.
Qed.

Lemma last_cons_cons (a b : node) (l : list node) (d : node) :
  last (a :: b :: l) d = last (b :: l) d.
Proof. reflexivity. Qed.

Lemma last_default (l : list node) (x d d' : node) :
  last (x :: l) d = last (x :: l) d'.
Proof.
  revert x. induction l as [|y l IH]; intros x; [reflexivity|].
  rewrite !last_cons_cons. apply IH.
Qed.

Lemma last_app_cons (l1 l2 : list node) (x d d' : node) :
  last (l1 ++ x :: l2) d = last (x :: l2) d'.
Proof.
  induction l1 as [|a l1 IH].
  - apply last_default.
  - destruct l1 as [|b l1].
    + change (last (a :: x :: l2) d = last (x :: l2) d').
      rewrite last_cons_cons. apply last_default.
    + change (last (a :: b :: (l1 ++ x :: l2)) d = last (x :: l2) d').
      rewrite last_cons_cons. exact IH.
Qed.

(** [stack[stack.index(n):]] is the part of the stack from [n] on. *)
Lemma from_index_suffix (n : node) (stack : list node) :
  In n stack ->
  exists pre rest, stack = pre ++ n :: rest /\ from_index node_eq_dec n stack = n :: rest.
Proof.
  induction stack as [|x stack IH]; intros H; [contradiction|].
  simpl. destruct (node_eq_dec x n) as [->|Hne].
  - exists [], stack. split; reflexivity.
  - destruct H as [H|H]; [contradiction|].
    destruct (IH H) as (pre & rest & Hs & Hf).
    exists (x :: pre), rest. split; [simpl; f_equal; exact Hs | exact Hf].
Qed.

(** How the [for] loop over the successors of the top ends. *)
Lemma scan_spec (stack todo successors : list node) :
  match scan node_eq_dec stack todo successors with
  | Found c => exists n, In n successors /\ In n stack /\ c = from_index node_eq_dec n stack
  | Pushed n => In n successors /\ ~ In n stack /\ In n todo
  | Exhausted => forall n, In n successors -> ~ In n stack /\ ~ In n todo
  end.
Proof.
  induction successors as [|n rest IH]; simpl; [intros n []|].
  unfold member.
  destruct (in_dec node_eq_dec n stack) as [Hs|Hs].
  - exists n. auto.
  - destruct (in_dec node_eq_dec n todo) as [Ht|Ht]; [auto|].
    destruct (scan node_eq_dec stack todo rest).
    + destruct IH as (m & Hm & H); exists m; auto.
    + destruct IH as (Hm & H); auto.
    + intros m [<-|Hm]; auto.
Qed.

Section Invariant.

Variable nodes : list node.

(** The loop invariant: the stack is a path of the graph, every node of
    the graph is pending, on the stack or finished, and the finished
    nodes are in order. *)
Record invariant (stack todo done : list node) : Prop := {
  stack_chain : chain stack;
  stack_nodes : incl stack nodes;
  todo_nodes : incl todo nodes;
  done_order : finished_in_order nodes done;
  covered : forall n, In n nodes -> In n todo \/ In n stack \/ In n done
}.

Lemma remove_shorter (n : node) (todo : list node) :
  In n todo -> List.length (remove node_eq_dec n todo) < List.length todo.
Proof.
  induction todo as [|x todo IH]; intros H; [contradiction|].
  simpl. destruct (node_eq_dec n x) as [->|Hne].
  - pose proof (remove_length_le node_eq_dec todo x). simpl. lia.
  - destruct H as [H|H]; [congruence|]. simpl. specialize (IH H). lia.
Qed.

Lemma invariant_push (stack todo done : list node) (d n : node) :
  stack <> [] ->
  invariant stack todo done -> edge (last stack d) n -> In n todo ->
  invariant (stack ++ [n]) (remove node_eq_dec n todo) done.
Proof.
  intros Hne [Hc Hs Ht Hd Hcov] He Hn. split.
  - apply chain_app_last with (d := d); auto.
  - intros x Hx. apply in_app_or in Hx. destruct Hx as [Hx|[<-|[]]]; auto.
  - intros x Hx. apply in_remove in Hx. apply Ht, Hx.
  - exact Hd.
  - intros m Hm. destruct (node_eq_dec m n) as [->|Hmn].
    + right; left. apply in_or_app; right; left; reflexivity.
    + destruct (Hcov m Hm) as [H|[H|H]].
      * left. apply in_in_remove; auto.
      * right; left. apply in_or_app; left; exact H.
      * right; right; exact H.
Qed.

Lemma invariant_pop (stack todo done : list node) (d : node) :
  stack <> [] ->
  invariant stack todo done ->
  (forall n, In n (edges (last stack d)) -> ~ In n stack /\ ~ In n todo) ->
  invariant (removelast stack) todo (last stack d :: done).
Proof.
  intros Hne [Hc Hs Ht Hd Hcov] Hex.
  pose proof (app_removelast_last d Hne) as Hsplit.
  split.
  - rewrite Hsplit in Hc. apply chain_app_left in Hc. exact Hc.
  - intros x Hx. apply Hs. rewrite Hsplit. apply in_or_app; left; exact Hx.
  - exact Ht.
  - simpl. split; [|exact Hd].
    intros y Hy Hyn. destruct (Hex y Hy) as [H1 H2].
    destruct (Hcov y Hyn) as [H|[H|H]]; [contradiction|contradiction|exact H].
  - intros m Hm. destruct (Hcov m Hm) as [H|[H|H]].
    + left; exact H.
    + rewrite Hsplit in H. apply in_app_or in H. destruct H as [H|[<-|[]]].
      * right; left; exact H.
      * right; right; left; reflexivity.
    + right; right; right; exact H.
Qed.

(** A cycle found by the scan is a cycle of the graph. *)
Lemma found_is_cycle (stack todo done : list node) (d n : node) :
  stack <> [] ->
  invariant stack todo done -> In n (edges (last stack d)) -> In n stack ->
  is_cycle nodes (from_index node_eq_dec n stack).
Proof.
  intros Hne [Hc Hs _ _ _] He Hn.
  destruct (from_index_suffix n stack Hn) as (pre & rest & Hsplit & Hf).
  rewrite Hf. simpl. repeat split.
  - rewrite Hsplit in Hc. apply chain_app_right in Hc. exact Hc.
  - unfold edge. rewrite Hsplit in He.
    rewrite (last_app_cons pre rest n d n) in He. exact He.
  - intros x Hx. apply Hs. rewrite Hsplit. apply in_or_app; right; exact Hx.
Qed.

(** The inner loop, given fuel for its [2 * len(todo) + len(stack)]
    turns, returns a cycle of the graph or ends with an empty stack. *)
Lemma inner_loop_spec (fuel : nat) :
  forall stack todo done,
    2 * List.length todo + List.length stack < fuel ->
    invariant stack todo done ->
    (exists c, inner_loop node_eq_dec edges fuel stack todo = Some (inl c)
               /\ is_cycle nodes c)
    \/ (exists todo' done',
           inner_loop node_eq_dec edges fuel stack todo = Some (inr todo')
           /\ invariant [] todo' done'
           /\ List.length todo' <= List.length todo).
Proof.
  induction fuel as [|fuel IH]; intros stack todo done Hfuel Hinv; [lia|].
  destruct stack as [|d stack'] eqn:Estack.
  - right. exists todo, done. simpl. auto.
  - rewrite <- Estack in *.
    assert (Hne : stack <> []) by (rewrite Estack; discriminate).
    assert (Hunfold : inner_loop node_eq_dec edges (S fuel) stack todo
                      = match scan node_eq_dec stack todo (edges (last stack d)) with
                        | Found cycle => Some (inl cycle)
                        | Pushed n =>
                            inner_loop node_eq_dec edges fuel (stack ++ [n])
                                       (remove node_eq_dec n todo)
                        | Exhausted => inner_loop node_eq_dec edges fuel (removelast stack) todo
                        end).
    { rewrite Estack. reflexivity. }
    rewrite Hunfold. clear Hunfold.
    pose proof (scan_spec stack todo (edges (last stack d))) as Hscan.
    destruct (scan node_eq_dec stack todo (edges (last stack d))) as [c|n|].
    + left. exists c. split; [reflexivity|].
      destruct Hscan as (n & Hn & Hs & ->).
      apply (found_is_cycle stack todo done d n); auto.
    + destruct Hscan as (Hn & Hs & Ht).
      pose proof (remove_shorter n todo Ht) as Hlen.
      destruct (IH (stack ++ [n]) (remove node_eq_dec n todo) done) as [H|H].
      * rewrite length_app. simpl. lia.
      * apply invariant_push with (d := d); auto.
      * left; exact H.
      * right. destruct H as (todo' & done' & H1 & H2 & H3).
        exists todo', done'. split; [exact H1 | split; [exact H2 | lia]].
    + assert (Hlen : List.length (removelast stack) < List.length stack).
      { rewrite (app_removelast_last d Hne) at 2. rewrite length_app. simpl. lia. }
      destruct (IH (removelast stack) todo (last stack d :: done)) as [H|H].
      * lia.
      * apply invariant_pop; auto.
      * left; exact H.
      * right; exact H.
Qed.

Lemma set_pop_spec (todo : list node) :
  match set_pop node_eq_dec pick todo with
  | None => todo = []
  | Some (x, rest) => In x todo /\ rest = remove node_eq_dec x todo
  end.
Proof.
  destruct todo as [|d todo]; [reflexivity|].
  unfold set_pop. split; [|reflexivity].
  apply nth_In. apply Nat.mod_upper_bound. simpl. discriminate.
Qed.

Lemma invariant_start (todo done : list node) (x : node) :
  invariant [] todo done -> In x todo ->
  invariant [x] (remove node_eq_dec x todo) done.
Proof.
  intros [Hc Hs Ht Hd Hcov] Hx. split.
  - exact I.
  - intros y [<-|[]]. apply Ht, Hx.
  - intros y Hy. apply in_remove in Hy. apply Ht, Hy.
  - exact Hd.
  - intros m Hm. destruct (node_eq_dec m x) as [->|Hmx].
    + right; left; left; reflexivity.
    + destruct (Hcov m Hm) as [H|[[]|H]].
      * left. apply in_in_remove; auto.
      * right; right; exact H.
Qed.

(** The outer loop returns a cycle of the graph, or [None] with every
    node finished. *)
Lemma outer_loop_spec (fuel : nat) :
  forall todo done,
    List.length todo < fuel ->
    invariant [] todo done ->
    (exists c, outer_loop node_eq_dec pick edges fuel todo = Some (Some c)
               /\ is_cycle nodes c)
    \/ (outer_loop node_eq_dec pick edges fuel todo = Some None
        /\ exists done', invariant [] [] done').
Proof.
  induction fuel as [|fuel IH]; intros todo done Hfuel Hinv; [lia|].
  simpl. pose proof (set_pop_spec todo) as Hpop.
  destruct (set_pop node_eq_dec pick todo) as [[x rest]|].
  - destruct Hpop as (Hx & ->).
    pose proof (remove_shorter x todo Hx) as Hlen.
    destruct (inner_loop_spec
                (List.length (remove node_eq_dec x todo)
                 + (List.length (remove node_eq_dec x todo) + 0) + 2)
                [x] (remove node_eq_dec x todo) done) as [H|H].
    + simpl. lia.
    + apply invariant_start; auto.
    + left. destruct H as (c & -> & Hc). exists c. auto.
    + destruct H as (todo' & done' & -> & Hinv' & Hle).
      apply (IH todo' done'); [lia | exact Hinv'].
  - subst todo. right. split; [reflexivity|]. exists done. exact Hinv.
Qed.

(** Finished nodes in order admit no cycle. *)
Lemma finished_closed (l : list node) (x y : node) :
  finished_in_order nodes l -> In x l -> edge x y -> In y nodes -> In y l.
Proof.
  induction l as [|a l IH]; intros Hf Hx He Hy; [contradiction|].
  destruct Hf as [Ha Hf]. destruct Hx as [->|Hx].
  - right. apply Ha; auto.
  - right. apply IH; auto.
Qed.

Lemma chain_stays (l : list node) (x : node) (rest : list node) :
  finished_in_order nodes l -> chain (x :: rest) -> incl (x :: rest) nodes ->
  In x l -> incl (x :: rest) l.
Proof.
  revert x. induction rest as [|y rest IH]; intros x Hf Hc Hn Hx.
  - intros z [<-|[]]; exact Hx.
  - simpl in Hc. destruct Hc as [Hxy Hc].
    assert (Hy : In y l).
    { apply (finished_closed l x y); auto. apply Hn. right; left; reflexivity. }
    intros z [<-|Hz]; [exact Hx|].
    apply (IH y); auto. intros w Hw. apply Hn. right; exact Hw.
Qed.

Lemma last_in (l : list node) (x : node) : In (last (x :: l) x) (x :: l).
Proof.
  revert x. induction l as [|y l IH]; intros x; [left; reflexivity|].
  right. rewrite last_cons_cons, (last_default l y x y). apply IH.
Qed.

Lemma finished_no_cycle (done c : list node) :
  finished_in_order nodes done -> is_cycle nodes c -> incl c done -> False.
Proof.
  revert c. induction done as [|d l IH]; intros c Hf Hc Hin.
  - destruct c as [|x c]; [exact Hc|]. apply (Hin x). left; reflexivity.
  - apply (IH c); [apply Hf | exact Hc |].
    destruct c as [|x rest]; [contradiction|].
    destruct Hc as (Hchain & Hback & Hnodes).
    destruct Hf as [Hd Hf].
    assert (Hx : In x l).
    { destruct (in_dec node_eq_dec x l) as [Hx|Hx]; [exact Hx|].
      assert (Hxd : x = d).
      { destruct (Hin x (or_introl eq_refl)) as [H|H]; [symmetry; exact H | contradiction]. }
      subst d.
      destruct rest as [|y rest].
      - simpl in Hback. apply Hd; [exact Hback | apply Hnodes; left; reflexivity].
      - simpl in Hchain. destruct Hchain as [Hxy Hchain].
        assert (Hy : In y l).
        { apply Hd; [exact Hxy | apply Hnodes; right; left; reflexivity]. }
        assert (Hrest : incl (y :: rest) l).
        { apply chain_stays; auto. intros w Hw. apply Hnodes. right; exact Hw. }
        apply (finished_closed l (last (x :: y :: rest) x) x); auto.
        + rewrite last_cons_cons, (last_default rest y x y). apply Hrest, last_in.
        + apply Hnodes. left; reflexivity. }
    apply chain_stays; auto.
Qed.

End Invariant.

(** [find_cycle] always returns: the fuel of the model is never used up. *)
Lemma find_cycle_returns (nodes : list node) :
  exists r, find_cycle node_eq_dec pick edges nodes = Some r.
Proof.
  unfold find_cycle.
  destruct (outer_loop_spec nodes (S (List.length (set_of node_eq_dec nodes)))
              (set_of node_eq_dec nodes) []) as [H|H].
  - lia.
  - split; simpl; auto.
    + intros x []. 
    + intros x Hx. apply nodup_In in Hx. exact Hx.
    + intros n Hn. left. apply nodup_In. exact Hn.
  - destruct H as (c & -> & _). eauto.
  - destruct H as (-> & _). eauto.
Qed.

(** C4 -- for every node list, every edges function and every order in
    which the interpreter pops the pending set, [find_cycle] returns; it
    returns [None] exactly when the graph has no cycle; and a list it
    returns is a cycle of the graph that starts at the node found again
    on the stack: consecutive nodes are joined by edges and the last one
    has an edge back to the first. *)
Theorem find_cycle_correct (nodes : list node) :
  exists r,
    find_cycle node_eq_dec pick edges nodes = Some r
    /\ (r = None <-> acyclic nodes)
    /\ (forall c, r = Some c -> is_cycle nodes c).
Proof.
  unfold find_cycle.
  destruct (outer_loop_spec nodes (S (List.length (set_of node_eq_dec nodes)))
              (set_of node_eq_dec nodes) []) as [H|H].
  - lia.
  - split; simpl; auto.
    + intros x [].
    + intros x Hx. apply nodup_In in Hx. exact Hx.
    + intros n Hn. left. apply nodup_In. exact Hn.
  - destruct H as (c & -> & Hc). exists (Some c). split; [reflexivity|]. split.
    + split; [discriminate|]. intros Ha. exfalso. apply (Ha c Hc).
    + intros c' [= <-]. exact Hc.
  - destruct H as (-> & done' & Hinv). exists None. split; [reflexivity|]. split.
    + split; [|reflexivity]. intros _ c Hc.
      apply (finished_no_cycle nodes done' c (done_order _ _ _ _ Hinv) Hc).
      intros x Hx.
      assert (Hn : In x nodes).
      { destruct c as [|y c]; [contradiction|]. destruct Hc as (_ & _ & Hn). apply Hn, Hx. }
      destruct (covered _ _ _ _ Hinv x Hn) as [[]|[[]|H]]. exact H.
    + discriminate.
Qed.

End CycleChecker.

Section CycleExample.
Import Expression Giles.

(** A rule that matches the facts [matched] and asserts [produced]. *)
Definition rule_on (matched : list CS) (produced : CS) : rule :=
  {| locals := [];
     matches := map (fun f => {| fact_name := f; meaning := None; when := None;
                                 assignments := Some [] |}) matched;
     inverted_matches := [];
     description := "";
     final_predicate := VBool true;
     produces := Produces false (Some produced) [];
     metadata := [] |}.

(** [A] makes what [B] matches, [B] what [C] matches, [C] what [A]
    matches. *)
Definition cyclic_rules : dict rule :=
  [("A", rule_on ["Fc"] "Fa"); ("B", rule_on ["Fa"] "Fb"); ("C", rule_on ["Fb"] "Fc")].

(** The same without the match of [A]. *)
Definition layered_rules : dict rule :=
  [("A", rule_on ["InitialFact"] "Fa"); ("B", rule_on ["Fa"] "Fb");
   ("C", rule_on ["Fa"; "Fb"] "Fc")].

(** [find_cycle(rules.keys(), find_reachable)] on both rule sets, for a
    [todo.pop()] that takes the first and one that takes the last
    element. *)
Example find_cycle_of_rules :
  find_cycle string_dec (fun _ => 0) (find_reachable cyclic_rules) (dict_keys cyclic_rules)
  = Some (Some ["A"; "B"; "C"])
  /\ find_cycle string_dec (fun todo => List.length todo - 1)
                (find_reachable cyclic_rules) (dict_keys cyclic_rules)
     = Some (Some ["C"; "A"; "B"])
  /\ find_cycle string_dec (fun _ => 0) (find_reachable layered_rules)
                (dict_keys layered_rules)
     = Some None
  /\ find_cycle string_dec (fun todo => List.length todo - 1)
                (find_reachable layered_rules) (dict_keys layered_rules)
     = Some None.
Proof. repeat split; vm_compute; reflexivity. Qed.

End CycleExample.

(* ================================================================== *)
(** * The index demands *)
(* ================================================================== *)

Section IndexTreeFacts.
Import SqliteBackend.

Variable K : Type.
Variable eqb : K -> K -> bool.
Hypothesis eqb_eq : forall a b, eqb a b = true <-> a = b.

Lemma tree_induction (P : tree K -> Prop) :
  (forall cs, (forall k sub, In (k, sub) cs -> P sub) -> P (Tree cs)) ->
  forall t, P t.
Proof.
  intros H. fix IH 1. intros [cs]. apply H.
  induction cs as [|[k0 sub0] cs IHcs]; intros k sub Hin.
  - contradiction.
  - pose proof (IH sub0) as Hsub0. destruct Hin as [Heq|Hin].
    + inversion Heq; subst. exact Hsub0.
    + apply (IHcs k sub Hin).
Qed.

(** [p] leads from the root to a node of the tree. *)
Inductive has_path : tree K -> list K -> Prop :=
| path_here (t : tree K) : has_path t []
| path_down (cs : list (K * tree K)) (k : K) (sub : tree K) (p : list K) :
    In (k, sub) cs -> has_path sub p -> has_path (Tree cs) (k :: p).

(** [p] leads from the root to an empty dictionary. *)
Inductive leaf_path : tree K -> list K -> Prop :=
| leaf_here : leaf_path (Tree []) []
| leaf_down (cs : list (K * tree K)) (k : K) (sub : tree K) (p : list K) :
    In (k, sub) cs -> leaf_path sub p -> leaf_path (Tree cs) (k :: p).

(** The keys of every dictionary of the tree are distinct. *)
Inductive distinct_keys : tree K -> Prop :=
| distinct_Tree (cs : list (K * tree K)) :
    NoDup (map fst cs) ->
    (forall k sub, In (k, sub) cs -> distinct_keys sub) ->
    distinct_keys (Tree cs).

Definition is_prefix (p d : list K) : Prop := exists r, d = p ++ r.
Definition strict_prefix (p d : list K) : Prop := exists k r, d = p ++ k :: r.

Lemma dft_unfold (cs : list (K * tree K)) (path : list K) :
  dft (Tree cs) path
  = match cs with
    | [] => [path]
    | _ => flat_map (fun kv => dft (snd kv) (path ++ [fst kv])) cs
    end.
Proof. destruct cs; reflexivity. Qed.

(** The walk hands the callback exactly the paths to the leaves. *)
Lemma dft_spec (t : tree K) :
  forall path p, In p (dft t path) <-> exists q, p = path ++ q /\ leaf_path t q.
Proof.
  induction t as [cs IH] using tree_induction. intros path p.
  rewrite dft_unfold. destruct cs as [|c cs'] eqn:E.
  - split.
    + intros [<-|[]]. exists []. rewrite app_nil_r. split; [reflexivity | constructor].
    + intros (q & -> & Hq). inversion Hq; subst; [|contradiction].
      rewrite app_nil_r. left; reflexivity.
  - rewrite <- E in *. rewrite in_flat_map. split.
    + intros ([k sub] & Hin & Hp). simpl in Hp.
      apply (IH k sub Hin) in Hp. destruct Hp as (q & -> & Hq).
      exists (k :: q). rewrite <- app_assoc. split; [reflexivity|].
      apply leaf_down with (sub := sub); assumption.
    + intros (q & -> & Hq). inversion Hq as [Hcs|cs0 k sub p0 Hin Hl]; subst.
      * discriminate.
      * exists (k, sub). split; [assumption|]. simpl.
        apply (IH k sub Hin). exists p0. rewrite <- app_assoc.
        split; [reflexivity | assumption].
Qed.

Lemma same_key_same_sub (cs : list (K * tree K)) (k : K) (a b : tree K) :
  NoDup (map fst cs) -> In (k, a) cs -> In (k, b) cs -> a = b.
Proof.
  induction cs as [|[k0 s0] cs IH]; intros Hnd Ha Hb; [contradiction|].
  simpl in Hnd. inversion Hnd as [|? ? Hnotin Hnd']; subst.
  destruct Ha as [Ha|Ha], Hb as [Hb|Hb].
  - congruence.
  - inversion Ha; subst. exfalso. apply Hnotin.
    apply (in_map fst) in Hb. exact Hb.
  - inversion Hb; subst. exfalso. apply Hnotin.
    apply (in_map fst) in Ha. exact Ha.
  - apply IH; assumption.
Qed.

(** A leaf is a path that cannot be extended. *)
Lemma leaf_path_spec (t : tree K) (p : list K) :
  distinct_keys t ->
  (leaf_path t p <-> has_path t p /\ forall k, ~ has_path t (p ++ [k])).
Proof.
  intros Hd. split.
  - intros Hl. induction Hl as [|cs k sub p Hin Hl IH].
    + split; [constructor|]. intros k Hk. inversion Hk; subst. contradiction.
    + inversion Hd as [? Hnd Hsub]; subst.
      destruct (IH (Hsub k sub Hin)) as [Hp Hext].
      split; [apply path_down with (sub := sub); assumption|].
      intros k' Hk'. simpl in Hk'. inversion Hk'; subst.
      rewrite (same_key_same_sub cs k sub0 sub Hnd H2 Hin) in H3.
      apply (Hext k' H3).
  - clear Hd. revert t. induction p as [|k p IH]; intros t [Hp Hext].
    + destruct t as [[|[k sub] cs]]; [constructor|].
      exfalso. apply (Hext k). simpl.
      apply path_down with (sub := sub); [left; reflexivity | constructor].
    + inversion Hp; subst.
      apply leaf_down with (sub := sub); [assumption|].
      apply IH. split; [assumption|].
      intros k' Hk'. apply (Hext k'). simpl.
      apply path_down with (sub := sub); assumption.
Qed.

(** What one turn of the loop of [add_index] does to a dictionary. *)
Lemma enter_cases (field : K) (descend : tree K -> tree K) (cs : list (K * tree K)) :
  (exists l1 sub l2,
      cs = l1 ++ (field, sub) :: l2
      /\ ~ In field (map fst l1)
      /\ enter eqb field descend cs = l1 ++ (field, descend sub) :: l2)
  \/ (~ In field (map fst cs)
      /\ enter eqb field descend cs = cs ++ [(field, descend (Tree []))]).
Proof.
  induction cs as [|[k sub] cs IH]; simpl.
  - right. split; [tauto | reflexivity].
  - destruct (eqb k field) eqn:E.
    + apply eqb_eq in E. subst k. left. exists [], sub, cs. simpl. tauto.
    + assert (Hne : k <> field).
      { intros ->. assert (H : eqb field field = true) by (apply eqb_eq; reflexivity).
        congruence. }
      destruct IH as [(l1 & sub' & l2 & -> & Hnot & ->)|(Hnot & ->)].
      * left. exists ((k, sub) :: l1), sub', l2. simpl.
        split; [reflexivity | split; [tauto | reflexivity]].
      * right. simpl. split; [tauto | reflexivity].
Qed.

(** Adding a demand adds its prefixes to the paths of the tree. *)
Lemma tree_add_paths (d : list K) :
  forall t p, has_path (tree_add eqb d t) p <-> has_path t p \/ is_prefix p d.
Proof.
  induction d as [|field rest IH]; intros t p.
  - simpl. split; [auto|]. intros [H|(r & Hr)]; [exact H|].
    symmetry in Hr. apply app_eq_nil in Hr. destruct Hr as [-> _]. constructor.
  - destruct t as [cs]. simpl.
    destruct p as [|k p].
    { split; [left|]; constructor. }
    destruct (enter_cases field (tree_add eqb rest) cs)
      as [(l1 & sub & l2 & Hcs & Hnot & ->)|(Hnot & ->)].
    + subst cs. split.
      * intros H. inversion H as [|? ? s ? Hin Hp]; subst.
        apply in_app_or in Hin. destruct Hin as [Hin|[Heq|Hin]].
        -- left. apply path_down with (sub := s); [apply in_or_app; auto | exact Hp].
        -- inversion Heq; subst. apply IH in Hp. destruct Hp as [Hp|(r & ->)].
           ++ left. apply path_down with (sub := sub); [|exact Hp].
              apply in_or_app; right; left; reflexivity.
           ++ right. exists r. reflexivity.
        -- left. apply path_down with (sub := s); [|exact Hp].
           apply in_or_app; right; right; exact Hin.
      * intros [H|(r & Hr)].
        -- inversion H as [|? ? s ? Hin Hp]; subst.
           apply in_app_or in Hin. destruct Hin as [Hin|[Heq|Hin]].
           ++ apply path_down with (sub := s); [apply in_or_app; auto | exact Hp].
           ++ inversion Heq; subst.
              apply path_down with (sub := tree_add eqb rest s).
              ** apply in_or_app; right; left; reflexivity.
              ** apply IH. left; exact Hp.
           ++ apply path_down with (sub := s); [|exact Hp].
              apply in_or_app; right; right; exact Hin.
        -- simpl in Hr. inversion Hr; subst.
           eapply path_down.
           ++ apply in_or_app; right; left; reflexivity.
           ++ apply IH. right. exists r; reflexivity.
    + split.
      * intros H. inversion H as [|? ? s ? Hin Hp]; subst.
        apply in_app_or in Hin. destruct Hin as [Hin|[Heq|[]]].
        -- left. apply path_down with (sub := s); assumption.
        -- inversion Heq; subst. apply IH in Hp. destruct Hp as [Hp|(r & ->)].
           ++ inversion Hp; subst; [|contradiction].
              right. exists rest. reflexivity.
           ++ right. exists r. reflexivity.
      * intros [H|(r & Hr)].
        -- inversion H as [|? ? s ? Hin Hp]; subst.
           apply path_down with (sub := s); [apply in_or_app; auto | exact Hp].
        -- simpl in Hr. inversion Hr; subst.
           eapply path_down.
           ++ apply in_or_app; right; left; reflexivity.
           ++ apply IH. right. exists r; reflexivity.
Qed.

Lemma tree_add_distinct (d : list K) :
  forall t, distinct_keys t -> distinct_keys (tree_add eqb d t).
Proof.
  induction d as [|field rest IH]; intros t Ht; [exact Ht|].
  destruct t as [cs]. simpl. inversion Ht as [? Hnd Hsub]; subst.
  destruct (enter_cases field (tree_add eqb rest) cs)
    as [(l1 & sub & l2 & Hcs & Hnot & ->)|(Hnot & ->)].
  - subst cs. constructor.
    + rewrite map_app in *. simpl in *. exact Hnd.
    + intros k s Hin. apply in_app_or in Hin. destruct Hin as [Hin|[Heq|Hin]].
      * apply (Hsub k s). apply in_or_app; auto.
      * inversion Heq; subst. apply IH. apply (Hsub k sub).
        apply in_or_app; right; left; reflexivity.
      * apply (Hsub k s). apply in_or_app; right; right; exact Hin.
  - constructor.
    + rewrite map_app. simpl. apply NoDup_app.
      * exact Hnd.
      * constructor; [intros [] | constructor].
      * intros a Ha [<-|[]]. contradiction.
    + intros k s Hin. apply in_app_or in Hin. destruct Hin as [Hin|[Heq|[]]].
      * apply (Hsub k s Hin).
      * inversion Heq; subst. apply IH. constructor; [constructor | intros ? ? []].
Qed.

(** No path is handed to the callback twice. *)
Lemma dft_NoDup (t : tree K) :
  distinct_keys t -> forall path, NoDup (dft t path).
Proof.
  induction t as [cs IH] using tree_induction. intros Hd path.
  rewrite dft_unfold. inversion Hd as [? Hnd Hsub]; subst.
  destruct cs as [|c cs'] eqn:E; [constructor; [intros [] | constructor]|].
  rewrite <- E in *. clear E c cs'.
  induction cs as [|[k sub] cs IHcs]; [constructor|].
  simpl. simpl in Hnd. inversion Hnd as [|? ? Hnotin Hnd']; subst.
  apply NoDup_app.
  - apply (IH k sub); [left; reflexivity | apply (Hsub k sub); left; reflexivity].
  - apply IHcs.
    + intros k' s' Hin. apply (IH k' s'). right; exact Hin.
    + constructor; [exact Hnd' | intros k' s' Hin; apply (Hsub k' s'); right; exact Hin].
    + exact Hnd'.
    + intros k' s' Hin. apply (Hsub k' s'). right; exact Hin.
  - intros p Hp Hp'.
    apply dft_spec in Hp. destruct Hp as (q & -> & _).
    apply in_flat_map in Hp'. destruct Hp' as ([k' s'] & Hin & Hp'). simpl in Hp'.
    apply dft_spec in Hp'. destruct Hp' as (q' & Heq & _).
    rewrite <- !app_assoc in Heq. apply app_inv_head in Heq.
    simpl in Heq. inversion Heq; subst.
    apply Hnotin. apply (in_map fst) in Hin. exact Hin.
Qed.

(** The tree after a sequence of demands. *)
Definition demand_tree (demands : list (list K)) (t : tree K) : tree K :=
  fold_left (fun t d => tree_add eqb d t) demands t.

Lemma demand_tree_paths (demands : list (list K)) :
  forall t p,
    has_path (demand_tree demands t) p
    <-> has_path t p \/ exists d, In d demands /\ is_prefix p d.
Proof.
  induction demands as [|d rest IH]; intros t p; simpl.
  - split; [auto|]. intros [H|(d & [] & _)]. exact H.
  - rewrite IH, tree_add_paths. split.
    + intros [[H|H]|(d' & Hin & Hp)]; eauto.
    + intros [H|(d' & [<-|Hin] & Hp)]; eauto.
Qed.

Lemma demand_tree_distinct (demands : list (list K)) :
  forall t, distinct_keys t -> distinct_keys (demand_tree demands t).
Proof.
  induction demands as [|d rest IH]; intros t Ht; simpl; [exact Ht|].
  apply IH, tree_add_distinct, Ht.
Qed.

Lemma empty_distinct : distinct_keys (Tree []).
Proof. constructor; [constructor | intros ? ? []]. Qed.

(** The leaves after a sequence of demands, from the empty dictionary:
    the demands that are not empty and are not a strict prefix of another
    demand; the root itself when every demand was empty. *)
Lemma demand_tree_leaves (demands : list (list K)) (p : list K) :
  leaf_path (demand_tree demands (Tree [])) p
  <-> (p <> [] /\ In p demands /\ forall q, In q demands -> ~ strict_prefix p q)
      \/ (p = [] /\ forall q, In q demands -> q = []).
Proof.
  rewrite leaf_path_spec by (apply demand_tree_distinct, empty_distinct).
  split.
  - intros [Hp Hext].
    assert (Hnone : forall k d, In d demands -> ~ is_prefix (p ++ [k]) d).
    { intros k d Hd Hpre. apply (Hext k). apply demand_tree_paths. right. eauto. }
    apply demand_tree_paths in Hp. destruct p as [|k p].
    + right. split; [reflexivity|]. intros [|k q] Hq; [reflexivity|].
      exfalso. apply (Hnone k (k :: q) Hq). exists q. reflexivity.
    + left. split; [discriminate|].
      destruct Hp as [Hp|(d & Hd & r & ->)]; [inversion Hp; subst; contradiction|].
      assert (Hr : r = []).
      { destruct r as [|k' r]; [reflexivity|].
        exfalso. apply (Hnone k' _ Hd). exists r. rewrite <- app_assoc. reflexivity. }
      subst r. rewrite app_nil_r in *. split; [exact Hd|].
      intros q Hq (k' & r & ->). apply (Hnone k' _ Hq).
      exists r. rewrite <- app_assoc. reflexivity.
  - intros [(Hne & Hin & Hmax)|(-> & Hall)].
    + split.
      * apply demand_tree_paths. right. exists p. split; [exact Hin|].
        exists []. rewrite app_nil_r. reflexivity.
      * intros k Hk. apply demand_tree_paths in Hk.
        destruct Hk as [Hk|(d & Hd & r & ->)].
        -- destruct p; inversion Hk; subst; contradiction.
        -- apply (Hmax _ Hd). exists k, r. rewrite <- app_assoc. reflexivity.
    + split; [constructor|].
      intros k Hk. apply demand_tree_paths in Hk.
      destruct Hk as [Hk|(d & Hd & r & Hr)].
      * inversion Hk; subst; contradiction.
      * rewrite (Hall d Hd) in Hr. discriminate.
Qed.

End IndexTreeFacts.

Arguments is_prefix {K} p d.
Arguments strict_prefix {K} p d.
Arguments has_path {K} _ _.
Arguments leaf_path {K} _ _.
Arguments distinct_keys {K} _.
Arguments demand_tree {K} eqb demands t.

Section IndexDemands.
Import Expression Giles SqliteBackend.

(** Field names are compared through their folded form: the tree seen
    through the folded keys is the tree of the folded demands. *)
Fixpoint folded_tree (t : tree CS) : tree string :=
  match t with
  | Tree cs =>
      Tree (map (fun kv => (CaselessString.folded (fst kv), folded_tree (snd kv))) cs)
  end.

Definition folded_path (p : list CS) : list string := map CaselessString.folded p.

Lemma enter_folded (field : CS) (g : tree CS -> tree CS) (g' : tree string -> tree string)
      (cs : list (CS * tree CS)) :
  (forall t, folded_tree (g t) = g' (folded_tree t)) ->
  map (fun kv => (CaselessString.folded (fst kv), folded_tree (snd kv)))
      (enter CaselessString.eqb field g cs)
  = enter String.eqb (CaselessString.folded field) g'
          (map (fun kv => (CaselessString.folded (fst kv), folded_tree (snd kv))) cs).
Proof.
  intros Hg. induction cs as [|[k sub] cs IH]; simpl.
  - rewrite Hg. reflexivity.
  - unfold CaselessString.eqb at 1.
    destruct (String.eqb (CaselessString.folded k) (CaselessString.folded field)); simpl.
    + rewrite Hg. reflexivity.
    + rewrite IH. reflexivity.
Qed.

Lemma tree_add_folded (d : list CS) :
  forall t, folded_tree (tree_add CaselessString.eqb d t)
            = tree_add String.eqb (folded_path d) (folded_tree t).
Proof.
  induction d as [|field rest IH]; intros [cs]; [reflexivity|].
  simpl. f_equal. apply enter_folded. exact IH.
Qed.

Lemma demand_tree_folded (demands : list (list CS)) :
  forall t, folded_tree (demand_tree CaselessString.eqb demands t)
            = demand_tree String.eqb (map folded_path demands) (folded_tree t).
Proof.
  induction demands as [|d rest IH]; intros t; [reflexivity|].
  simpl. unfold demand_tree in *. simpl. rewrite IH, tree_add_folded. reflexivity.
Qed.

Lemma dft_folded (t : tree CS) :
  forall path, dft (folded_tree t) (folded_path path) = map folded_path (dft t path).
Proof.
  induction t as [cs IH] using tree_induction. intros path.
  simpl folded_tree. rewrite !dft_unfold.
  destruct cs as [|c cs'] eqn:E; [reflexivity|].
  rewrite <- E in *.
  assert (Hmap : map (fun kv => (CaselessString.folded (fst kv), folded_tree (snd kv))) cs
                 <> []) by (rewrite E; discriminate).
  destruct (map (fun kv => (CaselessString.folded (fst kv), folded_tree (snd kv))) cs)
    as [|c0 l0] eqn:E0; [congruence|].
  rewrite <- E0. clear E E0 Hmap c cs' c0 l0.
  induction cs as [|[k sub] cs IHcs]; [reflexivity|].
  simpl. rewrite map_app. f_equal.
  - rewrite <- (IH k sub (or_introl eq_refl)). unfold folded_path.
    rewrite map_app. reflexivity.
  - apply IHcs. intros k' s' Hin. apply (IH k' s'). right; exact Hin.
Qed.

(** [len(fields) == 0] *)
Definition no_fields (d : list CS) : bool := (List.length d =? 0)%nat.

Lemma add_indexes_cons (table : option string) (d : list CS)
      (rest : list (option string * list CS)) (indexes : index_map) :
  add_indexes ((table, d) :: rest) indexes
  = (indexes' <- add_index table d indexes ;; add_indexes rest indexes').
Proof. reflexivity. Qed.

Lemma add_indexes_same_table (table : string) (demands : list (list CS)) (t : index_tree) :
  add_indexes (map (fun d => (Some table, d)) demands) [(str_lower table, t)]
  = Ok [(str_lower table, demand_tree CaselessString.eqb demands t)].
Proof.
  revert t. induction demands as [|d rest IH]; intros t; [reflexivity|].
  rewrite map_cons, add_indexes_cons. unfold add_index.
  destruct d as [|f d]; simpl.
  - apply IH.
  - rewrite String.eqb_refl. simpl. apply IH.
Qed.

Lemma add_indexes_first_table (table : string) (demands : list (list CS)) :
  add_indexes (map (fun d => (Some table, d)) demands) []
  = Ok (if forallb no_fields demands then []
        else [(str_lower table, demand_tree CaselessString.eqb demands (Tree []))]).
Proof.
  induction demands as [|d rest IH]; [reflexivity|].
  rewrite map_cons, add_indexes_cons. unfold add_index.
  destruct d as [|f d]; simpl.
  - exact IH.
  - apply add_indexes_same_table.
Qed.

Lemma in_folded_leaves (demands : list (list CS)) (p : list string) :
  In p (map folded_path (dft (demand_tree CaselessString.eqb demands (Tree [])) []))
  <-> leaf_path (demand_tree String.eqb (map folded_path demands) (Tree [])) p.
Proof.
  rewrite <- (dft_folded _ []), demand_tree_folded. simpl.
  rewrite (dft_spec string _ []). simpl. split.
  - intros (q & -> & Hq). exact Hq.
  - intros Hq. exists p. auto.
Qed.

(** The text [callback(table, path)] appends for the index numbered
    [index_number]. *)
Definition create_index (prefix table : string) (index_number : nat) (path : list CS)
  : string :=
  String "010"%char "CREATE INDEX " +++ prefix +++ "_auto_index_"
  +++ str_of_nat index_number +++ " ON " +++ table +++ "(" +++ join "," path +++ ");".

Lemma emit_paths_length (prefix table : string) (paths : list (list CS)) (n : nat) :
  List.length (emit_paths prefix table n paths) = List.length paths.
Proof.
  revert n. induction paths as [|path rest IH]; intros n; simpl; [reflexivity|].
  rewrite IH. reflexivity.
Qed.

Lemma emit_paths_nth (prefix table : string) (paths : list (list CS)) (n i : nat)
      (path : list CS) :
  nth_error paths i = Some path ->
  nth_error (emit_paths prefix table n paths) i
  = Some (create_index prefix table (S (n + i)) path).
Proof.
  revert n i. induction paths as [|first rest IH]; intros n [|i] H; simpl in H;
    try discriminate.
  - inversion H; subst. simpl. rewrite Nat.add_0_r. reflexivity.
  - simpl. rewrite (IH (S n) i H). simpl. rewrite Nat.add_succ_r. reflexivity.
Qed.


End IndexDemands.

Section IndexExample.
Import Expression SqliteBackend.

(** The demands [(a)], [(a, b)], [(d)], [(a, c)] and [(A, B)] on one
    table: [(a)] is a prefix of [(a, b)], [(A, B)] is [(a, b)] again. *)
Example indexes_of_demands :
  (indexes <- add_indexes (map (fun d => (Some "Frames_R", d))
                               [["a"]; ["a"; "b"]; ["d"]; ["a"; "c"]; ["A"; "B"]]) [] ;;
   Ok (emit_indexes "_giles" 0 indexes))
  = Ok [String "010"%char "CREATE INDEX _giles_auto_index_1 ON frames_r(a,b);";
        String "010"%char "CREATE INDEX _giles_auto_index_2 ON frames_r(a,c);";
        String "010"%char "CREATE INDEX _giles_auto_index_3 ON frames_r(d);"].
Proof. vm_compute. reflexivity. Qed.

End IndexExample.

(* ================================================================== *)
(** * Parser.evaluate *)
(* ================================================================== *)

Section EvaluateFacts.
Import Expression.

Variable rt : PyRuntime.
Variable self : Parser.

(** An evaluation consumes at least the item it pops. *)
Definition consumes (ev : list output_item -> result (value * list output_item)) : Prop :=
  forall s v rest, ev s = Ok (v, rest) -> List.length rest < List.length s.

Lemma evaluate_args_length (ev : list output_item -> result (value * list output_item))
      (n : nat) :
  consumes ev ->
  forall s args rest,
    evaluate_args ev n s = Ok (args, rest) ->
    List.length rest + List.length args <= List.length s /\ List.length args = n.
Proof.
  intros Hev. induction n as [|n IH]; intros s args rest H; simpl in H.
  - inversion H; subst. simpl. lia.
  - destruct (ev s) as [[a s1]|e] eqn:E1; simpl in H; [|discriminate].
    destruct (evaluate_args ev n s1) as [[args' s2]|e] eqn:E2; simpl in H; [|discriminate].
    inversion H; subst. apply Hev in E1. apply IH in E2. simpl. lia.
Qed.

Lemma evaluate_fuel_consumes (line fuel : nat) :
  consumes (fun s => evaluate_fuel fuel rt self s line).
Proof.
  revert line.
  induction fuel as [|fuel IH]; intros line s v rest H; simpl in H; [discriminate|].
  destruct s as [|operator s]; [discriminate|].
  destruct operator as [c|op|op|f argcount function_line].
  - inversion H; subst. simpl. lia.
  - destruct (List.length s <? 1)%nat; [discriminate|].
    destruct (evaluate_fuel fuel rt self s line) as [[a1 s1]|e] eqn:E1; simpl in H;
      [|discriminate].
    destruct (unary_callback op self a1); simpl in H; [|discriminate].
    inversion H; subst. apply IH in E1. simpl. lia.
  - destruct (List.length s <? 2)%nat; [discriminate|].
    destruct (evaluate_fuel fuel rt self s line) as [[a2 s1]|e] eqn:E2; simpl in H;
      [|discriminate].
    destruct (evaluate_fuel fuel rt self s1 line) as [[a1 s2]|e] eqn:E1; simpl in H;
      [|discriminate].
    destruct (binary_callback rt op self a1 a2); simpl in H; [|discriminate].
    inversion H; subst. apply IH in E1. apply IH in E2. simpl. lia.
  - destruct (evaluate_args (fun st => evaluate_fuel fuel rt self st function_line)
                            argcount s)
      as [[args s1]|e] eqn:E; simpl in H; [|discriminate].
    destruct (function_callback rt f self (rev args)); simpl in H; [|discriminate].
    inversion H; subst. apply (evaluate_args_length _ _ (IH function_line)) in E.
    simpl. lia.
Qed.

Lemma evaluate_args_agree (ev1 ev2 : list output_item -> result (value * list output_item))
      (bound : nat) :
  consumes ev1 ->
  (forall s, List.length s <= bound -> ev1 s = ev2 s) ->
  forall n s, List.length s <= bound -> evaluate_args ev1 n s = evaluate_args ev2 n s.
Proof.
  intros Hc Hagree. induction n as [|n IH]; intros s Hs; simpl; [reflexivity|].
  rewrite <- (Hagree s Hs).
  destruct (ev1 s) as [[a s1]|e] eqn:E1; simpl; [|reflexivity].
  apply Hc in E1. rewrite IH by lia. reflexivity.
Qed.

(** Fuel beyond the length of the stack changes nothing. *)
Lemma fuel_irrelevant (line n : nat) :
  forall m s,
    List.length s < n -> List.length s < m ->
    evaluate_fuel n rt self s line = evaluate_fuel m rt self s line.
Proof.
  revert line.
  induction n as [|n IH]; intros line m s Hn Hm; [lia|].
  destruct m as [|m]; [lia|].
  destruct s as [|operator s]; [reflexivity|].
  simpl in Hn, Hm. simpl.
  destruct operator as [c|op|op|f argcount function_line].
  - reflexivity.
  - destruct (List.length s <? 1)%nat; [reflexivity|].
    rewrite (IH line m s) by lia. reflexivity.
  - destruct (List.length s <? 2)%nat; [reflexivity|].
    rewrite (IH line m s) by lia.
    destruct (evaluate_fuel m rt self s line) as [[a2 s1]|e] eqn:E2; simpl; [|reflexivity].
    apply evaluate_fuel_consumes in E2.
    rewrite (IH line m s1) by lia. reflexivity.
  - rewrite (evaluate_args_agree (fun st => evaluate_fuel n rt self st function_line)
               (fun st => evaluate_fuel m rt self st function_line) (List.length s)).
    + reflexivity.
    + apply evaluate_fuel_consumes.
    + intros st Hst. apply IH; lia.
    + lia.
Qed.

Lemma evaluate_consumes (line : nat) : consumes (fun s => evaluate rt self s line).
Proof. intros s v rest H. apply (evaluate_fuel_consumes _ _ _ _ _ H). Qed.

(** [evaluate] on each kind of item. *)
Lemma evaluate_empty (line : nat) : evaluate rt self [] line = Raise IndexError.
Proof. reflexivity. Qed.

Lemma evaluate_operand (line : nat) (v : value) (s : list output_item) :
  evaluate rt self (Operand v :: s) line = Ok (v, s).
Proof. reflexivity. Qed.

Lemma evaluate_unary (line : nat) (op : unary_operator) (s : list output_item) :
  evaluate rt self (UnaryOperator op :: s) line
  = if (List.length s <? 1)%nat
    then Raise (MissingOperandException (unary_operator_name op) line)
    else
      r1 <- evaluate rt self s line ;;
      let '(arg1, rest) := r1 in
      v <- unary_callback op self arg1 ;;
      Ok (v, rest).
Proof. reflexivity. Qed.

Lemma evaluate_fuel_binary (line fuel : nat) (op : binary_operator) (s : list output_item) :
  evaluate_fuel (S fuel) rt self (BinaryOperator op :: s) line
  = if (List.length s <? 2)%nat
    then Raise (MissingOperandException (binary_operator_name op) line)
    else
      r2 <- evaluate_fuel fuel rt self s line ;;
      let '(arg2, s1) := r2 in
      r1 <- evaluate_fuel fuel rt self s1 line ;;
      let '(arg1, rest) := r1 in
      v <- binary_callback rt op self arg1 arg2 ;;
      Ok (v, rest).
Proof. reflexivity. Qed.

Lemma evaluate_fuel_function (line fuel : nat) (f : defined_function)
      (argcount function_line : nat) (s : list output_item) :
  evaluate_fuel (S fuel) rt self (FunctionInvocation f argcount function_line :: s) line
  = (rs <- evaluate_args (fun st => evaluate_fuel fuel rt self st function_line)
                         argcount s ;;
     let '(args, rest) := rs in
     v <- function_callback rt f self (rev args) ;;
     Ok (v, rest)).
Proof. reflexivity. Qed.

Lemma evaluate_binary (line : nat) (op : binary_operator) (s : list output_item) :
  evaluate rt self (BinaryOperator op :: s) line
  = if (List.length s <? 2)%nat
    then Raise (MissingOperandException (binary_operator_name op) line)
    else
      r2 <- evaluate rt self s line ;;
      let '(arg2, s1) := r2 in
      r1 <- evaluate rt self s1 line ;;
      let '(arg1, rest) := r1 in
      v <- binary_callback rt op self arg1 arg2 ;;
      Ok (v, rest).
Proof.
  unfold evaluate at 1.
  change (List.length (BinaryOperator op :: s)) with (S (List.length s)).
  rewrite evaluate_fuel_binary.
  destruct (List.length s <? 2)%nat; [reflexivity|].
  change (evaluate_fuel (S (List.length s)) rt self s line) with (evaluate rt self s line).
  destruct (evaluate rt self s line) as [[a2 s1]|e] eqn:E2; [|reflexivity].
  apply evaluate_consumes in E2.
  unfold bind at 1 3.
  rewrite (fuel_irrelevant line (S (List.length s)) (S (List.length s1)) s1) by lia.
  reflexivity.
Qed.

Lemma evaluate_function (line : nat) (f : defined_function)
      (argcount function_line : nat) (s : list output_item) :
  evaluate rt self (FunctionInvocation f argcount function_line :: s) line
  = (rs <- evaluate_args (fun st => evaluate rt self st function_line) argcount s ;;
     let '(args, rest) := rs in
     v <- function_callback rt f self (rev args) ;;
     Ok (v, rest)).
Proof.
  unfold evaluate at 1.
  change (List.length (FunctionInvocation f argcount function_line :: s))
    with (S (List.length s)).
  rewrite evaluate_fuel_function.
  rewrite (evaluate_args_agree
             (fun st => evaluate_fuel (S (List.length s)) rt self st function_line)
             (fun st => evaluate rt self st function_line) (List.length s)).
  - reflexivity.
  - apply evaluate_fuel_consumes.
  - intros st Hst. apply fuel_irrelevant; lia.
  - lia.
Qed.

(** The fuel [evaluate] starts with is never used up: any larger amount
    gives the same result. *)
Lemma evaluate_fuel_enough (line fuel : nat) (s : list output_item) :
  List.length s < fuel ->
  evaluate_fuel fuel rt self s line = evaluate rt self s line.
Proof. intros H. apply fuel_irrelevant; [exact H | lia]. Qed.

End EvaluateFacts.

(* ================================================================== *)
(** * Typing of operator and function applications *)
(* ================================================================== *)

Section Typing.
Import Expression.

(** The type tuples each operator and function accepts, as its
    [type_check] decorator lists them, and the type of what it returns:
    the operand type for the arithmetic operators, [bool] for the
    relational and boolean ones, [str] for the concatenation. *)
Definition binary_signatures (op : binary_operator) : list (list type_tag) :=
  match op with
  | Add | Sub | Mul | Div => [[float_; float_]; [int_; int_]]
  | Mod => [[int_; int_]]
  | Equ | Lte | Gte | Neq | Lt | Gt =>
      [[bool_; bool_]; [float_; float_]; [int_; int_]; [str_; str_]]
  | Or | And | Join => [[bool_; bool_]]
  | Regexp | NotRegexp | Like | Unlike | Concat => [[str_; str_]]
  end.

Definition binary_result_type (op : binary_operator) (operand : type_tag) : type_tag :=
  match op with
  | Add | Sub | Mul | Div | Mod => operand
  | Concat => str_
  | _ => bool_
  end.

Definition unary_signatures (op : unary_operator) : list (list type_tag) :=
  match op with
  | Pos | Neg => [[float_]; [int_]]
  | Not => [[bool_]]
  end.

Definition unary_result_type (op : unary_operator) (operand : type_tag) : type_tag :=
  match op with
  | Pos | Neg => operand
  | Not => bool_
  end.

Definition function_signatures (f : defined_function) : list (list type_tag) :=
  match f with
  | StringOfBool => [[bool_]]
  | StringOfReal => [[float_]]
  | StringOfInt => [[int_]]
  | RealOfInt => [[int_]]
  | IntOfReal => [[float_]]
  | IntOfString => [[str_]]
  | If => [[bool_; bool_; bool_]; [bool_; float_; float_];
           [bool_; int_; int_]; [bool_; str_; str_]]
  | ExternalFunction _ clause => [Parameters clause]
  end.

(** [if] returns the type of its branches. *)
Definition function_result_type (f : defined_function) (operands : list type_tag)
  : type_tag :=
  match f with
  | StringOfBool | StringOfReal | StringOfInt => str_
  | RealOfInt => float_
  | IntOfReal | IntOfString => int_
  | If => nth 1 operands bool_
  | ExternalFunction _ clause => Returns clause
  end.

Definition defined_function_name (f : defined_function) : string :=
  match f with
  | StringOfBool => "string_of_bool"
  | StringOfReal => "string_of_real"
  | StringOfInt => "string_of_int"
  | RealOfInt => "real_of_int"
  | IntOfReal => "int_of_real"
  | IntOfString => "int_of_string"
  | If => "if"
  | ExternalFunction name _ => name
  end.

Definition is_builtin (f : defined_function) : bool :=
  match f with
  | ExternalFunction _ _ => false
  | _ => true
  end.

(** The operand types are one of the accepted tuples. *)
Definition accepted (signatures : list (list type_tag)) (args : list value) : bool :=
  existsb (types_eqb (map type_of args)) signatures.

(** [/] applied to two [int] constants, the one application whose result
    type the typing statement leaves open. *)
Definition folded_integer_division (op : binary_operator) (arg1 arg2 : value) : bool :=
  match op, arg1, arg2 with
  | Div, VInt _, VInt _ => true
  | _, _, _ => false
  end.

Lemma type_tag_eqb_eq (a b : type_tag) : type_tag_eqb a b = true <-> a = b.
Proof. destruct a, b; simpl; split; intros H; try reflexivity; discriminate. Qed.

Lemma types_eqb_eq (a b : list type_tag) : types_eqb a b = true <-> a = b.
Proof.
  revert b. induction a as [|x a IH]; intros [|y b]; simpl; split; intros H;
    try reflexivity; try discriminate.
  - apply andb_prop in H. destruct H as [H1 H2].
    apply type_tag_eqb_eq in H1. apply IH in H2. congruence.
  - inversion H; subst. apply andb_true_intro. split.
    + apply type_tag_eqb_eq; reflexivity.
    + apply IH; reflexivity.
Qed.

Lemma accepted_In (signatures : list (list type_tag)) (args : list value) :
  accepted signatures args = true <-> In (map type_of args) signatures.
Proof.
  unfold accepted. rewrite existsb_exists. split.
  - intros (x & Hx & Heq). apply types_eqb_eq in Heq. subst. exact Hx.
  - intros H. exists (map type_of args). split; [exact H | apply types_eqb_eq; reflexivity].
Qed.

Lemma type_check_accepted (signatures : list (list type_tag)) (name : string)
      (args : list value) :
  accepted signatures args = true -> type_check signatures name args = Ok tt.
Proof. intros H. unfold type_check. unfold accepted in H. rewrite H. reflexivity. Qed.

Lemma type_check_rejected (signatures : list (list type_tag)) (name : string)
      (args : list value) :
  accepted signatures args = false ->
  type_check signatures name args
  = Raise (Exception (invalid_types_message name (map type_of args))).
Proof. intros H. unfold type_check. unfold accepted in H. rewrite H. reflexivity. Qed.

(** Every operator method is its [type_check] followed by its body. *)
Lemma binary_callback_checks (rt : PyRuntime) (op : binary_operator) (parser : Parser)
      (arg1 arg2 : value) :
  exists body,
    binary_callback rt op parser arg1 arg2
    = (type_check (binary_signatures op) (operator_name (binary_operator_name op))
                  [arg1; arg2] ;;; body).
Proof. destruct op; eexists; reflexivity. Qed.

Lemma unary_callback_checks (op : unary_operator) (parser : Parser) (arg1 : value) :
  exists body,
    unary_callback op parser arg1
    = (type_check (unary_signatures op) (operator_name (unary_operator_name op))
                  [arg1] ;;; body).
Proof. destruct op; eexists; reflexivity. Qed.

Lemma builtin_callback_checks (rt : PyRuntime) (f : defined_function) (parser : Parser)
      (args : list value) :
  is_builtin f = true ->
  exists body,
    function_callback rt f parser args
    = (type_check (function_signatures f) (function_name (defined_function_name f))
                  args ;;; body).
Proof. destruct f; intros H; try discriminate H; eexists; reflexivity. Qed.

Ltac invert_result H :=
  repeat
    (simpl in H;
     match type of H with
     | Ok _ = Ok _ => inversion H; subst; clear H
     | Raise _ = Ok _ => discriminate H
     | bind ?m _ = Ok _ => let E := fresh "E" in destruct m eqn:E
     | (if ?c then _ else _) = Ok _ => let E := fresh "E" in destruct c eqn:E
     | match ?m with inl _ => _ | inr _ => _ end = Ok _ =>
         let E := fresh "E" in destruct m eqn:E
     | match ?m with Some _ => _ | None => _ end = Ok _ =>
         let E := fresh "E" in destruct m eqn:E
     end).

Lemma binary_result_typed (rt : PyRuntime) (op : binary_operator) (parser : Parser)
      (arg1 arg2 v : value) :
  accepted (binary_signatures op) [arg1; arg2] = true ->
  binary_callback rt op parser arg1 arg2 = Ok v ->
  folded_integer_division op arg1 arg2 = false ->
  type_of v = binary_result_type op (type_of arg1).
Proof.
  intros Hacc Hres Hslip.
  pose proof (proj1 (accepted_In _ _) Hacc) as Hin.
  destruct op; simpl in Hin;
    unfold binary_callback, operator_add, operator_sub, operator_mul, operator_div,
      operator_mod, operator_equ, operator_lte, operator_gte, operator_neq, operator_lt,
      operator_gt, operator_or, operator_and, operator_regexp, operator_notregexp,
      operator_like, operator_unlike, operator_join, operator_concat in Hres;
    rewrite (type_check_accepted _ _ _ Hacc) in Hres;
    unfold regexp_body, like_body in Hres;
    destruct arg1, arg2; simpl in Hslip; try discriminate Hslip;
    invert_result Hres; try reflexivity;
    simpl in Hin; destruct Hin as [Hin|[]]; inversion Hin; simpl; congruence.
Qed.

Lemma unary_result_typed (op : unary_operator) (parser : Parser) (arg1 v : value) :
  accepted (unary_signatures op) [arg1] = true ->
  unary_callback op parser arg1 = Ok v ->
  type_of v = unary_result_type op (type_of arg1).
Proof.
  intros Hacc Hres.
  pose proof (proj1 (accepted_In _ _) Hacc) as Hin.
  destruct op; simpl in Hin;
    unfold unary_callback, operator_pos, operator_neg, operator_not in Hres;
    rewrite (type_check_accepted _ _ _ Hacc) in Hres;
    destruct arg1; invert_result Hres; try reflexivity;
    simpl in Hin; destruct Hin as [Hin|[]]; inversion Hin; simpl; congruence.
Qed.

Lemma function_result_typed (rt : PyRuntime) (f : defined_function) (parser : Parser)
      (args : list value) (v : value) :
  accepted (function_signatures f) args = true ->
  function_callback rt f parser args = Ok v ->
  type_of v = function_result_type f (map type_of args).
Proof.
  intros Hacc Hres.
  pose proof (proj1 (accepted_In _ _) Hacc) as Hin.
  destruct f; simpl in Hin;
    unfold function_callback, function_string_of_bool, function_string_of_real,
      function_string_of_int, function_real_of_int, function_int_of_real,
      function_int_of_string, function_if, build_function_node in Hres;
    try rewrite (type_check_accepted _ _ _ Hacc) in Hres.
  1-6: destruct args as [|a [|b args]]; simpl in Hin;
    try (destruct Hin as [Hin|[]]; discriminate Hin);
    destruct a; invert_result Hres; reflexivity.
  - destruct args as [|p [|a [|b [|c args]]]]; simpl in Hin;
      try (decompose [or] Hin; try contradiction; discriminate).
    destruct p; invert_result Hres; try reflexivity.
    destruct b0; [reflexivity|].
    simpl. decompose [or] Hin; try contradiction;
      match goal with H : _ = _ |- _ => inversion H; congruence end.
  - invert_result Hres. reflexivity.
Qed.

(** [*] never fails on operands of one numeric type. *)
Lemma operator_mul_total (parser : Parser) (arg1 arg2 : value) (t : type_tag) :
  t = int_ \/ t = float_ ->
  type_of arg1 = t -> type_of arg2 = t ->
  exists v, operator_mul parser arg1 arg2 = Ok v /\ type_of v = t.
Proof.
  intros Ht H1 H2. unfold operator_mul.
  rewrite type_check_accepted.
  - destruct arg1, arg2; simpl in *; destruct Ht; subst;
      try discriminate; eexists; split; reflexivity.
  - apply accepted_In. simpl. rewrite H1, H2. destruct Ht; subst; auto.
Qed.

Lemma external_rejected (name : CS) (clause : function_clause) (parser : Parser)
      (args : list value) :
  accepted [Parameters clause] args = false ->
  build_function_node name clause parser args
  = Raise (Exception ("Invalid number of arguments to function '" +++ name +++ "'"))
  \/ build_function_node name clause parser args
     = Raise (Exception ("Invalid type(s) for argument(s) to function '" +++ name +++ "'")).
Proof.
  intros H. unfold build_function_node.
  destruct (List.length args =? List.length (Parameters clause))%nat; simpl; [|auto].
  unfold accepted in H. simpl in H. rewrite orb_false_r in H. rewrite H. simpl. auto.
Qed.

End Typing.

Section TypingTheorem.
Import Expression.

(** C1 (amended) -- every application of an operator or of a built-in
    function checks the operand types against the tuples it accepts.
    When they match none, it fails with the message that names the
    operator or function and the operand types; a declared external
    function fails with a message that names the function only.  When
    they match, the value returned, if the body does not raise, has the
    declared type: the operand type for [+ - * / %], [bool] for the
    relational and boolean operators, [str] for [.], and the declared
    type for functions; of the type of [/] applied to two integer
    constants nothing is stated either way.  The tuples
    of [%] are [(int, int)] only; [*] on two operands of one numeric type
    always returns.  The last three parts tie this to [evaluate]: the
    value it returns for an operator or a function on top of the stack
    is that of the application to the operands evaluated below it. *)
Theorem application_typing (rt : PyRuntime) (parser : Parser) :
  (forall op arg1 arg2,
      accepted (binary_signatures op) [arg1; arg2] = false ->
      binary_callback rt op parser arg1 arg2
      = Raise (Exception (invalid_types_message
                            (operator_name (binary_operator_name op))
                            [type_of arg1; type_of arg2])))
  /\ (forall op arg1 arg2 v,
         accepted (binary_signatures op) [arg1; arg2] = true ->
         binary_callback rt op parser arg1 arg2 = Ok v ->
         folded_integer_division op arg1 arg2 = false ->
         type_of v = binary_result_type op (type_of arg1))
  /\ (forall op arg1,
         accepted (unary_signatures op) [arg1] = false ->
         unary_callback op parser arg1
         = Raise (Exception (invalid_types_message
                               (operator_name (unary_operator_name op))
                               [type_of arg1])))
  /\ (forall op arg1 v,
         accepted (unary_signatures op) [arg1] = true ->
         unary_callback op parser arg1 = Ok v ->
         type_of v = unary_result_type op (type_of arg1))
  /\ (forall f args,
         is_builtin f = true ->
         accepted (function_signatures f) args = false ->
         function_callback rt f parser args
         = Raise (Exception (invalid_types_message
                               (function_name (defined_function_name f))
                               (map type_of args))))
  /\ (forall name clause args,
         accepted (function_signatures (ExternalFunction name clause)) args = false ->
         function_callback rt (ExternalFunction name clause) parser args
         = Raise (Exception ("Invalid number of arguments to function '" +++ name +++ "'"))
         \/ function_callback rt (ExternalFunction name clause) parser args
            = Raise (Exception ("Invalid type(s) for argument(s) to function '"
                                +++ name +++ "'")))
  /\ (forall f args v,
         accepted (function_signatures f) args = true ->
         function_callback rt f parser args = Ok v ->
         type_of v = function_result_type f (map type_of args))
  /\ (forall arg1 arg2 t,
         t = int_ \/ t = float_ ->
         type_of arg1 = t -> type_of arg2 = t ->
         exists v, binary_callback rt Mul parser arg1 arg2 = Ok v /\ type_of v = t)
  /\ (forall arg1 arg2,
         type_of arg1 = float_ -> type_of arg2 = float_ ->
         binary_callback rt Mod parser arg1 arg2
         = Raise (Exception (invalid_types_message (operator_name "%") [float_; float_])))
  /\ (forall op s line arg1 arg2 s1 rest,
         evaluate rt parser s line = Ok (arg2, s1) ->
         evaluate rt parser s1 line = Ok (arg1, rest) ->
         evaluate rt parser (BinaryOperator op :: s) line
         = (v <- binary_callback rt op parser arg1 arg2 ;; Ok (v, rest)))
  /\ (forall op s line arg1 rest,
         evaluate rt parser s line = Ok (arg1, rest) ->
         evaluate rt parser (UnaryOperator op :: s) line
         = (v <- unary_callback op parser arg1 ;; Ok (v, rest)))
  /\ (forall f argcount function_line s line args rest,
         evaluate_args (fun st => evaluate rt parser st function_line) argcount s
         = Ok (args, rest) ->
         evaluate rt parser (FunctionInvocation f argcount function_line :: s) line
         = (v <- function_callback rt f parser (rev args) ;; Ok (v, rest))).
Proof.
  repeat match goal with |- _ /\ _ => split end.
  - intros op arg1 arg2 H.
    destruct (binary_callback_checks rt op parser arg1 arg2) as (body & ->).
    rewrite (type_check_rejected _ _ _ H). reflexivity.
  - intros op arg1 arg2 v. apply binary_result_typed.
  - intros op arg1 H.
    destruct (unary_callback_checks op parser arg1) as (body & ->).
    rewrite (type_check_rejected _ _ _ H). reflexivity.
  - intros op arg1 v. apply unary_result_typed.
  - intros f args Hb H.
    destruct (builtin_callback_checks rt f parser args Hb) as (body & ->).
    rewrite (type_check_rejected _ _ _ H). reflexivity.
  - intros name clause args H. apply external_rejected. exact H.
  - intros f args v. apply function_result_typed.
  - intros arg1 arg2 t. apply operator_mul_total.
  - intros arg1 arg2 H1 H2. simpl. unfold operator_mod.
    rewrite type_check_rejected.
    + simpl. rewrite H1, H2. reflexivity.
    + unfold accepted. simpl. rewrite H1, H2. reflexivity.
  - intros op s line arg1 arg2 s1 rest E2 E1. rewrite evaluate_binary.
    pose proof (evaluate_consumes rt parser line _ _ _ E2) as L2.
    pose proof (evaluate_consumes rt parser line _ _ _ E1) as L1.
    destruct (Nat.ltb_spec (List.length s) 2) as [Hlt|Hge]; [lia|].
    rewrite E2. simpl. rewrite E1. reflexivity.
  - intros op s line arg1 rest E1. rewrite evaluate_unary.
    pose proof (evaluate_consumes rt parser line _ _ _ E1) as L1.
    destruct (Nat.ltb_spec (List.length s) 1) as [Hlt|Hge]; [lia|].
    rewrite E1. reflexivity.
  - intros f argcount function_line s line args rest E.
    rewrite evaluate_function, E. reflexivity.
Qed.

(** Instances: [6 * 7] has type [int]; [1 + 1.0] fails, naming [+] and the
    two types. *)
Lemma application_typing_witness :
  type_of (VInt 42) = binary_result_type Mul (type_of (VInt 6))
  /\ binary_callback example_runtime Add (Parser_init None None None false)
                     (VInt 1) (VFloat 1)
     = Raise (Exception
                "Invalid types for function/operator 'operator '+'': (<class 'int'>, <class 'float'>)").
Proof.
  split.
  - apply (proj1 (proj2 (application_typing example_runtime
                           (Parser_init None None None false)))
                 Mul (VInt 6) (VInt 7) (VInt 42));
      reflexivity.
  - apply (proj1 (application_typing example_runtime (Parser_init None None None false))
                 Add (VInt 1) (VFloat 1)).
    reflexivity.
Defined.

(** C1 as stated fails on [%]: two [float] operands are refused. *)
Lemma modulo_refuses_reals :
  parse example_runtime (Parser_init None None None false)
        ([Other (VFloat 5.5); OperatorToken "%"; Other (VFloat 2)], None)
  = Raise (Exception
             "Invalid types for function/operator 'operator '%'': (<class 'float'>, <class 'float'>)").
Proof. reflexivity. Qed.

(** [6 / 3] on constants is folded by true division: the value is the
    float [2.0], although the node built for [This.a / 3] has type [int]. *)
Example integer_division_folds_to_float :
  parse example_runtime (Parser_init None None None false)
        ([Other (VInt 6); OperatorToken "/"; Other (VInt 3)], None)
  = Ok (VFloat 2)
  /\ option_map type_of
       (match parse example_runtime (Parser_init None None None false)
                    ([Other (ThisReferenceNode "a" int_); OperatorToken "/";
                      Other (VInt 3)], None) with
        | Ok v => Some v
        | Raise _ => None
        end)
     = Some int_.
Proof. split; reflexivity. Qed.

End TypingTheorem.

(* ================================================================== *)
(** * Constant folding *)
(* ================================================================== *)

Section ConstantFolding.
Import Expression.

(** An expression as written: operands, operators applied to
    sub-expressions, function calls. *)
Inductive expression : Type :=
| Leaf (v : value)
| UnaryApp (op : unary_operator) (e : expression)
| BinaryApp (op : binary_operator) (e1 e2 : expression)
| Call (f : defined_function) (line : nat) (args : list expression).

(** The output list that the shunting-yard loop leaves for an
    expression, as a stack: the postfix form read from its end, so the
    operator comes first, then its second operand, then its first. *)
Fixpoint output_of (e : expression) : list output_item :=
  match e with
  | Leaf v => [Operand v]
  | UnaryApp op e => UnaryOperator op :: output_of e
  | BinaryApp op e1 e2 => BinaryOperator op :: output_of e2 ++ output_of e1
  | Call f line args =>
      FunctionInvocation f (List.length args) line
      :: (fix outputs (l : list expression) : list output_item :=
            match l with
            | [] => []
            | a :: l' => outputs l' ++ output_of a
            end) args
  end.

Fixpoint outputs_of (l : list expression) : list output_item :=
  match l with
  | [] => []
  | a :: l' => outputs_of l' ++ output_of a
  end.

Lemma output_of_Call (f : defined_function) (line : nat) (args : list expression) :
  output_of (Call f line args)
  = FunctionInvocation f (List.length args) line :: outputs_of args.
Proof. reflexivity. Qed.

(** All leaves are constants, and neither the reifying [and] nor a
    declared external function occurs. *)
Fixpoint foldable (e : expression) : bool :=
  match e with
  | Leaf v => is_constant v
  | UnaryApp _ e => foldable e
  | BinaryApp op e1 e2 =>
      match op with
      | Join => false
      | _ => foldable e1 && foldable e2
      end
  | Call f _ args => is_builtin f && forallb foldable args
  end.

Lemma expression_induction (P : expression -> Prop) :
  (forall v, P (Leaf v)) ->
  (forall op e, P e -> P (UnaryApp op e)) ->
  (forall op e1 e2, P e1 -> P e2 -> P (BinaryApp op e1 e2)) ->
  (forall f line args, Forall P args -> P (Call f line args)) ->
  forall e, P e.
Proof.
  intros HL HU HB HC. fix IH 1. intros [v|op e|op e1 e2|f line args].
  - apply HL.
  - apply HU, IH.
  - apply HB; apply IH.
  - apply HC. induction args as [|a l IHl]; constructor; [apply IH | exact IHl].
Qed.

(** ** The value of a constant expression

    Integers are computed in [Z] ([%] is the floored remainder), floats
    by the IEEE operations, comparisons by the order of the integers, of
    [False < True] and of the strings, [like] by matching the pattern.
    ([~] has no value here: whether it is allowed is a setting of the
    parser.  [/] on two integers has no value here either: what it
    should be is not settled by the typing of the operator, and nothing
    is stated of it.) *)

Definition relation_holds (op : binary_operator) (c : comparison) : option bool :=
  match op with
  | Equ => Some match c with Datatypes.Eq => true | _ => false end
  | Neq => Some match c with Datatypes.Eq => false | _ => true end
  | Expression.Lt => Some match c with Datatypes.Lt => true | _ => false end
  | Lte => Some match c with Datatypes.Gt => false | _ => true end
  | Expression.Gt => Some match c with Datatypes.Gt => true | _ => false end
  | Gte => Some match c with Datatypes.Lt => false | _ => true end
  | _ => None
  end.

Definition float_relation (op : binary_operator) (x y : float) : option bool :=
  match op with
  | Equ => Some (PrimFloat.eqb x y)
  | Neq => Some (negb (PrimFloat.eqb x y))
  | Expression.Lt => Some (PrimFloat.ltb x y)
  | Lte => Some (PrimFloat.leb x y)
  | Expression.Gt => Some (PrimFloat.ltb y x)
  | Gte => Some (PrimFloat.leb y x)
  | _ => None
  end.

Definition ok_value {A : Type} (wrap : A -> value) (r : result A) : option value :=
  match r with
  | Ok a => Some (wrap a)
  | Raise _ => None
  end.

Definition math_binary (rt : PyRuntime) (op : binary_operator) (a b : value)
  : option value :=
  match a, b with
  | VInt x, VInt y =>
      match op with
      | Add => Some (VInt (x + y))
      | Sub => Some (VInt (x - y))
      | Mul => Some (VInt (x * y))
      | Div => None
      | Mod => if (y =? 0)%Z then None else Some (VInt (x mod y))
      | _ => option_map VBool (relation_holds op (x ?= y)%Z)
      end
  | VFloat x, VFloat y =>
      match op with
      | Add => Some (VFloat (PrimFloat.add x y))
      | Sub => Some (VFloat (PrimFloat.sub x y))
      | Mul => Some (VFloat (PrimFloat.mul x y))
      | Div =>
          if PrimFloat.eqb y PrimFloat.zero then None
          else Some (VFloat (PrimFloat.div x y))
      | _ => option_map VBool (float_relation op x y)
      end
  | VBool x, VBool y =>
      match op with
      | Or => Some (VBool (x || y))
      | And => Some (VBool (x && y))
      | _ => option_map VBool (relation_holds op (Z.b2z x ?= Z.b2z y)%Z)
      end
  | VStr x, VStr y =>
      match op with
      | Concat => Some (VStr (x +++ y))
      | Like =>
          match re_match rt (like_pattern rt y) x with
          | inr found => Some (VBool found)
          | inl _ => None
          end
      | Unlike =>
          match re_match rt (like_pattern rt y) x with
          | inr found => Some (VBool (negb found))
          | inl _ => None
          end
      | _ => option_map VBool (relation_holds op (String.compare x y))
      end
  | _, _ => None
  end.

Definition math_unary (op : unary_operator) (a : value) : option value :=
  match op, a with
  | Pos, VInt x => Some (VInt x)
  | Pos, VFloat x => Some (VFloat x)
  | Neg, VInt x => Some (VInt (- x))
  | Neg, VFloat x => Some (VFloat (PrimFloat.opp x))
  | Not, VBool x => Some (VBool (negb x))
  | _, _ => None
  end.

Definition math_function (rt : PyRuntime) (f : defined_function) (args : list value)
  : option value :=
  match f, args with
  | StringOfBool, [VBool b] => Some (VStr (if b then "True" else "False"))
  | StringOfReal, [VFloat x] => Some (VStr (str_of_float rt x))
  | StringOfInt, [VInt z] => Some (VStr (str_of_Z z))
  | RealOfInt, [VInt z] => ok_value VFloat (float_of_int rt z)
  | IntOfReal, [VFloat x] => ok_value VInt (int_of_float rt x)
  | IntOfString, [VStr s] => ok_value VInt (int_of_str rt s)
  | If, [VBool c; x; y] =>
      if is_constant x && is_constant y && type_tag_eqb (type_of x) (type_of y)
      then Some (if c then x else y) else None
  | _, _ => None
  end.

(** The values of a list of expressions, if all are defined. *)
Fixpoint all_defined (l : list (option value)) : option (list value) :=
  match l with
  | [] => Some []
  | Some v :: rest => option_map (cons v) (all_defined rest)
  | None :: _ => None
  end.

Fixpoint value_of (rt : PyRuntime) (e : expression) : option value :=
  match e with
  | Leaf v => if is_constant v then Some v else None
  | UnaryApp op e =>
      match value_of rt e with
      | Some a => math_unary op a
      | None => None
      end
  | BinaryApp op e1 e2 =>
      match value_of rt e1, value_of rt e2 with
      | Some a, Some b => math_binary rt op a b
      | _, _ => None
      end
  | Call f _ args =>
      match all_defined (map (value_of rt) args) with
      | Some vs => math_function rt f vs
      | None => None
      end
  end.

(** ** The operators on constants *)

Lemma string_eqb_compare (x y : string) :
  String.eqb x y = match String.compare x y with Datatypes.Eq => true | _ => false end.
Proof.
  destruct (String.eqb_spec x y) as [->|Hne].
  - pose proof (String.compare_antisym y y) as H.
    destruct (String.compare y y); simpl in H; try reflexivity; discriminate H.
  - destruct (String.compare x y) eqn:E; try reflexivity.
    apply String.compare_eq_iff in E. contradiction.
Qed.

Ltac unfold_operators :=
  unfold binary_callback, unary_callback, function_callback,
    operator_add, operator_sub, operator_mul, operator_div, operator_mod,
    operator_equ, operator_lte, operator_gte, operator_neq, operator_lt, operator_gt,
    operator_or, operator_and, operator_regexp, operator_notregexp,
    operator_like, operator_unlike, operator_join, operator_concat,
    operator_pos, operator_neg, operator_not,
    function_string_of_bool, function_string_of_real, function_string_of_int,
    function_real_of_int, function_int_of_real, function_int_of_string, function_if,
    py_add, py_sub, py_mul, py_truediv, py_mod, py_compare, regexp_body, like_body.

Ltac unfold_operators_in H :=
  unfold binary_callback, unary_callback, function_callback,
    operator_add, operator_sub, operator_mul, operator_div, operator_mod,
    operator_equ, operator_lte, operator_gte, operator_neq, operator_lt, operator_gt,
    operator_or, operator_and, operator_regexp, operator_notregexp,
    operator_like, operator_unlike, operator_join, operator_concat,
    operator_pos, operator_neg, operator_not,
    function_string_of_bool, function_string_of_real, function_string_of_int,
    function_real_of_int, function_int_of_real, function_int_of_string, function_if,
    py_add, py_sub, py_mul, py_truediv, py_mod, py_compare, regexp_body, like_body in H.

Ltac some_inversion H :=
  repeat
    (simpl in H;
     match type of H with
     | Some _ = Some _ => inversion H; subst; clear H
     | None = Some _ => discriminate H
     | (if ?c then _ else _) = Some _ => let E := fresh "E" in destruct c eqn:E
     | ok_value _ ?r = Some _ => let E := fresh "E" in destruct r eqn:E
     | match ?m with inl _ => _ | inr _ => _ end = Some _ =>
         let E := fresh "E" in destruct m eqn:E
     end).

(** An operator applied to constants returns the value [math_binary]
    gives, whenever that is defined. *)
Lemma math_binary_sound (rt : PyRuntime) (parser : Parser) (op : binary_operator)
      (a b c : value) :
  math_binary rt op a b = Some c -> binary_callback rt op parser a b = Ok c.
Proof.
  intros H. destruct a as [x|x|x|x| | | | | | | | ], b as [y|y|y|y| | | | | | | | ];
    try discriminate H.
  - destruct op; some_inversion H; destruct x, y; reflexivity.
  - destruct op; some_inversion H; unfold_operators; try reflexivity;
      unfold type_check; simpl; rewrite E; reflexivity.
  - destruct op; some_inversion H; unfold_operators; unfold type_check; simpl;
      rewrite ?E, ?E0; simpl;
      rewrite ?Z.eqb_compare; unfold Z.ltb, Z.leb; rewrite ?(Z.compare_antisym x y);
      try reflexivity; destruct (x ?= y)%Z; reflexivity.
  - destruct op; some_inversion H; unfold_operators; unfold type_check; simpl;
      rewrite ?E; rewrite ?string_eqb_compare; unfold String.ltb, String.leb;
      rewrite ?(String.compare_antisym y x);
      try reflexivity; destruct (String.compare x y); reflexivity.
Qed.

Lemma math_unary_sound (parser : Parser) (op : unary_operator) (a c : value) :
  math_unary op a = Some c -> unary_callback op parser a = Ok c.
Proof.
  intros H. destruct op, a; simpl in H; try discriminate H;
    inversion H; subst; reflexivity.
Qed.

Lemma math_function_sound (rt : PyRuntime) (parser : Parser) (f : defined_function)
      (args : list value) (c : value) :
  math_function rt f args = Some c -> function_callback rt f parser args = Ok c.
Proof.
  intros H. destruct f; simpl in H;
    destruct args as [|a [|b [|d [|e args]]]]; try discriminate H;
    try (destruct a; try discriminate H; some_inversion H;
         unfold_operators; unfold type_check; simpl; rewrite ?E; reflexivity).
  destruct a as [p| | | | | | | | | | | ]; try discriminate H.
  some_inversion H.
  apply andb_prop in E. destruct E as [E Ht]. apply andb_prop in E. destruct E as [Eb Ed].
  apply type_tag_eqb_eq in Ht.
  destruct b, d; simpl in Eb, Ed, Ht; try discriminate; destruct p; reflexivity.
Qed.

Ltac ok_inversion H :=
  repeat
    (simpl in H;
     match type of H with
     | Ok _ = Ok _ => inversion H; subst; clear H
     | Raise _ = Ok _ => discriminate H
     | bind ?m _ = Ok _ => let E := fresh "E" in destruct m eqn:E
     | (if ?c then _ else _) = Ok _ => let E := fresh "E" in destruct c eqn:E
     | match ?m with inl _ => _ | inr _ => _ end = Ok _ =>
         let E := fresh "E" in destruct m eqn:E
     | match ?m with Some _ => _ | None => _ end = Ok _ =>
         let E := fresh "E" in destruct m eqn:E
     end).

Ltac split_on_type_check H :=
  match type of H with
  | bind (type_check ?sig ?name ?args) _ = _ =>
      let Hacc := fresh "Hacc" in
      destruct (accepted sig args) eqn:Hacc;
      [ rewrite (type_check_accepted _ _ _ Hacc) in H
      | rewrite (type_check_rejected _ _ _ Hacc) in H; discriminate H ]
  end.

(** Every operator but [and] returns a constant on constants. *)
Lemma constants_fold_binary (rt : PyRuntime) (parser : Parser) (op : binary_operator)
      (a b v : value) :
  op <> Join -> is_constant a = true -> is_constant b = true ->
  binary_callback rt op parser a b = Ok v -> is_constant v = true.
Proof.
  intros Hop Ha Hb H.
  destruct op; try (exfalso; apply Hop; reflexivity);
    unfold_operators_in H; split_on_type_check H;
    destruct a; try discriminate Ha; destruct b; try discriminate Hb;
    try (simpl in Hacc; discriminate Hacc);
    ok_inversion H; reflexivity.
Qed.

Lemma constants_fold_unary (parser : Parser) (op : unary_operator) (a v : value) :
  is_constant a = true -> unary_callback op parser a = Ok v -> is_constant v = true.
Proof.
  intros Ha H.
  destruct op; unfold_operators_in H; split_on_type_check H;
    destruct a; try discriminate Ha; try (simpl in Hacc; discriminate Hacc);
    ok_inversion H; reflexivity.
Qed.

Lemma constants_fold_function (rt : PyRuntime) (parser : Parser) (f : defined_function)
      (args : list value) (v : value) :
  is_builtin f = true -> Forall (fun a => is_constant a = true) args ->
  function_callback rt f parser args = Ok v -> is_constant v = true.
Proof.
  intros Hf Hargs H.
  destruct f; try discriminate Hf; unfold_operators_in H; split_on_type_check H.
  1-6: destruct args as [|a [|b args]]; try (simpl in Hacc; discriminate Hacc);
    inversion Hargs as [|? ? Ha ?]; subst;
    destruct a; try discriminate Ha; try (simpl in Hacc; discriminate Hacc);
    ok_inversion H; reflexivity.
  destruct args as [|p [|a [|b [|d args]]]]; try (simpl in H; discriminate H).
  inversion Hargs as [|? ? Hp Hrest]; subst.
  inversion Hrest as [|? ? Ha Hrest']; subst.
  inversion Hrest' as [|? ? Hb ?]; subst.
  destruct p as [c|c|c|c| | | | | | | | ]; try discriminate Hp;
    try (simpl in Hacc; discriminate Hacc).
  simpl in H. inversion H; subst. destruct c; assumption.
Qed.

(** Where it is defined, the value of an expression is a constant and
    the expression is foldable. *)
Lemma math_binary_constant (rt : PyRuntime) (op : binary_operator) (a b c : value) :
  math_binary rt op a b = Some c -> is_constant c = true /\ op <> Join.
Proof.
  intros H. destruct a, b; try discriminate H;
    destruct op; some_inversion H; split; try reflexivity; discriminate.
Qed.

Lemma math_unary_constant (op : unary_operator) (a c : value) :
  math_unary op a = Some c -> is_constant c = true.
Proof. intros H. destruct op, a; some_inversion H; reflexivity. Qed.

Lemma math_function_constant (rt : PyRuntime) (f : defined_function) (args : list value)
      (c : value) :
  math_function rt f args = Some c -> is_constant c = true /\ is_builtin f = true.
Proof.
  intros H. destruct f; simpl in H;
    destruct args as [|a [|b [|d [|e args]]]]; try discriminate H;
    try (destruct a; try discriminate H; some_inversion H; split; reflexivity).
  destruct a as [p| | | | | | | | | | | ]; try discriminate H.
  some_inversion H.
  apply andb_prop in E. destruct E as [E _]. apply andb_prop in E. destruct E as [Eb Ed].
  split; [destruct p; assumption | reflexivity].
Qed.

Lemma all_defined_cons (o : option value) (l : list (option value)) (vs : list value) :
  all_defined (o :: l) = Some vs ->
  exists v vs', o = Some v /\ all_defined l = Some vs' /\ vs = v :: vs'.
Proof.
  simpl. destruct o as [v|]; [|discriminate].
  destruct (all_defined l) as [vs'|]; simpl; [|discriminate].
  intros H. inversion H. eauto.
Qed.

Lemma value_of_foldable (rt : PyRuntime) (e : expression) :
  forall c, value_of rt e = Some c -> is_constant c = true /\ foldable e = true.
Proof.
  induction e as [v|op e IH|op e1 e2 IH1 IH2|f function_line args IH] using expression_induction;
    intros c H; simpl in H.
  - destruct (is_constant v) eqn:E; [|discriminate]. inversion H; subst. simpl. auto.
  - destruct (value_of rt e) as [a|]; [|discriminate].
    destruct (IH a eq_refl) as [_ Hf]. split; [|exact Hf].
    eapply math_unary_constant; eassumption.
  - destruct (value_of rt e1) as [a|]; [|discriminate].
    destruct (value_of rt e2) as [b|]; [|discriminate].
    destruct (IH1 a eq_refl) as [_ Hf1]. destruct (IH2 b eq_refl) as [_ Hf2].
    destruct (math_binary_constant _ _ _ _ _ H) as [Hc Hop]. split; [exact Hc|].
    simpl. rewrite Hf1, Hf2. destruct op; try reflexivity. exfalso; apply Hop; reflexivity.
  - destruct (all_defined (map (value_of rt) args)) as [vs|] eqn:E; [|discriminate].
    destruct (math_function_constant _ _ _ _ H) as [Hc Hb]. split; [exact Hc|].
    simpl. rewrite Hb. simpl. clear H Hc Hb. revert vs E.
    induction IH as [|a l Ha Hl IHl]; intros vs E; [reflexivity|].
    change (map (value_of rt) (a :: l)) with (value_of rt a :: map (value_of rt) l) in E.
    apply all_defined_cons in E. destruct E as (v & vs' & Ev & El & _).
    simpl. rewrite (proj2 (Ha v Ev)). simpl. exact (IHl vs' El).
Qed.

(** ** Evaluation of the output list of an expression *)

Lemma output_of_nonempty (e : expression) : 1 <= List.length (output_of e).
Proof. destruct e; simpl; lia. Qed.

Lemma evaluate_args_app (ev : list output_item -> result (value * list output_item))
      (n m : nat) (s : list output_item) :
  evaluate_args ev (n + m) s
  = match evaluate_args ev n s with
    | Ok (front, s1) =>
        match evaluate_args ev m s1 with
        | Ok (back, s2) => Ok (front ++ back, s2)
        | Raise e => Raise e
        end
    | Raise e => Raise e
    end.
Proof.
  revert s. induction n as [|n IH]; intros s; simpl.
  - destruct (evaluate_args ev m s) as [[back s2]|e]; reflexivity.
  - destruct (ev s) as [[a s1]|e]; simpl; [|reflexivity].
    rewrite IH. destruct (evaluate_args ev n s1) as [[front s2]|e]; simpl; [|reflexivity].
    destruct (evaluate_args ev m s2) as [[back s3]|e]; reflexivity.
Qed.

Lemma evaluate_args_one (ev : list output_item -> result (value * list output_item))
      (s : list output_item) :
  evaluate_args ev 1 s
  = match ev s with
    | Ok (a, s1) => Ok ([a], s1)
    | Raise e => Raise e
    end.
Proof. simpl. destruct (ev s) as [[a s1]|e]; reflexivity. Qed.

Lemma evaluate_args_last (ev : list output_item -> result (value * list output_item))
      (a : expression) (l : list expression) (rest : list output_item) :
  evaluate_args ev (List.length (a :: l)) (outputs_of (a :: l) ++ rest)
  = match evaluate_args ev (List.length l) (outputs_of l ++ (output_of a ++ rest)) with
    | Ok (front, s1) =>
        match ev s1 with
        | Ok (v, s2) => Ok (front ++ [v], s2)
        | Raise e => Raise e
        end
    | Raise e => Raise e
    end.
Proof.
  change (List.length (a :: l)) with (S (List.length l)).
  rewrite <- Nat.add_1_r, evaluate_args_app.
  change (outputs_of (a :: l)) with (outputs_of l ++ output_of a).
  rewrite <- app_assoc.
  destruct (evaluate_args ev (List.length l) (outputs_of l ++ output_of a ++ rest))
    as [[front s1]|e]; [|reflexivity].
  rewrite evaluate_args_one. destruct (ev s1) as [[v s2]|e]; reflexivity.
Qed.

Section Folding.

Variable rt : PyRuntime.
Variable parser : Parser.

(** An expression that folds leaves a constant and consumes exactly its
    own output. *)
Definition folds (e : expression) : Prop :=
  foldable e = true ->
  forall line rest v rest',
    evaluate rt parser (output_of e ++ rest) line = Ok (v, rest') ->
    is_constant v = true /\ rest' = rest.

Lemma arguments_fold (args : list expression) :
  Forall folds args -> forallb foldable args = true ->
  forall line rest vals rest',
    evaluate_args (fun st => evaluate rt parser st line) (List.length args)
                  (outputs_of args ++ rest) = Ok (vals, rest') ->
    Forall (fun v => is_constant v = true) vals /\ rest' = rest.
Proof.
  induction 1 as [|a l Ha Hl IH]; intros Hf line rest vals rest' H.
  - simpl in H. inversion H; subst. split; [constructor | reflexivity].
  - simpl in Hf. apply andb_prop in Hf. destruct Hf as [Hfa Hfl].
    rewrite evaluate_args_last in H.
    destruct (evaluate_args (fun st => evaluate rt parser st line) (List.length l)
                (outputs_of l ++ output_of a ++ rest)) as [[front s1]|x] eqn:E;
      [|discriminate].
    destruct (IH Hfl _ _ _ _ E) as [Hfront ->].
    destruct (evaluate rt parser (output_of a ++ rest) line) as [[v s2]|x] eqn:Ea;
      [|discriminate].
    destruct (Ha Hfa _ _ _ _ Ea) as [Hv ->].
    inversion H; subst. split; [|reflexivity].
    apply Forall_app. split; [exact Hfront | constructor; [exact Hv | constructor]].
Qed.

Lemma foldable_folds (e : expression) : folds e.
Proof.
  induction e as [c|op e IH|op e1 e2 IH1 IH2|f function_line args IH]
    using expression_induction;
    intros Hf line rest v rest' H.
  - simpl in Hf. change (output_of (Leaf c) ++ rest) with (Operand c :: rest) in H.
    rewrite evaluate_operand in H. inversion H; subst. split; [exact Hf | reflexivity].
  - simpl in Hf.
    change (output_of (UnaryApp op e) ++ rest)
      with (UnaryOperator op :: (output_of e ++ rest)) in H.
    rewrite evaluate_unary in H.
    destruct (List.length (output_of e ++ rest) <? 1)%nat; [discriminate|].
    destruct (evaluate rt parser (output_of e ++ rest) line) as [[a s1]|x] eqn:E;
      simpl in H; [|discriminate].
    destruct (IH Hf _ _ _ _ E) as [Ha ->].
    destruct (unary_callback op parser a) as [w|x] eqn:Ec; simpl in H; [|discriminate].
    inversion H; subst. split; [|reflexivity].
    exact (constants_fold_unary parser op a _ Ha Ec).
  - assert (Hop : op <> Join) by (intros ->; discriminate Hf).
    assert (Hf12 : foldable e1 && foldable e2 = true)
      by (destruct op; first [exact Hf | discriminate Hf]).
    apply andb_prop in Hf12. destruct Hf12 as [Hf1 Hf2].
    change (output_of (BinaryApp op e1 e2) ++ rest)
      with (BinaryOperator op :: ((output_of e2 ++ output_of e1) ++ rest)) in H.
    rewrite <- app_assoc in H. rewrite evaluate_binary in H.
    destruct (List.length (output_of e2 ++ output_of e1 ++ rest) <? 2)%nat; [discriminate|].
    destruct (evaluate rt parser (output_of e2 ++ output_of e1 ++ rest) line)
      as [[a2 s1]|x] eqn:E2; simpl in H; [|discriminate].
    destruct (IH2 Hf2 _ _ _ _ E2) as [Ha2 ->].
    destruct (evaluate rt parser (output_of e1 ++ rest) line)
      as [[a1 s2]|x] eqn:E1; simpl in H; [|discriminate].
    destruct (IH1 Hf1 _ _ _ _ E1) as [Ha1 ->].
    destruct (binary_callback rt op parser a1 a2) as [w|x] eqn:Ec; simpl in H;
      [|discriminate].
    inversion H; subst. split; [|reflexivity].
    exact (constants_fold_binary rt parser op a1 a2 _ Hop Ha1 Ha2 Ec).
  - simpl in Hf. apply andb_prop in Hf. destruct Hf as [Hb Hargs].
    rewrite output_of_Call in H.
    change ((FunctionInvocation f (List.length args) function_line :: outputs_of args)
            ++ rest)
      with (FunctionInvocation f (List.length args) function_line
            :: (outputs_of args ++ rest)) in H.
    rewrite evaluate_function in H.
    destruct (evaluate_args (fun st => evaluate rt parser st function_line)
                (List.length args) (outputs_of args ++ rest))
      as [[vals s1]|x] eqn:E; simpl in H; [|discriminate].
    destruct (arguments_fold args IH Hargs _ _ _ _ E) as [Hvals ->].
    destruct (function_callback rt f parser (rev vals)) as [w|x] eqn:Ec; simpl in H;
      [|discriminate].
    inversion H; subst. split; [|reflexivity].
    eapply constants_fold_function; [exact Hb | apply Forall_rev; exact Hvals | exact Ec].
Qed.

(** An expression whose value is defined evaluates to that value. *)
Definition computes (e : expression) : Prop :=
  forall c, value_of rt e = Some c ->
  forall line rest, evaluate rt parser (output_of e ++ rest) line = Ok (c, rest).

Lemma arguments_compute (args : list expression) :
  Forall computes args ->
  forall vs, all_defined (map (value_of rt) args) = Some vs ->
  forall line rest,
    evaluate_args (fun st => evaluate rt parser st line) (List.length args)
                  (outputs_of args ++ rest) = Ok (rev vs, rest).
Proof.
  induction 1 as [|a l Ha Hl IH]; intros vs E line rest.
  - simpl in E. inversion E; subst. reflexivity.
  - change (map (value_of rt) (a :: l)) with (value_of rt a :: map (value_of rt) l) in E.
    apply all_defined_cons in E. destruct E as (v & vs' & Ev & El & ->).
    rewrite evaluate_args_last, (IH vs' El), (Ha v Ev). reflexivity.
Qed.

Lemma defined_computes (e : expression) : computes e.
Proof.
  induction e as [v|op e IH|op e1 e2 IH1 IH2|f function_line args IH]
    using expression_induction;
    intros c H line rest; simpl in H.
  - destruct (is_constant v); [|discriminate]. inversion H; subst. reflexivity.
  - destruct (value_of rt e) as [a|] eqn:Ea; [|discriminate].
    change (output_of (UnaryApp op e) ++ rest)
      with (UnaryOperator op :: (output_of e ++ rest)).
    rewrite evaluate_unary.
    pose proof (output_of_nonempty e) as Hlen.
    destruct (Nat.ltb_spec (List.length (output_of e ++ rest)) 1) as [Hlt|_].
    { rewrite length_app in Hlt. lia. }
    rewrite (IH a Ea). simpl.
    rewrite (math_unary_sound parser _ _ _ H). reflexivity.
  - destruct (value_of rt e1) as [a|] eqn:Ea; [|discriminate].
    destruct (value_of rt e2) as [b|] eqn:Eb; [|discriminate].
    change (output_of (BinaryApp op e1 e2) ++ rest)
      with (BinaryOperator op :: ((output_of e2 ++ output_of e1) ++ rest)).
    rewrite <- app_assoc. rewrite evaluate_binary.
    pose proof (output_of_nonempty e1) as Hlen1.
    pose proof (output_of_nonempty e2) as Hlen2.
    destruct (Nat.ltb_spec (List.length (output_of e2 ++ output_of e1 ++ rest)) 2)
      as [Hlt|_].
    { rewrite !length_app in Hlt. lia. }
    rewrite (IH2 b Eb). simpl. rewrite (IH1 a Ea). simpl.
    rewrite (math_binary_sound rt parser _ _ _ _ H). reflexivity.
  - destruct (all_defined (map (value_of rt) args)) as [vs|] eqn:E; [|discriminate].
    rewrite output_of_Call.
    change ((FunctionInvocation f (List.length args) function_line :: outputs_of args)
            ++ rest)
      with (FunctionInvocation f (List.length args) function_line
            :: (outputs_of args ++ rest)).
    rewrite evaluate_function, (arguments_compute args IH vs E). simpl.
    rewrite rev_involutive, (math_function_sound rt parser _ _ _ H). reflexivity.
Qed.

End Folding.

End ConstantFolding.

(* ================================================================== *)
(** * The shunting-yard loop on parenthesised expressions *)
(* ================================================================== *)

Section ShuntingYard.
Import Expression.

(** The tokens of an expression written with all its parentheses:
    [(a + b)], [(- a)], [f(a, b)]. *)
Fixpoint tokens_of (e : expression) : list token :=
  match e with
  | Leaf v => [Other v]
  | UnaryApp op e =>
      OpenParenToken :: OperatorToken (unary_operator_name op)
      :: tokens_of e ++ [CloseParenToken]
  | BinaryApp op e1 e2 =>
      OpenParenToken
      :: tokens_of e1 ++ OperatorToken (binary_operator_name op)
      :: tokens_of e2 ++ [CloseParenToken]
  | Call f _ args =>
      FunctionToken (defined_function_name f) :: OpenParenToken
      :: (fix arguments (l : list expression) : list token :=
            match l with
            | [] => []
            | a :: l' =>
                match l' with
                | [] => tokens_of a
                | _ => tokens_of a ++ ArgumentSeparatorToken :: arguments l'
                end
            end) args
      ++ [CloseParenToken]
  end.

Fixpoint arguments_of (l : list expression) : list token :=
  match l with
  | [] => []
  | a :: l' =>
      match l' with
      | [] => tokens_of a
      | _ => tokens_of a ++ ArgumentSeparatorToken :: arguments_of l'
      end
  end.

Lemma tokens_of_Call (f : defined_function) (line : nat) (args : list expression) :
  tokens_of (Call f line args)
  = FunctionToken (defined_function_name f) :: OpenParenToken
    :: arguments_of args ++ [CloseParenToken].
Proof. reflexivity. Qed.

(** The last token of an expression. *)
Definition last_of (e : expression) : token :=
  match e with
  | Leaf v => Other v
  | _ => CloseParenToken
  end.

(** An operand may come first, or after any token. *)
Definition may_start (last_token : option token) : bool :=
  match last_token with
  | Some (Other _) => false
  | _ => true
  end.

Definition no_function_on_top (stack : list stack_item) : Prop :=
  match stack with
  | Pending (FunctionInvocation _ _ _) :: _ => False
  | _ => True
  end.

(** The argument count after one more separator. *)
Definition bump (argcount : nat) : nat :=
  (if (argcount =? 0)%nat then argcount + 1 else argcount) + 1.

Lemma bump_iter (k : nat) : Nat.iter k bump 0 = if (k =? 0)%nat then 0 else k + 1.
Proof.
  induction k as [|k IH]; [reflexivity|].
  simpl. rewrite IH. unfold bump. destruct k; simpl; [reflexivity|].
  f_equal. lia.
Qed.

Lemma binary_operators_get (op : binary_operator) :
  dict_get binary_operators (binary_operator_name op) = Some op.
Proof. destruct op; reflexivity. Qed.

Lemma unary_operators_get (op : unary_operator) :
  dict_get unary_operators (unary_operator_name op) = Some op.
Proof. destruct op; reflexivity. Qed.

Section Steps.

Variable rt : PyRuntime.
Variable self : Parser.
Variable line : nat.

(** The parser knows the functions of the expression under their names,
    and the expression is all on one line. *)
Fixpoint known (e : expression) : Prop :=
  match e with
  | Leaf _ => True
  | UnaryApp _ e => known e
  | BinaryApp _ e1 e2 => known e1 /\ known e2
  | Call f function_line args =>
      function_line = line
      /\ dict_get (functions self) (defined_function_name f) = Some f
      /\ (fix all (l : list expression) : Prop :=
            match l with
            | [] => True
            | a :: l' => known a /\ all l'
            end) args
  end.

Fixpoint all_known (l : list expression) : Prop :=
  match l with
  | [] => True
  | a :: l' => known a /\ all_known l'
  end.

Lemma known_Call (f : defined_function) (function_line : nat) (args : list expression) :
  known (Call f function_line args)
  = (function_line = line
     /\ dict_get (functions self) (defined_function_name f) = Some f
     /\ all_known args).
Proof. reflexivity. Qed.

Lemma parse_operand (v : value) (tokens : list token) (last_token : option token)
      (output : list output_item) (stack : list stack_item) :
  may_start last_token = true ->
  parse_tokens rt self (Other v :: tokens) line last_token output stack
  = parse_tokens rt self tokens line (Some (Other v)) (Operand v :: output) stack.
Proof.
  intros H. destruct last_token as [[| | | | | |w]|]; try discriminate H; reflexivity.
Qed.

Lemma parse_open (tokens : list token) (last_token : option token)
      (output : list output_item) (stack : list stack_item) :
  parse_tokens rt self (OpenParenToken :: tokens) line last_token output stack
  = parse_tokens rt self tokens line (Some OpenParenToken) output (OpenParen :: stack).
Proof. reflexivity. Qed.

Lemma parse_unary (op : unary_operator) (tokens : list token)
      (output : list output_item) (stack : list stack_item) :
  parse_tokens rt self (OperatorToken (unary_operator_name op) :: tokens) line
               (Some OpenParenToken) output (OpenParen :: stack)
  = parse_tokens rt self tokens line (Some (OperatorToken (unary_operator_name op)))
                 output (Pending (UnaryOperator op) :: OpenParen :: stack).
Proof.
  cbn [parse_tokens starts_operand]. rewrite unary_operators_get. reflexivity.
Qed.

Lemma parse_binary (op : binary_operator) (e : expression) (tokens : list token)
      (output : list output_item) (stack : list stack_item) :
  parse_tokens rt self (OperatorToken (binary_operator_name op) :: tokens) line
               (Some (last_of e)) output (OpenParen :: stack)
  = parse_tokens rt self tokens line (Some (OperatorToken (binary_operator_name op)))
                 output (Pending (BinaryOperator op) :: OpenParen :: stack).
Proof.
  cbn [parse_tokens].
  replace (starts_operand (Some (last_of e))) with false by (destruct e; reflexivity).
  rewrite binary_operators_get. reflexivity.
Qed.

(** The parenthesis that closes an operator application. *)
Lemma parse_close_operator (item : output_item) (e : expression) (tokens : list token)
      (output : list output_item) (stack : list stack_item) :
  no_function_on_top stack ->
  parse_tokens rt self (CloseParenToken :: tokens) line (Some (last_of e)) output
               (Pending item :: OpenParen :: stack)
  = parse_tokens rt self tokens line (Some CloseParenToken) (item :: output) stack.
Proof.
  intros H. cbn [parse_tokens pop_to_paren].
  destruct e; cbn [last_of];
    destruct stack as [|[|[]] rest]; try contradiction; reflexivity.
Qed.

Lemma parse_function (f : defined_function) (tokens : list token)
      (last_token : option token) (output : list output_item) (stack : list stack_item) :
  dict_get (functions self) (defined_function_name f) = Some f ->
  parse_tokens rt self (FunctionToken (defined_function_name f) :: OpenParenToken :: tokens)
               line last_token output stack
  = parse_tokens rt self tokens line (Some OpenParenToken) output
                 (OpenParen :: Pending (FunctionInvocation f 0 line) :: stack).
Proof. intros H. cbn [parse_tokens]. rewrite H. reflexivity. Qed.

Lemma parse_separator (e : expression) (tokens : list token)
      (f : defined_function) (argcount function_line : nat)
      (output : list output_item) (stack : list stack_item) :
  parse_tokens rt self (ArgumentSeparatorToken :: tokens) line (Some (last_of e)) output
               (OpenParen :: Pending (FunctionInvocation f argcount function_line) :: stack)
  = parse_tokens rt self tokens line (Some ArgumentSeparatorToken) output
                 (OpenParen :: Pending (FunctionInvocation f (bump argcount) function_line)
                            :: stack).
Proof.
  cbn [parse_tokens pop_to_paren].
  replace (nothing_before_separator (Some (last_of e))) with false
    by (destruct e; reflexivity).
  reflexivity.
Qed.

(** The parenthesis that closes a call with arguments, and one without. *)
Lemma parse_close_call (e : expression) (tokens : list token)
      (f : defined_function) (argcount function_line : nat)
      (output : list output_item) (stack : list stack_item) :
  parse_tokens rt self (CloseParenToken :: tokens) line (Some (last_of e)) output
               (OpenParen :: Pending (FunctionInvocation f argcount function_line) :: stack)
  = parse_tokens rt self tokens line (Some CloseParenToken)
                 (FunctionInvocation f (if (argcount =? 0)%nat then 1 else argcount)
                                     function_line :: output)
                 stack.
Proof. destruct e; reflexivity. Qed.

Lemma parse_close_empty_call (tokens : list token)
      (f : defined_function) (argcount function_line : nat)
      (output : list output_item) (stack : list stack_item) :
  parse_tokens rt self (CloseParenToken :: tokens) line (Some OpenParenToken) output
               (OpenParen :: Pending (FunctionInvocation f argcount function_line) :: stack)
  = parse_tokens rt self tokens line (Some CloseParenToken)
                 (FunctionInvocation f argcount function_line :: output) stack.
Proof. reflexivity. Qed.

(** The loop on the tokens of [e] moves the output of [e] to the output
    list and leaves the stack as it found it. *)
Definition shunted (e : expression) : Prop :=
  known e ->
  forall more last_token output stack,
    may_start last_token = true ->
    no_function_on_top stack ->
    parse_tokens rt self (tokens_of e ++ more) line last_token output stack
    = parse_tokens rt self more line (Some (last_of e)) (output_of e ++ output) stack.

Lemma arguments_shunted (f : defined_function) (function_line : nat)
      (a : expression) (l : list expression) :
  Forall shunted (a :: l) -> all_known (a :: l) ->
  forall more last_token argcount output stack,
    may_start last_token = true ->
    exists e,
      parse_tokens rt self (arguments_of (a :: l) ++ more) line last_token output
                   (OpenParen :: Pending (FunctionInvocation f argcount function_line)
                              :: stack)
      = parse_tokens rt self more line (Some (last_of e)) (outputs_of (a :: l) ++ output)
                     (OpenParen
                        :: Pending (FunctionInvocation
                                      f (Nat.iter (List.length l) bump argcount)
                                      function_line)
                        :: stack).
Proof.
  revert a. induction l as [|b l IH]; intros a Hall Hknown more last_token argcount
                                             output stack Hlast.
  - inversion Hall as [|? ? Ha _]; subst. destruct Hknown as [Hk _].
    exists a. cbn [arguments_of outputs_of List.length Nat.iter app].
    apply (Ha Hk _ _ _ (OpenParen :: _) Hlast I).
  - inversion Hall as [|? ? Ha Hrest]; subst. destruct Hknown as [Hk Hknown].
    destruct (IH b Hrest Hknown more (Some ArgumentSeparatorToken) (bump argcount)
                 (output_of a ++ output) stack eq_refl) as [e He].
    exists e.
    change (arguments_of (a :: b :: l))
      with (tokens_of a ++ ArgumentSeparatorToken :: arguments_of (b :: l)).
    rewrite <- app_assoc.
    rewrite (Ha Hk _ _ _ (OpenParen :: _) Hlast I).
    change ((ArgumentSeparatorToken :: arguments_of (b :: l)) ++ more)
      with (ArgumentSeparatorToken :: (arguments_of (b :: l) ++ more)).
    rewrite parse_separator, He.
    change (outputs_of (a :: b :: l)) with (outputs_of (b :: l) ++ output_of a).
    rewrite <- app_assoc.
    change (List.length (b :: l)) with (S (List.length l)).
    rewrite Nat.iter_succ_r. reflexivity.
Qed.

Lemma expression_shunted (e : expression) : shunted e.
Proof.
  induction e as [v|op e IH|op e1 e2 IH1 IH2|f function_line args IH]
    using expression_induction;
    intros Hknown more last_token output stack Hlast Hstack.
  - cbn [tokens_of output_of last_of app]. apply parse_operand. exact Hlast.
  - cbn [tokens_of]. cbn [app]. rewrite parse_open, parse_unary.
    rewrite <- app_assoc.
    rewrite (IH Hknown _ (Some (OperatorToken _)) _ (Pending (UnaryOperator op) :: _)
               eq_refl I).
    cbn [app]. rewrite (parse_close_operator _ _ _ _ _ Hstack). reflexivity.
  - destruct Hknown as [Hk1 Hk2].
    cbn [tokens_of]. cbn [app]. rewrite parse_open.
    rewrite <- app_assoc.
    rewrite (IH1 Hk1 _ (Some OpenParenToken) _ (OpenParen :: _) eq_refl I).
    cbn [app]. rewrite parse_binary.
    rewrite <- app_assoc.
    rewrite (IH2 Hk2 _ (Some (OperatorToken _)) _ (Pending (BinaryOperator op) :: _)
                eq_refl I).
    cbn [app]. rewrite (parse_close_operator _ _ _ _ _ Hstack).
    cbn [output_of last_of app]. rewrite <- app_assoc. reflexivity.
  - rewrite known_Call in Hknown. destruct Hknown as (-> & Hf & Hargs).
    rewrite tokens_of_Call, output_of_Call. cbn [app].
    rewrite (parse_function _ _ _ _ _ Hf).
    destruct args as [|a l].
    + cbn [arguments_of app]. rewrite parse_close_empty_call. reflexivity.
    + rewrite <- app_assoc.
      destruct (arguments_shunted f line a l IH Hargs
                  ([CloseParenToken] ++ more) (Some OpenParenToken) 0 output stack eq_refl)
        as [e He].
      rewrite He. cbn [app]. rewrite parse_close_call.
      rewrite bump_iter. cbn [last_of List.length].
      destruct l as [|b l]; [reflexivity|].
      cbn [List.length Nat.eqb]. rewrite Nat.add_1_r. reflexivity.
Qed.

End Steps.

(** ** parse on a parenthesised expression *)

Lemma parse_tokens_of (rt : PyRuntime) (self : Parser) (e : expression) :
  known self 1 e ->
  parse rt self (tokens_of e, None) = parse_output rt self (output_of e) 1.
Proof.
  intros Hknown. unfold parse. cbn [fst snd].
  rewrite <- (app_nil_r (tokens_of e)).
  rewrite (expression_shunted rt self 1 e Hknown [] None [] [] eq_refl I).
  rewrite app_nil_r. reflexivity.
Qed.

End ShuntingYard.

(* ================================================================== *)
(** * The shunting-yard loop on expressions in infix notation *)
(* ================================================================== *)

Section Writings.
Import Expression.

(** ** The ways of writing an expression

    [written l e ts]: the tokens [ts] are a way of writing [e] where an
    operand of an operator of precedence [l] is expected.  Parentheses
    may be put around any expression; a binary operator takes on its left
    what binds at least as tightly as itself and on its right what binds
    more tightly (all binary operators group to the left); a unary
    operator, which binds more tightly than every binary one, takes an
    operand that has no binary operator outside parentheses.  Operators
    are written by any name the parser finds them under.  The arguments
    of a call are separated by [ArgumentSeparatorToken]; an argument
    after the first does not begin with an operator (after a separator the
    parser looks an operator up among the binary ones). *)
Definition head_is_operator (ts : list token) : bool :=
  match ts with
  | OperatorToken _ :: _ => true
  | _ => false
  end.

Inductive written : nat -> expression -> list token -> Prop :=
| written_leaf (l : nat) (v : value) :
    written l (Leaf v) [Other v]
| written_paren (l : nat) (e : expression) (ts : list token) :
    written 0 e ts ->
    written l e (OpenParenToken :: ts ++ [CloseParenToken])
| written_unary (l : nat) (op : unary_operator) (name : CS) (e : expression)
                (ts : list token) :
    dict_get unary_operators name = Some op ->
    written (S (unary_operator_precedence op)) e ts ->
    written l (UnaryApp op e) (OperatorToken name :: ts)
| written_binary (l : nat) (op : binary_operator) (name : CS) (e1 e2 : expression)
                 (ts1 ts2 : list token) :
    l <= binary_operator_precedence op ->
    dict_get binary_operators name = Some op ->
    written (binary_operator_precedence op) e1 ts1 ->
    written (S (binary_operator_precedence op)) e2 ts2 ->
    written l (BinaryApp op e1 e2) (ts1 ++ OperatorToken name :: ts2)
| written_call (l : nat) (f : defined_function) (line : nat) (args : list expression)
               (ts : list token) :
    written_arguments args ts ->
    written l (Call f line args)
            (FunctionToken (defined_function_name f) :: OpenParenToken
             :: ts ++ [CloseParenToken])
with written_arguments : list expression -> list token -> Prop :=
| written_none : written_arguments [] []
| written_one (a : expression) (ts : list token) :
    written 0 a ts -> written_arguments [a] ts
| written_more (a b : expression) (rest : list expression) (ts more : list token) :
    written 0 a ts ->
    written_arguments (b :: rest) more ->
    head_is_operator more = false ->
    written_arguments (a :: b :: rest) (ts ++ ArgumentSeparatorToken :: more).

Scheme written_induction := Minimality for written Sort Prop
  with written_arguments_induction := Minimality for written_arguments Sort Prop.

Lemma written_nonempty (l : nat) (e : expression) (ts : list token) :
  written l e ts -> ts <> [].
Proof.
  intros H. destruct H; try discriminate.
  destruct ts1; discriminate.
Qed.

Lemma head_is_operator_app (ts more : list token) :
  ts <> [] -> head_is_operator (ts ++ more) = head_is_operator ts.
Proof. destruct ts; [congruence | reflexivity]. Qed.

(** The writing with all the parentheses is one of them. *)
Lemma tokens_of_head (e : expression) : head_is_operator (tokens_of e) = false.
Proof. destruct e; reflexivity. Qed.

Lemma tokens_of_written (e : expression) : forall l, written l e (tokens_of e).
Proof.
  induction e as [v|op e IH|op e1 e2 IH1 IH2|f function_line args IH]
    using expression_induction; intros l.
  - apply written_leaf.
  - cbn [tokens_of].
    change (OperatorToken (unary_operator_name op) :: tokens_of e ++ [CloseParenToken])
      with ((OperatorToken (unary_operator_name op) :: tokens_of e) ++ [CloseParenToken]).
    apply written_paren. apply written_unary; [apply unary_operators_get | apply IH].
  - cbn [tokens_of].
    replace (tokens_of e1 ++ OperatorToken (binary_operator_name op)
                       :: tokens_of e2 ++ [CloseParenToken])
      with ((tokens_of e1 ++ OperatorToken (binary_operator_name op) :: tokens_of e2)
              ++ [CloseParenToken])
      by (rewrite <- app_assoc; reflexivity).
    apply written_paren.
    apply written_binary; [apply Nat.le_0_l | apply binary_operators_get | apply IH1 | apply IH2].
  - rewrite tokens_of_Call. apply written_call.
    induction IH as [|a rest Ha Hrest IHrest]; [apply written_none|].
    destruct rest as [|b rest].
    + apply written_one. apply Ha.
    + change (arguments_of (a :: b :: rest))
        with (tokens_of a ++ ArgumentSeparatorToken :: arguments_of (b :: rest)).
      apply written_more; [apply Ha | exact IHrest |].
      cbn [arguments_of]. destruct rest as [|c rest].
      * apply tokens_of_head.
      * rewrite head_is_operator_app; [apply tokens_of_head|].
        destruct b; discriminate.
Qed.

(** ** The loop *)

(** An operand ends with a value or a closing parenthesis. *)
Definition ends_operand (t : token) : bool :=
  match t with
  | Other _ | CloseParenToken => true
  | _ => false
  end.

(** What waits on the stack for the operand of precedence [l] to end: unary
    operators and binary operators that bind at least as tightly. *)
Definition operator_above (l : nat) (item : output_item) : Prop :=
  match item with
  | UnaryOperator _ => True
  | BinaryOperator op => l <= binary_operator_precedence op
  | _ => False
  end.

(** The stack below such an operand: nothing, an open parenthesis or an
    operator that binds less tightly on top. *)
Definition stack_below (l : nat) (stack : list stack_item) : Prop :=
  match stack with
  | Pending item :: _ =>
      match precedence item with
      | Some p => p < l
      | None => False
      end
  | _ => True
  end.

Lemma stack_below_le (l l' : nat) (stack : list stack_item) :
  l <= l' -> stack_below l stack -> stack_below l' stack.
Proof.
  intros Hl. destruct stack as [|[|item] rest]; simpl; auto.
  destruct (precedence item); [lia | auto].
Qed.

Lemma binary_precedence_bound (op : binary_operator) : binary_operator_precedence op < 98.
Proof. destruct op; simpl; lia. Qed.

(** A unary operator pops nothing. *)
Lemma pop_operators_unary (op : unary_operator) (output : list output_item)
      (stack : list stack_item) :
  pop_operators (UnaryOperator op) output stack = (output, stack).
Proof.
  destruct stack as [|[|[v|u|b|f n k]] rest]; try reflexivity.
  cbn [pop_operators precedence unary_operator_precedence associativity].
  replace (String.eqb "right" "left") with false by reflexivity.
  cbn [andb orb]. unfold unary_operator_precedence.
  pose proof (binary_precedence_bound b) as Hb.
  destruct (Nat.ltb_spec 98 (binary_operator_precedence b)); [lia | reflexivity].
Qed.

(** A binary operator pops what waits above its level and stops at the
    stack below. *)
Lemma pop_operators_binary (op : binary_operator) (pend : list output_item)
      (output : list output_item) (stack : list stack_item) :
  Forall (operator_above (binary_operator_precedence op)) pend ->
  stack_below (binary_operator_precedence op) stack ->
  pop_operators (BinaryOperator op) output (map Pending pend ++ stack)
  = (rev pend ++ output, stack).
Proof.
  intros Hpend Hstack. revert output.
  induction Hpend as [|item pend Hitem _ IH]; intros output.
  - cbn [map rev app]. destruct stack as [|[|item] rest]; try reflexivity.
    cbn [pop_operators]. cbn [stack_below] in Hstack.
    change (precedence (BinaryOperator op)) with (Some (binary_operator_precedence op)).
    destruct (precedence item) as [p|]; [|reflexivity].
    destruct (Nat.eqb_spec (binary_operator_precedence op) p); [lia|].
    destruct (Nat.ltb_spec (binary_operator_precedence op) p); [lia|].
    rewrite andb_false_r. reflexivity.
  - cbn [map rev app pop_operators].
    assert (Hpop : exists p,
               precedence item = Some p
               /\ (String.eqb (associativity (BinaryOperator op)) "left"
                   && (binary_operator_precedence op =? p)%nat)
                  || (binary_operator_precedence op <? p)%nat = true).
    { assert (Hleft : String.eqb (associativity (BinaryOperator op)) "left" = true)
        by reflexivity.
      rewrite Hleft. cbn [andb].
      destruct item as [v|u|b|f n k]; try contradiction.
      - exists 98. split; [reflexivity|].
        pose proof (binary_precedence_bound op) as Hb.
        destruct (Nat.ltb_spec (binary_operator_precedence op) 98); [|lia].
        apply orb_true_r.
      - exists (binary_operator_precedence b). split; [reflexivity|].
        cbn [operator_above] in Hitem.
        destruct (Nat.eqb_spec (binary_operator_precedence op)
                               (binary_operator_precedence b)); [reflexivity|].
        destruct (Nat.ltb_spec (binary_operator_precedence op)
                               (binary_operator_precedence b)); [reflexivity | lia]. }
    destruct Hpop as (p & Hp & Hpop).
    change (precedence (BinaryOperator op)) with (Some (binary_operator_precedence op)).
    rewrite Hp, Hpop, IH, <- app_assoc. reflexivity.
Qed.

Lemma pop_to_paren_pending (pend : list output_item) (output : list output_item)
      (stack : list stack_item) :
  pop_to_paren output (map Pending pend ++ OpenParen :: stack)
  = (rev pend ++ output, OpenParen :: stack).
Proof.
  revert output. induction pend as [|item pend IH]; intros output; [reflexivity|].
  cbn [map rev app pop_to_paren]. rewrite IH, <- app_assoc. reflexivity.
Qed.

Lemma pop_all_pending (line : nat) (pend : list output_item) (output : list output_item) :
  pop_all line output (map Pending pend) = Ok (rev pend ++ output).
Proof.
  revert output. induction pend as [|item pend IH]; intros output; [reflexivity|].
  cbn [map rev pop_all]. rewrite IH, <- app_assoc. reflexivity.
Qed.

Section Loop.

Variable rt : PyRuntime.
Variable self : Parser.
Variable line : nat.

Lemma step_unary (op : unary_operator) (name : CS) (tokens : list token)
      (last_token : option token) (output : list output_item) (stack : list stack_item) :
  starts_operand last_token = true ->
  dict_get unary_operators name = Some op ->
  parse_tokens rt self (OperatorToken name :: tokens) line last_token output stack
  = parse_tokens rt self tokens line (Some (OperatorToken name)) output
                 (Pending (UnaryOperator op) :: stack).
Proof.
  intros Hlast Hop. cbn [parse_tokens]. rewrite Hlast, Hop. cbn [bind].
  rewrite pop_operators_unary. reflexivity.
Qed.

Lemma step_binary (op : binary_operator) (name : CS) (tokens : list token)
      (last : token) (pend : list output_item) (output : list output_item)
      (stack : list stack_item) :
  ends_operand last = true ->
  dict_get binary_operators name = Some op ->
  Forall (operator_above (binary_operator_precedence op)) pend ->
  stack_below (binary_operator_precedence op) stack ->
  parse_tokens rt self (OperatorToken name :: tokens) line (Some last) output
               (map Pending pend ++ stack)
  = parse_tokens rt self tokens line (Some (OperatorToken name)) (rev pend ++ output)
                 (Pending (BinaryOperator op) :: stack).
Proof.
  intros Hlast Hop Hpend Hstack. cbn [parse_tokens].
  replace (starts_operand (Some last)) with false
    by (destruct last; try discriminate Hlast; reflexivity).
  rewrite Hop. cbn [bind].
  rewrite (pop_operators_binary op pend output stack Hpend Hstack). reflexivity.
Qed.

(** The parenthesis that closes a parenthesised expression. *)
Lemma step_close (l : nat) (tokens : list token) (last : token)
      (pend : list output_item) (output : list output_item) (stack : list stack_item) :
  ends_operand last = true ->
  stack_below l stack ->
  parse_tokens rt self (CloseParenToken :: tokens) line (Some last) output
               (map Pending pend ++ OpenParen :: stack)
  = parse_tokens rt self tokens line (Some CloseParenToken) (rev pend ++ output) stack.
Proof.
  intros Hlast Hstack. cbn [parse_tokens].
  rewrite pop_to_paren_pending.
  destruct last; try discriminate Hlast;
    destruct stack as [|[|[w|u|b|f n k]] rest]; try reflexivity;
    cbn in Hstack; contradiction.
Qed.

(** The parenthesis that closes a call with arguments. *)
Lemma step_close_call (tokens : list token) (last : token)
      (f : defined_function) (argcount function_line : nat)
      (pend : list output_item) (output : list output_item) (stack : list stack_item) :
  ends_operand last = true ->
  parse_tokens rt self (CloseParenToken :: tokens) line (Some last) output
               (map Pending pend
                ++ OpenParen :: Pending (FunctionInvocation f argcount function_line)
                :: stack)
  = parse_tokens rt self tokens line (Some CloseParenToken)
                 (FunctionInvocation f (if (argcount =? 0)%nat then 1 else argcount)
                                     function_line :: rev pend ++ output)
                 stack.
Proof.
  intros Hlast. cbn [parse_tokens].
  rewrite pop_to_paren_pending.
  destruct last; try discriminate Hlast; reflexivity.
Qed.

Lemma step_separator (tokens : list token) (last : token)
      (f : defined_function) (argcount function_line : nat)
      (pend : list output_item) (output : list output_item) (stack : list stack_item) :
  ends_operand last = true ->
  parse_tokens rt self (ArgumentSeparatorToken :: tokens) line (Some last) output
               (map Pending pend
                ++ OpenParen :: Pending (FunctionInvocation f argcount function_line)
                :: stack)
  = parse_tokens rt self tokens line (Some ArgumentSeparatorToken) (rev pend ++ output)
                 (OpenParen :: Pending (FunctionInvocation f (bump argcount) function_line)
                            :: stack).
Proof.
  intros Hlast. cbn [parse_tokens].
  replace (nothing_before_separator (Some last)) with false
    by (destruct last; try discriminate Hlast; reflexivity).
  rewrite pop_to_paren_pending. reflexivity.
Qed.

(** The loop on a writing of [e] at level [l]: the operand has been read,
    its last operators wait on the stack, and moving them to the output
    completes the output of [e]. *)
Definition shunts (l : nat) (e : expression) (ts : list token) : Prop :=
  known self line e ->
  forall more last_token output stack,
    may_start last_token = true ->
    (head_is_operator ts = true -> starts_operand last_token = true) ->
    stack_below l stack ->
    exists last pend output',
      parse_tokens rt self (ts ++ more) line last_token output stack
      = parse_tokens rt self more line (Some last) output' (map Pending pend ++ stack)
      /\ ends_operand last = true
      /\ Forall (operator_above l) pend
      /\ rev pend ++ output' = output_of e ++ output.

(** The loop on the arguments of a call and its closing parenthesis. *)
Definition arguments_shunt (args : list expression) (ts : list token) : Prop :=
  all_known self line args ->
  args <> [] ->
  forall more last_token f argcount function_line output stack,
    may_start last_token = true ->
    (head_is_operator ts = true -> starts_operand last_token = true) ->
    parse_tokens rt self (ts ++ CloseParenToken :: more) line last_token output
                 (OpenParen :: Pending (FunctionInvocation f argcount function_line)
                            :: stack)
    = parse_tokens rt self more line (Some CloseParenToken)
                   (FunctionInvocation
                      f (let n := Nat.iter (List.length args - 1) bump argcount in
                         if (n =? 0)%nat then 1 else n)
                      function_line :: outputs_of args ++ output)
                   stack.

Lemma operator_above_le (l l' : nat) (pend : list output_item) :
  l <= l' -> Forall (operator_above l') pend -> Forall (operator_above l) pend.
Proof.
  intros Hl H. induction H as [|item pend Hitem _ IH]; constructor; [|exact IH].
  destruct item; simpl in *; auto. lia.
Qed.

Lemma writings_shunt :
  forall l e ts, written l e ts -> shunts l e ts.
Proof.
  apply (written_induction shunts arguments_shunt).
  - (* a value *)
    intros l v _ more last_token output stack Hstart _ _.
    exists (Other v), [], (Operand v :: output).
    repeat split; [|constructor].
    cbn [app map]. apply (parse_operand rt self line v more last_token output stack Hstart).
  - (* parentheses *)
    intros l e ts _ IH Hknown more last_token output stack _ _ Hstack.
    destruct (IH Hknown ([CloseParenToken] ++ more) (Some OpenParenToken) output
                 (OpenParen :: stack) eq_refl (fun _ => eq_refl) I)
      as (last & pend & output' & Hrun & Hlast & _ & Hout).
    exists CloseParenToken, [], (output_of e ++ output).
    repeat split; [|constructor].
    cbn [app map]. rewrite <- app_assoc. rewrite parse_open, Hrun. cbn [app].
    rewrite (step_close l more last pend output' stack Hlast Hstack), Hout. reflexivity.
  - (* a unary operator *)
    intros l op name e ts Hop _ IH Hknown more last_token output stack _ Hhead Hstack.
    destruct (IH Hknown more (Some (OperatorToken name)) output
                 (Pending (UnaryOperator op) :: stack) eq_refl (fun _ => eq_refl))
      as (last & pend & output' & Hrun & Hlast & Hpend & Hout).
    { unfold stack_below, precedence, unary_operator_precedence. lia. }
    exists last, (pend ++ [UnaryOperator op]), output'.
    split; [|split; [exact Hlast | split]].
    + cbn [app]. rewrite (step_unary op name _ last_token output stack (Hhead eq_refl) Hop).
      rewrite Hrun, map_app, <- app_assoc. reflexivity.
    + apply Forall_app. split; [|constructor; [exact I | constructor]].
      clear - Hpend. induction Hpend as [|item pend Hitem _ IHp]; constructor; [|exact IHp].
      destruct item as [v|u|b|f n k]; cbn [operator_above] in *; auto.
      unfold unary_operator_precedence in Hitem.
      pose proof (binary_precedence_bound b). lia.
    + rewrite rev_app_distr. cbn [rev app output_of]. rewrite Hout. reflexivity.
  - (* a binary operator *)
    intros l op name e1 e2 ts1 ts2 Hl Hop H1 IH1 _ IH2 [Hk1 Hk2]
           more last_token output stack Hstart Hhead Hstack.
    pose proof (written_nonempty _ _ _ H1) as Hne.
    destruct (IH1 Hk1 (OperatorToken name :: ts2 ++ more) last_token output stack Hstart)
      as (last1 & pend1 & output1 & Hrun1 & Hlast1 & Hpend1 & Hout1).
    { intros H. apply Hhead. rewrite head_is_operator_app; assumption. }
    { exact (stack_below_le _ _ stack Hl Hstack). }
    destruct (IH2 Hk2 more (Some (OperatorToken name)) (rev pend1 ++ output1)
                 (Pending (BinaryOperator op) :: stack) eq_refl (fun _ => eq_refl))
      as (last2 & pend2 & output2 & Hrun2 & Hlast2 & Hpend2 & Hout2).
    { unfold stack_below, precedence, unary_operator_precedence. lia. }
    exists last2, (pend2 ++ [BinaryOperator op]), output2.
    split; [|split; [exact Hlast2 | split]].
    + rewrite <- app_assoc. cbn [app]. rewrite Hrun1.
      rewrite (step_binary op name _ last1 pend1 output1 stack Hlast1 Hop Hpend1
                           (stack_below_le _ _ stack Hl Hstack)).
      rewrite Hrun2, map_app, <- app_assoc. reflexivity.
    + apply Forall_app. split.
      * apply (operator_above_le l (S (binary_operator_precedence op))); [lia | exact Hpend2].
      * constructor; [exact Hl | constructor].
    + rewrite rev_app_distr. cbn [rev app output_of].
      rewrite Hout2, Hout1, <- app_assoc. reflexivity.
  - (* a call *)
    intros l f function_line args ts Hargs IH Hknown more last_token output stack _ _ Hstack.
    rewrite known_Call in Hknown. destruct Hknown as (-> & Hf & Hknown).
    exists CloseParenToken, [], (output_of (Call f line args) ++ output).
    repeat split; [|constructor].
    cbn [app map]. rewrite (parse_function rt self line f _ last_token output stack Hf).
    rewrite output_of_Call. cbn [app].
    destruct args as [|a rest].
    + inversion Hargs; subst. cbn [app]. rewrite parse_close_empty_call. reflexivity.
    + rewrite <- app_assoc. cbn [app].
      rewrite (IH Hknown ltac:(discriminate) more (Some OpenParenToken) f 0 line output stack
                  eq_refl (fun _ => eq_refl)).
      replace (List.length (a :: rest) - 1) with (List.length rest)
        by (cbn [List.length]; lia).
      cbv zeta. rewrite bump_iter.
      destruct rest as [|b rest]; [reflexivity|].
      cbn [List.length Nat.eqb]. rewrite Nat.add_1_r. reflexivity.
  - (* no argument *)
    intros _ Hne. contradiction Hne. reflexivity.
  - (* one argument *)
    intros a ts _ IH [Hknown _] _ more last_token f argcount function_line output stack
           Hstart Hhead.
    destruct (IH Hknown (CloseParenToken :: more) last_token output
                 (OpenParen :: Pending (FunctionInvocation f argcount function_line) :: stack)
                 Hstart Hhead I)
      as (last & pend & output' & Hrun & Hlast & _ & Hout).
    rewrite Hrun.
    rewrite (step_close_call more last f argcount function_line pend output' stack Hlast).
    rewrite Hout. cbn [List.length Nat.sub Nat.iter outputs_of app]. reflexivity.
  - (* more arguments *)
    intros a b rest ts tsrest Ha IH _ IHrest Hoperator [Hknown Hknowns] _
           more last_token f argcount function_line output stack Hstart Hhead.
    pose proof (written_nonempty _ _ _ Ha) as Hne.
    destruct (IH Hknown (ArgumentSeparatorToken :: tsrest ++ CloseParenToken :: more)
                 last_token output
                 (OpenParen :: Pending (FunctionInvocation f argcount function_line) :: stack)
                 Hstart)
      as (last & pend & output' & Hrun & Hlast & _ & Hout).
    { intros H. apply Hhead. rewrite head_is_operator_app; assumption. }
    { exact I. }
    rewrite <- app_assoc. cbn [app]. rewrite Hrun.
    rewrite (step_separator _ last f argcount function_line pend output' stack Hlast).
    rewrite (IHrest Hknowns ltac:(discriminate) more (Some ArgumentSeparatorToken) f
                    (bump argcount) function_line (rev pend ++ output') stack eq_refl).
    + rewrite Hout.
      change (outputs_of (a :: b :: rest)) with (outputs_of (b :: rest) ++ output_of a).
      rewrite <- app_assoc.
      replace (List.length (a :: b :: rest) - 1) with (S (List.length (b :: rest) - 1))
        by (cbn [List.length]; lia).
      rewrite Nat.iter_succ_r. reflexivity.
    + intros H. rewrite Hoperator in H. discriminate H.
Qed.

End Loop.

(** ** parse on a writing of an expression *)

Lemma parse_written (rt : PyRuntime) (self : Parser) (e : expression) (ts : list token) :
  known self 1 e -> written 0 e ts ->
  parse rt self (ts, None) = parse_output rt self (output_of e) 1.
Proof.
  intros Hknown Hwritten. unfold parse. cbn [fst snd].
  destruct (writings_shunt rt self 1 0 e ts Hwritten Hknown [] None [] []
                           eq_refl (fun _ => eq_refl) I)
    as (last & pend & output' & Hrun & _ & _ & Hout).
  rewrite !app_nil_r in Hrun. rewrite Hrun. cbn [bind parse_tokens].
  rewrite pop_all_pending. cbn [bind].
  rewrite Hout, app_nil_r. reflexivity.
Qed.

End Writings.

(* ================================================================== *)
(** * Constant folding: the theorem *)
(* ================================================================== *)

Section FoldingTheorem.
Import Expression.


(** [1 + 2 * 3], and [- (1 + 2) * 3] *)
Definition folding_example : expression :=
  BinaryApp Add (Leaf (VInt 1)) (BinaryApp Mul (Leaf (VInt 2)) (Leaf (VInt 3))).

Definition negated_example : expression :=
  BinaryApp Mul
            (UnaryApp Neg (BinaryApp Add (Leaf (VInt 1)) (Leaf (VInt 2))))
            (Leaf (VInt 3)).



(** The loop on tokens written without parentheses: [1 + 2 * 3] and
    [2 * 3 + 1] by precedence, [7 - 2 - 1] from the left, [- 2 * 3] with
    the unary operator first, [if(1 < 2, 'a' . 'b', 'c')]. *)
Example parse_precedence :
  parse example_runtime (Parser_init None None None false)
        ([Other (VInt 1); OperatorToken "+"; Other (VInt 2); OperatorToken "*";
          Other (VInt 3)], None)
  = Ok (VInt 7)
  /\ parse example_runtime (Parser_init None None None false)
           ([Other (VInt 2); OperatorToken "*"; Other (VInt 3); OperatorToken "+";
             Other (VInt 1)], None)
     = Ok (VInt 7)
  /\ parse example_runtime (Parser_init None None None false)
           ([Other (VInt 7); OperatorToken "-"; Other (VInt 2); OperatorToken "-";
             Other (VInt 1)], None)
     = Ok (VInt 4)
  /\ parse example_runtime (Parser_init None None None false)
           ([OperatorToken "-"; Other (VInt 2); OperatorToken "*"; Other (VInt 3)], None)
     = Ok (VInt (-6))
  /\ parse example_runtime (Parser_init None None None false)
           ([FunctionToken "IF"; OpenParenToken;
             Other (VInt 1); OperatorToken "<"; Other (VInt 2); ArgumentSeparatorToken;
             Other (VStr "a"); OperatorToken "."; Other (VStr "b");
             ArgumentSeparatorToken; Other (VStr "c"); CloseParenToken], None)
     = Ok (VStr "ab").
Proof. repeat split; reflexivity. Qed.

(** A division by zero has no value: the parser raises instead of
    returning a literal. *)
Example division_by_zero_raises :
  parse example_runtime (Parser_init None None None false)
        ([Other (VInt 1); OperatorToken "/"; Other (VInt 0)], None)
  = Raise (ZeroDivisionError "division by zero").
Proof. reflexivity. Qed.

End FoldingTheorem.

(* ================================================================== *)
(** * More on pyre.Parser.parse *)
(* ================================================================== *)

Section ParseFacts.
Import Expression.

Definition is_open (t : token) : bool :=
  match t with OpenParenToken => true | _ => false end.

Definition is_close (t : token) : bool :=
  match t with CloseParenToken => true | _ => false end.

Definition is_newline (t : token) : bool :=
  match t with NewlineToken => true | _ => false end.

Definition opens (tokens : list token) : nat := List.length (filter is_open tokens).
Definition closes (tokens : list token) : nat := List.length (filter is_close tokens).
Definition newlines (tokens : list token) : nat := List.length (filter is_newline tokens).

(** The open parentheses waiting on the operator stack. *)
Fixpoint open_on_stack (stack : list stack_item) : nat :=
  match stack with
  | [] => 0
  | OpenParen :: rest => S (open_on_stack rest)
  | Pending _ :: rest => open_on_stack rest
  end.

(** [last_token] after the loop has gone through [tokens]. *)
Fixpoint last_seen (tokens : list token) (last_token : option token) : option token :=
  match tokens with
  | [] => last_token
  | t :: rest => last_seen rest (Some t)
  end.

Lemma pop_to_paren_stack (stack : list stack_item) :
  forall output,
    open_on_stack (snd (pop_to_paren output stack)) = open_on_stack stack
    /\ (snd (pop_to_paren output stack) = []
        \/ exists rest, snd (pop_to_paren output stack) = OpenParen :: rest).
Proof.
  induction stack as [|[|item] stack IH]; intros output; simpl.
  - auto.
  - split; [reflexivity | right; eauto].
  - apply IH.
Qed.

Lemma pop_operators_stack (o1 : output_item) (stack : list stack_item) :
  forall output,
    open_on_stack (snd (pop_operators o1 output stack)) = open_on_stack stack.
Proof.
  induction stack as [|[|top] stack IH]; intros output; simpl; try reflexivity.
  destruct (precedence o1) as [p1|]; [|reflexivity].
  destruct (precedence top) as [p2|]; [|reflexivity].
  destruct ((String.eqb (associativity o1) "left" && (p1 =? p2)%nat) || (p1 <? p2)%nat);
    [apply IH | reflexivity].
Qed.

Lemma pop_all_no_open (line : nat) (stack : list stack_item) :
  forall output output',
    pop_all line output stack = Ok output' -> open_on_stack stack = 0.
Proof.
  induction stack as [|[|item] stack IH]; intros output output' H; simpl in *.
  - reflexivity.
  - discriminate.
  - apply (IH _ _ H).
Qed.

(** What the loop keeps: every [(] met is on the stack until its [)]
    takes it off, and the line is the first line plus the newlines. *)
Lemma parse_tokens_invariant (rt : PyRuntime) (self : Parser) (tokens : list token) :
  forall line last_token output stack line' output' stack',
    parse_tokens rt self tokens line last_token output stack = Ok (line', output', stack') ->
    open_on_stack stack + opens tokens = open_on_stack stack' + closes tokens
    /\ line' = line + newlines tokens.
Proof.
  unfold opens, closes, newlines.
  induction tokens as [|t tokens IH];
    intros line last_token output stack line' output' stack' H.
  - simpl in H. inversion H; subst. simpl. lia.
  - destruct t; cbn [parse_tokens] in H; cbn [filter is_open is_close is_newline List.length].
    + apply IH in H. simpl in H. lia.
    + destruct last_token as [[]|];
        try discriminate H;
        pose proof (pop_to_paren_stack stack output) as [Hn Hs];
        destruct (pop_to_paren output stack) as [o s]; simpl in Hn, Hs;
        (destruct s as [|top s]; [discriminate H|]);
        (destruct Hs as [Hs|[r Hs]]; [discriminate Hs|]);
        injection Hs as -> ->; simpl in Hn;
        (destruct r as [|[|[]] r]; apply IH in H; simpl in H, Hn; lia).
    + destruct (nothing_before_separator last_token); [discriminate H|].
      pose proof (pop_to_paren_stack stack output) as [Hn _].
      destruct (pop_to_paren output stack) as [o s]. simpl in Hn.
      destruct s as [|top [|[|[]] r]]; try discriminate H.
      apply IH in H. destruct top; simpl in H, Hn; lia.
    + destruct (dict_get (functions self) name); [|discriminate H].
      apply IH in H. simpl in H. lia.
    + match type of H with
      | bind ?m _ = _ => destruct m as [o1|e]; [|discriminate H]
      end.
      cbn [bind] in H.
      pose proof (pop_operators_stack o1 stack output) as Hn.
      destruct (pop_operators o1 output stack) as [o s]. simpl in Hn.
      apply IH in H. simpl in H. lia.
    + apply IH in H. lia.
    + destruct last_token as [[]|];
        try (destruct (str_call rt v); discriminate H); apply IH in H; lia.
Qed.

Lemma parse_tokens_app (rt : PyRuntime) (self : Parser) (pre post : list token) :
  forall line last_token output stack,
    parse_tokens rt self (pre ++ post) line last_token output stack
    = match parse_tokens rt self pre line last_token output stack with
      | Ok (line', output', stack') =>
          parse_tokens rt self post line' (last_seen pre last_token) output' stack'
      | Raise e => Raise e
      end.
Proof.
  induction pre as [|t pre IH]; intros line last_token output stack.
  - reflexivity.
  - change ((t :: pre) ++ post) with (t :: (pre ++ post)).
    destruct t; cbn [parse_tokens last_seen].
    + apply IH.
    + destruct last_token as [[]|]; try reflexivity;
        destruct (pop_to_paren output stack) as [o [|top [|[|[]] r]]];
        try reflexivity; apply IH.
    + destruct (nothing_before_separator last_token); [reflexivity|].
      destruct (pop_to_paren output stack) as [o [|top [|[|[]] r]]];
        try reflexivity; apply IH.
    + destruct (dict_get (functions self) name); [apply IH | reflexivity].
    + match goal with
      | |- bind ?m _ = _ => destruct m as [o1|e]; [|reflexivity]
      end.
      cbn [bind]. destruct (pop_operators o1 output stack) as [o s]. apply IH.
    + apply IH.
    + destruct last_token as [[]|];
        try (destruct (str_call rt v); reflexivity); apply IH.
Qed.

(** X1 -- [parse] returns a value only for tokens whose parentheses are
    balanced: as many [)] as [(], and no [)] before its [(]. *)
Theorem parse_parentheses_balanced (rt : PyRuntime) (self : Parser)
        (tokens : list token) (failure : option exn) (v : value) :
  parse rt self (tokens, failure) = Ok v ->
  opens tokens = closes tokens
  /\ forall pre post, tokens = pre ++ post -> closes pre <= opens pre.
Proof.
  intros H. unfold parse in H. cbn [fst snd] in H.
  destruct (parse_tokens rt self tokens 1 None [] []) as [[[l o] s]|e] eqn:E;
    [|discriminate H].
  cbn [bind] in H. destruct failure; [discriminate H|].
  destruct (pop_all l o s) as [o'|e] eqn:P; [|discriminate H].
  apply pop_all_no_open in P. split.
  - apply parse_tokens_invariant in E. simpl in E. lia.
  - intros pre post ->. rewrite parse_tokens_app in E.
    destruct (parse_tokens rt self pre 1 None [] []) as [[[l1 o1] s1]|e] eqn:E1;
      [|discriminate E].
    apply parse_tokens_invariant in E1. simpl in E1. lia.
Qed.

(** [(1 + 2) * 3] *)
Definition balanced_example : list token :=
  [OpenParenToken; Other (VInt 1); OperatorToken "+"; Other (VInt 2);
   CloseParenToken; OperatorToken "*"; Other (VInt 3)].

Lemma parse_parentheses_balanced_witness :
  parse example_runtime (Parser_init None None None false) (balanced_example, None)
  = Ok (VInt 9)
  /\ opens balanced_example = closes balanced_example.
Proof.
  split; [reflexivity|].
  apply (proj1 (parse_parentheses_balanced
                  example_runtime (Parser_init None None None false)
                  balanced_example None (VInt 9) eq_refl)).
Defined.

(** X2 -- an unknown function or operator is reported with the line it
    is on: the first line plus the newline tokens before it, if the loop
    got that far. *)
Theorem unknown_name_line (rt : PyRuntime) (self : Parser) (pre post : list token)
        (name : CS) (failure : option exn) :
  is_ok (parse_tokens rt self pre 1 None [] []) = true ->
  (dict_get (functions self) name = None ->
   parse rt self (pre ++ FunctionToken name :: post, failure)
   = Raise (UnknownFunctionException name (1 + newlines pre)))
  /\ (dict_get unary_operators name = None ->
      dict_get binary_operators name = None ->
      parse rt self (pre ++ OperatorToken name :: post, failure)
      = Raise (UnknownOperatorException name (1 + newlines pre))).
Proof.
  intros Hpre.
  destruct (parse_tokens rt self pre 1 None [] []) as [[[l o] s]|e] eqn:E;
    [|discriminate Hpre].
  pose proof (parse_tokens_invariant _ _ _ _ _ _ _ _ _ _ E) as [_ Hl]. subst l.
  split.
  - intros Hname. unfold parse. cbn [fst snd].
    rewrite parse_tokens_app, E. cbn [parse_tokens]. rewrite Hname. reflexivity.
  - intros Hu Hb. unfold parse. cbn [fst snd].
    rewrite parse_tokens_app, E. cbn [parse_tokens]. rewrite Hu, Hb.
    destruct (starts_operand (last_seen pre None)); reflexivity.
Qed.

Lemma unknown_name_line_witness :
  parse example_runtime (Parser_init None None None false)
        ([Other (VInt 1); OperatorToken "+"; NewlineToken; NewlineToken]
         ++ FunctionToken "sqrt" :: [OpenParenToken; Other (VInt 4); CloseParenToken], None)
  = Raise (UnknownFunctionException "sqrt" 3)
  /\ parse example_runtime (Parser_init None None None false)
           ([Other (VInt 1); NewlineToken] ++ OperatorToken "**" :: [Other (VInt 2)], None)
     = Raise (UnknownOperatorException "**" 2).
Proof.
  split.
  - apply (proj1 (unknown_name_line example_runtime (Parser_init None None None false)
                    [Other (VInt 1); OperatorToken "+"; NewlineToken; NewlineToken]
                    [OpenParenToken; Other (VInt 4); CloseParenToken] "sqrt" None
                    eq_refl)).
    reflexivity.
  - apply (proj2 (unknown_name_line example_runtime (Parser_init None None None false)
                    [Other (VInt 1); NewlineToken] [Other (VInt 2)] "**" None eq_refl));
      reflexivity.
Defined.

Lemma parse_newlines (rt : PyRuntime) (self : Parser) (n : nat) :
  forall line last_token,
    exists last',
      parse_tokens rt self (repeat NewlineToken n) line last_token [] []
      = Ok (line + n, [], []) /\ last' = last_seen (repeat NewlineToken n) last_token.
Proof.
  induction n as [|n IH]; intros line last_token; simpl.
  - eexists. rewrite Nat.add_0_r. split; reflexivity.
  - destruct (IH (line + 1) (Some NewlineToken)) as [last' [H _]].
    eexists. rewrite H. split; [f_equal; f_equal; f_equal; lia | reflexivity].
Qed.

(** X3 -- input that is not an expression: nothing but newlines ends in
    [IndexError], the pop from the empty output; an operand right after an
    operand is extra input, whatever follows, and the exception is built
    from [str] of the second operand: for a constant it carries that
    text, for a reference node [str] itself raises and the [TypeError] of
    [CaselessString] is what leaves the parser; an operator without its
    operand is a missing operand. *)
Theorem malformed_input (rt : PyRuntime) (self : Parser) :
  (forall n, parse rt self (repeat NewlineToken n, None) = Raise IndexError)
  /\ (forall v w rest failure,
         parse rt self (Other v :: Other w :: rest, failure)
         = (extra <- str_call rt w ;; Raise (ExtraInputException extra)))
  /\ (forall v w rest failure,
         is_constant w = true ->
         parse rt self (Other v :: Other w :: rest, failure)
         = Raise (ExtraInputException
                    match w with
                    | VBool b => if b then "True" else "False"
                    | VFloat f => str_of_float rt f
                    | VInt z => str_of_Z z
                    | VStr s => s
                    | _ => ""
                    end))
  /\ (forall v variable type rest failure,
         parse rt self (Other v :: Other (ThisReferenceNode variable type) :: rest, failure)
         = Raise (TypeError "string must be a str or CaselessString")
         /\ parse rt self (Other v :: Other (LocalReferenceNode variable type) :: rest,
                           failure)
            = Raise (TypeError "string must be a str or CaselessString"))
  /\ (forall op v,
         parse rt self ([Other v; OperatorToken (binary_operator_name op)], None)
         = Raise (MissingOperandException (binary_operator_name op) 1))
  /\ (forall op,
         parse rt self ([OperatorToken (unary_operator_name op)], None)
         = Raise (MissingOperandException (unary_operator_name op) 1)).
Proof.
  assert (Hextra : forall v w rest failure,
             parse rt self (Other v :: Other w :: rest, failure)
             = (extra <- str_call rt w ;; Raise (ExtraInputException extra))).
  { intros v w rest failure. unfold parse. cbn [fst snd parse_tokens].
    destruct (str_call rt w); reflexivity. }
  split; [|split; [|split; [|split; [|split]]]].
  - intros n. unfold parse. cbn [fst snd].
    destruct (parse_newlines rt self n 1 None) as [last' [H _]]. rewrite H. reflexivity.
  - exact Hextra.
  - intros v w rest failure Hw. rewrite Hextra.
    destruct w as [[|]| | | | | | | | | | | ]; try discriminate Hw; reflexivity.
  - intros v variable type rest failure. rewrite !Hextra. split; reflexivity.
  - intros op v. destruct op; reflexivity.
  - intros op. destruct op; reflexivity.
Qed.

(** ** The value of a parenthesised expression *)

Section BottomUp.

Variable rt : PyRuntime.
Variable self : Parser.

(** The callbacks applied from the leaves up, the right operand and the
    later arguments first. *)
Fixpoint bottom_up (e : expression) : result value :=
  match e with
  | Leaf v => Ok v
  | UnaryApp op e =>
      arg1 <- bottom_up e ;;
      unary_callback op self arg1
  | BinaryApp op e1 e2 =>
      arg2 <- bottom_up e2 ;;
      arg1 <- bottom_up e1 ;;
      binary_callback rt op self arg1 arg2
  | Call f _ args =>
      vs <- (fix all (l : list expression) : result (list value) :=
               match l with
               | [] => Ok []
               | a :: l' =>
                   later <- all l' ;;
                   v <- bottom_up a ;;
                   Ok (v :: later)
               end) args ;;
      function_callback rt f self vs
  end.

Fixpoint bottom_up_all (l : list expression) : result (list value) :=
  match l with
  | [] => Ok []
  | a :: l' =>
      later <- bottom_up_all l' ;;
      v <- bottom_up a ;;
      Ok (v :: later)
  end.

Lemma bottom_up_Call (f : defined_function) (line : nat) (args : list expression) :
  bottom_up (Call f line args)
  = (vs <- bottom_up_all args ;; function_callback rt f self vs).
Proof. reflexivity. Qed.

Definition evaluates_bottom_up (e : expression) : Prop :=
  forall line rest,
    evaluate rt self (output_of e ++ rest) line = (v <- bottom_up e ;; Ok (v, rest)).

Lemma arguments_bottom_up (args : list expression) :
  Forall evaluates_bottom_up args ->
  forall line rest,
    evaluate_args (fun st => evaluate rt self st line) (List.length args)
                  (outputs_of args ++ rest)
    = (vs <- bottom_up_all args ;; Ok (rev vs, rest)).
Proof.
  induction 1 as [|a l Ha Hl IH]; intros line rest.
  - reflexivity.
  - rewrite evaluate_args_last, IH. cbn [bottom_up_all].
    destruct (bottom_up_all l) as [vs|x]; cbn [bind]; [|reflexivity].
    rewrite Ha. destruct (bottom_up a) as [v|x]; reflexivity.
Qed.

Lemma evaluate_bottom_up (e : expression) : evaluates_bottom_up e.
Proof.
  induction e as [v|op e IH|op e1 e2 IH1 IH2|f function_line args IH]
    using expression_induction;
    intros line rest.
  - reflexivity.
  - change (output_of (UnaryApp op e) ++ rest)
      with (UnaryOperator op :: (output_of e ++ rest)).
    rewrite evaluate_unary.
    pose proof (output_of_nonempty e) as Hlen.
    destruct (Nat.ltb_spec (List.length (output_of e ++ rest)) 1) as [Hlt|_].
    { rewrite length_app in Hlt. lia. }
    rewrite IH. cbn [bottom_up].
    destruct (bottom_up e) as [a|x]; cbn [bind]; reflexivity.
  - change (output_of (BinaryApp op e1 e2) ++ rest)
      with (BinaryOperator op :: ((output_of e2 ++ output_of e1) ++ rest)).
    rewrite <- app_assoc. rewrite evaluate_binary.
    pose proof (output_of_nonempty e1) as Hlen1.
    pose proof (output_of_nonempty e2) as Hlen2.
    destruct (Nat.ltb_spec (List.length (output_of e2 ++ output_of e1 ++ rest)) 2)
      as [Hlt|_].
    { rewrite !length_app in Hlt. lia. }
    rewrite IH2. cbn [bottom_up].
    destruct (bottom_up e2) as [a2|x]; cbn [bind]; [|reflexivity].
    rewrite IH1. destruct (bottom_up e1) as [a1|x]; cbn [bind]; reflexivity.
  - rewrite output_of_Call, bottom_up_Call.
    change ((FunctionInvocation f (List.length args) function_line :: outputs_of args)
            ++ rest)
      with (FunctionInvocation f (List.length args) function_line
            :: (outputs_of args ++ rest)).
    rewrite evaluate_function, (arguments_bottom_up args IH).
    destruct (bottom_up_all args) as [vs|x]; cbn [bind]; [|reflexivity].
    rewrite rev_involutive. reflexivity.
Qed.

Lemma parse_output_bottom_up (e : expression) :
  parse_output rt self (output_of e) 1 = bottom_up e.
Proof.
  unfold parse_output. rewrite <- (app_nil_r (output_of e)), evaluate_bottom_up.
  destruct (bottom_up e); reflexivity.
Qed.

(** X4 -- parentheses decide: for an expression written with all its
    parentheses, over any operands, [parse] applies every operator to its
    own operands and every function to its arguments in the order
    written, the right operand and the later arguments being evaluated
    first, and returns the value, or the first exception met on the way. *)
Theorem parse_parenthesised (e : expression) :
  known self 1 e ->
  parse rt self (tokens_of e, None) = bottom_up e.
Proof.
  intros Hknown. rewrite (parse_tokens_of rt self e Hknown).
  apply parse_output_bottom_up.
Qed.

(** X5 -- without parentheses the precedence decides, and the left
    operator on a tie: [a op1 b op2 c] is [a op1 (b op2 c)] when [op2] has
    the higher precedence and [(a op1 b) op2 c] otherwise; a unary operator
    takes its operand before any binary operator does. *)
Theorem precedence_decides (op1 op2 : binary_operator) (u : unary_operator)
        (a b c : value) :
  parse rt self ([Other a; OperatorToken (binary_operator_name op1); Other b;
                  OperatorToken (binary_operator_name op2); Other c], None)
  = bottom_up (if (binary_operator_precedence op1 <? binary_operator_precedence op2)%nat
               then BinaryApp op1 (Leaf a) (BinaryApp op2 (Leaf b) (Leaf c))
               else BinaryApp op2 (BinaryApp op1 (Leaf a) (Leaf b)) (Leaf c))
  /\ parse rt self ([OperatorToken (unary_operator_name u); Other a;
                     OperatorToken (binary_operator_name op1); Other b], None)
     = bottom_up (BinaryApp op1 (UnaryApp u (Leaf a)) (Leaf b))
  /\ parse rt self ([Other a; OperatorToken (binary_operator_name op1);
                     OperatorToken (unary_operator_name u); Other b], None)
     = bottom_up (BinaryApp op1 (Leaf a) (UnaryApp u (Leaf b))).
Proof.
  split; [|split].
  - destruct op1, op2; rewrite <- parse_output_bottom_up; reflexivity.
  - destruct u, op1; rewrite <- parse_output_bottom_up; reflexivity.
  - destruct u, op1; rewrite <- parse_output_bottom_up; reflexivity.
Qed.

End BottomUp.

Lemma parse_parenthesised_witness :
  parse example_runtime
        (Parser_init None None (Some [("a"%string, int_)]) false)
        (tokens_of (Call If 1 [BinaryApp Lt (Leaf (ThisReferenceNode "a" int_))
                                         (Leaf (VInt 2));
                               Leaf (VStr "x"); Leaf (VStr "y")]), None)
  = Ok (IfNode (BinaryOpNode "<" "<" (ThisReferenceNode "a" int_) (VInt 2) bool_)
               (VStr "x") (VStr "y") str_).
Proof.
  rewrite (parse_parenthesised example_runtime
             (Parser_init None None (Some [("a"%string, int_)]) false)).
  - reflexivity.
  - simpl. repeat split; reflexivity.
Defined.

End ParseFacts.

(* ================================================================== *)
(** * Caseless names and dictionaries *)
(* ================================================================== *)

Section CaselessFacts.

Lemma lower_ascii_idempotent (c : ascii) : lower_ascii (lower_ascii c) = lower_ascii c.
Proof. destruct c as [[] [] [] [] [] [] [] []]; reflexivity. Qed.

Lemma str_lower_idempotent (s : string) : str_lower (str_lower s) = str_lower s.
Proof.
  induction s as [|c s IH]; simpl; [reflexivity|].
  rewrite lower_ascii_idempotent, IH. reflexivity.
Qed.

Lemma caseless_eqb_eq (a b : CS) :
  CaselessString.eqb a b = true <-> str_lower a = str_lower b.
Proof. unfold CaselessString.eqb, CaselessString.folded. apply String.eqb_eq. Qed.

Lemma caseless_eqb_refl (a : CS) : CaselessString.eqb a a = true.
Proof. apply caseless_eqb_eq. reflexivity. Qed.

Lemma caseless_eqb_sym (a b : CS) : CaselessString.eqb a b = CaselessString.eqb b a.
Proof.
  unfold CaselessString.eqb. apply String.eqb_sym.
Qed.

Lemma caseless_eqb_lower (a b : CS) :
  CaselessString.eqb (str_lower a) b = CaselessString.eqb a b.
Proof.
  unfold CaselessString.eqb, CaselessString.folded.
  rewrite str_lower_idempotent. reflexivity.
Qed.

(** Two keys that are equal without case find the same entries. *)
Lemma caseless_eqb_trans (a b c : CS) :
  CaselessString.eqb a b = true -> CaselessString.eqb a c = CaselessString.eqb b c.
Proof.
  intros H. apply caseless_eqb_eq in H.
  unfold CaselessString.eqb, CaselessString.folded. rewrite H. reflexivity.
Qed.

Lemma dict_get_set (V : Type) (d : dict V) (k q : CS) (v : V) :
  dict_get (dict_set d k v) q
  = if CaselessString.eqb k q then Some v else dict_get d q.
Proof.
  induction d as [|[k' v'] d IH]; simpl.
  - reflexivity.
  - destruct (CaselessString.eqb k' k) eqn:E; simpl.
    + rewrite (caseless_eqb_trans k' k q E).
      destruct (CaselessString.eqb k q); reflexivity.
    + rewrite IH. destruct (CaselessString.eqb k' q) eqn:E'; [|reflexivity].
      destruct (CaselessString.eqb k q) eqn:E''; [|reflexivity].
      apply caseless_eqb_eq in E'. apply caseless_eqb_eq in E''.
      assert (Hk : CaselessString.eqb k' k = true)
        by (apply caseless_eqb_eq; congruence).
      rewrite Hk in E.
      discriminate.
Qed.

End CaselessFacts.

(* ================================================================== *)
(** * Nodes built by the comparison operators *)
(* ================================================================== *)

Section ComparisonNodes.
Import Expression Giles.

(** The SQL operation of a comparison, and the one that holds with the
    operands exchanged. *)
Definition direct_operation (op : binary_operator) : option string :=
  match op with
  | Equ => Some "=" | Neq => Some "!="
  | Expression.Lt => Some "<" | Lte => Some "<="
  | Expression.Gt => Some ">" | Gte => Some ">="
  | _ => None
  end.

Definition exchanged_operation (op : binary_operator) : option string :=
  match op with
  | Equ => Some "=" | Neq => Some "!="
  | Expression.Lt => Some ">" | Lte => Some ">="
  | Expression.Gt => Some "<" | Gte => Some "<="
  | _ => None
  end.

(** X6 -- a comparison with a node on the left is built as written; a
    comparison of a constant with a node is built the other way round,
    the node on the left and the comparison exchanged.  So a test of a
    field of the matched fact against a constant is a joinable predicate
    in either order. *)
Theorem comparison_puts_the_node_left (rt : PyRuntime) (self : Parser)
        (op : binary_operator) (c n : value) :
  is_constant c = true -> is_Node n = true -> type_of c = type_of n ->
  (forall operation, direct_operation op = Some operation ->
     binary_callback rt op self n c = Ok (BinaryOpNode operation operation n c bool_))
  /\ (forall operation, exchanged_operation op = Some operation ->
        binary_callback rt op self c n = Ok (BinaryOpNode operation operation n c bool_))
  /\ (forall field t w, direct_operation op <> None -> n = ThisReferenceNode field t ->
        binary_callback rt op self c n = Ok w -> joinable w = true).
Proof.
  intros Hc Hn Ht.
  assert (Hacc : accepted relational_types [c; n] = true).
  { apply accepted_In. unfold relational_types. simpl. rewrite <- Ht.
    destruct c; try discriminate Hc; simpl; auto. }
  assert (Hacc' : accepted relational_types [n; c] = true).
  { apply accepted_In. unfold relational_types. simpl. rewrite <- Ht.
    destruct c; try discriminate Hc; simpl; auto. }
  assert (Hdirect : forall operation, direct_operation op = Some operation ->
            binary_callback rt op self n c
            = Ok (BinaryOpNode operation operation n c bool_)).
  { intros operation Hop.
    destruct op; try discriminate Hop; inversion Hop; subst;
      cbn [binary_callback];
      unfold operator_equ, operator_neq, operator_lt, operator_lte, operator_gt,
        operator_gte;
      rewrite (type_check_accepted _ _ _ Hacc');
      destruct c; try discriminate Hc; destruct n; try discriminate Hn; reflexivity. }
  assert (Hexchanged : forall operation, exchanged_operation op = Some operation ->
            binary_callback rt op self c n
            = Ok (BinaryOpNode operation operation n c bool_)).
  { intros operation Hop.
    destruct op; try discriminate Hop; inversion Hop; subst;
      cbn [binary_callback];
      unfold operator_equ, operator_neq, operator_lt, operator_lte, operator_gt,
        operator_gte;
      rewrite (type_check_accepted _ _ _ Hacc);
      destruct c; try discriminate Hc; destruct n; try discriminate Hn; reflexivity. }
  split; [exact Hdirect | split; [exact Hexchanged |]].
  intros field t w Hop -> Hw.
  destruct (exchanged_operation op) as [operation|] eqn:E.
  - rewrite (Hexchanged operation eq_refl) in Hw. inversion Hw; subst. reflexivity.
  - destruct op; try discriminate E; exfalso; apply Hop; reflexivity.
Qed.

Lemma comparison_puts_the_node_left_witness :
  binary_callback example_runtime Expression.Lt (Parser_init None None None false)
                  (VInt 0) (ThisReferenceNode "InitializationTime" int_)
  = Ok (BinaryOpNode ">" ">" (ThisReferenceNode "InitializationTime" int_) (VInt 0) bool_).
Proof.
  apply (proj1 (proj2 (comparison_puts_the_node_left
                         example_runtime (Parser_init None None None false)
                         Expression.Lt (VInt 0)
                         (ThisReferenceNode "InitializationTime" int_)
                         eq_refl eq_refl eq_refl))).
  reflexivity.
Defined.

(** A comparison of a local with a field keeps the local on the left, and
    is no joinable predicate. *)
Example local_on_the_left_is_not_joinable :
  option_map joinable
    (match binary_callback example_runtime Expression.Lt
                           (Parser_init None None None false)
                           (LocalReferenceNode "x" int_) (ThisReferenceNode "a" int_) with
     | Ok w => Some w
     | Raise _ => None
     end)
  = Some false.
Proof. reflexivity. Qed.

End ComparisonNodes.

(* ================================================================== *)
(** * Declared functions and built-in functions *)
(* ================================================================== *)

Section DeclaredFunctions.
Import Expression Giles.

Lemma with_functions_cons (parser : Parser) (name : CS) (clause : function_clause)
      (fs : dict function_clause) :
  with_functions parser ((name, clause) :: fs)
  = with_functions (add_function parser (str_lower name) (ExternalFunction name clause)) fs.
Proof. reflexivity. Qed.

Lemma functions_add_function (parser : Parser) (name q : CS) (f : defined_function) :
  dict_get (Expression.functions (add_function parser (str_lower name) f)) q
  = if CaselessString.eqb name q then Some f
    else dict_get (Expression.functions parser) q.
Proof.
  unfold add_function. cbn [Expression.functions].
  rewrite dict_get_set, caseless_eqb_lower. reflexivity.
Qed.

Lemma with_functions_other (fs : dict function_clause) :
  forall parser q,
    (forall k clause, In (k, clause) fs -> CaselessString.eqb k q = false) ->
    dict_get (Expression.functions (with_functions parser fs)) q
    = dict_get (Expression.functions parser) q.
Proof.
  induction fs as [|[k clause] fs IH]; intros parser q H; [reflexivity|].
  rewrite with_functions_cons, IH.
  - rewrite functions_add_function, (H k clause (or_introl eq_refl)). reflexivity.
  - intros k' clause' Hin. apply (H k' clause'). right. exact Hin.
Qed.

(** X7 -- the parser that [evaluate] makes knows every declared function
    under its name, whatever the case it is written in, also when a
    built-in function has that name; the names that are not declared keep
    the built-in functions. *)
Theorem declared_functions_shadow_builtins (parser : Parser)
        (fs : dict function_clause) (q : CS) :
  NoDup (map (fun entry => str_lower (fst entry)) fs) ->
  (forall k clause,
      In (k, clause) fs -> CaselessString.eqb k q = true ->
      dict_get (Expression.functions (with_functions parser fs)) q
      = Some (ExternalFunction k clause))
  /\ ((forall k clause, In (k, clause) fs -> CaselessString.eqb k q = false) ->
      dict_get (Expression.functions (with_functions parser fs)) q
      = dict_get (Expression.functions parser) q).
Proof.
  intros Hnodup. split; [|apply with_functions_other].
  revert parser Hnodup.
  induction fs as [|[k0 clause0] fs IH]; intros parser Hnodup k clause Hin Hq;
    [contradiction|].
  inversion Hnodup as [|x l Hnotin Hrest]; subst.
  rewrite with_functions_cons.
  destruct Hin as [Hin|Hin].
  - inversion Hin; subst.
    rewrite with_functions_other.
    + rewrite functions_add_function, Hq. reflexivity.
    + intros k' clause' Hin'.
      destruct (CaselessString.eqb k' q) eqn:E; [|reflexivity].
      exfalso. apply Hnotin.
      apply caseless_eqb_eq in E. apply caseless_eqb_eq in Hq.
      cbn [fst]. rewrite Hq, <- E.
      apply (in_map (fun entry => str_lower (fst entry)) fs (k', clause') Hin').
  - apply (IH _ Hrest k clause Hin Hq).
Qed.

Lemma declared_functions_shadow_builtins_witness :
  dict_get (Expression.functions
              (with_functions (Parser_init None None None false)
                 [("IF"%string, {| External := "my_if"; Parameters := [int_];
                                   Returns := int_ |})]))
           "if"
  = Some (ExternalFunction "IF" {| External := "my_if"; Parameters := [int_];
                                   Returns := int_ |})
  /\ dict_get (Expression.functions
                 (with_functions (Parser_init None None None false)
                    [("IF"%string, {| External := "my_if"; Parameters := [int_];
                                      Returns := int_ |})]))
              "int_of_real"
     = Some IntOfReal.
Proof.
  split.
  - apply (proj1 (declared_functions_shadow_builtins
                    (Parser_init None None None false)
                    [("IF"%string, {| External := "my_if"; Parameters := [int_];
                                      Returns := int_ |})]
                    "if" ltac:(repeat constructor; simpl; tauto))).
    + left. reflexivity.
    + reflexivity.
  - rewrite (proj2 (declared_functions_shadow_builtins
                      (Parser_init None None None false)
                      [("IF"%string, {| External := "my_if"; Parameters := [int_];
                                        Returns := int_ |})]
                      "int_of_real" ltac:(repeat constructor; simpl; tauto))).
    + reflexivity.
    + intros k clause [H|[]]. inversion H; subst. reflexivity.
Defined.

End DeclaredFunctions.

(* ================================================================== *)
(** * The validators *)
(* ================================================================== *)

Section ValidateFacts.
Import Validate.

(** The number an [Integer] validator looks at. *)
Definition integer_of (self : Integer) (obj : pyobj) : option Z :=
  match obj with
  | PyInt n => Some n
  | PyBool b => if allow_bool self then Some (Z.b2z b) else None
  | _ => None
  end.

Lemma Integer_checks_accepts (self : Integer) (obj : pyobj) (n : Z)
      (location : string) (r : pyobj) :
  Integer_checks self obj n location = Ok r <->
  r = obj
  /\ (forall v, int_value self = Some v -> n = v)
  /\ (forall m, int_minimum self = Some m -> (m <= n)%Z)
  /\ (forall m, int_maximum self = Some m -> (n <= m)%Z).
Proof.
  unfold Integer_checks.
  destruct (int_value self) as [v|], (int_minimum self) as [lo|],
           (int_maximum self) as [hi|]; simpl;
    repeat match goal with
           | |- context [(?a =? ?b)%Z] => destruct (Z.eqb_spec a b); simpl
           | |- context [(?a <? ?b)%Z] => destruct (Z.ltb_spec a b); simpl
           | |- context [(?a >? ?b)%Z] =>
               rewrite (Z.gtb_ltb a b); destruct (Z.ltb_spec b a); simpl
           end;
    (split;
     [ intros Hr; inversion Hr; subst;
       repeat split; intros ? E; inversion E; subst; lia
     | intros [-> [Hv [Hlo Hhi]]];
       try reflexivity;
       try (specialize (Hv _ eq_refl));
       try (specialize (Hlo _ eq_refl));
       try (specialize (Hhi _ eq_refl)); exfalso; lia ]).
Qed.

(** X8 -- [Integer] accepts exactly the ints, and with [allow_bool] the
    booleans counted as 0 and 1, that equal [value] and lie between
    [minimum] and [maximum], both bounds included; it returns the object
    unchanged. *)
Theorem Integer_accepts (self : Integer) (obj : pyobj) (location : string)
        (r : pyobj) :
  Integer_call self obj location = Ok r <->
  r = obj
  /\ exists n, integer_of self obj = Some n
       /\ (forall v, int_value self = Some v -> n = v)
       /\ (forall m, int_minimum self = Some m -> (m <= n)%Z)
       /\ (forall m, int_maximum self = Some m -> (n <= m)%Z).
Proof.
  unfold Integer_call, integer_of.
  destruct obj; try (split; [discriminate | intros [_ [n [H _]]]; discriminate H]).
  - destruct (allow_bool self); simpl.
    + rewrite Integer_checks_accepts. split.
      * intros [-> H]. split; [reflexivity|]. exists (Z.b2z b). tauto.
      * intros [-> [n [E H]]]. inversion E; subst. tauto.
    + split; [discriminate | intros [_ [n [H _]]]; discriminate H].
  - rewrite Integer_checks_accepts. split.
    + intros [-> H]. split; [reflexivity|]. exists z. tauto.
    + intros [-> [n [E H]]]. inversion E; subst. tauto.
Qed.

(** X9 -- [Float] turns every int and every boolean down with "Expected
    a float", whatever [allow_integer] says: the flag changes no
    result. *)
Theorem Float_allow_integer_is_dead (format_g : float -> string)
        (format_d : float -> result string) (self : Float) (location : string) :
  (forall n, Float_call format_g format_d self (PyInt n) location
             = Raise (ValidationException "Expected a float" location))
  /\ (forall b, Float_call format_g format_d self (PyBool b) location
                = Raise (ValidationException "Expected a float" location))
  /\ (forall flag obj,
        Float_call format_g format_d
                   (mkFloat (float_value self) (float_minimum self)
                            (float_maximum self) flag) obj location
        = Float_call format_g format_d self obj location).
Proof.
  split; [reflexivity | split; [reflexivity |]].
  intros flag obj. destruct obj; reflexivity.
Qed.

(** What [String_call] accepts, in the model. *)
Lemma String_call_accepts (self : String_) (s : string) (location : string)
      (r : pyobj) :
  String_call self (PyStr s) location = Ok r <->
  r = PyStr s
  /\ (forall p, str_pattern self = Some (Literal p) ->
        if str_case_sensitive self then str_lower p = str_lower s else p = s)
  /\ (forall p matches, str_pattern self = Some (Compiled p matches) ->
        matches s = true)
  /\ (forall m, str_min_length self = Some m -> (m <= Z.of_nat (String.length s))%Z)
  /\ (forall m, str_max_length self = Some m -> (Z.of_nat (String.length s) <= m)%Z).
Proof.
  unfold String_call.
  assert (Hpattern :
    forall k : result pyobj,
      (match str_pattern self with
       | Some (Literal p) =>
           if str_case_sensitive self
           then if negb (String.eqb (str_lower p) (str_lower s))
                then Raise (ValidationException
                              ("Expected '" +++ pretty_pattern self +++ "'") location)
                else Ok tt
           else if negb (String.eqb p s)
                then Raise (ValidationException
                              ("Expected '" +++ pretty_pattern self +++ "'") location)
                else Ok tt
       | Some (Compiled _ matches) =>
           if negb (matches s)
           then Raise (ValidationException
                         ("Expected '" +++ pretty_pattern self +++ "'") location)
           else Ok tt
       | None => Ok tt
       end ;;; k) = Ok r <->
      ((forall p, str_pattern self = Some (Literal p) ->
          if str_case_sensitive self then str_lower p = str_lower s else p = s)
       /\ (forall p matches, str_pattern self = Some (Compiled p matches) ->
             matches s = true))
      /\ k = Ok r).
  { intros k. destruct (str_pattern self) as [[p|p matches]|].
    - destruct (str_case_sensitive self).
      + destruct (String.eqb_spec (str_lower p) (str_lower s)) as [E|E]; simpl.
        * split; [intros H; repeat split; try exact H; intros; try discriminate;
             match goal with X : Some _ = Some _ |- _ => inversion X; subst end;
             first [assumption | reflexivity] | tauto].
        * split; [discriminate |].
          intros [[H _] _]. elim E. exact (H p eq_refl).
      + destruct (String.eqb_spec p s) as [E|E]; simpl.
        * split; [intros H; repeat split; try exact H; intros; try discriminate;
             match goal with X : Some _ = Some _ |- _ => inversion X; subst end;
             first [assumption | reflexivity] | tauto].
        * split; [discriminate |].
          intros [[H _] _]. elim E. exact (H p eq_refl).
    - destruct (matches s) eqn:E; simpl.
      + split; [intros H; repeat split; try exact H; intros; try discriminate;
             match goal with X : Some _ = Some _ |- _ => inversion X; subst end;
             first [assumption | reflexivity] | tauto].
      + split; [discriminate |].
        intros [[_ H] _]. rewrite (H p matches eq_refl) in E. discriminate E.
    - simpl. split; [intros H; repeat split; try exact H; discriminate | tauto]. }
  rewrite Hpattern. clear Hpattern.
  destruct (str_min_length self) as [lo|], (str_max_length self) as [hi|]; simpl;
    repeat match goal with
           | |- context [(?a <? ?b)%Z] => destruct (Z.ltb_spec a b); simpl
           | |- context [(?a >? ?b)%Z] =>
               rewrite (Z.gtb_ltb a b); destruct (Z.ltb_spec b a); simpl
           end;
    (split;
     [ intros [[Hp Hc] Hr]; inversion Hr; subst;
       repeat split; try assumption; intros ? E; inversion E; subst; lia
     | intros [-> [Hp [Hc [Hlo Hhi]]]];
       try (split; [split; assumption | reflexivity]);
       try (specialize (Hlo _ eq_refl));
       try (specialize (Hhi _ eq_refl)); exfalso; lia ]).
Qed.

(** X10 -- [String] on a [str] of ASCII characters, the literal pattern,
    if there is one, being ASCII too.  The string is accepted exactly when
    its length is within the bounds, both included, and it agrees with the
    pattern: a compiled pattern has to match, a literal pattern is
    compared without case when [case_sensitive] is set and exactly when
    it is not.  With [case_sensitive] what is returned is the string
    itself.  (Without it the result is the [CaselessString] of the
    string, of which nothing is stated here.) *)
Theorem String_accepts (self : String_) (s : string) (location : string) :
  is_ascii s = true ->
  (forall p, str_pattern self = Some (Literal p) -> is_ascii p = true) ->
  (is_ok (String_call self (PyStr s) location) = true <->
   (forall p, str_pattern self = Some (Literal p) ->
      if str_case_sensitive self then str_lower p = str_lower s else p = s)
   /\ (forall p matches, str_pattern self = Some (Compiled p matches) ->
         matches s = true)
   /\ (forall m, str_min_length self = Some m -> (m <= Z.of_nat (String.length s))%Z)
   /\ (forall m, str_max_length self = Some m -> (Z.of_nat (String.length s) <= m)%Z))
  /\ (str_case_sensitive self = true ->
      forall r, String_call self (PyStr s) location = Ok r -> r = PyStr s).
Proof.
  intros _ _. split.
  - split.
    + intros H. destruct (String_call self (PyStr s) location) as [r|e] eqn:E;
        [|discriminate H].
      exact (proj2 (proj1 (String_call_accepts self s location r) E)).
    + intros H.
      rewrite (proj2 (String_call_accepts self s location (PyStr s)) (conj eq_refl H)).
      reflexivity.
  - intros _ r E. exact (proj1 (proj1 (String_call_accepts self s location r) E)).
Qed.

(** Instance: the pattern [Yes] with [case_sensitive] accepts [YES]. *)
Lemma String_accepts_witness :
  String_call (mkString (Some (Literal "Yes")) (Some 1%Z) (Some 3%Z) true)
              (PyStr "YES") "/"
  = Ok (PyStr "YES").
Proof.
  assert (Hp : forall p,
             str_pattern (mkString (Some (Literal "Yes")) (Some 1%Z) (Some 3%Z) true)
             = Some (Literal p) -> is_ascii p = true).
  { intros p H. inversion H. reflexivity. }
  pose proof (String_accepts (mkString (Some (Literal "Yes")) (Some 1%Z) (Some 3%Z) true)
                             "YES" "/" eq_refl Hp) as [_ Hr].
  destruct (String_call (mkString (Some (Literal "Yes")) (Some 1%Z) (Some 3%Z) true)
                        (PyStr "YES") "/") as [r|e] eqn:E; [|discriminate E].
  rewrite (Hr eq_refl r eq_refl). reflexivity.
Defined.

(** ** Any and All *)

Lemma messages_of_app (l : list exn) (ms : list string) (message location : string) :
  messages_of l = Ok ms ->
  messages_of (l ++ [ValidationException message location]) = Ok (ms ++ [message]).
Proof.
  revert ms. induction l as [|e l IH]; intros ms H; simpl in *.
  - inversion H; subst. reflexivity.
  - destruct e; try discriminate H.
    destruct (messages_of l) as [ms'|] eqn:E; simpl in H; [|discriminate H].
    inversion H; subst. rewrite (IH ms' eq_refl). reflexivity.
Qed.

Lemma Any_try_accepts (obj : pyobj) (location : string) (r : pyobj)
      (validators : list validator) :
  forall exceptions,
    Any_try validators obj location exceptions = Ok r <->
    exists before v after,
      validators = before ++ v :: after
      /\ Forall (fun w => is_ok (w obj location) = false) before
      /\ v obj location = Ok r.
Proof.
  induction validators as [|v rest IH]; intros exceptions; simpl.
  - split.
    + destruct (messages_of exceptions); discriminate.
    + intros [before [v [after [H _]]]]. destruct before; discriminate H.
  - destruct (v obj location) as [r0|e] eqn:E.
    + split.
      * intros H. exists [], v, rest. inversion H; subst. auto.
      * intros [before [w [after [H [Hb Hw]]]]].
        destruct before as [|b before]; simpl in H; inversion H; subst.
        -- congruence.
        -- inversion Hb as [|? ? Hv]; subst. rewrite E in Hv. discriminate Hv.
    + rewrite IH. split.
      * intros [before [w [after [H [Hb Hw]]]]].
        exists (v :: before), w, after. subst. repeat split; auto.
        constructor; [rewrite E; reflexivity | exact Hb].
      * intros [before [w [after [H [Hb Hw]]]]].
        destruct before as [|b before]; simpl in H; inversion H; subst.
        -- congruence.
        -- inversion Hb; subst. exists before, w, after. auto.
Qed.

Lemma Any_try_rejects (obj : pyobj) (location : string)
      (validators : list validator) :
  forall exceptions collected ms,
    messages_of exceptions = Ok collected ->
    Forall2 (fun v m => exists l, v obj location = Raise (ValidationException m l))
            validators ms ->
    Any_try validators obj location exceptions
    = Raise (ValidationException (join " and " (collected ++ ms)) location).
Proof.
  induction validators as [|v rest IH]; intros exceptions collected ms Hc H;
    inversion H as [|? m ? ms' [l Hv] Hrest]; subst; simpl.
  - rewrite Hc, app_nil_r. reflexivity.
  - rewrite Hv.
    rewrite (IH _ (collected ++ [m]) ms' (messages_of_app _ _ m l Hc) Hrest).
    rewrite <- app_assoc. reflexivity.
Qed.

(** X11 -- [Any] returns what the first validator that accepts the object
    returns, and calls none after it; when every validator raises a
    [ValidationException], it raises one whose message joins theirs with
    " and ", in the order of the validators. *)
Theorem Any_first_success (validators : list validator) (obj : pyobj)
        (location : string) :
  (forall r,
     Any_call validators obj location = Ok r <->
     exists before v after,
       validators = before ++ v :: after
       /\ Forall (fun w => is_ok (w obj location) = false) before
       /\ v obj location = Ok r)
  /\ (forall ms,
        Forall2 (fun v m => exists l, v obj location = Raise (ValidationException m l))
                validators ms ->
        Any_call validators obj location
        = Raise (ValidationException (join " and " ms) location)).
Proof.
  split.
  - intros r. apply Any_try_accepts.
  - intros ms H. unfold Any_call.
    rewrite (Any_try_rejects obj location validators [] [] ms eq_refl H).
    reflexivity.
Qed.

(** [AnyExpression] of [giles.py], without the formats of [Float] that no
    message of it needs. *)
Definition AnyExpression : validator :=
  Any_call [Integer_call (mkInteger None None None true);
            Float_call (fun _ => "") (fun _ => Ok "") (mkFloat None None None true);
            String_call (mkString None None None true);
            InstanceOf_DelayedExpression].

Lemma Any_first_success_witness :
  AnyExpression (PyStr "x") "/" = Ok (PyStr "x")
  /\ AnyExpression PyNone "/"
     = Raise (ValidationException
                "Expected an integer and Expected a float and Expected a string and Expected an object of type '<class 'giles.expression.DelayedExpression'>'"
                "/").
Proof.
  split.
  - apply (proj1 (Any_first_success _ (PyStr "x") "/")).
    exists [Integer_call (mkInteger None None None true);
            Float_call (fun _ => "") (fun _ => Ok "") (mkFloat None None None true)],
           (String_call (mkString None None None true)),
           [InstanceOf_DelayedExpression].
    repeat split. repeat constructor.
  - apply (proj2 (Any_first_success
                    [Integer_call (mkInteger None None None true);
                     Float_call (fun _ => "") (fun _ => Ok "")
                                (mkFloat None None None true);
                     String_call (mkString None None None true);
                     InstanceOf_DelayedExpression] PyNone "/")
                 ["Expected an integer"; "Expected a float"; "Expected a string";
                  "Expected an object of type '<class 'giles.expression.DelayedExpression'>'"]).
    repeat constructor; exists "/"; reflexivity.
Defined.

Lemma All_each_accepts (obj : pyobj) (location : string) (validators : list validator) :
  All_each validators obj location = Ok tt <->
  Forall (fun v => is_ok (v obj location) = true) validators.
Proof.
  induction validators as [|v rest IH]; simpl.
  - split; auto.
  - destruct (v obj location) as [r|e] eqn:E; simpl.
    + rewrite IH. split.
      * intros H. constructor; [rewrite E; reflexivity | exact H].
      * intros H. inversion H; subst. assumption.
    + split; [discriminate |].
      intros H. inversion H as [|? ? Hv]; subst. rewrite E in Hv. discriminate Hv.
Qed.

(** X12 -- [All] accepts an object when every validator accepts it, and
    then returns the object as it came, not what the validators made of
    it; otherwise the exception is the one of the first validator that
    rejects. *)
Theorem All_returns_the_object (validators : list validator) (obj : pyobj)
        (location : string) :
  (forall r,
     All_call validators obj location = Ok r <->
     r = obj /\ Forall (fun v => is_ok (v obj location) = true) validators)
  /\ (forall before v after e,
        validators = before ++ v :: after ->
        Forall (fun w => is_ok (w obj location) = true) before ->
        v obj location = Raise e ->
        All_call validators obj location = Raise e).
Proof.
  split.
  - intros r. unfold All_call.
    destruct (All_each validators obj location) as [[]|e] eqn:E; simpl.
    + apply All_each_accepts in E. split.
      * intros H. inversion H; subst. auto.
      * intros [-> _]. reflexivity.
    + split; [discriminate |].
      intros [_ H]. apply All_each_accepts in H. congruence.
  - intros before v after e -> Hb Hv. unfold All_call.
    induction before as [|b before IH]; simpl.
    + rewrite Hv. reflexivity.
    + inversion Hb as [|? ? Hok Hrest]; subst.
      destruct (b obj location); [|discriminate Hok]. simpl.
      apply IH. exact Hrest.
Qed.

Lemma All_returns_the_object_witness :
  All_call [List_call (mkList AnyExpression None None);
            Integer_call (mkInteger None None None false)]
           (PyList [PyInt 1]) "/"
  = Raise (ValidationException "Expected an integer" "/").
Proof.
  apply (proj2 (All_returns_the_object
                  [List_call (mkList AnyExpression None None);
                   Integer_call (mkInteger None None None false)]
                  (PyList [PyInt 1]) "/")
               [List_call (mkList AnyExpression None None)]
               (Integer_call (mkInteger None None None false)) []).
  - reflexivity.
  - repeat constructor.
  - reflexivity.
Defined.

(** ** Dictionary *)

Section DictionaryFacts.
Variable self : Dictionary.
Variable location : string.

Let cs := dict_case_sensitive self.

(** The validator a key is given to: the one of [required], else the one
    of [optional], else [extra]. *)
Definition chosen (key : string) : option validator :=
  match validator_of cs (required self) key with
  | Some v => Some v
  | None =>
      match validator_of cs (optional self) key with
      | Some v => Some v
      | None => extra self
      end
  end.

(** The keys that count as extra. *)
Definition is_extra_key (k : pyobj) : bool :=
  match k with
  | PyStr key =>
      match validator_of cs (required self) key, validator_of cs (optional self) key with
      | None, None => true
      | _, _ => false
      end
  | _ => false
  end.

Definition extras (keys : list pyobj) : Z :=
  Z.of_nat (List.length (filter is_extra_key keys)).

(** An entry of the result against the item it was made from. *)
Definition validated (item entry : pyobj * pyobj) : Prop :=
  exists key v,
    fst item = PyStr key /\ fst entry = PyStr key
    /\ chosen key = Some v
    /\ v (snd item) (location +++ "[" +++ key +++ "]") = Ok (snd entry).

Lemma folded_eqb_refl (b : bool) (a : string) : folded_eqb b a a = true.
Proof.
  destruct b; simpl; [apply String.eqb_refl|].
  unfold CaselessString.eqb. apply String.eqb_refl.
Qed.

Lemma count_key_app (b : bool) (l1 l2 : list pyobj) (key : string) :
  count_key b (l1 ++ l2) key = (count_key b l1 key + count_key b l2 key)%nat.
Proof. unfold count_key. rewrite filter_app, length_app. reflexivity. Qed.

Lemma count_key_here (b : bool) (l : list pyobj) (key : string) :
  count_key b (PyStr key :: l) key = S (count_key b l key).
Proof. unfold count_key. simpl. rewrite folded_eqb_refl. reflexivity. Qed.

Lemma count_key_none (b : bool) (l : list pyobj) (key : string) :
  count_key b l key = 0%nat -> forall k, In k l -> key_eqb b key k = false.
Proof.
  unfold count_key. induction l as [|k' l IH]; intros H k Hin; [contradiction|].
  simpl in H. destruct (key_eqb b key k') eqn:E; [discriminate H|].
  destruct Hin as [->|Hin]; [exact E | exact (IH H k Hin)].
Qed.

Lemma dummy_get_none (b : bool) (items : list (pyobj * pyobj)) (key : string) :
  (forall k, In k (map fst items) -> key_eqb b key k = false) ->
  dummy_get b items key = None.
Proof.
  induction items as [|[k v] items IH]; intros H; simpl; [reflexivity|].
  rewrite IH by (intros k' Hin; apply H; right; exact Hin).
  rewrite (H k (or_introl eq_refl)). reflexivity.
Qed.

Lemma dummy_get_unique (b : bool) (before after : list (pyobj * pyobj))
      (key : string) (v : pyobj) :
  (forall k, In k (map fst after) -> key_eqb b key k = false) ->
  dummy_get b (before ++ (PyStr key, v) :: after) key = Some v.
Proof.
  intros H. induction before as [|[k' v'] before IH]; simpl.
  - rewrite (dummy_get_none b after key H), folded_eqb_refl. reflexivity.
  - rewrite IH. reflexivity.
Qed.

Lemma result_set_append (b : bool) (result : list (pyobj * pyobj)) (key : string)
      (r : pyobj) :
  (forall k, In k (map fst result) -> key_eqb b key k = false) ->
  result_set b result key r = result ++ [(PyStr key, r)].
Proof.
  induction result as [|[k w] result IH]; intros H; simpl; [reflexivity|].
  rewrite (H k (or_introl eq_refl)), IH; [reflexivity|].
  intros k' Hin. apply H. right. exact Hin.
Qed.

Lemma validated_keys (items result : list (pyobj * pyobj)) :
  Forall2 validated items result -> map fst result = map fst items.
Proof.
  induction 1 as [|item entry items result [key [v [Hi [He _]]]] _ IH]; simpl;
    [reflexivity|].
  rewrite IH, Hi, He. reflexivity.
Qed.

Lemma Dictionary_required_accepts (required : list string) (keys : list pyobj) :
  Dictionary_required cs required keys location = Ok tt <->
  forall key, In key required -> existsb (key_eqb cs key) keys = true.
Proof.
  induction required as [|key rest IH]; simpl.
  - split; [intros _ key [] | reflexivity].
  - destruct (existsb (key_eqb cs key) keys) eqn:E; simpl.
    + rewrite IH. split.
      * intros H k [<-|Hin]; [exact E | exact (H k Hin)].
      * intros H k Hin. apply H. right. exact Hin.
    + split; [discriminate |].
      intros H. rewrite (H key (or_introl eq_refl)) in E. discriminate E.
Qed.

(** One round of the loop over the keys, when it goes through. *)
Lemma Dictionary_key_accepts (items result result' : list (pyobj * pyobj))
      (key : string) (n n' : Z) :
  allow_duplicates self = false ->
  Dictionary_key self items location key (result, n) = Ok (result', n') ->
  (count_key cs (map fst items) key <= 1)%nat
  /\ n' = (n + if is_extra_key (PyStr key) then 1 else 0)%Z
  /\ exists v x r,
       chosen key = Some v
       /\ dummy_get cs items key = Some x
       /\ v x (location +++ "[" +++ key +++ "]") = Ok r
       /\ result' = result_set cs result key r.
Proof.
  intros Hdup. unfold Dictionary_key, chosen, is_extra_key, dummy_value. fold cs.
  rewrite Hdup. simpl negb. cbv beta iota.
  destruct (Nat.ltb_spec 1 (count_key cs (map fst items) key)) as [Hc|Hc];
    [discriminate|]. simpl andb. cbv iota.
  intros H. split; [exact Hc|].
  destruct (validator_of cs (required self) key) as [v|];
    [|destruct (validator_of cs (optional self) key) as [v|];
      [|destruct (extra self) as [v|]; [|discriminate H]]].
  - destruct (extra self);
      (destruct (dummy_get cs items key) as [x|]; simpl in H; [|discriminate H];
       destruct (v x _) as [r|] eqn:E; simpl in H; [|discriminate H];
       inversion H; subst; split; [lia|]; exists v, x, r; auto).
  - destruct (extra self);
      (destruct (dummy_get cs items key) as [x|]; simpl in H; [|discriminate H];
       destruct (v x _) as [r|] eqn:E; simpl in H; [|discriminate H];
       inversion H; subst; split; [lia|]; exists v, x, r; auto).
  - destruct (extra_keys self) as [check|]; simpl in H;
      [destruct (check _ _); simpl in H; [|discriminate H]|];
      (destruct (dummy_get cs items key) as [x|]; simpl in H; [|discriminate H];
       destruct (v x _) as [r|] eqn:E; simpl in H; [|discriminate H];
       inversion H; subst; split; [reflexivity|]; exists v, x, r; auto).
Qed.

Lemma Dictionary_keys_accepts (items : list (pyobj * pyobj)) :
  allow_duplicates self = false ->
  forall todo done result n result' n',
    items = done ++ todo ->
    Forall2 validated done result ->
    Dictionary_keys self items location (map fst todo) (result, n) = Ok (result', n') ->
    Forall2 validated items result'
    /\ n' = (n + extras (map fst todo))%Z
    /\ (forall key v, In (PyStr key, v) todo ->
                      count_key cs (map fst items) key = 1%nat).
Proof.
  intros Hdup.
  induction todo as [|[k v] todo IH]; intros done result n result' n' Hitems Hdone H.
  - simpl in H. inversion H; subst. rewrite app_nil_r. unfold extras. simpl.
    split; [exact Hdone | split; [lia | intros ? ? []]].
  - cbn [Dictionary_keys map fst] in H. destruct k; try discriminate H.
    destruct (Dictionary_key self items location s (result, n))
      as [[result1 n1]|] eqn:E; simpl in H; [|discriminate H].
    pose proof Dictionary_key_accepts as K.
    specialize (K _ _ _ _ _ _ Hdup E).
    destruct K as [Hc [Hn [w [x [r [Hw [Hx [Hr Hresult]]]]]]]].
    assert (Hcount : count_key cs (map fst done) s = 0%nat
                     /\ count_key cs (map fst todo) s = 0%nat).
    { rewrite Hitems, map_app, count_key_app in Hc. simpl map in Hc.
      rewrite count_key_here in Hc. lia. }
    destruct Hcount as [Hcd Hct].
    assert (Hx' : x = v).
    { rewrite Hitems, (dummy_get_unique cs done todo s v) in Hx.
      - inversion Hx. reflexivity.
      - apply count_key_none. exact Hct. }
    subst x.
    assert (Hresult' : result1 = result ++ [(PyStr s, r)]).
    { rewrite Hresult. apply result_set_append.
      rewrite (validated_keys _ _ Hdone). apply count_key_none. exact Hcd. }
    destruct (IH (done ++ [(PyStr s, v)]) result1 n1 result' n') as [H1 [H2 H3]].
    + rewrite <- app_assoc. exact Hitems.
    + rewrite Hresult'. apply Forall2_app; [exact Hdone|].
      constructor; [|constructor]. exists s, w. auto.
    + exact H.
    + split; [exact H1|]. split.
      * rewrite H2, Hn. unfold extras. cbn [map fst filter].
        destruct (is_extra_key (PyStr s)); cbn [List.length]; lia.
      * intros key v' [Hin|Hin]; [|exact (H3 key v' Hin)].
        inversion Hin; subst key v'.
        rewrite Hitems, map_app, count_key_app. simpl map.
        rewrite count_key_here. lia.
Qed.

(** X13 -- a dictionary that [Dictionary] accepts without [allow_dups]
    has every required key, only [str] keys, no two of them equal (equal
    without case, unless [case_sensitive]), and between [min_extra] and
    [max_extra] keys, both included, that are neither required nor
    optional.  The result has the keys of the dictionary in their order,
    each with what its validator returned for the value: the validator of
    [required], else the one of [optional], else [extra]. *)
Theorem Dictionary_accepts (items : list (pyobj * pyobj)) (r : pyobj) :
  allow_duplicates self = false ->
  Dictionary_call self (PyDict items) location = Ok r ->
  exists result,
    r = PyDict result
    /\ Forall2 validated items result
    /\ (forall key, In key (map fst (required self)) ->
                    existsb (key_eqb (dict_case_sensitive self) key) (map fst items) = true)
    /\ (forall key v, In (PyStr key, v) items ->
                      count_key (dict_case_sensitive self) (map fst items) key = 1%nat)
    /\ (forall m, min_extra self = Some m -> (m <= extras (map fst items))%Z)
    /\ (forall m, max_extra self = Some m -> (extras (map fst items) <= m)%Z).
Proof.
  intros Hdup H. unfold Dictionary_call in H. fold cs in H.
  destruct (Dictionary_required cs (map fst (required self)) (map fst items) location)
    as [[]|] eqn:Er; simpl in H; [|discriminate H].
  destruct (Dictionary_keys self items location (map fst items) ([], 0%Z))
    as [[result n]|] eqn:Ek; simpl in H; [|discriminate H].
  pose proof Dictionary_keys_accepts as K.
  specialize (K items Hdup items [] [] 0%Z result n eq_refl (Forall2_nil _) Ek).
  destruct K as [H1 [H2 H3]].
  pose proof (proj1 (Dictionary_required_accepts _ _) Er) as Hrequired.
  exists result. subst n. rewrite Z.add_0_l in H.
  destruct (min_extra self) as [lo|], (max_extra self) as [hi|]; simpl in H;
    repeat match type of H with
           | context [(?a <? ?b)%Z] => destruct (Z.ltb_spec a b); simpl in H
           | context [(?a >? ?b)%Z] =>
               rewrite (Z.gtb_ltb a b) in H; destruct (Z.ltb_spec b a); simpl in H
           end;
    try discriminate H;
    inversion H; subst;
    (split; [reflexivity|]; split; [exact H1|]; split; [exact Hrequired|];
     split; [exact H3|]; split; intros ? E; inversion E; subst; lia).
Qed.

End DictionaryFacts.

(** [ValidFunction]'s shape: two required keys, no other key allowed. *)
Definition example_dictionary : Dictionary :=
  mkDictionary [("External", String_call (mkString None None None true));
                ("Parameters", List_call (mkList (String_call (mkString None None None false))
                                                 None None))]
               [("Returns", String_call (mkString None None None false))]
               None None None None false false.

Lemma Dictionary_accepts_witness :
  Dictionary_call example_dictionary
                  (PyDict [(PyStr "parameters", PyList [PyStr "integer"]);
                           (PyStr "EXTERNAL", PyStr "f")]) "/"
  = Ok (PyDict [(PyStr "parameters", PyList [PyStr "integer"]);
                (PyStr "EXTERNAL", PyStr "f")])
  /\ exists result,
       Ok (PyDict [(PyStr "parameters", PyList [PyStr "integer"]);
                   (PyStr "EXTERNAL", PyStr "f")]) = Ok (PyDict result)
       /\ map fst result = [PyStr "parameters"; PyStr "EXTERNAL"].
Proof.
  split; [reflexivity|].
  destruct (Dictionary_accepts example_dictionary "/"
              [(PyStr "parameters", PyList [PyStr "integer"]);
               (PyStr "EXTERNAL", PyStr "f")]
              (PyDict [(PyStr "parameters", PyList [PyStr "integer"]);
                       (PyStr "EXTERNAL", PyStr "f")]) eq_refl eq_refl)
    as [result [Hr [Hv _]]].
  exists result. split.
  - exact (f_equal Ok Hr).
  - exact (validated_keys _ _ _ _ Hv).
Defined.

End ValidateFacts.

(* ================================================================== *)
(** * The loops of the analysis and their handlers *)
(* ================================================================== *)

Section Loops.
Import Expression Giles.

Variable rt : PyRuntime.
Variable allow_regexp : bool.
Variable tokenize : dict value -> dict type_tag -> dict type_tag -> string
                    -> token_stream.

Create HintDb loops.

Local Hint Resolve reads_only_ret reads_only_raise reads_only_gets reads_only_lift
  reads_only_raise_if : loops.

(** A statement run from a state in [P] ends in [Q] when it returns and
    in [E] when it raises. *)
Definition ends {A : Type} (P : state -> Prop) (m : M A) (Q : A -> state -> Prop)
           (E : state -> Prop) : Prop :=
  forall s, P s -> match m s with
                   | (Ok a, s') => Q a s'
                   | (Raise _, s') => E s'
                   end.

Lemma ends_bind {A B : Type} (P : state -> Prop) (m : M A) (Q : A -> state -> Prop)
      (k : A -> M B) (R : B -> state -> Prop) (E : state -> Prop) :
  ends P m Q E -> (forall a, ends (Q a) (k a) R E) -> ends P (bindM m k) R E.
Proof.
  intros Hm Hk s Hs. unfold bindM. specialize (Hm s Hs).
  destruct (m s) as [[a|e] s']; [exact (Hk a s' Hm) | exact Hm].
Qed.

Lemma ends_reads {A : Type} (P : state -> Prop) (m : M A) :
  reads_only m -> ends P m (fun _ => P) P.
Proof.
  intros Hm s Hs. specialize (Hm s).
  destruct (m s) as [[a|e] s']; simpl in Hm; subst; exact Hs.
Qed.

Lemma ends_weaken {A : Type} (P : state -> Prop) (m : M A) (Q Q' : A -> state -> Prop)
      (E E' : state -> Prop) :
  ends P m Q E -> (forall a s, Q a s -> Q' a s) -> (forall s, E s -> E' s) ->
  ends P m Q' E'.
Proof.
  intros Hm HQ HE s Hs. specialize (Hm s Hs).
  destruct (m s) as [[a|e] s']; auto.
Qed.

Lemma state_eq (s s' : state) :
  constants s' = constants s -> distincts s' = distincts s ->
  functions s' = functions s -> parameters s' = parameters s ->
  rules s' = rules s -> facts s' = facts s ->
  errors s' = errors s -> log s' = log s -> s' = s.
Proof. destruct s, s'; simpl; intros; subst; reflexivity. Qed.

(** ** Dictionaries and a key that is new *)

Lemma dict_mem_get {V : Type} (d : dict V) (k : CS) :
  dict_mem d k = false -> dict_get d k = None.
Proof. unfold dict_mem. destruct (dict_get d k); [discriminate | reflexivity]. Qed.

Lemma dict_get_new {V : Type} (d : dict V) (k : CS) (v : V) :
  dict_get d k = None -> dict_get (d ++ [(k, v)]) k = Some v.
Proof.
  induction d as [|[k' v'] d IH]; simpl; intros H.
  - rewrite caseless_eqb_refl. reflexivity.
  - destruct (CaselessString.eqb k' k); [discriminate H | exact (IH H)].
Qed.

Lemma dict_set_new {V : Type} (d : dict V) (k : CS) (v : V) :
  dict_get d k = None -> dict_set d k v = d ++ [(k, v)].
Proof.
  induction d as [|[k' v'] d IH]; simpl; intros H; [reflexivity|].
  destruct (CaselessString.eqb k' k); [discriminate H|].
  rewrite (IH H). reflexivity.
Qed.

Lemma dict_set_last {V : Type} (d : dict V) (k : CS) (v w : V) :
  dict_get d k = None -> dict_set (d ++ [(k, v)]) k w = d ++ [(k, w)].
Proof.
  induction d as [|[k' v'] d IH]; simpl; intros H.
  - rewrite caseless_eqb_refl. reflexivity.
  - destruct (CaselessString.eqb k' k); [discriminate H|].
    rewrite (IH H). reflexivity.
Qed.

Lemma dict_remove_last {V : Type} (d : dict V) (k : CS) (v : V) :
  dict_get d k = None -> dict_remove (d ++ [(k, v)]) k = d.
Proof.
  induction d as [|[k' v'] d IH]; simpl; intros H.
  - rewrite caseless_eqb_refl. reflexivity.
  - destruct (CaselessString.eqb k' k); [discriminate H|].
    rewrite (IH H). reflexivity.
Qed.

Lemma dict_del_last {V : Type} (d : dict V) (k : CS) (v : V) :
  dict_get d k = None -> dict_del (d ++ [(k, v)]) k = Ok d.
Proof.
  intros H. unfold dict_del, dict_mem.
  rewrite (dict_get_new d k v H), (dict_remove_last d k v H). reflexivity.
Qed.

(** ** The constants *)

(** X14 -- a constant whose name is not yet taken.  When its initializer
    cannot be evaluated, the handler's [del constants[name]] finds
    nothing to delete: a [KeyError] leaves the loop and no error is
    counted.  When the initializer gives a node, the constant is taken out
    again and one error is counted; when it gives a constant, the constant
    is defined. *)
Theorem constant_initializer_outcomes (name : CS) (val : any_expression) (s : state) :
  dict_mem (constants s) name = false ->
  match fst (evaluate rt allow_regexp tokenize val None None s) with
  | Raise _ =>
      process_constant rt allow_regexp tokenize (name, val) s = (Raise (KeyError name), s)
  | Ok v =>
      process_constant rt allow_regexp tokenize (name, val) s
      = if is_constant v
        then (Ok tt, set_constants (constants s ++ [(name, v)]) s)
        else error ("Error processing constants: Invalid constant '" +++ name
                    +++ "': not a constant initializer") s
  end.
Proof.
  intros Hmem. pose proof (dict_mem_get _ _ Hmem) as Hget.
  pose proof (reads_only_evaluate rt allow_regexp tokenize val None None s) as Hs.
  destruct (evaluate rt allow_regexp tokenize val None None s) as [[v|e] s'] eqn:E;
    simpl in Hs; subst s'; simpl fst;
    unfold process_constant, try_except, bindM; rewrite E.
  - unfold modify, raise_if, gets, lift. cbn [constants set_constants].
    rewrite (dict_set_new _ _ v Hget).
    destruct (is_constant v); simpl; [reflexivity|].
    rewrite (dict_del_last _ _ v Hget).
    unfold error, modify. simpl. reflexivity.
  - unfold gets, lift, dict_del. rewrite Hmem. reflexivity.
Qed.

(** ** The parameters *)

Section ParameterLoop.

Variable name : CS.
Variable s0 : state.
Hypothesis name_no_fact : dict_mem (facts s0) name = false.
Hypothesis name_no_parameter : dict_mem (parameters s0) name = false.

(** The states the [try] block goes through after [parameters[name] = {}]:
    the entry of the parameter is the last of [parameters], and [facts]
    is as before or has the parameter's fact as its last entry. *)
Definition entered (F : dict fact -> Prop) (s : state) : Prop :=
  constants s = constants s0 /\ distincts s = distincts s0
  /\ functions s = functions s0 /\ rules s = rules s0
  /\ errors s = errors s0 /\ log s = log s0
  /\ (exists p, parameters s = parameters s0 ++ [(name, p)])
  /\ F (facts s).

Definition fact_or_not (fs : dict fact) : Prop :=
  fs = facts s0 \/ exists f, fs = facts s0 ++ [(name, f)].

Definition with_fact (fs : dict fact) : Prop :=
  exists f, fs = facts s0 ++ [(name, f)].

Lemma entered_weaken (s : state) : entered with_fact s -> entered fact_or_not s.
Proof.
  unfold entered. intros (H1 & H2 & H3 & H4 & H5 & H6 & H7 & H8).
  repeat (split; [assumption|]). right. exact H8.
Qed.

Lemma ends_reads_into {A : Type} (P E : state -> Prop) (m : M A) :
  reads_only m -> (forall s, P s -> E s) -> ends P m (fun _ => P) E.
Proof.
  intros Hm HE. eapply ends_weaken; [apply (ends_reads P m Hm) | auto | exact HE].
Qed.

Lemma ends_update_parameter (F : dict fact -> Prop) (E : state -> Prop)
      (f : parameter -> parameter) :
  ends (entered F) (update_parameter name f) (fun _ => entered F) E.
Proof.
  intros s (H1 & H2 & H3 & H4 & H5 & H6 & [p H7] & H8).
  unfold update_parameter, bindM, gets. rewrite H7.
  rewrite (dict_get_new _ _ p (dict_mem_get _ _ name_no_parameter)).
  unfold modify. unfold entered. cbn.
  repeat (split; [assumption|]). split; [|exact H8].
  exists (f p). apply dict_set_last. apply dict_mem_get. exact name_no_parameter.
Qed.

Lemma ends_new_fact (E : state -> Prop) (f : fact) :
  ends (entered fact_or_not)
       (modify (fun s => set_facts (dict_set (facts s) name f) s))
       (fun _ => entered with_fact) E.
Proof.
  intros s (H1 & H2 & H3 & H4 & H5 & H6 & H7 & H8).
  unfold modify, entered. cbn.
  repeat (split; [assumption|]). exists f.
  destruct H8 as [H8|[f' H8]]; rewrite H8.
  - apply dict_set_new. apply dict_mem_get. exact name_no_fact.
  - apply dict_set_last. apply dict_mem_get. exact name_no_fact.
Qed.

Lemma ends_add_field (E : state -> Prop) (field : CS) (t : type_tag) :
  ends (entered with_fact) (add_field name field t) (fun _ => entered with_fact) E.
Proof.
  intros s (H1 & H2 & H3 & H4 & H5 & H6 & H7 & [f H8]).
  unfold add_field, bindM, gets. rewrite H8.
  rewrite (dict_get_new _ _ f (dict_mem_get _ _ name_no_fact)).
  unfold modify, entered. cbn.
  repeat (split; [assumption|]).
  eexists. apply dict_set_last. apply dict_mem_get. exact name_no_fact.
Qed.

Ltac reading :=
  apply ends_reads_into;
  [ first [ apply reads_only_evaluate | auto with loops ] | auto ].

Lemma parameter_limits_end (clause : parameter_clause) (d : value) :
  ends (entered fact_or_not)
       (match type_of d with
        | float_ | int_ =>
            match Lower clause with
            | None =>
                raise (Exception ("Invalid parameter '" +++ name
                                  +++ "': no lower limit specified"))
            | Some lo =>
                match Upper clause with
                | None =>
                    raise (Exception ("Invalid parameter '" +++ name
                                      +++ "': no upper limit specified"))
                | Some up =>
                    raise_if (negb (isinstance_type_of up lo)
                              || negb (isinstance_tag up (type_of d)))
                      (Exception ("Invalid parameter '" +++ name
                                  +++ "': types of default and limits do not agree")) ;;~
                    out_of_order <~ lift (raw_lt up lo) ;;
                    raise_if out_of_order
                      (Exception ("Invalid parameter '" +++ name
                                  +++ "': limits out of order")) ;;~
                    l <~ evaluate rt allow_regexp tokenize lo None None ;;
                    update_parameter name (with_lower (Some l)) ;;~
                    u <~ evaluate rt allow_regexp tokenize up None None ;;
                    update_parameter name (with_upper (Some u)) ;;~
                    below <~ lift (number_lt d l) ;;
                    above <~ (if below then ret true else lift (number_lt u d)) ;;
                    raise_if above
                      (Exception ("Invalid parameter '" +++ name
                                  +++ "': default value is outside of specified limits"))
                end
            end
        | _ =>
            raise_if (match Lower clause, Upper clause with
                      | None, None => false
                      | _, _ => true
                      end)
              (Exception ("Invalid parameter '" +++ name
                          +++ "': cannot specify limits on non-numeric types")) ;;~
            update_parameter name (with_lower None) ;;~
            update_parameter name (with_upper None)
        end)
       (fun _ => entered fact_or_not) (entered fact_or_not).
Proof.
  assert (Hnumeric :
    ends (entered fact_or_not)
         (match Lower clause with
          | None =>
              raise (Exception ("Invalid parameter '" +++ name
                                +++ "': no lower limit specified"))
          | Some lo =>
              match Upper clause with
              | None =>
                  raise (Exception ("Invalid parameter '" +++ name
                                    +++ "': no upper limit specified"))
              | Some up =>
                  raise_if (negb (isinstance_type_of up lo)
                            || negb (isinstance_tag up (type_of d)))
                    (Exception ("Invalid parameter '" +++ name
                                +++ "': types of default and limits do not agree")) ;;~
                  out_of_order <~ lift (raw_lt up lo) ;;
                  raise_if out_of_order
                    (Exception ("Invalid parameter '" +++ name
                                +++ "': limits out of order")) ;;~
                  l <~ evaluate rt allow_regexp tokenize lo None None ;;
                  update_parameter name (with_lower (Some l)) ;;~
                  u <~ evaluate rt allow_regexp tokenize up None None ;;
                  update_parameter name (with_upper (Some u)) ;;~
                  below <~ lift (number_lt d l) ;;
                  above <~ (if below then ret true else lift (number_lt u d)) ;;
                  raise_if above
                    (Exception ("Invalid parameter '" +++ name
                                +++ "': default value is outside of specified limits"))
              end
          end)
         (fun _ => entered fact_or_not) (entered fact_or_not)).
  { destruct (Lower clause) as [lo|]; [|reading].
    destruct (Upper clause) as [up|]; [|reading].
    eapply ends_bind; [reading | intros ?; cbv beta].
    eapply ends_bind; [reading | intros out_of_order; cbv beta].
    eapply ends_bind; [reading | intros ?; cbv beta].
    eapply ends_bind; [reading | intros l; cbv beta].
    eapply ends_bind; [apply ends_update_parameter | intros ?; cbv beta].
    eapply ends_bind; [reading | intros u; cbv beta].
    eapply ends_bind; [apply ends_update_parameter | intros ?; cbv beta].
    eapply ends_bind; [reading | intros below; cbv beta].
    eapply ends_bind; [destruct below; reading | intros above; cbv beta].
    reading. }
  assert (Hother :
    ends (entered fact_or_not)
         (raise_if (match Lower clause, Upper clause with
                    | None, None => false
                    | _, _ => true
                    end)
            (Exception ("Invalid parameter '" +++ name
                        +++ "': cannot specify limits on non-numeric types")) ;;~
          update_parameter name (with_lower None) ;;~
          update_parameter name (with_upper None))
         (fun _ => entered fact_or_not) (entered fact_or_not)).
  { eapply ends_bind; [reading | intros ?; cbv beta].
    eapply ends_bind; [apply ends_update_parameter | intros ?; cbv beta].
    apply ends_update_parameter. }
  destruct (type_of d); assumption.
Qed.

(** The [try] block run from [s0]: it ends with the parameter and its
    fact entered, or raises with the parameter entered. *)
Lemma parameter_body_ends (clause : parameter_clause) :
  match parameter_body rt allow_regexp tokenize name clause s0 with
  | (Ok _, s) => entered with_fact s
  | (Raise _, s) => entered fact_or_not s
  end.
Proof.
  unfold parameter_body.
  unfold bindM at 1. unfold gets at 1. rewrite name_no_fact.
  unfold bindM at 1. unfold raise_if at 1. unfold ret at 1.
  unfold bindM at 1. unfold modify at 1.
  match goal with
  | |- match ?m ?s with _ => _ end =>
      cut (ends (entered fact_or_not) m (fun _ => entered with_fact)
                (entered fact_or_not));
      [ intros H; apply (H s) | ]
  end.
  - unfold entered, fact_or_not. cbn.
    repeat (split; [reflexivity|]). split; [|left; reflexivity].
    exists empty_parameter. apply dict_set_new. apply dict_mem_get.
    exact name_no_parameter.
  - eapply ends_bind; [reading | intros d; cbv beta].
    eapply ends_bind; [apply ends_update_parameter | intros ?; cbv beta].
    eapply ends_bind; [reading | intros ?; cbv beta].
    eapply ends_bind; [apply parameter_limits_end | intros ?; cbv beta].
    eapply ends_bind; [apply ends_new_fact | intros ?; cbv beta].
    eapply ends_bind; [apply ends_add_field | intros ?; cbv beta].
    destruct (Dictionary clause) as [[|]|].
    + eapply ends_bind; [apply ends_update_parameter | intros ?; cbv beta].
      apply ends_add_field.
    + apply ends_update_parameter.
    + apply ends_update_parameter.
Qed.

(** The handler undoes what the [try] block entered. *)
Lemma parameter_handler_undoes (e : exn) (s : state) :
  entered fact_or_not s ->
  parameter_handler name e s
  = error ("Error processing parameters: " +++ str_of_exn e) s0.
Proof.
  intros (H1 & H2 & H3 & H4 & H5 & H6 & [p H7] & H8).
  pose proof (dict_mem_get _ _ name_no_parameter) as Hp.
  pose proof (dict_mem_get _ _ name_no_fact) as Hf.
  unfold parameter_handler, bindM, gets, lift.
  rewrite H7, (dict_del_last _ _ p Hp).
  unfold modify at 1. cbn [facts set_parameters].
  assert (Hstate : forall s1 : state,
             constants s1 = constants s0 -> distincts s1 = distincts s0 ->
             functions s1 = functions s0 -> parameters s1 = parameters s0 ->
             rules s1 = rules s0 -> facts s1 = facts s0 ->
             errors s1 = errors s0 -> log s1 = log s0 ->
             forall m, error m s1 = error m s0).
  { intros s1 ? ? ? ? ? ? ? ? m.
    rewrite (state_eq s0 s1) by assumption. reflexivity. }
  destruct H8 as [H8|[f H8]]; rewrite H8.
  - rewrite name_no_fact. unfold ret. apply Hstate; cbn; first [assumption | reflexivity].
  - unfold dict_mem at 1. rewrite (dict_get_new _ _ f Hf).
    rewrite (dict_del_last _ _ f Hf). unfold modify.
    apply Hstate; cbn; first [assumption | reflexivity].
Qed.

End ParameterLoop.

(** X15 -- a parameter whose name is neither a fact nor a parameter yet:
    the loop goes on after it.  Either the [try] block raises, and then
    the handler takes the half-built parameter and its fact out again, so
    that the state is the one from before the parameter but for one more
    error and one more line of the log, which begins with "Error
    processing parameters: "; or the parameter and the fact named after
    it are entered, as the last entries of [parameters] and of [facts]. *)
Theorem parameter_is_entered_or_undone (name : CS) (clause : parameter_clause)
        (s : state) :
  dict_mem (facts s) name = false ->
  dict_mem (parameters s) name = false ->
  (exists e text,
      fst (parameter_body rt allow_regexp tokenize name clause s) = Raise e
      /\ process_parameter rt allow_regexp tokenize (name, clause) s
         = error ("Error processing parameters: " +++ text) s)
  \/ (exists p f s',
         process_parameter rt allow_regexp tokenize (name, clause) s = (Ok tt, s')
         /\ parameters s' = parameters s ++ [(name, p)]
         /\ facts s' = facts s ++ [(name, f)]
         /\ constants s' = constants s /\ rules s' = rules s
         /\ errors s' = errors s /\ log s' = log s).
Proof.
  intros Hf Hp.
  pose proof (parameter_body_ends name s Hf Hp clause) as Hbody.
  unfold process_parameter, try_except.
  destruct (parameter_body rt allow_regexp tokenize name clause s) as [[[]|e] s'].
  - right. destruct Hbody as (H1 & H2 & H3 & H4 & H5 & H6 & [p H7] & [f H8]).
    exists p, f, s'. auto 10.
  - left. exists e, (str_of_exn e). split; [reflexivity|].
    apply (parameter_handler_undoes name s Hf Hp e s' Hbody).
Qed.

(** ** The rules *)

Lemma reads_only_produce_fields (items : dict any_expression)
      (declared local_vars : dict type_tag) :
  forall produced_fields,
    reads_only (produce_fields rt allow_regexp tokenize items declared local_vars
                               produced_fields).
Proof.
  induction items as [|[assignment val] rest IH]; intros produced_fields; simpl;
    auto with loops.
  destruct (dict_get declared assignment); auto with loops.
  apply reads_only_bind; [apply reads_only_evaluate | intros v].
  apply reads_only_bind; auto with loops.
Qed.

Lemma reads_only_all_assigned (produced_fields : dict (option value)) :
  reads_only (all_assigned produced_fields).
Proof.
  induction produced_fields as [|[k [v|]] rest IH]; simpl; auto with loops.
Qed.

Lemma reads_only_produce_all (entries : dict (dict any_expression))
      (local_vars : dict type_tag) :
  forall produced_fact produced_fields,
    reads_only (produce_all rt allow_regexp tokenize entries local_vars
                            produced_fact produced_fields).
Proof.
  induction entries as [|[name items] rest IH]; intros produced_fact produced_fields;
    simpl; auto with loops.
  apply reads_only_bind; [apply reads_only_known_fact | intros declared].
  apply reads_only_bind; auto with loops; intros ps.
  apply reads_only_bind; auto with loops; intros _.
  apply reads_only_bind; [apply reads_only_produce_fields | intros filled].
  apply reads_only_bind; [apply reads_only_all_assigned | auto].
Qed.

(** What a rule that is accepted changes: its entry in [rules], and
    [distincts] when it produces distinctly. *)
Definition registered (rule_name : CS) (s s' : state) : Prop :=
  constants s' = constants s /\ functions s' = functions s
  /\ parameters s' = parameters s /\ facts s' = facts s
  /\ errors s' = errors s /\ log s' = log s
  /\ (exists r, rules s' = dict_set (rules s) rule_name r)
  /\ (distincts s' = distincts s
      \/ exists produced, distincts s' = set_add produced (distincts s)).

(** The [try] block of the rule loop changes the state in its last
    statements only, which do not raise. *)
Lemma rule_body_ends (rule_name : CS) (rule_clause : rule_document) (s : state) :
  match rule_body rt allow_regexp tokenize rule_name rule_clause s with
  | (Ok _, s') => registered rule_name s s'
  | (Raise _, s') => s' = s
  end.
Proof.
  cut (ends (fun s' => s' = s)
            (rule_body rt allow_regexp tokenize rule_name rule_clause)
            (fun _ s' => registered rule_name s s') (fun s' => s' = s));
    [intros H; exact (H s eq_refl)|].
  assert (Hreads : forall (A : Type) (m : M A),
             reads_only m ->
             ends (fun s' => s' = s) m (fun _ s' => s' = s) (fun s' => s' = s)).
  { intros A m Hm. apply ends_reads. exact Hm. }
  unfold rule_body.
  eapply ends_bind; [apply Hreads, reads_only_positive_matches | intros [local_vars ms]].
  eapply ends_bind;
    [apply Hreads; destruct (MatchNone rule_clause);
     [apply reads_only_inverted_match_list | auto with loops]
    | intros inverted; cbv beta].
  eapply ends_bind;
    [apply Hreads; destruct (RuleWhen rule_clause); auto with loops;
     apply reads_only_bind; [apply reads_only_evaluate | intros p];
     apply reads_only_bind; auto with loops
    | intros final; cbv beta].
  destruct (Production rule_clause) as [distinct entries|clause].
  - eapply ends_bind;
      [apply Hreads, reads_only_produce_all | intros [produced_fact produced_fields]].
    intros s' ->. unfold bindM.
    destruct distinct; [destruct produced_fact as [produced|]|].
    + unfold known_fact, bindM, gets.
      destruct (dict_get (facts s) produced) as [f|]; [|reflexivity].
      unfold ret.
      destruct (List.length (fields f) <=? 0)%nat; [reflexivity|].
      unfold raise_if, ret, modify, registered. cbn.
      repeat (split; [reflexivity|]). split; [eexists; reflexivity|].
      right. exists produced. reflexivity.
    + reflexivity.
    + unfold ret, modify, registered. cbn.
      repeat (split; [reflexivity|]). split; [eexists; reflexivity|].
      left. reflexivity.
  - eapply ends_bind; [apply Hreads, reads_only_known_fact | intros this_; cbv beta].
    eapply ends_bind; [apply Hreads; auto with loops | intros ps; cbv beta].
    eapply ends_bind; [apply Hreads; auto with loops | intros ?; cbv beta].
    destruct (SuppressWhen clause) as [expression|];
      [|intros s' ->; reflexivity].
    eapply ends_bind; [apply Hreads, reads_only_evaluate | intros w; cbv beta].
    intros s' ->. unfold modify, registered. cbn.
    repeat (split; [reflexivity|]). split; [eexists; reflexivity|].
    left. reflexivity.
Qed.

Lemma process_rule_outcomes (rule_name : CS) (rule_clause : rule_document) (s : state) :
  exists s',
    process_rule rt allow_regexp tokenize (rule_name, rule_clause) s = (Ok tt, s')
    /\ match Enabled rule_clause with
       | Some false => s' = s
       | _ =>
           match fst (rule_body rt allow_regexp tokenize rule_name rule_clause s) with
           | Ok _ => registered rule_name s s'
           | Raise e =>
               (Ok tt, s') = error ("Error processing rule '" +++ rule_name +++ "': "
                                    +++ str_of_exn e) s
           end
       end.
Proof.
  pose proof (rule_body_ends rule_name rule_clause s) as Hbody.
  unfold process_rule.
  destruct (Enabled rule_clause) as [[|]|]; [| exists s; split; reflexivity |];
    (unfold try_except;
     destruct (rule_body rt allow_regexp tokenize rule_name rule_clause s)
       as [[[]|e] s1]; simpl fst;
     [ exists s1; split; [reflexivity | exact Hbody]
     | subst s1; eexists; split; reflexivity ]).
Qed.

(** X16 -- the rule loop never raises.  A disabled rule changes nothing;
    a rule whose [try] block raises leaves the state as it was but for
    one more error and one more line of the log, which begins with "Error
    processing rule" and the name of the rule, whatever raised; a rule
    that goes through changes [rules], and [distincts], and nothing else.
    So after the loop the constants, parameters and facts are those from
    before, and at most one error per rule was added. *)
Theorem rule_loop_recovers (document : dict rule_document) (s : state) :
  (forall rule_name rule_clause,
      exists s',
        process_rule rt allow_regexp tokenize (rule_name, rule_clause) s = (Ok tt, s')
        /\ match Enabled rule_clause with
           | Some false => s' = s
           | _ =>
               match fst (rule_body rt allow_regexp tokenize rule_name rule_clause s) with
               | Ok _ => registered rule_name s s'
               | Raise _ =>
                   exists text,
                     (Ok tt, s') = error ("Error processing rule '" +++ rule_name +++ "': "
                                          +++ text) s
               end
           end)
  /\ exists s',
       process_rules rt allow_regexp tokenize document s = (Ok tt, s')
       /\ constants s' = constants s /\ functions s' = functions s
       /\ parameters s' = parameters s /\ facts s' = facts s
       /\ errors s <= errors s' <= errors s + List.length document.
Proof.
  split.
  { intros rule_name rule_clause.
    destruct (process_rule_outcomes rule_name rule_clause s) as [s' [Hrun Hs']].
    exists s'. split; [exact Hrun|].
    destruct (Enabled rule_clause) as [[|]|]; try exact Hs';
      (destruct (fst (rule_body rt allow_regexp tokenize rule_name rule_clause s)) as [u|e];
       [exact Hs' | exists (str_of_exn e); exact Hs']). }
  unfold process_rules. revert s.
  induction document as [|[rule_name rule_clause] rest IH]; intros s.
  - exists s. simpl. repeat split; lia.
  - destruct (process_rule_outcomes rule_name rule_clause s) as [s1 [H1 Hs1]].
    destruct (IH s1) as [s2 (H2 & Hc & Hf & Hp & Hfs & He)].
    exists s2. cbn [for_each]. unfold bindM. rewrite H1. split; [exact H2|].
    assert (Hstep : constants s1 = constants s /\ functions s1 = functions s
                    /\ parameters s1 = parameters s /\ facts s1 = facts s
                    /\ errors s <= errors s1 <= S (errors s)).
    { destruct (Enabled rule_clause) as [[|]|];
        try (subst s1; repeat split; lia);
        (destruct (fst (rule_body rt allow_regexp tokenize rule_name rule_clause s));
         [ destruct Hs1 as (? & ? & ? & ? & Herr & _); rewrite Herr;
           repeat split; try assumption; lia
         | inversion Hs1; subst s1; cbn; repeat split; lia ]). }
    destruct Hstep as (Hc1 & Hf1 & Hp1 & Hfs1 & He1).
    cbn [List.length].
    repeat split; try congruence; lia.
Qed.

End Loops.

(* ================================================================== *)
(** * Facts that are produced and never matched *)
(* ================================================================== *)

Section Outputs.
Import Expression Giles.

Lemma name_eqb_refl (a : option CS) : name_eqb a a = true.
Proof. destruct a; simpl; [apply caseless_eqb_refl | reflexivity]. Qed.

Lemma name_eqb_sym (a b : option CS) : name_eqb a b = name_eqb b a.
Proof. destruct a, b; simpl; try reflexivity. apply caseless_eqb_sym. Qed.

Lemma name_eqb_trans (a b c : option CS) :
  name_eqb a b = true -> name_eqb a c = name_eqb b c.
Proof.
  destruct a, b, c; simpl; try discriminate; try reflexivity.
  apply caseless_eqb_trans.
Qed.

Lemma existsb_name_eqb (a b : option CS) (s : list (option CS)) :
  name_eqb a b = true -> existsb (name_eqb a) s = existsb (name_eqb b) s.
Proof.
  intros H. induction s as [|x s IH]; simpl; [reflexivity|].
  rewrite IH, (name_eqb_trans a b x H). reflexivity.
Qed.

Lemma existsb_names_add (q x : option CS) (s : list (option CS)) :
  existsb (name_eqb q) (names_add x s) = name_eqb q x || existsb (name_eqb q) s.
Proof.
  unfold names_add. destruct (existsb (name_eqb x) s) eqn:E.
  - destruct (name_eqb q x) eqn:Eq; [|reflexivity].
    rewrite (existsb_name_eqb q x s Eq). exact E.
  - rewrite existsb_app. simpl. rewrite orb_false_r. apply orb_comm.
Qed.

Lemma existsb_names_discard (q x : option CS) (s : list (option CS)) :
  existsb (name_eqb q) (names_discard x s)
  = negb (name_eqb q x) && existsb (name_eqb q) s.
Proof.
  unfold names_discard. induction s as [|y s IH]; simpl.
  - rewrite andb_false_r. reflexivity.
  - destruct (name_eqb y x) eqn:Ey; simpl.
    + rewrite IH. destruct (name_eqb q y) eqn:Eq; [|reflexivity].
      rewrite (name_eqb_trans q y x Eq), Ey. reflexivity.
    + rewrite IH. destruct (name_eqb q y) eqn:Eq; [|reflexivity].
      rewrite (name_eqb_trans q y x Eq), Ey. reflexivity.
Qed.

Lemma existsb_add_produced (q : option CS) (rules : dict rule) :
  forall s,
    existsb (name_eqb q) (add_produced rules s)
    = existsb (name_eqb q) s
      || existsb (fun entry => name_eqb q (produced_or_suppressed (snd entry))) rules.
Proof.
  unfold add_produced.
  induction rules as [|[name r] rules IH]; intros s; simpl.
  - rewrite orb_false_r. reflexivity.
  - rewrite IH. unfold produced_or_suppressed.
    destruct (produces r); rewrite existsb_names_add;
      rewrite orb_assoc, (orb_comm (name_eqb q _)); reflexivity.
Qed.

Lemma existsb_discard_all (q : option CS) (clauses : list match_clause) :
  forall s,
    existsb (name_eqb q) (discard_all clauses s)
    = existsb (name_eqb q) s
      && negb (existsb (fun m => name_eqb q (Some (fact_name m))) clauses).
Proof.
  unfold discard_all.
  induction clauses as [|m clauses IH]; intros s; simpl.
  - rewrite andb_true_r. reflexivity.
  - rewrite IH, existsb_names_discard, negb_orb.
    destruct (name_eqb q (Some (fact_name m))), (existsb (name_eqb q) s); reflexivity.
Qed.

Lemma matches_fact_existsb (k : CS) (r : rule) :
  matches_fact (Some k) r
  = existsb (fun m => name_eqb (Some k) (Some (fact_name m)))
            (matches r ++ inverted_matches r).
Proof.
  unfold matches_fact, CaselessString.mem.
  induction (matches r ++ inverted_matches r) as [|m l IH]; simpl; [reflexivity|].
  rewrite IH. reflexivity.
Qed.

Lemma existsb_discard_matched (k : CS) (rules : dict rule) :
  forall s,
    existsb (name_eqb (Some k)) (discard_matched rules s)
    = existsb (name_eqb (Some k)) s
      && negb (existsb (fun entry => matches_fact (Some k) (snd entry)) rules).
Proof.
  unfold discard_matched.
  induction rules as [|[name r] rules IH]; intros s; cbn [fold_left existsb snd].
  - rewrite andb_true_r. reflexivity.
  - rewrite IH, !existsb_discard_all, matches_fact_existsb, existsb_app, !negb_orb.
    rewrite <- !andb_assoc. reflexivity.
Qed.

(** A fact that some rule produces or suppresses and that no rule
    matches, positively or negatively. *)
Definition is_only_produced (rules : dict rule) (k : CS) : bool :=
  existsb (fun entry => name_eqb (Some k) (produced_or_suppressed (snd entry))) rules
  && negb (existsb (fun entry => matches_fact (Some k) (snd entry)) rules).

Lemma existsb_only_produced (rules : dict rule) (k : CS) :
  existsb (name_eqb (Some k)) (only_produced rules) = is_only_produced rules k.
Proof.
  unfold only_produced, is_only_produced.
  rewrite existsb_discard_matched, existsb_add_produced. reflexivity.
Qed.

Lemma dict_get_caseless (V : Type) (d : dict V) (a b : CS) :
  CaselessString.eqb a b = true -> dict_get d a = dict_get d b.
Proof.
  intros H. induction d as [|[k v] d IH]; simpl; [reflexivity|].
  rewrite IH.
  rewrite (caseless_eqb_sym k a), (caseless_eqb_sym k b), (caseless_eqb_trans a b k H).
  reflexivity.
Qed.

(** The loop over the set, taken in any order. *)
Lemma mark_outputs_marks (order : list (option CS)) :
  forall s,
    (forall q, In q order -> exists n, q = Some n /\ dict_mem (facts s) n = true) ->
    exists s',
      mark_outputs order s = (Ok tt, s')
      /\ constants s' = constants s /\ distincts s' = distincts s
      /\ functions s' = functions s /\ parameters s' = parameters s
      /\ rules s' = rules s /\ errors s' = errors s /\ log s' = log s
      /\ forall k,
           dict_get (facts s') k
           = option_map (fun f => if existsb (name_eqb (Some k)) order
                                  then as_output f else f)
                        (dict_get (facts s) k).
Proof.
  unfold mark_outputs.
  induction order as [|q order IH]; intros s Hknown.
  - exists s. simpl. repeat (split; [reflexivity|]).
    intros k. destruct (dict_get (facts s) k); reflexivity.
  - destruct (Hknown q (or_introl eq_refl)) as [n [-> Hn]].
    unfold dict_mem in Hn.
    destruct (dict_get (facts s) n) as [f|] eqn:Ef; [|discriminate Hn].
    destruct (IH (set_facts (dict_set (facts s) n (as_output f)) s))
      as [s' (Hrun & H1 & H2 & H3 & H4 & H5 & H6 & H7 & H8)].
    { intros q Hq. destruct (Hknown q (or_intror Hq)) as [m [-> Hm]].
      exists m. split; [reflexivity|].
      unfold dict_mem. cbn [facts set_facts]. rewrite dict_get_set.
      destruct (CaselessString.eqb n m); [reflexivity | exact Hm]. }
    exists s'. cbn [for_each]. unfold bindM at 1. unfold mark_output at 1.
    unfold bindM at 1. unfold gets at 1. rewrite Ef. unfold modify at 1.
    split; [exact Hrun|].
    repeat (split; [assumption|]).
    intros k. rewrite H8. cbn [facts set_facts existsb name_eqb].
    rewrite dict_get_set, (caseless_eqb_sym k n).
    destruct (CaselessString.eqb n k) eqn:E.
    + rewrite <- (dict_get_caseless _ (facts s) n k E), Ef. simpl.
      destruct (existsb (name_eqb (Some k)) order); reflexivity.
    + simpl. reflexivity.
Qed.

(** X17 -- the facts marked as output after the rule loop are the facts
    that some rule produces or suppresses and that no rule matches, in a
    positive or in an inverted match; names are compared without case.
    The other facts keep their mark, the fields and the order of [facts]
    stay, and the order in which the set is gone through does not
    matter. *)
Theorem outputs_are_produced_and_unmatched (order : list (option CS)) (s : state) :
  (forall q, existsb (name_eqb q) order
             = existsb (name_eqb q) (only_produced (rules s))) ->
  (forall q, In q order -> exists n, q = Some n /\ dict_mem (facts s) n = true) ->
  exists s',
    mark_outputs order s = (Ok tt, s')
    /\ rules s' = rules s /\ parameters s' = parameters s
    /\ errors s' = errors s /\ log s' = log s
    /\ forall k,
         dict_get (facts s') k
         = option_map (fun f => if is_only_produced (rules s) k then as_output f else f)
                      (dict_get (facts s) k).
Proof.
  intros Horder Hknown.
  destruct (mark_outputs_marks order s Hknown)
    as [s' (Hrun & H1 & H2 & H3 & H4 & H5 & H6 & H7 & H8)].
  exists s'. repeat (split; [assumption|]).
  intros k. rewrite H8, Horder, existsb_only_produced. reflexivity.
Qed.

End Outputs.

Section LoopExamples.
Import Expression Giles.

Lemma constant_initializer_outcomes_witness :
  process_constant example_runtime false (fun _ _ _ _ => ([], None))
                   ("Limit", ADelayed "") initial_state
  = (Raise (KeyError "Limit"), initial_state).
Proof.
  exact (constant_initializer_outcomes example_runtime false (fun _ _ _ _ => ([], None))
           "Limit" (ADelayed "") initial_state eq_refl).
Defined.

Lemma parameter_is_entered_or_undone_witness :
  (exists e text,
      fst (parameter_body example_runtime false (fun _ _ _ _ => ([], None)) "Baz"
             {| Default := AInt 5; Dictionary := None;
                Lower := Some (AInt 0); Upper := Some (AInt 2) |} initial_state)
      = Raise e
      /\ process_parameter example_runtime false (fun _ _ _ _ => ([], None))
           ("Baz"%string, {| Default := AInt 5; Dictionary := None;
                             Lower := Some (AInt 0); Upper := Some (AInt 2) |})
           initial_state
         = error ("Error processing parameters: " +++ text) initial_state)
  \/ (exists p f s',
         process_parameter example_runtime false (fun _ _ _ _ => ([], None))
           ("Baz"%string, {| Default := AInt 5; Dictionary := None;
                             Lower := Some (AInt 0); Upper := Some (AInt 2) |})
           initial_state
         = (Ok tt, s')
         /\ parameters s' = parameters initial_state ++ [("Baz"%string, p)]
         /\ facts s' = facts initial_state ++ [("Baz"%string, f)]
         /\ constants s' = constants initial_state /\ rules s' = rules initial_state
         /\ errors s' = errors initial_state /\ log s' = log initial_state).
Proof.
  apply (parameter_is_entered_or_undone example_runtime false (fun _ _ _ _ => ([], None))
           "Baz" {| Default := AInt 5; Dictionary := None;
                    Lower := Some (AInt 0); Upper := Some (AInt 2) |} initial_state);
    reflexivity.
Defined.


(** Two rules that match [InitialFact]; one produces [Alert], the other
    suppresses [Noise]. *)
Definition rule_on_initial_fact (p : production) : rule :=
  {| locals := [];
     matches := [{| fact_name := "InitialFact"; meaning := None; when := None;
                    assignments := Some [] |}];
     inverted_matches := []; description := ""; final_predicate := VBool true;
     produces := p; metadata := [] |}.

Definition marking_state : state :=
  set_rules [("first", rule_on_initial_fact (Produces false (Some "Alert") []));
             ("second", rule_on_initial_fact (Suppresses "noise" (VBool true)))]
    (set_facts (facts initial_state
                ++ [("Alert", {| fields := []; is_output := false |});
                    ("Noise", {| fields := []; is_output := false |})])
               initial_state).

Lemma existsb_swap (q a b : option CS) :
  existsb (name_eqb q) [a; b] = existsb (name_eqb q) [b; a].
Proof. simpl. destruct (name_eqb q a), (name_eqb q b); reflexivity. Defined.

Lemma outputs_are_produced_and_unmatched_witness :
  exists s',
    mark_outputs [Some "noise"; Some "Alert"] marking_state = (Ok tt, s')
    /\ rules s' = rules marking_state /\ parameters s' = parameters marking_state
    /\ errors s' = errors marking_state /\ log s' = log marking_state
    /\ forall k,
         dict_get (facts s') k
         = option_map (fun f => if is_only_produced (rules marking_state) k
                                then as_output f else f)
                      (dict_get (facts marking_state) k).
Proof.
  apply (outputs_are_produced_and_unmatched [Some "noise"; Some "Alert"] marking_state).
  - intros q. exact (existsb_swap q (Some "noise") (Some "Alert")).
  - intros q [<-|[<-|[]]]; eexists; split; reflexivity.
Defined.


End LoopExamples.

(* ================================================================== *)
(** * The predicates of a match in the backend *)
(* ================================================================== *)

Section BackendPredicates.
Import Expression Giles SqliteBackend.

Lemma kept_is_constant_or_local (include_constants : bool) (w : value) :
  forall equality p,
    In (equality, p) (flatten_join include_constants w) ->
    is_constant_predicate p = negb (is_local_predicate p)
    /\ exists operation name variable t arg2 type,
         p = BinaryOpNode operation name (ThisReferenceNode variable t) arg2 type.
Proof.
  induction w as [| | | | | |operation name arg1 _ arg2 _ type| | | |l IHl r IHr|];
    intros equality p H; simpl in H; try contradiction.
  - destruct arg1; try contradiction.
    destruct (type_tag_eqb type bool_) eqn:Et; [|contradiction].
    destruct (negb (is_constant arg2) || include_constants); [|contradiction].
    destruct H as [H|[]]. inversion H; subst. split.
    + simpl. rewrite Et. simpl.
      destruct (List.length (find_locals arg2)); reflexivity.
    + repeat eexists.
  - apply in_app_or in H. destruct H as [H|H]; eauto.
Qed.

(** X18 -- the predicates that [generate_join] keeps when the constants
    are included are, in their order, those of [flatten_predicate] (no
    local in the right operand: tested when the fact arrives) and those of
    [flatten_local_predicates] (a local in the right operand: tested in
    the join); each kept predicate is in exactly one of the two lists. *)
Theorem kept_predicates_split (w : value) :
  flatten_predicate w
  = filter is_constant_predicate (map snd (flatten_join true w))
  /\ flatten_local_predicates w
     = filter is_local_predicate (map snd (flatten_join true w))
  /\ (forall p, In p (map snd (flatten_join true w)) ->
                is_constant_predicate p = negb (is_local_predicate p))
  /\ List.length (flatten_predicate w) + List.length (flatten_local_predicates w)
     = List.length (flatten_join true w).
Proof.
  assert (H12 : flatten_predicate w
                = filter is_constant_predicate (map snd (flatten_join true w))
                /\ flatten_local_predicates w
                   = filter is_local_predicate (map snd (flatten_join true w))).
  { induction w as [| | | | | |operation name arg1 _ arg2 _ type| | | |l IHl r IHr|];
      try (split; reflexivity).
    - destruct arg1; try (split; reflexivity).
      simpl. rewrite orb_true_r.
      destruct (type_tag_eqb type bool_) eqn:Et; simpl; rewrite ?Et; simpl;
        [|split; reflexivity].
      destruct (List.length (find_locals arg2)); simpl; split; reflexivity.
    - destruct IHl as [A1 B1], IHr as [A2 B2]. simpl.
      rewrite map_app, !filter_app, A1, A2, B1, B2. split; reflexivity. }
  assert (H3 : forall p, In p (map snd (flatten_join true w)) ->
                         is_constant_predicate p = negb (is_local_predicate p)).
  { intros p Hp. apply in_map_iff in Hp. destruct Hp as [[b q] [<- Hq]].
    exact (proj1 (kept_is_constant_or_local true w b q Hq)). }
  destruct H12 as [H1 H2]. repeat split; try assumption.
  rewrite H1, H2, <- (length_map snd (flatten_join true w)).
  revert H3. generalize (map snd (flatten_join true w)) as l.
  induction l as [|p l IH]; intros H3; [reflexivity|].
  simpl. rewrite (H3 p (or_introl eq_refl)).
  specialize (IH (fun q Hq => H3 q (or_intror Hq))).
  destruct (is_local_predicate p); simpl; lia.
Qed.

(** ** Sorting keeps the predicates *)

Lemma insert_sorted_In (x y : value) (l : list value) :
  In y (insert_sorted x l) <-> y = x \/ In y l.
Proof.
  induction l as [|z l IH]; simpl.
  - intuition congruence.
  - destruct (String.leb _ _); simpl; [intuition congruence|].
    rewrite IH. intuition congruence.
Qed.

Lemma sort_by_variable_In (y : value) (l : list value) :
  In y (sort_by_variable l) <-> In y l.
Proof.
  induction l as [|x l IH]; simpl; [tauto|].
  rewrite insert_sorted_In, IH. intuition congruence.
Qed.

Lemma insert_sorted_length (x : value) (l : list value) :
  List.length (insert_sorted x l) = S (List.length l).
Proof.
  induction l as [|z l IH]; simpl; [reflexivity|].
  destruct (String.leb _ _); simpl; [reflexivity|]. rewrite IH. reflexivity.
Qed.

Lemma sort_by_variable_length (l : list value) :
  List.length (sort_by_variable l) = List.length l.
Proof.
  induction l as [|x l IH]; simpl; [reflexivity|].
  rewrite insert_sorted_length, IH. reflexivity.
Qed.

Lemma generate_predicate_length (rt : PyRuntime) (when : option value) :
  List.length (generate_predicate rt when)
  = List.length (match when with Some w => flatten_predicate w | None => [] end).
Proof.
  unfold generate_predicate. rewrite length_map, sort_by_variable_length. reflexivity.
Qed.

End BackendPredicates.

(* ================================================================== *)
(** * Facts that are matched without a constant test *)
(* ================================================================== *)

Section UnfilteredMatches.
Import Expression Giles SqliteBackend.

Variable rt : PyRuntime.

(** A match that has no predicate to filter the arriving facts with. *)
Definition is_unfiltered (m : match_clause) : bool :=
  (List.length (match when m with Some w => flatten_predicate w | None => [] end) =? 0)%nat.

Definition unfiltered_in (ms : list match_clause) (k : CS) : bool :=
  existsb (fun m => CaselessString.eqb (fact_name m) k && is_unfiltered m) ms.

Definition unfiltered (rules : dict rule) (k : CS) : bool :=
  existsb (fun entry => unfiltered_in (matches (snd entry) ++ inverted_matches (snd entry)) k)
          rules.

Definition marked (mark : CS -> bool) (facts facts' : dict fact) : Prop :=
  forall k, dict_get facts' k
            = option_map (fun f => if mark k then as_output f else f) (dict_get facts k).

Lemma marked_known (mark : CS -> bool) (facts facts' : dict fact) (k : CS) :
  marked mark facts facts' -> dict_mem facts k = true -> dict_mem facts' k = true.
Proof.
  intros H. unfold dict_mem. rewrite (H k).
  destruct (dict_get facts k); [reflexivity | discriminate].
Qed.

Lemma marked_twice (mark1 mark2 : CS -> bool) (facts facts1 facts2 : dict fact) :
  marked mark1 facts facts1 -> marked mark2 facts1 facts2 ->
  marked (fun k => mark1 k || mark2 k) facts facts2.
Proof.
  intros H1 H2 k. rewrite (H2 k), (H1 k).
  destruct (dict_get facts k) as [f|]; [|reflexivity]. simpl.
  destruct (mark1 k), (mark2 k); reflexivity.
Qed.

Lemma marked_ext (mark1 mark2 : CS -> bool) (facts facts' : dict fact) :
  (forall k, mark1 k = mark2 k) -> marked mark1 facts facts' -> marked mark2 facts facts'.
Proof. intros E H k. rewrite (H k). rewrite (E k). reflexivity. Qed.

Lemma mark_unfiltered_match_marks (facts : dict fact) (m : match_clause) :
  dict_mem facts (fact_name m) = true ->
  exists facts',
    mark_unfiltered_match rt facts m = Ok facts'
    /\ marked (unfiltered_in [m]) facts facts'.
Proof.
  intros Hm. unfold mark_unfiltered_match, unfiltered_in, is_unfiltered.
  rewrite generate_predicate_length. cbn [existsb]. unfold dict_mem in Hm.
  destruct (List.length _ =? 0)%nat.
  - destruct (dict_get facts (fact_name m)) as [f|] eqn:Ef; [|discriminate Hm].
    eexists. split; [reflexivity|]. intros k.
    rewrite dict_get_set, orb_false_r, andb_true_r.
    destruct (CaselessString.eqb (fact_name m) k) eqn:E.
    + rewrite <- (dict_get_caseless _ facts (fact_name m) k E), Ef. reflexivity.
    + destruct (dict_get facts k); reflexivity.
  - exists facts. split; [reflexivity|]. intros k.
    rewrite andb_false_r. simpl. destruct (dict_get facts k); reflexivity.
Qed.

Lemma mark_unfiltered_matches_marks (ms : list match_clause) :
  forall facts,
    (forall m, In m ms -> dict_mem facts (fact_name m) = true) ->
    exists facts',
      mark_unfiltered_matches rt ms facts = Ok facts'
      /\ marked (unfiltered_in ms) facts facts'.
Proof.
  induction ms as [|m ms IH]; intros facts Hknown.
  - exists facts. split; [reflexivity|]. intros k. simpl.
    destruct (dict_get facts k); reflexivity.
  - destruct (mark_unfiltered_match_marks facts m (Hknown m (or_introl eq_refl)))
      as [facts1 [H1 M1]].
    destruct (IH facts1) as [facts2 [H2 M2]].
    { intros m' Hm'. apply (marked_known _ facts facts1 _ M1).
      apply Hknown. right. exact Hm'. }
    exists facts2. cbn [mark_unfiltered_matches]. rewrite H1. split; [exact H2|].
    apply (marked_ext (fun k => unfiltered_in [m] k || unfiltered_in ms k)).
    + intros k. unfold unfiltered_in. cbn [existsb]. rewrite orb_false_r. reflexivity.
    + exact (marked_twice _ _ facts facts1 facts2 M1 M2).
Qed.

(** X19 -- the first pass of [generate] marks as output exactly the facts
    that some rule matches, positively or negatively, without a constant
    test: without [when], or with a [when] whose every predicate uses a
    local or is no boolean test of a field.  All other facts keep their
    mark. *)
Theorem unfiltered_facts_become_outputs (rules : dict rule) (facts : dict fact) :
  (forall entry m,
      In entry rules -> In m (matches (snd entry) ++ inverted_matches (snd entry)) ->
      dict_mem facts (fact_name m) = true) ->
  exists facts',
    mark_unfiltered rt rules facts = Ok facts'
    /\ forall k,
         dict_get facts' k
         = option_map (fun f => if unfiltered rules k then as_output f else f)
                      (dict_get facts k).
Proof.
  revert facts. induction rules as [|[name r] rules IH]; intros facts Hknown.
  - exists facts. split; [reflexivity|]. intros k. simpl.
    destruct (dict_get facts k); reflexivity.
  - destruct (mark_unfiltered_matches_marks (matches r ++ inverted_matches r) facts)
      as [facts1 [H1 M1]].
    { intros m Hm. exact (Hknown (name, r) m (or_introl eq_refl) Hm). }
    destruct (IH facts1) as [facts2 [H2 M2]].
    { intros entry m He Hm. apply (marked_known _ facts facts1 _ M1).
      exact (Hknown entry m (or_intror He) Hm). }
    exists facts2. cbn [mark_unfiltered]. rewrite H1. split; [exact H2|].
    exact (marked_twice _ _ facts facts1 facts2 M1 M2).
Qed.

End UnfilteredMatches.

Section UnfilteredExample.
Import Expression Giles SqliteBackend.

(** A rule that matches [InitialFact] without a [when] and [Event] on a
    constant. *)
Definition filtering_rule : rule :=
  {| locals := [];
     matches := [{| fact_name := "initialfact"; meaning := None; when := None;
                    assignments := Some [] |};
                 {| fact_name := "Event"; meaning := None;
                    when := Some (BinaryOpNode "=" "=" (ThisReferenceNode "Kind" int_)
                                               (VInt 1) bool_);
                    assignments := Some [] |}];
     inverted_matches := []; description := ""; final_predicate := VBool true;
     produces := Produces false (Some "Alert") []; metadata := [] |}.

Lemma unfiltered_facts_become_outputs_witness :
  exists facts',
    mark_unfiltered example_runtime [("r", filtering_rule)]
      [("InitialFact", {| fields := []; is_output := false |});
       ("Event", {| fields := [("Kind", int_)]; is_output := false |})]
    = Ok facts'
    /\ forall k,
         dict_get facts' k
         = option_map (fun f => if unfiltered [("r", filtering_rule)] k
                                then as_output f else f)
             (dict_get [("InitialFact", {| fields := []; is_output := false |});
                        ("Event", {| fields := [("Kind", int_)]; is_output := false |})]
                       k).
Proof.
  apply (unfiltered_facts_become_outputs example_runtime [("r", filtering_rule)]).
  intros entry m [<-|[]] [<-|[<-|[]]]; reflexivity.
Defined.

End UnfilteredExample.

(* ================================================================== *)
(** * only_once *)
(* ================================================================== *)

Section OnlyOnce.
Import Expression Giles SqliteBackend.

(** Whether [value] was printed in [domain] already. *)
Definition printed (domains : domain_map) (domain value : string) : bool :=
  match domains_get domains (str_lower domain) with
  | Some seen => existsb (String.eqb value) seen
  | None => false
  end.

Lemma domains_get_set (domains : domain_map) (d q : string) (seen : list string) :
  domains_get (domains_set domains d seen) q
  = if String.eqb d q then Some seen else domains_get domains q.
Proof.
  induction domains as [|[d' old] domains IH]; simpl.
  - reflexivity.
  - destruct (String.eqb_spec d' d) as [->|Hd]; simpl.
    + destruct (String.eqb d q); reflexivity.
    + rewrite IH. destruct (String.eqb_spec d' q) as [->|Hq]; [|reflexivity].
      destruct (String.eqb_spec d q) as [->|_]; [congruence | reflexivity].
Qed.

(** X20 -- [only_once] returns the value the first time it is called
    with it in a domain, and the empty string from then on; domains are
    told apart without case, values exactly.  A call changes what was
    printed for its own domain and value only. *)
Theorem only_once_prints_once (domain value : string) (domains : domain_map) :
  fst (only_once domain value domains)
  = (if printed domains domain value then "" else value)
  /\ forall d v,
       printed (snd (only_once domain value domains)) d v
       = printed domains d v
         || (String.eqb (str_lower domain) (str_lower d) && String.eqb v value).
Proof.
  unfold only_once, printed.
  destruct (domains_get domains (str_lower domain)) as [seen|] eqn:E.
  - rewrite E. destruct (existsb (String.eqb value) seen) eqn:Es; simpl.
    + split; [reflexivity|]. intros d v.
      destruct (String.eqb_spec (str_lower domain) (str_lower d)) as [Hd|Hd];
        [|rewrite orb_false_r; reflexivity].
      rewrite <- Hd, E. simpl.
      destruct (String.eqb_spec v value) as [->|Hv]; [|rewrite orb_false_r; reflexivity].
      rewrite Es. reflexivity.
    + split; [reflexivity|]. intros d v. rewrite domains_get_set.
      destruct (String.eqb_spec (str_lower domain) (str_lower d)) as [Hd|Hd].
      * rewrite <- Hd, E, existsb_app. simpl. rewrite orb_false_r. reflexivity.
      * rewrite orb_false_r. reflexivity.
  - rewrite domains_get_set, String.eqb_refl. simpl.
    split; [reflexivity|]. intros d v. rewrite !domains_get_set.
    destruct (String.eqb_spec (str_lower domain) (str_lower d)) as [Hd|Hd].
    + rewrite <- Hd, E. simpl. rewrite orb_false_r. reflexivity.
    + rewrite orb_false_r. reflexivity.
Qed.

End OnlyOnce.

(* ================================================================== *)
(** * Index demands that are already covered *)
(* ================================================================== *)

Section Absorption.
Import SqliteBackend.

Variable K : Type.
Variable eqb : K -> K -> bool.
Hypothesis eqb_sym : forall a b, eqb a b = eqb b a.
Hypothesis eqb_trans : forall a b c, eqb a b = true -> eqb a c = eqb b c.

Lemma enter_absorbs (k k' : K) (f g : tree K -> tree K) (cs : list (K * tree K)) :
  eqb k k' = true -> (forall t, g (f t) = f t) ->
  enter eqb k' g (enter eqb k f cs) = enter eqb k f cs.
Proof.
  intros Hk Hg. induction cs as [|[k0 sub] cs IH]; simpl.
  - rewrite Hk, Hg. reflexivity.
  - destruct (eqb k0 k) eqn:E; simpl.
    + rewrite (eqb_trans k0 k k' E), Hk, Hg. reflexivity.
    + rewrite (eqb_sym k0 k'), <- (eqb_trans k k' k0 Hk), (eqb_sym k k0), E, IH.
      reflexivity.
Qed.

Lemma tree_add_absorbs (p p' r : list K) :
  Forall2 (fun a b => eqb a b = true) p p' ->
  forall t, tree_add eqb p' (tree_add eqb (p ++ r) t) = tree_add eqb (p ++ r) t.
Proof.
  induction 1 as [|a b p p' Hab _ IH]; intros [cs]; [reflexivity|].
  cbn [app tree_add]. f_equal. apply enter_absorbs; [exact Hab | exact IH].
Qed.

End Absorption.

Section AddIndex.
Import SqliteBackend.

Lemma indexes_get_set (indexes : index_map) (t q : string) (tr : index_tree) :
  indexes_get (indexes_set indexes t tr) q
  = if String.eqb t q then Some tr else indexes_get indexes q.
Proof.
  induction indexes as [|[t' old] indexes IH]; simpl.
  - reflexivity.
  - destruct (String.eqb_spec t' t) as [->|Ht]; simpl.
    + destruct (String.eqb t q); reflexivity.
    + rewrite IH. destruct (String.eqb_spec t' q) as [->|Hq]; [|reflexivity].
      destruct (String.eqb_spec t q) as [->|_]; [congruence | reflexivity].
Qed.

Lemma indexes_set_again (indexes : index_map) (t : string) (tr : index_tree) :
  indexes_set (indexes_set indexes t tr) t tr = indexes_set indexes t tr.
Proof.
  induction indexes as [|[t' old] indexes IH]; simpl.
  - rewrite String.eqb_refl. reflexivity.
  - destruct (String.eqb t' t) eqn:E; simpl; rewrite E; [reflexivity|].
    rewrite IH. reflexivity.
Qed.

(** X21 -- a demand that [add_index] has registered covers its prefixes:
    registering one of them afterwards, for the same table, changes
    nothing.  Table and field names are compared without case.  The
    trees of the other tables are never touched. *)
Theorem add_index_absorbs_prefixes (table table' : string) (p p' r : list CS)
        (indexes indexes' : index_map) :
  str_lower table = str_lower table' ->
  Forall2 (fun a b => CaselessString.eqb a b = true) p p' ->
  add_index (Some table) (p ++ r) indexes = Ok indexes' ->
  add_index (Some table') p' indexes' = Ok indexes'
  /\ forall other, other <> str_lower table ->
                   indexes_get indexes' other = indexes_get indexes other.
Proof.
  intros Ht Hp H. unfold add_index in *. rewrite <- Ht.
  destruct (List.length (p ++ r) =? 0)%nat eqn:El.
  - inversion H; subst indexes'. split; [|reflexivity].
    apply Nat.eqb_eq in El. rewrite length_app in El.
    assert (Hnil : p = []) by (destruct p; [reflexivity | simpl in El; lia]).
    subst p. inversion Hp; subst. reflexivity.
  - inversion H; subst indexes'. clear H. split.
    + destruct (List.length p' =? 0)%nat; [reflexivity|].
      rewrite indexes_get_set, String.eqb_refl.
      rewrite (tree_add_absorbs CS CaselessString.eqb caseless_eqb_sym
                 caseless_eqb_trans p p' r Hp).
      rewrite indexes_set_again. reflexivity.
    + intros other Ho. rewrite indexes_get_set.
      destruct (String.eqb_spec (str_lower table) other); [congruence | reflexivity].
Qed.

Lemma add_index_absorbs_prefixes_witness :
  add_index (Some "Event") ["KIND"]
            [("alert", Tree []); ("event", Tree [("Kind", Tree [("Time", Tree [])])])]
  = Ok [("alert", Tree []); ("event", Tree [("Kind", Tree [("Time", Tree [])])])]
  /\ forall other, other <> str_lower "event" ->
                   indexes_get [("alert", Tree []);
                                ("event", Tree [("Kind", Tree [("Time", Tree [])])])] other
                   = indexes_get [("alert", Tree [])] other.
Proof.
  apply (add_index_absorbs_prefixes "event" "Event" ["Kind"] ["KIND"] ["Time"]
           [("alert", Tree [])]).
  - reflexivity.
  - repeat constructor.
  - reflexivity.
Defined.

End AddIndex.

(* ================================================================== *)
(** * generate_join without a prefix *)
(* ================================================================== *)

Section JoinWithoutPrefix.
Import Expression Giles SqliteBackend.

Definition starts_with_paren (s : string) : Prop := exists r, s = String "("%char r.

Lemma strip_paren (r : string) : starts_with_paren (strip (String "("%char r)).
Proof.
  unfold strip. cbn [lstrip]. change (is_space "("%char) with false. cbv iota.
  cbn [rstrip]. destruct (rstrip r); eexists; reflexivity.
Qed.

Lemma join_paren (sep x : string) (rest : list string) :
  starts_with_paren x -> starts_with_paren (join sep (x :: rest)).
Proof.
  intros [r ->]. destruct rest; [eexists; reflexivity|].
  cbn [join]. eexists. reflexivity.
Qed.

Lemma paren_not_empty (s : string) :
  starts_with_paren s -> (String.length (strip s) =? 0)%nat = false.
Proof.
  intros [r ->]. destruct (strip_paren r) as [r' ->]. reflexivity.
Qed.

Lemma kept_sorted_shape (include_constants : bool) (w : value) (keep : bool * value -> bool)
      (p : value) :
  In p (sort_by_variable (map snd (filter keep (flatten_join include_constants w)))) ->
  exists operation name variable t arg2 type,
    p = BinaryOpNode operation name (ThisReferenceNode variable t) arg2 type.
Proof.
  intros H. apply sort_by_variable_In, in_map_iff in H.
  destruct H as [[equality q] [<- Hq]]. apply filter_In in Hq.
  exact (proj2 (kept_is_constant_or_local include_constants w equality q (proj1 Hq))).
Qed.

Lemma rendered_paren (rt : PyRuntime) (include_constants : bool) (w : value)
      (keep : bool * value -> bool) (frame_prefix fact_prefix : option string)
      (p : value) (rest : list value) :
  sort_by_variable (map snd (filter keep (flatten_join include_constants w))) = p :: rest ->
  starts_with_paren
    (join " AND "
          (map (fun predicate =>
                  strip (generate_expression rt predicate frame_prefix fact_prefix))
               (p :: rest))).
Proof.
  intros H. cbn [map]. apply join_paren.
  destruct (kept_sorted_shape include_constants w keep p) as (? & ? & ? & ? & ? & ? & ->).
  { rewrite H. left. reflexivity. }
  cbn [generate_expression]. apply strip_paren.
Qed.

Lemma filter_split {A : Type} (f : A -> bool) (l : list A) :
  List.length (filter f l) + List.length (filter (fun x => negb (f x)) l) = List.length l.
Proof.
  induction l as [|x l IH]; simpl; [reflexivity|].
  destruct (f x); simpl; lia.
Qed.

Lemma add_index_raises (table : option string) (fields : list CS) (indexes : index_map)
      (e : exn) :
  add_index table fields indexes = Raise e -> e = AttributeError.
Proof.
  unfold add_index. destruct table; [|intros H; inversion H; reflexivity].
  destruct (List.length fields =? 0)%nat; discriminate.
Qed.

Lemma result_not_empty (a b : string) :
  (a = "" /\ starts_with_paren b) \/ starts_with_paren a ->
  (String.length
     (strip (a +++ (if negb (String.length (strip a) =? 0)%nat
                       && negb (String.length (strip b) =? 0)%nat
                    then " AND " else "") +++ b)) =? 0)%nat = false.
Proof.
  intros [[-> Hb]|[r ->]].
  - apply paren_not_empty. exact Hb.
  - apply paren_not_empty. eexists. reflexivity.
Qed.

(** X22 -- [generate_join] called without a fact prefix, as its default
    has it, never returns a join: when a predicate is kept, the index
    demand for the fact's table calls [lower] on [None], and an
    [AttributeError] leaves the function. *)
Theorem generate_join_needs_a_fact_prefix (rt : PyRuntime) (w : value) (fact : CS)
        (frame_prefix : option string) (include_constants : bool) (indexes : index_map) :
  flatten_join include_constants w <> [] ->
  fst (generate_join rt (Some w) fact frame_prefix None include_constants indexes)
  = Raise AttributeError.
Proof.
  intros Hkept. unfold generate_join. cbv zeta. cbn [option_map].
  pose proof (filter_split fst (flatten_join include_constants w)) as Hlen.
  rewrite <- (length_map snd (filter fst _)),
          <- (length_map snd (filter (fun x => negb (fst x)) _)),
          <- (sort_by_variable_length (map snd (filter fst _))),
          <- (sort_by_variable_length (map snd (filter (fun x => negb (fst x)) _)))
    in Hlen.
  pose proof (fun p rest =>
                rendered_paren rt include_constants w fst
                               (option_map str_lower frame_prefix) None p rest) as Heq.
  pose proof (fun p rest =>
                rendered_paren rt include_constants w (fun x => negb (fst x))
                               (option_map str_lower frame_prefix) None p rest) as Hneq.
  set (frame := option_map str_lower frame_prefix) in *.
  set (eqs := sort_by_variable (map snd (filter fst (flatten_join include_constants w))))
    in *.
  set (ineqs := sort_by_variable
                  (map snd (filter (fun x => negb (fst x))
                                   (flatten_join include_constants w)))) in *.
  rewrite result_not_empty.
  - match goal with
    | |- fst (match ?X with _ => _ end) = _ => destruct X as [i1|x] eqn:Ea
    end.
    + cbn [materialised]. destruct ineqs as [|first rest]; [|reflexivity].
      destruct eqs as [|e es].
      * exfalso. apply Hkept.
        destruct (flatten_join include_constants w); [reflexivity | simpl in Hlen; lia].
      * reflexivity.
    + cbn [fst]. f_equal.
      destruct (materialised frame); [|discriminate Ea].
      destruct ineqs as [|first rest].
      * destruct (0 <? _)%nat; [|discriminate Ea].
        exact (add_index_raises _ _ _ _ Ea).
      * exact (add_index_raises _ _ _ _ Ea).
  - destruct eqs as [|e es].
    + left. split; [reflexivity|].
      destruct ineqs as [|i is_].
      * exfalso. apply Hkept.
        destruct (flatten_join include_constants w); [reflexivity | simpl in Hlen; lia].
      * exact (Hneq i is_ eq_refl).
    + right. exact (Heq e es eq_refl).
Qed.

Lemma generate_join_needs_a_fact_prefix_witness :
  fst (generate_join example_runtime
         (Some (BinaryOpNode "=" "=" (ThisReferenceNode "Kind" int_) (VInt 1) bool_))
         "Event" (Some "new") None true [])
  = Raise AttributeError.
Proof.
  apply (generate_join_needs_a_fact_prefix example_runtime
           (BinaryOpNode "=" "=" (ThisReferenceNode "Kind" int_) (VInt 1) bool_)
           "Event" (Some "new") true []).
  discriminate.
Defined.

End JoinWithoutPrefix.

(* ================================================================== *)
(** * CaselessString.partition *)
(* ================================================================== *)

Section Partition.
Import CaselessString.

Lemma length_str_lower (s : string) : String.length (str_lower s) = String.length s.
Proof. induction s as [|c s IH]; simpl; [reflexivity | rewrite IH; reflexivity]. Qed.

Lemma substring_str_lower (s : string) :
  forall n m, str_lower (substring n m s) = substring n m (str_lower s).
Proof.
  induction s as [|c s IH]; intros n m.
  - destruct n, m; reflexivity.
  - destruct n as [|n]; [destruct m as [|m]|]; simpl; [reflexivity | | apply IH].
    rewrite IH. reflexivity.
Qed.

Lemma length_substring (s : string) :
  forall n m, String.length (substring n m s) = Nat.min m (String.length s - n).
Proof.
  induction s as [|c s IH]; intros n m.
  - destruct n, m; reflexivity.
  - destruct n as [|n]; [destruct m as [|m]|]; simpl; [reflexivity | | apply IH].
    rewrite IH, Nat.sub_0_r. reflexivity.
Qed.

Lemma substring_all (s : string) : substring 0 (String.length s) s = s.
Proof. induction s as [|c s IH]; simpl; [reflexivity | rewrite IH; reflexivity]. Qed.

Lemma substring_split (s : string) :
  forall m, m <= String.length s ->
            substring 0 m s +++ substring m (String.length s - m) s = s.
Proof.
  induction s as [|c s IH]; intros m Hm.
  - destruct m; [reflexivity | simpl in Hm; lia].
  - destruct m as [|m]; simpl.
    + rewrite substring_all. reflexivity.
    + rewrite IH by (simpl in Hm; lia). reflexivity.
Qed.

Lemma substring_split3 (s : string) :
  forall n m, n + m <= String.length s ->
              substring 0 n s +++ substring n m s
              +++ substring (n + m) (String.length s - (n + m)) s = s.
Proof.
  induction s as [|c s IH]; intros n m H.
  - destruct n, m; simpl in H; try lia. reflexivity.
  - destruct n as [|n].
    + cbn [substring Nat.add String.append].
      exact (substring_split (String c s) m H).
    + cbn [substring Nat.add String.append String.length Nat.sub].
      rewrite IH by (simpl in H; lia). reflexivity.
Qed.

Lemma slice_head (s : string) (m : nat) :
  m <= String.length s -> slice s 0 (Some (Z.of_nat m)) = substring 0 m s.
Proof.
  intros H. unfold slice, slice_bound.
  destruct (Z.ltb_spec 0 0); [lia|]. destruct (Z.ltb_spec (Z.of_nat m) 0); [lia|].
  f_equal; lia.
Qed.

Lemma slice_tail (s : string) (m : nat) :
  m <= String.length s ->
  slice s (Z.of_nat m) None = substring m (String.length s - m) s.
Proof.
  intros H. unfold slice, slice_bound.
  destruct (Z.ltb_spec (Z.of_nat m) 0); [lia|].
  f_equal; lia.
Qed.

Lemma not_folded (self : CS) (sep : string) :
  negb (String.length self =? String.length (folded self))%nat
  || negb (String.length sep =? String.length (folded sep))%nat = false.
Proof.
  unfold folded. rewrite !length_str_lower, !Nat.eqb_refl. reflexivity.
Qed.

(** X23 -- [partition] of a string of ASCII characters with an ASCII
    separator that is not empty (folding then keeps the lengths).  When the
    separator occurs, without regard to case, the string is cut at the
    first occurrence: head, occurrence and tail make up the string again,
    and the middle of the result is the separator as it was given.  When
    it does not occur, the result is not the string and two empty
    strings, as for [str]: the index -1 of [find] is used as it is, so
    that the head is the string without its last character and the tail
    starts at [len(sep) - 1].  [rpartition] does the same as [partition],
    cutting at the first occurrence too. *)
Theorem partition_cuts_at_first_occurrence (self : CS) (sep : string) :
  is_ascii self = true ->
  is_ascii sep = true ->
  sep <> "" ->
  (forall m,
      String.index 0 (folded sep) (folded self) = Some m ->
      exists head occurrence tail,
        partition self sep = Ok (head, sep, tail)
        /\ head +++ occurrence +++ tail = self
        /\ CaselessString.eqb occurrence sep = true
        /\ String.length head = m
        /\ forall p, p < m ->
                     substring p (String.length sep) (folded self) <> folded sep)
  /\ (String.index 0 (folded sep) (folded self) = None ->
      partition self sep
      = Ok (substring 0 (String.length self - 1) self, sep,
            substring (Nat.min (String.length self) (String.length sep - 1))
                      (String.length self - (String.length sep - 1)) self))
  /\ rpartition self sep = partition self sep.
Proof.
  intros _ _ Hsep.
  assert (Hlen : (String.length sep =? 0)%nat = false).
  { destruct sep; [congruence | reflexivity]. }
  split; [|split; [|reflexivity]].
  - intros m Hm.
    pose proof (index_correct1 0 m (folded sep) (folded self) Hm) as Hsub.
    assert (Hfit : m + String.length sep <= String.length self).
    { pose proof (f_equal String.length Hsub) as Hl.
      rewrite length_substring in Hl. unfold folded in Hl.
      rewrite !length_str_lower in Hl.
      apply Nat.eqb_neq in Hlen. lia. }
    exists (substring 0 m self), (substring m (String.length sep) self),
           (substring (m + String.length sep)
                      (String.length self - (m + String.length sep)) self).
    split; [|split; [|split; [|split]]].
    + unfold partition, find. rewrite Hlen, not_folded, Hm.
      rewrite slice_head by lia. rewrite <- Nat2Z.inj_add, slice_tail by lia.
      reflexivity.
    + apply substring_split3. exact Hfit.
    + apply caseless_eqb_eq. rewrite substring_str_lower.
      unfold folded in Hsub. rewrite length_str_lower in Hsub. exact Hsub.
    + rewrite length_substring. lia.
    + intros p Hp. pose proof (index_correct2 0 m (folded sep) (folded self) Hm p) as H.
      unfold folded in H at 1. rewrite length_str_lower in H. apply H; lia.
  - intros Hm. unfold partition, find. rewrite Hlen, not_folded, Hm.
    apply Nat.eqb_neq in Hlen.
    unfold slice, slice_bound.
    destruct (Z.ltb_spec 0 0); [lia|]. destruct (Z.ltb_spec (-1) 0); [|lia].
    destruct (Z.ltb_spec (-1 + Z.of_nat (String.length sep)) 0); [lia|].
    repeat f_equal; lia.
Qed.

Lemma partition_cuts_at_first_occurrence_witness :
  partition "key=Value=x" "=" = Ok ("key", "=", "Value=x")
  /\ rpartition "key=Value=x" "=" = Ok ("key", "=", "Value=x")
  /\ partition "abc" "|" = Ok ("ab", "|", "abc").
Proof.
  destruct (partition_cuts_at_first_occurrence "key=Value=x" "=" eq_refl eq_refl)
    as [_ [_ Hr]]; [discriminate|].
  destruct (partition_cuts_at_first_occurrence "abc" "|" eq_refl eq_refl)
    as [_ [Habsent _]]; [discriminate|].
  split; [reflexivity | split; [rewrite Hr; reflexivity | exact (Habsent eq_refl)]].
Defined.

End Partition.

(* ================================================================== *)
(** * The regular expression operators *)
(* ================================================================== *)

Section RegularExpressions.
Import Expression.

Definition regexp_operation (op : binary_operator) : option string :=
  match op with
  | Regexp => Some "REGEXP"
  | NotRegexp => Some "NOT REGEXP"
  | _ => None
  end.

(** X24 -- [~] and [!~] on two operands of type [str].  Without
    [allow_regexp] they raise, for constants and for nodes alike.  With
    it, a constant pattern is compiled when the expression is parsed: a
    pattern that does not compile raises, also when the subject is a
    node, and a pattern that compiles is left for the database in a
    boolean node when the subject is a node. *)
Theorem regexp_needs_allow_regexp (rt : PyRuntime) (self : Parser)
        (op : binary_operator) (operation : string) (arg1 arg2 : value) :
  regexp_operation op = Some operation ->
  type_of arg1 = str_ -> type_of arg2 = str_ ->
  (allow_regexp self = false ->
   binary_callback rt op self arg1 arg2
   = Raise (Exception "regular expressions in expressions are disabled"))
  /\ (allow_regexp self = true ->
      forall p e, arg2 = VStr p -> re_compile rt p = Some e ->
                  binary_callback rt op self arg1 arg2
                  = Raise (Exception ("Invalid regular expression: '" +++ e +++ "'")))
  /\ (allow_regexp self = true -> is_Node arg1 = true ->
      (forall p, arg2 = VStr p -> re_compile rt p = None) ->
      binary_callback rt op self arg1 arg2
      = Ok (BinaryOpNode operation operation arg1 arg2 bool_)).
Proof.
  intros Hop H1 H2.
  assert (Hacc : accepted [[str_; str_]] [arg1; arg2] = true).
  { apply accepted_In. simpl. rewrite H1, H2. auto. }
  assert (Hbody : exists found,
             binary_callback rt op self arg1 arg2
             = regexp_body rt self operation found arg1 arg2).
  { destruct op; try discriminate Hop; inversion Hop; subst;
      cbn [binary_callback]; unfold operator_regexp, operator_notregexp;
      rewrite (type_check_accepted _ _ _ Hacc); eexists; reflexivity. }
  destruct Hbody as [found ->]. unfold regexp_body.
  split; [|split].
  - intros ->. reflexivity.
  - intros -> p e -> He. simpl. rewrite He. reflexivity.
  - intros -> Hn Hp. simpl.
    destruct arg2; try reflexivity;
      try (destruct arg1; try discriminate Hn; reflexivity).
    rewrite (Hp s eq_refl). destruct arg1; try discriminate Hn; reflexivity.
Qed.

Lemma regexp_needs_allow_regexp_witness :
  binary_callback example_runtime Regexp (Parser_init None None None false)
                  (VStr "abc") (VStr "a")
  = Raise (Exception "regular expressions in expressions are disabled").
Proof.
  apply (proj1 (regexp_needs_allow_regexp
                  example_runtime (Parser_init None None None false)
                  Regexp "REGEXP" (VStr "abc") (VStr "a") eq_refl eq_refl eq_refl)).
  reflexivity.
Defined.

End RegularExpressions.
